(** * bitpit: octree patch (VolOctree), cells and the geometry kernel (CGElem)

    A shallow embedding of the parts of
      - src/CG/CG_elem.cpp           (namespace bitpit::CGElem),
      - src/patchkernel/cell.cpp     (class bitpit::Cell),
      - src/voloctree/voloctree.cpp  (class bitpit::VolOctree)
    that the specification talks about, followed by the properties proved
    about them.

    Conventions.
      - [double] is kept abstract behind the class [Scalar]; the code is
        written once and read over IEEE binary64 ([float], what the
        compiled program computes with), over the rationals ([Q], for the
        functions that only compare and select their arguments), or over
        both side by side ([Exactness.tracked]), which tells the runs of
        the program in which no operation rounds.
      - [long] ids are [Z]; the narrowing conversion of a [long] argument to
        an [int] parameter is written out with [to_int].
      - references ([T &out]) become a value passed in and returned.
      - [std::unordered_map] is a [gmap]; [operator[]]/[at] on a missing key
        and out-of-range indexing are the error case of an [option]. *)

From Stdlib Require Import ZArith QArith Qminmax Qpower Qabs Lqa Floats Lia List Bool Sorted.
From stdpp Require Import gmap list strings.

Set Default Proof Using "Type".
Local Open Scope Z_scope.

(* ===================================================================== *)
(** * Part I. The embedding                                               *)
(* ===================================================================== *)

(** ** Scalars: the operations the sources use on [double] *)

Class Scalar (T : Type) := {
  sc_zero  : T;                       (* 0.      *)
  sc_one   : T;                       (* 1.      *)
  sc_tol12 : T;                       (* 1.e-12  *)
  sc_tol14 : T;                       (* 1.0e-14 *)
  sc_of_Z  : Z -> T;                  (* (double) n *)
  sc_add   : T -> T -> T;
  sc_sub   : T -> T -> T;
  sc_mul   : T -> T -> T;
  sc_div   : T -> T -> T;
  sc_opp   : T -> T;
  sc_abs   : T -> T;                  (* std::abs *)
  sc_ltb   : T -> T -> bool;          (* a < b   *)
  sc_leb   : T -> T -> bool           (* a <= b  *)
}.

(** [sqrt] and [pow] of <cmath>; [pow] is only ever called with an
    integer-valued exponent. *)
Class ScalarSqrt (T : Type) := { sc_sqrt : T -> T }.
Class ScalarPow  (T : Type) := { sc_pow : T -> Z -> T }.

Declare Scope sc_scope.
Delimit Scope sc_scope with sc.
Infix "+" := sc_add : sc_scope.
Infix "-" := sc_sub : sc_scope.
Infix "*" := sc_mul : sc_scope.
Infix "/" := sc_div : sc_scope.
Notation "- x" := (sc_opp x) : sc_scope.
Infix "<?" := sc_ltb : sc_scope.
Infix "<=?" := sc_leb : sc_scope.
(* the source's [a > b] and [a >= b] *)
Notation "a >? b" := (sc_ltb b a) : sc_scope.
Notation "a >=? b" := (sc_leb b a) : sc_scope.

(** IEEE binary64, as the compiled program. *)
#[export] Instance float_Scalar : Scalar float := {|
  sc_zero  := 0%float;
  sc_one   := 1%float;
  sc_tol12 := (1 / 1000000000000)%float;
  sc_tol14 := (1 / 100000000000000)%float;
  sc_of_Z  := fun n => match n with
                       | Z0 => 0%float
                       | Zpos _ => PrimFloat.of_uint63 (Uint63.of_Z n)
                       | Zneg p => PrimFloat.opp (PrimFloat.of_uint63 (Uint63.of_Z (Zpos p)))
                       end;
  sc_add   := PrimFloat.add;
  sc_sub   := PrimFloat.sub;
  sc_mul   := PrimFloat.mul;
  sc_div   := PrimFloat.div;
  sc_opp   := PrimFloat.opp;
  sc_abs   := PrimFloat.abs;
  sc_ltb   := PrimFloat.ltb;
  sc_leb   := PrimFloat.leb
|}.

#[export] Instance float_ScalarSqrt : ScalarSqrt float := {| sc_sqrt := PrimFloat.sqrt |}.

(** Exact rational arithmetic. *)
#[export] Instance Q_Scalar : Scalar Q := {|
  sc_zero  := 0%Q;
  sc_one   := 1%Q;
  sc_tol12 := (1 # 1000000000000)%Q;
  sc_tol14 := (1 # 100000000000000)%Q;
  sc_of_Z  := inject_Z;
  sc_add   := Qplus;
  sc_sub   := Qminus;
  sc_mul   := Qmult;
  sc_div   := Qdiv;
  sc_opp   := Qopp;
  sc_abs   := Qabs;
  sc_ltb   := fun a b => if Qlt_le_dec a b then true else false;
  sc_leb   := Qle_bool
|}.

#[export] Instance Q_ScalarPow : ScalarPow Q := {| sc_pow := Qpower |}.

(** [std::min(a, b)] is [(b < a) ? b : a], [std::max(a, b)] is
    [(a < b) ? b : a] (the first argument wins on ties and on unordered
    operands). *)
Definition sc_min {T} `{Scalar T} (a b : T) : T := if (b <? a)%sc then b else a.
Definition sc_max {T} `{Scalar T} (a b : T) : T := if (a <? b)%sc then b else a.

(** ** [std::array<double, 3>] and its operators *)

Record array3D (T : Type) := mk3 { a3_0 : T; a3_1 : T; a3_2 : T }.
Arguments mk3 {T} _ _ _.
Arguments a3_0 {T} _.
Arguments a3_1 {T} _.
Arguments a3_2 {T} _.

Definition a3_get {T} (d : nat) (v : array3D T) : T :=
  match d with O => a3_0 v | S O => a3_1 v | _ => a3_2 v end.

Definition a3_set {T} (d : nat) (x : T) (v : array3D T) : array3D T :=
  match d with
  | O => mk3 x (a3_1 v) (a3_2 v)
  | S O => mk3 (a3_0 v) x (a3_2 v)
  | _ => mk3 (a3_0 v) (a3_1 v) x
  end.

Module Operators.
Section WithScalar.
Context {T : Type} `{Scalar T}.
Local Open Scope sc_scope.

  (** Modelled from the spec: bitpit_operators.hpp is not part of the
      sources at hand; the geometry kernel works on "fixed-size 3-vectors"
      with the componentwise operators below. *)
Definition vadd (a b : array3D T) : array3D T :=
    mk3 (a3_0 a + a3_0 b) (a3_1 a + a3_1 b) (a3_2 a + a3_2 b).
Definition vsub (a b : array3D T) : array3D T :=
    mk3 (a3_0 a - a3_0 b) (a3_1 a - a3_1 b) (a3_2 a - a3_2 b).
Definition smul (s : T) (a : array3D T) : array3D T :=
    mk3 (s * a3_0 a) (s * a3_1 a) (s * a3_2 a).
Definition vdiv (a : array3D T) (s : T) : array3D T :=
    mk3 (a3_0 a / s) (a3_1 a / s) (a3_2 a / s).
Definition dotProduct (a b : array3D T) : T :=
    sc_zero + a3_0 a * a3_0 b + a3_1 a * a3_1 b + a3_2 a * a3_2 b.
Definition norm2 `{ScalarSqrt T} (a : array3D T) : T :=
    sc_sqrt (dotProduct a a).
End WithScalar.
End Operators.

(** Componentwise equality of rational vectors. *)
Definition veq (a b : array3D Q) : Prop :=
  (a3_0 a == a3_0 b /\ a3_1 a == a3_1 b /\ a3_2 a == a3_2 b)%Q.

Definition map3 {A B} (f : A -> B) (v : array3D A) : array3D B :=
  mk3 (f (a3_0 v)) (f (a3_1 v)) (f (a3_2 v)).
Definition all3 {A} (f : A -> bool) (v : array3D A) : bool :=
  f (a3_0 v) && f (a3_1 v) && f (a3_2 v).

(** ** Binary64 values, the rationals they stand for and their order *)

Module Binary64.

(** The rational number a binary64 value stands for: none for an infinity
    or a NaN, [m * 2^e] with its sign for a finite one. *)
Definition SF2Q (f : spec_float) : option Q :=
  match f with
  | S754_zero _ => Some 0%Q
  | S754_finite s m e =>
      let v := (inject_Z (Zpos m) * Qpower 2 e)%Q in
      Some (if s then Qopp v else v)
  | _ => None
  end.
Definition F2Q (x : float) : option Q := SF2Q (Prim2SF x).

(** The same value as a total function (0 for an infinity or a NaN), and
    whether the value is finite. *)
Definition value (x : float) : Q :=
  match F2Q x with Some v => v | None => 0%Q end.
Definition finite (x : float) : bool :=
  match F2Q x with Some _ => true | None => false end.

(** A finite value as an integer multiple of the smallest subnormal,
    [2^-1074]. *)
Definition SF2Z (f : spec_float) : Z :=
  match f with
  | S754_finite s m e => cond_Zopp s (Zpos m * 2 ^ (e + 1074))
  | _ => 0
  end.
Definition ulp0 : Q := Qpower 2 (-1074).

(** The place of a binary64 value in the order of [<]: none for a NaN, the
    multiple of [2^-1074] for a finite value, and a number beyond every
    finite one for an infinity. *)
Definition SFkey (f : spec_float) : option Z :=
  match f with
  | S754_nan => None
  | S754_infinity s => Some (cond_Zopp s (2 ^ 2100))
  | _ => Some (SF2Z f)
  end.
Definition key (x : float) : option Z := SFkey (Prim2SF x).

(** [c] lies between [a] and [b], in either order. *)
Definition between (a c b : float) : bool :=
  ((a <=? c) && (c <=? b) || (b <=? c) && (c <=? a))%float.

End Binary64.

(** ** Runs of the program that carry the exact value along *)

Module Exactness.
Import Binary64.

(** [represents x q]: the binary64 value [x] is finite and stands for the
    rational [q]. *)
Definition represents (x : float) (q : Q) : bool :=
  finite x && Qeq_bool (value x) q.

(** A value of the program together with the value that exact arithmetic
    gives at the same place of the computation; [exact] holds when no
    operation on the way to it rounded, overflowed or produced a NaN. *)
Record tracked := Track { computed : float; ideal : Q; exact : bool }.

(** An input of the program: it stands for itself. *)
Definition given (x : float) : tracked := Track x (value x) (finite x).

Definition op1 (f : float -> float) (g : Q -> Q) (a : tracked) : tracked :=
  let x := f (computed a) in
  let q := g (ideal a) in
  Track x q (exact a && represents x q).

Definition op2 (f : float -> float -> float) (g : Q -> Q -> Q) (a b : tracked) : tracked :=
  let x := f (computed a) (computed b) in
  let q := g (ideal a) (ideal b) in
  Track x q (exact a && exact b && represents x q).

(** The arithmetic of the program and exact arithmetic side by side; the
    comparisons, and with them the branches, are those of the program. *)
#[export] Instance tracked_Scalar : Scalar tracked := {|
  sc_zero  := given sc_zero;
  sc_one   := given sc_one;
  sc_tol12 := given sc_tol12;
  sc_tol14 := given sc_tol14;
  sc_of_Z  := fun n => let x := sc_of_Z n in
                       Track x (inject_Z n) (represents x (inject_Z n));
  sc_add   := op2 sc_add sc_add;
  sc_sub   := op2 sc_sub sc_sub;
  sc_mul   := op2 sc_mul sc_mul;
  sc_div   := op2 sc_div sc_div;
  sc_opp   := op1 sc_opp sc_opp;
  sc_abs   := op1 sc_abs sc_abs;
  sc_ltb   := fun a b => sc_ltb (computed a) (computed b);
  sc_leb   := fun a b => sc_leb (computed a) (computed b)
|}.

End Exactness.

(** ** src/CG/CG_elem.cpp *)

Module CGElem.
Import Operators.
Section WithScalar.
Context {T : Type} `{Scalar T}.
Local Open Scope sc_scope.

Local Abbreviation vec := (array3D T).

  (** [reconstructPointFromBarycentricSegment]: [lambda[0]*Q0 + lambda[1]*Q1]. *)
Definition reconstructPointFromBarycentricSegment (Q0 Q1 : vec) (lambda : T * T) : vec :=
    vadd (smul (fst lambda) Q0) (smul (snd lambda) Q1).

  (** [projectPointLine]: [Q + dotProduct(P - Q, n) * n]. *)
Definition projectPointLine (P Q n : vec) : vec :=
    vadd Q (smul (dotProduct (vsub P Q) n) n).

  (** [projectPointSegment(P, Q0, Q1, lambda)]; returns the projection
      point and the two barycentric coordinates written to [lambda]. *)
Definition projectPointSegment (P Q0 Q1 : vec) : vec * (T * T) :=
    let n := vsub Q1 Q0 in
    let t := - dotProduct n (vsub Q0 P) / dotProduct n n in
    (* Restrict projection onto the segment *)
    let t := sc_max (sc_min t sc_one) sc_zero in
    let lambda := (sc_one - t, t) in
    (reconstructPointFromBarycentricSegment Q0 Q1 lambda, lambda).

  (** [intersectBoxBox(A1, A2, B1, B2, dim)] *)
Fixpoint intersectBoxBox_from (A1 A2 B1 B2 : vec) (d n : nat) : bool :=
    match n with
    | O => true
    | S n' =>
        if (a3_get d B1 >? a3_get d A2) || (a3_get d B2 <? a3_get d A1)
        then false
        else intersectBoxBox_from A1 A2 B1 B2 (S d) n'
    end.
Definition intersectBoxBox (A1 A2 B1 B2 : vec) (dim : nat) : bool :=
    intersectBoxBox_from A1 A2 B1 B2 0 dim.

  (** [computeAABBSegment(A, B, P0, P1)]; returns [(P0, P1)]. *)
Definition computeAABBSegment (A B : vec) : vec * vec :=
    (mk3 (sc_min (a3_0 A) (a3_0 B)) (sc_min (a3_1 A) (a3_1 B)) (sc_min (a3_2 A) (a3_2 B)),
     mk3 (sc_max (a3_0 A) (a3_0 B)) (sc_max (a3_1 A) (a3_1 B)) (sc_max (a3_2 A) (a3_2 B))).

  (** [vertexOfBox(i, A0, A1, P)]: the [switch] has no default, an index
      outside 0..7 leaves [P] as it was. *)
Definition vertexOfBox (i : nat) (A0 A1 P : vec) : vec :=
    match i with
    | 0%nat => mk3 (a3_0 A0) (a3_1 A0) (a3_2 A0)
    | 1%nat => mk3 (a3_0 A1) (a3_1 A0) (a3_2 A0)
    | 2%nat => mk3 (a3_0 A0) (a3_1 A1) (a3_2 A0)
    | 3%nat => mk3 (a3_0 A1) (a3_1 A1) (a3_2 A0)
    | 4%nat => mk3 (a3_0 A0) (a3_1 A0) (a3_2 A1)
    | 5%nat => mk3 (a3_0 A1) (a3_1 A0) (a3_2 A1)
    | 6%nat => mk3 (a3_0 A0) (a3_1 A1) (a3_2 A1)
    | 7%nat => mk3 (a3_0 A1) (a3_1 A1) (a3_2 A1)
    | _ => P
    end.

  (** [subtractionAABB(A0, A1, B0, B1, C0, C1)]: [C0], [C1] are written
      only on the axes whose branch is taken; the function returns their
      final values. *)
Definition subtractionAABB (A0 A1 B0 B1 : vec) (C : vec * vec) : vec * vec :=
    let '(C0, C1) := C in
    (* X direction *)
    let '(C0, C1) :=
      if (a3_1 B0 <=? a3_1 A0) && (a3_2 B0 <=? a3_2 A0)
         && (a3_1 B1 >=? a3_1 A1) && (a3_2 B1 >=? a3_2 A1)
      then
        (a3_set 0 (if (a3_0 B0 <=? a3_0 A0) && (a3_0 B1 >=? a3_0 A0) then a3_0 B1 else a3_0 A0) C0,
         a3_set 0 (if (a3_0 B0 <=? a3_0 A1) && (a3_0 B1 >=? a3_0 A1) then a3_0 B0 else a3_0 A1) C1)
      else (C0, C1) in
    (* Y direction *)
    let '(C0, C1) :=
      if (a3_0 B0 <=? a3_0 A0) && (a3_2 B0 <=? a3_2 A0)
         && (a3_0 B1 >=? a3_0 A1) && (a3_2 B1 >=? a3_2 A1)
      then
        (a3_set 1 (if (a3_1 B0 <=? a3_1 A0) && (a3_1 B1 >=? a3_1 A0) then a3_1 B1 else a3_2 A0) C0,
         a3_set 1 (if (a3_1 B0 <=? a3_1 A1) && (a3_1 B1 >=? a3_1 A1) then a3_1 B0 else a3_2 A1) C1)
      else (C0, C1) in
    (* Z direction *)
    let '(C0, C1) :=
      if (a3_0 B0 <=? a3_0 A0) && (a3_1 B0 <=? a3_1 A0)
         && (a3_0 B1 >=? a3_0 A1) && (a3_1 B1 >=? a3_1 A1)
      then
        (a3_set 2 (if (a3_2 B0 <=? a3_2 A0) && (a3_2 B1 >=? a3_2 A0) then a3_2 B1 else a3_2 A0) C0,
         a3_set 2 (if (a3_2 B0 <=? a3_2 A1) && (a3_2 B1 >=? a3_2 A1) then a3_2 B0 else a3_2 A1) C1)
      else (C0, C1) in
    (C0, C1).

  (** The relative complement as the specification defines it: the same
      per-axis clamp on every axis, the fallback bounds of axis [d] being
      [A0[d]] and [A1[d]]. *)
Definition clampAxis_spec (d d1 d2 : nat) (A0 A1 B0 B1 : vec) (C : vec * vec) : vec * vec :=
    if (a3_get d1 B0 <=? a3_get d1 A0) && (a3_get d2 B0 <=? a3_get d2 A0)
       && (a3_get d1 B1 >=? a3_get d1 A1) && (a3_get d2 B1 >=? a3_get d2 A1)
    then
      (a3_set d (if (a3_get d B0 <=? a3_get d A0) && (a3_get d B1 >=? a3_get d A0)
                 then a3_get d B1 else a3_get d A0) (fst C),
       a3_set d (if (a3_get d B0 <=? a3_get d A1) && (a3_get d B1 >=? a3_get d A1)
                 then a3_get d B0 else a3_get d A1) (snd C))
    else C.
Definition subtractionAABB_spec (A0 A1 B0 B1 : vec) (C : vec * vec) : vec * vec :=
    clampAxis_spec 2 0 1 A0 A1 B0 B1
      (clampAxis_spec 1 0 2 A0 A1 B0 B1
        (clampAxis_spec 0 1 2 A0 A1 B0 B1 C)).

  (** [intersectLinePlane(P1, n1, P2, n2, P)]; returns the result and the
      final value of [P]. *)
Definition intersectLinePlane (P1 n1 P2 n2 P : vec) : bool * vec :=
    let tol := sc_tol14 in
    (* CHECK DEGENERATE CASES *)
    let s := dotProduct n1 n2 in
    if sc_abs s <? tol then (false, P)
    else
      (* FIND INTERSECTION POINTS *)
      let xi := - dotProduct (vsub P1 P2) n2 / s in
      (true, vadd P1 (smul xi n1)).

Section WithSqrt.
Context `{ScalarSqrt T}.

    (** [distancePointLine(P, Q, n, xP)]; returns the distance and [xP]. *)
Definition distancePointLine (P Q n : vec) : T * vec :=
      let xP := projectPointLine P Q n in
      (norm2 (vsub P xP), xP).

    (** [distanceLineLine(P0, n0, P1, n1, xP0, xP1)]; returns the distance
        and the two projection points. *)
Definition distanceLineLine (P0 n0 P1 n1 : vec) : T * vec * vec :=
      let n01 := dotProduct n0 n1 in
      let det := sc_one - n01 * n01 in
      (* check if lines are parallel *)
      if sc_abs det <? sc_tol12 then
        let '(distance, xP1) := distancePointLine P0 P1 n1 in
        let xP0 := projectPointLine xP1 P0 n0 in
        (distance, xP0, xP1)
      else
        let dP := vsub P1 P0 in
        let rhs0 := dotProduct dP n0 in
        let rhs1 := - dotProduct dP n1 in
        let det0 := rhs0 + rhs1 * n01 in
        let det1 := rhs1 + rhs0 * n01 in
        let s0 := det0 / det in
        let s1 := det1 / det in
        let xP0 := vadd P0 (smul s0 n0) in
        let xP1 := vadd P1 (smul s1 n1) in
        (norm2 (vsub xP0 xP1), xP0, xP1).

    (** [intersectLineLine(P1, n1, P2, n2, P)] *)
Definition intersectLineLine (P1 n1 P2 n2 P : vec) : bool * vec :=
      let tol := sc_tol12 in
      let '(d, xP1, _) := distanceLineLine P1 n1 P2 n2 in
      if d <? tol then (true, xP1) else (false, P).

    (** [intersectSegmentSegment(P1, P2, Q1, Q2, x)]: [x] is handed to
        [intersectLineLine] by reference. *)
Definition intersectSegmentSegment (P1 P2 Q1 Q2 x : vec) : bool * vec :=
      let abs_tol := sc_tol14 in
      (* COMPUTE INTERSECTION POINT BETWEEN SUPPORTING LINES *)
      let nP := vsub P2 P1 in
      let lP := norm2 nP in
      let nP := vdiv nP lP in
      let nQ := vsub Q2 Q1 in
      let lQ := norm2 nQ in
      let nQ := vdiv nQ lQ in
      (* CHECK IF INTERSECTION POINTS LIES INSIDE EACH SEGMENT *)
      let '(hit, x) := intersectLineLine P1 nP Q1 nQ x in
      if hit then
        let lxP := dotProduct (vsub x P1) nP in
        let lxQ := dotProduct (vsub x Q1) nQ in
        if (lxP <=? lP + abs_tol) && (lxP >=? - abs_tol)
           && (lxQ <=? lQ + abs_tol) && (lxQ >=? - abs_tol)
        then (true, x)
        else (false, x)
      else (false, x).

    (** [intersectPointSegment(P, P1, P2)] *)
Definition intersectPointSegment (P P1 P2 : vec) : bool :=
      let tol := sc_tol14 in
      let check := norm2 (vsub P P2) <=? tol in
      if negb check then
        let n1 := vsub P1 P2 in
        let d1 := norm2 n1 in
        let n1 := vdiv n1 d1 in
        let n2 := vsub P P2 in
        let d2 := norm2 n2 in
        let n2 := vdiv n2 d2 in
        (dotProduct n1 n2 >=? sc_one - tol) && (d2 <=? d1)
      else check.

    (** [intersectSegmentPlane(Q1, Q2, P2, n2, P)]: the local [xP] is not
        initialised in the source and is read only after
        [intersectLinePlane] has returned true, that is after it has been
        written; its initial value below is never observed. *)
Definition intersectSegmentPlane (Q1 Q2 P2 n2 P : vec) : bool * vec :=
      let n := vsub Q2 Q1 in
      let n := vdiv n (norm2 n) in
      let '(hit, xP) := intersectLinePlane Q1 n P2 n2 (mk3 sc_zero sc_zero sc_zero) in
      if hit && intersectPointSegment xP Q1 Q2 then (true, xP) else (false, P).

    (** The tables [boxEdgeVertexConnectivity], [boxFaceVertexConnectivity]
        (CG.hpp) and the segment/simplex test of the 3-D branch (which goes
        through LAPACK) are parameters. *)
Variable boxEdgeVertexConnectivity : nat -> nat * nat.
Variable boxFaceVertexConnectivity : nat -> nat * nat * nat * nat.
Variable intersectSegmentSimplex : vec -> vec -> list vec -> vec -> bool * vec.

    (** [edgeOfBox(i, A0, A1, P0, P1)], [faceOfBox(i, A0, A1, P0..P3)] *)
Definition edgeOfBox (i : nat) (A0 A1 P0 P1 : vec) : vec * vec :=
      let '(v0, v1) := boxEdgeVertexConnectivity i in
      (vertexOfBox v0 A0 A1 P0, vertexOfBox v1 A0 A1 P1).
Definition faceOfBox (i : nat) (A0 A1 : vec) (E : list vec) : list vec :=
      let '(v0, v1, v2, v3) := boxFaceVertexConnectivity i in
      let z := mk3 sc_zero sc_zero sc_zero in
      [vertexOfBox v0 A0 A1 (nth 0 E z); vertexOfBox v1 A0 A1 (nth 1 E z);
       vertexOfBox v2 A0 A1 (nth 2 E z); vertexOfBox v3 A0 A1 (nth 3 E z)].

    (** The two loops of [intersectSegmentBox]: the locals [E1], [E2] (resp.
        [E]) and [p] live across the iterations. *)
Fixpoint segmentBoxEdges (V1 V2 A1 A2 : vec) (i n : nat)
             (E1 E2 p : vec) (intersect : bool) (P : list vec) : bool * list vec :=
      match n with
      | O => (intersect, P)
      | S n' =>
          let '(E1, E2) := edgeOfBox i A1 A2 E1 E2 in
          let '(hit, p) := intersectSegmentSegment E1 E2 V1 V2 p in
          if hit then segmentBoxEdges V1 V2 A1 A2 (S i) n' E1 E2 p true (P ++ [p])
          else segmentBoxEdges V1 V2 A1 A2 (S i) n' E1 E2 p intersect P
      end.
Fixpoint segmentBoxFaces (V1 V2 A1 A2 : vec) (i n : nat)
             (E : list vec) (p : vec) (intersect : bool) (P : list vec) : bool * list vec :=
      match n with
      | O => (intersect, P)
      | S n' =>
          let E := faceOfBox i A1 A2 E in
          let '(hit, p) := intersectSegmentSimplex V1 V2 E p in
          if hit then segmentBoxFaces V1 V2 A1 A2 (S i) n' E p true (P ++ [p])
          else segmentBoxFaces V1 V2 A1 A2 (S i) n' E p intersect P
      end.

    (** [intersectSegmentBox(V1, V2, A1, A2, P, dim)], the overload with the
        output vector [P].  For [dim] other than 2 and 3 control reaches the
        end of the function without a [return]: [None]. *)
Definition intersectSegmentBox (V1 V2 A1 A2 : vec) (P : list vec) (dim : nat)
      : option (bool * list vec) :=
      let z := mk3 sc_zero sc_zero sc_zero in
      let P : list vec := [] in                                   (* P.clear() *)
      (* Check if segment Boundig Box and Box overlap -> necessary condition *)
      let '(B1, B2) := computeAABBSegment V1 V2 in
      if negb (intersectBoxBox A1 A2 B1 B2 dim) then Some (false, P)
      else if Nat.eqb dim 2 then Some (segmentBoxEdges V1 V2 A1 A2 0 4 z z z false P)
      else if Nat.eqb dim 3 then Some (segmentBoxFaces V1 V2 A1 A2 0 12 [z; z; z; z] z false P)
      else None.
End WithSqrt.
End WithScalar.
End CGElem.

(** ** Integers, errors *)

(** Conversion of a [long] (or [uint32_t]) value to [int]: reduction modulo
    2^32 into [-2^31, 2^31). *)
Definition to_int (z : Z) : Z := (z + 2147483648) mod 4294967296 - 2147483648.

Definition fits_int (z : Z) : Prop := -2147483648 <= z < 2147483648.

(** [Element::NULL_ID] *)
Definition NULL_ID : Z := -1.

(** What a call of the patch interface can do besides returning: throw
    ([std::runtime_error], [std::out_of_range]), abort on a failed [assert],
    or run into undefined behaviour (a container indexed where it has no
    element). *)
Inductive outcome (A : Type) : Type :=
| Returned (a : A)
| Thrown (what : string)
| Aborted
| Undefined.
Arguments Returned {A} a.
Arguments Thrown {A} what.
Arguments Aborted {A}.
Arguments Undefined {A}.

Definition obind {A B} (m : outcome A) (k : A -> outcome B) : outcome B :=
  match m with
  | Returned a => k a
  | Thrown w => Thrown w
  | Aborted => Aborted
  | Undefined => Undefined
  end.

(** [operator[]] on a missing element (undefined) and [at] on a missing key
    (throws). *)
Definition or_undefined {A} (o : option A) : outcome A :=
  match o with Some a => Returned a | None => Undefined end.
Definition or_out_of_range {A} (o : option A) : outcome A :=
  match o with Some a => Returned a | None => Thrown "out_of_range"%string end.

Declare Scope outcome_scope.
Delimit Scope outcome_scope with outcome.
Notation "x <- m ;; k" := (obind m (fun x => k))
  (at level 100, m at next level, right associativity) : outcome_scope.

(** Position of the first element equal to [x], or -1: the loops of
    [Cell::findInterface] and [Cell::findAdjacency]. *)
Fixpoint find_index_from (i : Z) (x : Z) (l : list Z) : Z :=
  match l with
  | [] => -1
  | y :: l' => if Z.eqb y x then i else find_index_from (i + 1) x l'
  end.
Definition find_index (x : Z) (l : list Z) : Z := find_index_from 0 x l.

(** ** Flat ragged array ([FlatVector2D<long>]) *)

Module FlatVector2D.
(** Modelled from the spec: the container of bitpit_containers.hpp is not
    part of the sources at hand.  "N slots, each holding a variable-length
    run of T", with [push_back(slot, t)], [erase(slot, index)],
    [get(slot, i)], [count(slot)], [total_count()]; a slot or an index out
    of range has no defined result. *)
Abbreviation t := (list (list Z)).
Definition create (nSlots : nat) : t := replicate nSlots [].
Definition getItemCount (v : t) (slot : nat) : option Z :=
  run ← v !! slot; Some (Z.of_nat (length run)).
Definition getTotalCount (v : t) : Z := Z.of_nat (length (concat v)).
Definition getItem (v : t) (slot : nat) (i : Z) : option Z :=
  run ← v !! slot; if Z.ltb i 0 then None else run !! Z.to_nat i.
Definition pushBackItem (slot : nat) (x : Z) (v : t) : option t :=
  run ← v !! slot; Some (<[slot := run ++ [x]]> v).
Definition eraseItem (slot : nat) (i : Z) (v : t) : option t :=
  run ← v !! slot;
  if Z.ltb i 0 || Z.leb (Z.of_nat (length run)) i then None
  else Some (<[slot := delete (Z.to_nat i) run]> v).
(** [get(0)]: the items of all the slots, back to back. *)
Definition flat (v : t) : list Z := concat v.
End FlatVector2D.

(** ** Element registry *)

(** The closed enumeration of the element shapes. *)
Inductive ElementType :=
| UNDEFINED | VERTEX | LINE | TRIANGLE | QUAD | PIXEL | TETRA | HEX | VOXEL
| WEDGE | PYRAMID | POLYGON | POLYHEDRON.

(** Modelled from the spec: the reference tables of the element registry are
    not part of the sources at hand; the octree patch uses the counts of
    PIXEL (2-D cell, 3-D interface), VOXEL (3-D cell) and LINE (2-D
    interface) only. *)
Definition nVertices (ty : ElementType) : nat :=
  match ty with
  | VERTEX => 1 | LINE => 2 | TRIANGLE => 3 | QUAD => 4 | PIXEL => 4
  | TETRA => 4 | HEX => 8 | VOXEL => 8 | WEDGE => 6 | PYRAMID => 5
  | _ => 0
  end%nat.
Definition nFaces (ty : ElementType) : nat :=
  match ty with
  | LINE => 2 | TRIANGLE => 3 | QUAD => 4 | PIXEL => 4
  | TETRA => 4 | HEX => 6 | VOXEL => 6 | WEDGE => 5 | PYRAMID => 5
  | _ => 0
  end%nat.

(** ** src/patchkernel/cell.cpp *)

Module Cell.

(** A cell: the element part (id, type, connectivity) and the members of
    [class Cell]. *)
Record t := mk {
  id : Z;
  type : ElementType;
  connect : list Z;
  m_interior : bool;
  m_interfaces : FlatVector2D.t;
  m_adjacencies : FlatVector2D.t
}.

Definition set_interfaces (v : FlatVector2D.t) (c : t) : t :=
  mk (id c) (type c) (connect c) (m_interior c) v (m_adjacencies c).
Definition set_adjacencies (v : FlatVector2D.t) (c : t) : t :=
  mk (id c) (type c) (connect c) (m_interior c) (m_interfaces c) v.

(** [createNeighbourhoodStorage(storeNeighbourhood)] *)
Definition createNeighbourhoodStorage (ty : ElementType) (storeNeighbourhood : bool)
  : FlatVector2D.t :=
  if negb storeNeighbourhood then FlatVector2D.create 0
  else match ty with
       | UNDEFINED => FlatVector2D.create 0
       | _ => FlatVector2D.create (nFaces ty)
       end.

(** [Cell(id, type, connectStorage, interior, storeNeighbourhood = true)] *)
Definition create (i : Z) (ty : ElementType) (conn : list Z) (interior : bool) : t :=
  mk i ty conn interior (createNeighbourhoodStorage ty true)
     (createNeighbourhoodStorage ty true).

Definition isInterior (c : t) : bool := m_interior c.

(** [resetInterfaces(storeInterfaces)], [resetAdjacencies(storeAdjacencies)] *)
Definition resetInterfaces (storeInterfaces : bool) (c : t) : t :=
  set_interfaces (createNeighbourhoodStorage (type c) storeInterfaces) c.
Definition resetAdjacencies (storeAdjacencies : bool) (c : t) : t :=
  set_adjacencies (createNeighbourhoodStorage (type c) storeAdjacencies) c.

(** [getInterfaceCount()], [getInterfaceCount(face)], [getInterfaces()] *)
Definition getInterfaceCount (c : t) : Z := FlatVector2D.getTotalCount (m_interfaces c).
Definition getFaceInterfaceCount (face : nat) (c : t) : option Z :=
  FlatVector2D.getItemCount (m_interfaces c) face.
Definition getInterfaces (c : t) : list Z := FlatVector2D.flat (m_interfaces c).

(** [int findInterface(int face, int interface)]: the id to look for has
    the type [int]. *)
Definition findInterface (face : nat) (interface : Z) (c : t) : option Z :=
  run ← m_interfaces c !! face; Some (find_index interface run).

(** [void pushInterface(int face, long interface)]: the [long] id is
    converted to the [int] parameter of [findInterface]. *)
Definition pushInterface (face : nat) (interface : Z) (c : t) : option t :=
  i ← findInterface face (to_int interface) c;
  (* Do not push an existing interface *)
  if Z.leb 0 i then Some c
  else v ← FlatVector2D.pushBackItem face interface (m_interfaces c);
       Some (set_interfaces v c).

(** [void deleteInterface(int face, int i)] *)
Definition deleteInterface (face : nat) (i : Z) (c : t) : option t :=
  v ← FlatVector2D.eraseItem face i (m_interfaces c); Some (set_interfaces v c).

(** [getAdjacencyCount()], [getAdjacencyCount(face)], [getAdjacencies()] *)
Definition getAdjacencyCount (c : t) : Z := FlatVector2D.getTotalCount (m_adjacencies c).
Definition getFaceAdjacencyCount (face : nat) (c : t) : option Z :=
  FlatVector2D.getItemCount (m_adjacencies c) face.
Definition getAdjacencies (c : t) : list Z := FlatVector2D.flat (m_adjacencies c).

(** [int findAdjacency(int face, int adjacency)] *)
Definition findAdjacency (face : nat) (adjacency : Z) (c : t) : option Z :=
  run ← m_adjacencies c !! face; Some (find_index adjacency run).

(** [void pushAdjacency(int face, long adjacency)] *)
Definition pushAdjacency (face : nat) (adjacency : Z) (c : t) : option t :=
  i ← findAdjacency face (to_int adjacency) c;
  (* Do not push an existing adjacency *)
  if Z.leb 0 i then Some c
  else v ← FlatVector2D.pushBackItem face adjacency (m_adjacencies c);
       Some (set_adjacencies v c).

(** [void deleteAdjacency(int face, int i)] *)
Definition deleteAdjacency (face : nat) (i : Z) (c : t) : option t :=
  v ← FlatVector2D.eraseItem face i (m_adjacencies c); Some (set_adjacencies v c).

(** [isFaceBorder(face)] *)
Definition isFaceBorder (face : nat) (c : t) : option bool :=
  n ← FlatVector2D.getItemCount (m_adjacencies c) face; Some (Z.eqb n 0).

End Cell.

(** ** Interfaces *)

Module Interface.
(** Modelled from the spec: interface.cpp is not part of the sources at
    hand.  "An explicit codimension-1 entity with: id, shape tag, vertex
    connectivity, owner cell id + owner local face index, neighbour cell id
    + neighbour local face index (or a border flag)"; a border interface has
    the null id as its neighbour. *)
Record t := mk {
  id : Z;
  m_owner : Z;
  m_ownerFace : nat;
  m_neigh : Z;
  m_neighFace : nat
}.
Definition getOwner (i : t) : Z := m_owner i.
Definition getOwnerFace (i : t) : nat := m_ownerFace i.
Definition getNeigh (i : t) : Z := m_neigh i.
Definition getNeighFace (i : t) : nat := m_neighFace i.
Definition isBorder (i : t) : bool := Z.ltb (m_neigh i) 0.
End Interface.

(** ** The octree the patch is built on *)

(** [VolOctree::OctantInfo]: a tree index and whether it indexes the
    internal or the ghost octants. *)
Record OctantInfo := mkOctantInfo { oi_id : Z; oi_internal : bool }.

(** The interface of [PabloUniform] (src/pablo) as far as voloctree.cpp
    calls it.  The octree is not part of the sources at hand: its
    operations are parameters of the development.  [getLevel],
    [getNodeMorton] and [getNode] take the octant as the pair the patch
    resolves with [getOctant]/[getGhostOctant]. *)
Class Pablo (D Tree : Type) := {
  getNumOctants : Tree -> Z;
  getNumGhosts : Tree -> Z;
  getMaxLevel : Tree -> Z;
  getMaxDepth : Tree -> Z;
  getL : Tree -> D;
  setL : D -> Tree -> Tree;
  getLevel : Tree -> OctantInfo -> Z;
  setMarker : Z -> Z -> Tree -> Tree;
  setBalance : Z -> bool -> Tree -> Tree;
  adapt : bool -> Tree -> bool * Tree;
  getMapping : Tree -> Z -> list Z * list bool * list Z;
  getIsNewR : Tree -> Z -> bool;
  getIsNewC : Tree -> Z -> bool;
  findNeighbours : Tree -> Z -> nat -> nat -> list (Z * bool);
  findGhostNeighbours : Tree -> Z -> nat -> nat -> list (Z * bool);
  getOppface : Tree -> nat -> nat;
  getNodeMorton : Tree -> OctantInfo -> nat -> Z;
  getNode : Tree -> OctantInfo -> nat -> array3D D
}.

(** ** The storage of the patch kernel *)

Module Kernel.
(** Modelled from the spec: patch_kernel.cpp is not part of the sources at
    hand.  Cells, vertices and interfaces live in pierced containers keyed
    by stable ids: "insert(t) -> id", "ids are never reused for different
    items", "erase(id) creates a hole", "flush() compacts holes; all ids
    survive".  The generators hand out increasing ids. *)
Record t (D : Type) := mk {
  m_cells : gmap Z Cell.t;
  m_interfaces : gmap Z Interface.t;
  m_vertices : gmap Z (array3D D);
  m_nextCellId : Z;
  m_nextVertexId : Z
}.
Arguments mk {D} _ _ _ _ _.
Arguments m_cells {D} _.
Arguments m_interfaces {D} _.
Arguments m_vertices {D} _.
Arguments m_nextCellId {D} _.
Arguments m_nextVertexId {D} _.

Section WithScalar.
Context {D : Type}.

Definition set_cells (x : gmap Z Cell.t) (k : t D) : t D :=
  mk x (m_interfaces k) (m_vertices k) (m_nextCellId k) (m_nextVertexId k).
Definition set_interfaces (x : gmap Z Interface.t) (k : t D) : t D :=
  mk (m_cells k) x (m_vertices k) (m_nextCellId k) (m_nextVertexId k).
Definition set_vertices (x : gmap Z (array3D D)) (k : t D) : t D :=
  mk (m_cells k) (m_interfaces k) x (m_nextCellId k) (m_nextVertexId k).

Definition getCellCount (k : t D) : Z := Z.of_nat (size (m_cells k)).
Definition generateCellId (k : t D) : Z * t D :=
  (m_nextCellId k,
   mk (m_cells k) (m_interfaces k) (m_vertices k) (m_nextCellId k + 1) (m_nextVertexId k)).
Definition addVertex (coords : array3D D) (k : t D) : Z * t D :=
  (m_nextVertexId k,
   mk (m_cells k) (m_interfaces k) (<[m_nextVertexId k := coords]> (m_vertices k))
      (m_nextCellId k) (m_nextVertexId k + 1)).
Definition addCell (ty : ElementType) (interior : bool) (conn : list Z) (i : Z) (k : t D) : t D :=
  set_cells (<[i := Cell.create i ty conn interior]> (m_cells k)) k.
Definition deleteCell (i : Z) (k : t D) : t D := set_cells (delete i (m_cells k)) k.
Definition deleteInterface (i : Z) (k : t D) : t D :=
  set_interfaces (delete i (m_interfaces k)) k.
Definition deleteVertex (i : Z) (k : t D) : t D := set_vertices (delete i (m_vertices k)) k.
End WithScalar.
End Kernel.

(** What voloctree.cpp calls in the patch kernel and the sources at hand
    do not contain: the interface builder and the scaling of the vertex
    coordinates. *)
Class PatchKernel (D : Type) := {
  updateInterfaces : list Z -> Kernel.t D -> option (Kernel.t D);
  kernel_scale : array3D D -> Kernel.t D -> Kernel.t D;
  (* [ElementInfo::faceConnect]: the local vertices of each face *)
  faceConnect : ElementType -> list (list nat)
}.

(** ** src/voloctree/voloctree.cpp *)

Module VolOctree.

(** [VolOctree::TreeOperation] *)
Inductive TreeOperation :=
| OP_INITIALIZATION | OP_ADAPTION_MAPPED | OP_ADAPTION_UNMAPPED | OP_LOAD_BALANCE.

#[global] Instance TreeOperation_eq_dec : EqDecision TreeOperation.
Proof. solve_decision. Defined.

(** The members of the patch: the kernel storage and what [VolOctree]
    adds to it. *)
Record t (D Tree : Type) := mk {
  m_dimension : nat;
  m_kernel : Kernel.t D;
  m_tree : Tree;
  m_lastTreeOperation : TreeOperation;
  m_cellToOctant : gmap Z Z;
  m_cellToGhost : gmap Z Z;
  m_octantToCell : gmap Z Z;
  m_ghostToCell : gmap Z Z;
  m_tree_dh : list D;
  m_tree_area : list D;
  m_tree_volume : list D
}.
Arguments mk {D Tree} _ _ _ _ _ _ _ _ _ _ _.
Arguments m_dimension {D Tree} _.
Arguments m_kernel {D Tree} _.
Arguments m_tree {D Tree} _.
Arguments m_lastTreeOperation {D Tree} _.
Arguments m_cellToOctant {D Tree} _.
Arguments m_cellToGhost {D Tree} _.
Arguments m_octantToCell {D Tree} _.
Arguments m_ghostToCell {D Tree} _.
Arguments m_tree_dh {D Tree} _.
Arguments m_tree_area {D Tree} _.
Arguments m_tree_volume {D Tree} _.

Section WithTree.
Context {D Tree : Type} `{Scalar D} `{ScalarPow D} `{Pablo D Tree} `{PatchKernel D}.
Local Open Scope outcome_scope.

Local Abbreviation patch := (t D Tree).

Definition set_kernel (k : Kernel.t D) (p : patch) : patch :=
  mk (m_dimension p) k (m_tree p) (m_lastTreeOperation p) (m_cellToOctant p)
     (m_cellToGhost p) (m_octantToCell p) (m_ghostToCell p)
     (m_tree_dh p) (m_tree_area p) (m_tree_volume p).
Definition set_tree (tr : Tree) (p : patch) : patch :=
  mk (m_dimension p) (m_kernel p) tr (m_lastTreeOperation p) (m_cellToOctant p)
     (m_cellToGhost p) (m_octantToCell p) (m_ghostToCell p)
     (m_tree_dh p) (m_tree_area p) (m_tree_volume p).
Definition set_lastTreeOperation (op : TreeOperation) (p : patch) : patch :=
  mk (m_dimension p) (m_kernel p) (m_tree p) op (m_cellToOctant p)
     (m_cellToGhost p) (m_octantToCell p) (m_ghostToCell p)
     (m_tree_dh p) (m_tree_area p) (m_tree_volume p).
Definition set_maps (c2o c2g o2c g2c : gmap Z Z) (p : patch) : patch :=
  mk (m_dimension p) (m_kernel p) (m_tree p) (m_lastTreeOperation p) c2o c2g o2c g2c
     (m_tree_dh p) (m_tree_area p) (m_tree_volume p).
Definition set_tables (dh area volume : list D) (p : patch) : patch :=
  mk (m_dimension p) (m_kernel p) (m_tree p) (m_lastTreeOperation p) (m_cellToOctant p)
     (m_cellToGhost p) (m_octantToCell p) (m_ghostToCell p) dh area volume.

Definition getDimension (p : patch) : nat := m_dimension p.
Definition isThreeDimensional (p : patch) : bool := Nat.eqb (m_dimension p) 3.
Definition getCellCount (p : patch) : Z := Kernel.getCellCount (m_kernel p).

(** [m_cellTypeInfo], [m_interfaceTypeInfo] as the constructor sets them. *)
Definition cellType (p : patch) : ElementType :=
  if isThreeDimensional p then VOXEL else PIXEL.
Definition interfaceType (p : patch) : ElementType :=
  if isThreeDimensional p then PIXEL else LINE.

(** [initializeTreeGeometry()] *)
Definition initializeTreeGeometry (p : patch) : patch :=
  let maxLevels := getMaxLevel (m_tree p) in
  let length := getL (m_tree p) in
  let levelLength (i : Z) : D := (length / sc_pow (sc_of_Z 2) i)%sc in
  let levels := seqZ 0 maxLevels in                 (* i = 0; i < maxLevels; i++ *)
  set_tables
    (map (fun i => sc_pow (levelLength i) 1) levels)
    (map (fun i => sc_pow (levelLength i) (Z.of_nat (getDimension p) - 1)) levels)
    (map (fun i => sc_pow (levelLength i) (Z.of_nat (getDimension p))) levels)
    p.

(** [getCellOctant(id)]: [m_cells[id]], then [at(id)] on the map the
    interior flag selects. *)
Definition getCellOctant (id : Z) (p : patch) : outcome OctantInfo :=
  cell <- or_undefined (Kernel.m_cells (m_kernel p) !! id) ;;
  if Cell.isInterior cell
  then tid <- or_out_of_range (m_cellToOctant p !! id) ;; Returned (mkOctantInfo tid true)
  else tid <- or_out_of_range (m_cellToGhost p !! id) ;; Returned (mkOctantInfo tid false).

(** [getOctantId(octantInfo)] *)
Definition getOctantId (octantInfo : OctantInfo) (p : patch) : Z :=
  if oi_internal octantInfo
  then match m_octantToCell p !! oi_id octantInfo with Some c => c | None => NULL_ID end
  else match m_ghostToCell p !! oi_id octantInfo with Some c => c | None => NULL_ID end.

(** [getCellLevel(id)] *)
Definition getCellLevel (id : Z) (p : patch) : outcome Z :=
  octantInfo <- getCellOctant id p ;;
  Returned (getLevel (m_tree p) octantInfo).

(** [std::vector::operator[]] with an [int] index. *)
Definition table_at (tbl : list D) (level : Z) : outcome D :=
  if Z.ltb level 0 then Undefined else or_undefined (tbl !! Z.to_nat level).

(** [evalCellVolume(id)], [evalCellSize(id)] *)
Definition evalCellVolume (id : Z) (p : patch) : outcome D :=
  level <- getCellLevel id p ;; table_at (m_tree_volume p) level.
Definition evalCellSize (id : Z) (p : patch) : outcome D :=
  level <- getCellLevel id p ;; table_at (m_tree_dh p) level.

(** [evalInterfaceArea(id)]: [int owner = interface.getOwner()]. *)
Definition evalInterfaceArea (id : Z) (p : patch) : outcome D :=
  interface <- or_undefined (Kernel.m_interfaces (m_kernel p) !! id) ;;
  let owner := to_int (Interface.getOwner interface) in
  level <- getCellLevel owner p ;; table_at (m_tree_area p) level.

(** [set_marker(id, value)], [_markCellForRefinement(id)],
    [_markCellForCoarsening(id)], [_enableCellBalancing(id, enabled)] *)
Definition set_marker (id : Z) (value : Z) (p : patch) : outcome (bool * patch) :=
  octantInfo <- getCellOctant id p ;;
  if negb (oi_internal octantInfo) then Returned (false, p)
  else Returned (true, set_tree (setMarker (oi_id octantInfo) value (m_tree p)) p).
Definition _markCellForRefinement (id : Z) (p : patch) : outcome (bool * patch) :=
  set_marker id 1 p.

(** [scale(scaling)].  [ndebug] tells whether the translation unit is
    compiled with NDEBUG, that is whether [assert] is a no-op. *)
Definition uniformScaling (scaling : array3D D) : bool :=
  let uniformScaling := true in
  let uniformScaling :=
    uniformScaling && (sc_abs (a3_0 scaling - a3_1 scaling) >? sc_tol14)%sc in
  let uniformScaling :=
    uniformScaling && (sc_abs (a3_0 scaling - a3_2 scaling) >? sc_tol14)%sc in
  uniformScaling.
Definition scale (ndebug : bool) (scaling : array3D D) (p : patch) : outcome patch :=
  let uniformScaling := uniformScaling scaling in
  if negb uniformScaling && negb ndebug then Aborted        (* assert(uniformScaling) *)
  else if negb uniformScaling then Returned p
  else
    let p := set_tree (setL (getL (m_tree p) * a3_0 scaling)%sc (m_tree p)) p in
    let p := initializeTreeGeometry p in
    Returned (set_kernel (kernel_scale scaling (m_kernel p)) p).

(** Loops over a [std::vector]: a left fold in the outcome monad. *)
Fixpoint ofold {S A : Type} (f : S -> A -> outcome S) (s : S) (l : list A) : outcome S :=
  match l with
  | [] => Returned s
  | a :: l' => s' <- f s a ;; ofold f s' l'
  end.

(** *** [updateAdjacencies(cellIds, resetAdjacencies)] *)

(** [m_cells[cellId].resetAdjacencies()] for the listed cells. *)
Definition resetListedAdjacencies (cellIds : list Z) (cells : gmap Z Cell.t)
  : outcome (gmap Z Cell.t) :=
  ofold (fun cells cellId =>
           cell <- or_undefined (cells !! cellId) ;;
           Returned (<[cellId := Cell.resetAdjacencies true cell]> cells))
        cells cellIds.

(** The cells sorted on their tree level: [hierarchicalCellIds[level]]
    receives the ids in the order of [cellIds]; a level outside
    [0, maxLevel] indexes the vector out of range. *)
Definition cellLevels (cellIds : list Z) (p : patch) : outcome (list (Z * Z)) :=
  ofold (fun acc cellId =>
           cellLevel <- getCellLevel cellId p ;;
           if Z.ltb cellLevel 0 || Z.ltb (getMaxDepth (m_tree p)) cellLevel then Undefined
           else Returned (acc ++ [(cellId, cellLevel)]))
        [] cellIds.
Definition hierarchicalCellIds (maxLevel : Z) (leveled : list (Z * Z)) : list Z :=
  flat_map (fun level => map fst (List.filter (fun e => Z.eqb (snd e) level) leveled))
           (seqZ 0 (maxLevel + 1)).

(** The body of the innermost loop: one neighbour of one face. *)
Definition setAdjacencyPair (cellId : Z) (face : nat) (neighId : Z) (neighFace : nat)
           (cells : gmap Z Cell.t) : outcome (gmap Z Cell.t) :=
  (* Set cell data *)
  cell <- or_undefined (cells !! cellId) ;;
  cell <- or_undefined (Cell.pushAdjacency face neighId cell) ;;
  let cells := <[cellId := cell]> cells in
  (* Set neighbour data *)
  neigh <- or_undefined (cells !! neighId) ;;
  neigh <- or_undefined (Cell.pushAdjacency neighFace cellId neigh) ;;
  Returned (<[neighId := neigh]> cells).

(** One face of one cell. *)
Definition updateFaceAdjacencies (p : patch) (cellId : Z) (octantInfo : OctantInfo)
           (s : gmap Z Cell.t * gset (Z * nat)) (face : nat)
  : outcome (gmap Z Cell.t * gset (Z * nat)) :=
  let '(cells, processedFaces) := s in
  if decide ((cellId, face) ∈ processedFaces) then Returned s
  else
    (* Find cell neighbours *)
    let neighs :=
      if oi_internal octantInfo
      then findNeighbours (m_tree p) (oi_id octantInfo) face 1
      else findGhostNeighbours (m_tree p) (oi_id octantInfo) face 1 in
    (* Set the adjacencies *)
    ofold (fun s '(neighTreeId, neighGhostFlag) =>
             let '(cells, processedFaces) := s in
             let neighOctantInfo := mkOctantInfo neighTreeId (negb neighGhostFlag) in
             let neighId := getOctantId neighOctantInfo p in
             let neighFace := getOppface (m_tree p) face in
             cells <- setAdjacencyPair cellId face neighId neighFace cells ;;
             Returned (cells, {[ (neighId, neighFace) ]} ∪ processedFaces))
          (cells, processedFaces) neighs.

(** One cell: all its faces.  The loop changes adjacency runs only, so
    that [getCellOctant] reads the same interior flag and maps on [p] as on
    the patch being updated. *)
Definition updateCellAdjacencies (p : patch) (nCellFaces : nat)
           (s : gmap Z Cell.t * gset (Z * nat)) (cellId : Z)
  : outcome (gmap Z Cell.t * gset (Z * nat)) :=
  _ <- or_undefined (s.1 !! cellId) ;;
  octantInfo <- getCellOctant cellId p ;;
  ofold (updateFaceAdjacencies p cellId octantInfo) s (seq 0 nCellFaces).

(** [size_t averageSize = cellIds.size() / maxLevel] divides by zero when
    the tree has depth 0. *)
Definition updateAdjacencies (cellIds : list Z) (resetAdjacencies : bool) (p : patch)
  : outcome patch :=
  (* Face information *)
  let nCellFaces := (2 * getDimension p)%nat in
  (* Reset the adjacencies *)
  cells <- (if resetAdjacencies
            then resetListedAdjacencies cellIds (Kernel.m_cells (m_kernel p))
            else Returned (Kernel.m_cells (m_kernel p))) ;;
  let p := set_kernel (Kernel.set_cells cells (m_kernel p)) p in
  (* Sort the cells beased on their tree level *)
  let maxLevel := getMaxDepth (m_tree p) in
  if Z.eqb maxLevel 0 then Undefined
  else
    leveled <- cellLevels cellIds p ;;
    (* Update the adjacencies *)
    s <- ofold (updateCellAdjacencies p nCellFaces) (cells, ∅)
               (hierarchicalCellIds maxLevel leveled) ;;
    Returned (set_kernel (Kernel.set_cells s.1 (m_kernel p)) p).

(** *** [deleteCells(deletedOctants)] *)

(** [VolOctree::DeleteInfo] *)
Inductive AdaptionType :=
| TYPE_UNKNOWN | TYPE_NONE | TYPE_CREATION | TYPE_DELETION | TYPE_REFINEMENT
| TYPE_COARSENING | TYPE_RENUMBERING | TYPE_PARTITION_SEND | TYPE_PARTITION_RECV.
Inductive AdaptionEntity := ENTITY_UNKNOWN | ENTITY_CELL | ENTITY_VERTEX | ENTITY_INTERFACE.

#[global] Instance AdaptionType_eq_dec : EqDecision AdaptionType.
Proof. solve_decision. Defined.
#[global] Instance AdaptionEntity_eq_dec : EqDecision AdaptionEntity.
Proof. solve_decision. Defined.

Record DeleteInfo := mkDeleteInfo { di_cellId : Z; di_trigger : AdaptionType; di_rank : Z }.

(** The state of the first loop: the cells, [deadVertices],
    [deadInterfaces], [danglingCells]. *)
Record DeleteState := mkDeleteState {
  ds_cells : gmap Z Cell.t;
  ds_deadVertices : gset Z;
  ds_deadInterfaces : gset Z;
  ds_danglingCells : gset Z
}.

(** One interface of a cell that is deleted. *)
Definition deleteCellInterface (deadCells : gset Z) (interfaces : gmap Z Interface.t)
           (s : DeleteState) (interfaceId : Z) : outcome DeleteState :=
  if Z.ltb interfaceId 0 then Returned s
  (* Interfaces has to be considered just once *)
  else if decide (interfaceId ∈ ds_deadInterfaces s) then Returned s
  else
    (* Find if the face associated to the interface will be dangling *)
    interface <- or_undefined (interfaces !! interfaceId) ;;
    let danglingSide : Z :=
      if negb (Interface.isBorder interface) then
        if decide (Interface.getOwner interface ∉ deadCells) then 0
        else if decide (Interface.getNeigh interface ∉ deadCells) then 1
        else -1
      else -1 in
    (* Handle dangling faces *)
    s <- (if Z.leb 0 danglingSide then
            let '(danglingCellId, danglingNeighId, danglingCellFace) :=
              if Z.eqb danglingSide 0
              then (Interface.getOwner interface, Interface.getNeigh interface,
                    Interface.getOwnerFace interface)
              else (Interface.getNeigh interface, Interface.getOwner interface,
                    Interface.getNeighFace interface) in
            danglingCell <- or_undefined (ds_cells s !! danglingCellId) ;;
            (* Since the dangling cell will not be deleted, we have to
               updated its interface and adjacency data structures. *)
            cellInterfaceIndex <-
              or_undefined (Cell.findInterface danglingCellFace (to_int interfaceId) danglingCell) ;;
            danglingCell <-
              or_undefined (Cell.deleteInterface danglingCellFace cellInterfaceIndex danglingCell) ;;
            cellAdjacencyIndex <-
              or_undefined (Cell.findAdjacency danglingCellFace (to_int danglingNeighId) danglingCell) ;;
            danglingCell <-
              or_undefined (Cell.deleteAdjacency danglingCellFace cellAdjacencyIndex danglingCell) ;;
            Returned (mkDeleteState (<[danglingCellId := danglingCell]> (ds_cells s))
                                    (ds_deadVertices s) (ds_deadInterfaces s)
                                    ({[danglingCellId]} ∪ ds_danglingCells s))
          else Returned s) ;;
    (* Add the interface to the list of interfaces to delete *)
    Returned (mkDeleteState (ds_cells s) (ds_deadVertices s)
                            ({[interfaceId]} ∪ ds_deadInterfaces s) (ds_danglingCells s)).

(** One cell that is deleted. *)
Definition deleteDeadCell (deadCells : gset Z) (interfaces : gmap Z Interface.t)
           (s : DeleteState) (cellId : Z) : outcome DeleteState :=
  cell <- or_undefined (ds_cells s !! cellId) ;;
  (* List vertices to remove *)
  let s := mkDeleteState (ds_cells s) (list_to_set (Cell.connect cell) ∪ ds_deadVertices s)
                         (ds_deadInterfaces s) (ds_danglingCells s) in
  (* List of interfaces to delete *)
  s <- ofold (deleteCellInterface deadCells interfaces) s (Cell.getInterfaces cell) ;;
  (* Delete cell *)
  Returned (mkDeleteState (delete cellId (ds_cells s)) (ds_deadVertices s)
                          (ds_deadInterfaces s) (ds_danglingCells s)).

(** The state of the loop over the dangling cells: [stitchVertices] and
    [deadVertices]. *)
Definition keepVertex (p : patch) (octantInfo : OctantInfo) (conn : list Z)
           (s : gmap Z Z * gset Z) (k : nat) : outcome (gmap Z Z * gset Z) :=
  vertexId <- or_undefined (conn !! k) ;;
  let vertexTreeMorton := getNodeMorton (m_tree p) octantInfo k in
  let stitchVertices :=
    match s.1 !! vertexTreeMorton with
    | Some _ => s.1                                   (* insert keeps the first entry *)
    | None => <[vertexTreeMorton := vertexId]> s.1
    end in
  Returned (stitchVertices, s.2 ∖ {[vertexId]}).

(** One interface left of a dangling cell. *)
Definition keepInterfaceVertices (p : patch) (s : gmap Z Z * gset Z) (interfaceId : Z)
  : outcome (gmap Z Z * gset Z) :=
  if Z.ltb interfaceId 0 then Returned s
  else
    interface <- or_undefined (Kernel.m_interfaces (m_kernel p) !! interfaceId) ;;
    if Interface.isBorder interface then Returned s
    else
      let ownerId := Interface.getOwner interface in
      let ownerFace := Interface.getOwnerFace interface in
      ownerCell <- or_undefined (Kernel.m_cells (m_kernel p) !! ownerId) ;;
      ownerOctantInfo <- getCellOctant ownerId p ;;
      localFaceConnect <- or_undefined (faceConnect (cellType p) !! ownerFace) ;;
      ofold (fun s k =>
               v <- or_undefined (localFaceConnect !! k) ;;
               keepVertex p ownerOctantInfo (Cell.connect ownerCell) s v)
            s (seq 0 (nVertices (interfaceType p))).

(** One dangling cell; [p] is the patch after the cells and the interfaces
    have been deleted. *)
Definition keepDanglingCell (p : patch) (s : gmap Z Z * gset Z) (cellId : Z)
  : outcome (gmap Z Z * gset Z) :=
  (* Vertices of the cell *)
  cell <- or_undefined (Kernel.m_cells (m_kernel p) !! cellId) ;;
  octantInfo <- getCellOctant cellId p ;;
  s <- ofold (keepVertex p octantInfo (Cell.connect cell)) s
             (seq 0 (nVertices (cellType p))) ;;
  (* Vertices of all other interfaces left of the cell *)
  ofold (keepInterfaceVertices p) s (Cell.getInterfaces cell).

(** [deleteCells]: the unordered sets are iterated in the order of their
    [elements]; returns the patch and [stitchVertices]. *)
Definition deleteCells (deletedOctants : list DeleteInfo) (p : patch)
  : outcome (patch * gmap Z Z) :=
  (* List of cells ot delete *)
  let deadCells : gset Z := list_to_set (map di_cellId deletedOctants) in
  (* Delete the cells *)
  s <- ofold (deleteDeadCell deadCells (Kernel.m_interfaces (m_kernel p)))
             (mkDeleteState (Kernel.m_cells (m_kernel p)) ∅ ∅ ∅) (elements deadCells) ;;
  let p := set_kernel (Kernel.set_cells (ds_cells s) (m_kernel p)) p in
  (* Delete the interfaces *)
  let p := set_kernel (foldl (fun k i => Kernel.deleteInterface i k) (m_kernel p)
                             (elements (ds_deadInterfaces s))) p in
  (* All the vertices belonging to the dangling cells has to be kept *)
  r <- ofold (keepDanglingCell p) (∅, ds_deadVertices s) (elements (ds_danglingCells s)) ;;
  (* Delete the vertices *)
  let p := set_kernel (foldl (fun k v => Kernel.deleteVertex v k) (m_kernel p)
                             (elements r.2)) p in
  Returned (p, r.1).

(** *** Adaption tracking *)

(** [adaption::Info] *)
Record Info := mkInfo {
  info_type : AdaptionType;
  info_entity : AdaptionEntity;
  info_rank : Z;
  info_previous : list Z;
  info_current : list Z
}.

Definition push_previous (x : Z) (i : Info) : Info :=
  mkInfo (info_type i) (info_entity i) (info_rank i) (info_previous i ++ [x]) (info_current i).
Definition push_current (x : Z) (i : Info) : Info :=
  mkInfo (info_type i) (info_entity i) (info_rank i) (info_previous i) (info_current i ++ [x]).
Definition set_current (l : list Z) (i : Info) : Info :=
  mkInfo (info_type i) (info_entity i) (info_rank i) (info_previous i) l.

(** Modelled from the spec: adaption.cpp is not part of the sources at
    hand.  [adaption::InfoCollection] holds the events in the order of their
    creation.  The kinds of events that [sync] fills one id at a time
    (creation, deletion, partition send and receive) are kept as one event
    per (type, entity, rank), "within a PARTITION_RECV event the current_ids
    are listed in post-adaption tree-index order"; every other [create]
    starts a new event.  [create] returns the position of the event. *)
Definition cachedType (ty : AdaptionType) : bool :=
  match ty with
  | TYPE_CREATION | TYPE_DELETION | TYPE_PARTITION_SEND | TYPE_PARTITION_RECV => true
  | _ => false
  end.
Fixpoint findInfo (ty : AdaptionType) (en : AdaptionEntity) (rank : Z) (i : nat)
         (data : list Info) : option nat :=
  match data with
  | [] => None
  | info :: data' =>
      if bool_decide (info_type info = ty) && bool_decide (info_entity info = en)
         && Z.eqb (info_rank info) rank
      then Some i else findInfo ty en rank (S i) data'
  end.
Definition createInfo (ty : AdaptionType) (en : AdaptionEntity) (rank : Z)
           (data : list Info) : nat * list Info :=
  match (if cachedType ty then findInfo ty en rank 0 data else None) with
  | Some i => (i, data)
  | None => (length data, data ++ [mkInfo ty en rank [] []])
  end.

(** [VolOctree::RenumberInfo] *)
Record RenumberInfo := mkRenumberInfo { ri_cellId : Z; ri_newTreeId : Z }.

(** The rank of a build without MPI, and the rank a [DeleteInfo] carries
    when its constructor is not given one. *)
Definition currentRank : Z := -1.

(** The locals of [sync] that its first loop fills. *)
Record SyncLists := mkSyncLists {
  sl_unmappedOctants : list bool;
  sl_addedOctants : list OctantInfo;
  sl_renumberedOctants : list RenumberInfo;
  sl_deletedOctants : list DeleteInfo;
  sl_adaptionData : list Info
}.

(** [unmappedOctants[i] = false] *)
Definition clearUnmapped (i : Z) (l : list bool) : outcome (list bool) :=
  if Z.ltb i 0 || Z.leb (Z.of_nat (length l)) i then Undefined
  else Returned (<[Z.to_nat i := false]> l).

(** The adaption type of the octant [treeId]; [front()] of an empty mapping
    is undefined. *)
Definition adaptionTypeOf (importAll : bool) (lastTreeOperation : TreeOperation)
           (tree : Tree) (treeId : Z) (mapper_octantMap : list Z) : outcome AdaptionType :=
  if importAll then Returned TYPE_CREATION
  else if decide (lastTreeOperation = OP_ADAPTION_MAPPED) then
    if getIsNewR tree treeId then Returned TYPE_REFINEMENT
    else if getIsNewC tree treeId then Returned TYPE_COARSENING
    else front <- or_undefined (head mapper_octantMap) ;;
         if negb (Z.eqb treeId front) then Returned TYPE_RENUMBERING
         else Returned TYPE_NONE
  else Returned TYPE_NONE.

(** The cells that will be removed: one [DeleteInfo] for each previous
    octant of the mapping. *)
Definition markPrevious (p : patch) (adaptionType : AdaptionType)
           (mapper_octantMap : list Z) (mapper_ghostFlag : list bool)
           (s : list DeleteInfo * list bool) (k : nat)
  : outcome (list DeleteInfo * list bool) :=
  previousTreeId <- or_undefined (mapper_octantMap !! k) ;;
  ghost <- or_undefined (mapper_ghostFlag !! k) ;;
  let cellId := getOctantId (mkOctantInfo previousTreeId (negb ghost)) p in
  unmapped <- clearUnmapped previousTreeId s.2 ;;
  Returned (s.1 ++ [mkDeleteInfo cellId adaptionType currentRank], unmapped).

(** The previous cells of the adaption info. *)
Definition previousCellIds (p : patch) (mapper_octantMap : list Z) (mapper_ghostFlag : list bool)
  : outcome (list Z) :=
  ofold (fun acc k =>
           previousTreeId <- or_undefined (mapper_octantMap !! k) ;;
           ghost <- or_undefined (mapper_ghostFlag !! k) ;;
           Returned (acc ++ [getOctantId (mkOctantInfo previousTreeId (negb ghost)) p]))
        [] (seq 0 (length mapper_octantMap)).

(** One iteration of [while (treeId < (uint32_t) nOctants)]; returns the
    next [treeId].  The counter of the loop that fills [addedOctants] is an
    [int]: it overflows unless the ids fit. *)
Definition syncOctant (trackChanges importAll : bool) (lastTreeOperation : TreeOperation)
           (nOctants : Z) (p : patch) (treeId : Z) (s : SyncLists) : outcome (Z * SyncLists) :=
  (* Octant mapping *)
  let '(mapper_octantMap, mapper_ghostFlag, mapper_octantRank) :=
    if negb importAll then getMapping (m_tree p) treeId else ([], [], []) in
  (* Adaption type *)
  adaptionType <- adaptionTypeOf importAll lastTreeOperation (m_tree p) treeId mapper_octantMap ;;
  if decide (adaptionType = TYPE_NONE) then
    unmapped <- clearUnmapped treeId (sl_unmappedOctants s) ;;
    Returned (treeId + 1,
              mkSyncLists unmapped (sl_addedOctants s) (sl_renumberedOctants s)
                          (sl_deletedOctants s) (sl_adaptionData s))
  else if decide (adaptionType = TYPE_RENUMBERING) then
    previousTreeId <- or_undefined (head mapper_octantMap) ;;
    ghost <- or_undefined (head mapper_ghostFlag) ;;
    let cellId := getOctantId (mkOctantInfo previousTreeId (negb ghost)) p in
    unmapped <- clearUnmapped previousTreeId (sl_unmappedOctants s) ;;
    Returned (treeId + 1,
              mkSyncLists unmapped (sl_addedOctants s)
                          (sl_renumberedOctants s ++ [mkRenumberInfo cellId treeId])
                          (sl_deletedOctants s) (sl_adaptionData s))
  else
    (* Current tree ids that will be imported *)
    let nCurrentTreeIds :=
      if importAll then nOctants - treeId
      else if decide (adaptionType = TYPE_REFINEMENT) then 2 ^ Z.of_nat (getDimension p)
      else 1 in
    let lastCurrentTreeId := treeId + nCurrentTreeIds in
    if Z.ltb 2147483647 lastCurrentTreeId then Undefined
    else
      let currentTreeIds := seqZ treeId nCurrentTreeIds in
      let addedOctants :=
        sl_addedOctants s ++ map (fun i => mkOctantInfo i true) currentTreeIds in
      (* Cells that will be removed *)
      r <- ofold (markPrevious p adaptionType mapper_octantMap mapper_ghostFlag)
                 (sl_deletedOctants s, sl_unmappedOctants s)
                 (seq 0 (length mapper_octantMap)) ;;
      (* Adaption tracking *)
      adaptionData <-
        (if trackChanges then
           let '(infoId, data) := createInfo adaptionType ENTITY_CELL currentRank (sl_adaptionData s) in
           previous <- previousCellIds p mapper_octantMap mapper_ghostFlag ;;
           Returned (alter (fun info =>
                              mkInfo (info_type info) (info_entity info) (info_rank info)
                                     (info_previous info ++ previous)
                                     (info_current info ++ currentTreeIds))
                           infoId data)
         else Returned (sl_adaptionData s)) ;;
      (* Incremente tree id *)
      Returned (treeId + nCurrentTreeIds,
                mkSyncLists r.2 addedOctants (sl_renumberedOctants s) r.1 adaptionData).

(** The loop itself; every iteration advances [treeId], [fuel] bounds the
    number of iterations. *)
Fixpoint syncOctants (fuel : nat) (trackChanges importAll : bool)
         (lastTreeOperation : TreeOperation) (nOctants : Z) (p : patch)
         (treeId : Z) (s : SyncLists) : outcome SyncLists :=
  if Z.leb nOctants treeId then Returned s
  else match fuel with
       | O => Undefined
       | S fuel' =>
           r <- syncOctant trackChanges importAll lastTreeOperation nOctants p treeId s ;;
           syncOctants fuel' trackChanges importAll lastTreeOperation nOctants p r.1 r.2
       end.

(** *** [resetCellOctantMaps(deletedOctants, renumberedOctants, addedOctants)] *)

Definition resetCellOctantMaps (deletedOctants : list DeleteInfo)
           (renumberedOctants : list RenumberInfo) (addedOctants : list OctantInfo)
           (p : patch) : outcome patch :=
  (* Reset the ghost maps *)
  let p := set_maps (m_cellToOctant p) ∅ (m_octantToCell p) ∅ p in
  (* Remove cell-to-tree associations for cells that will be deleted *)
  p <- ofold (fun p deleteInfo =>
                let cellId := di_cellId deleteInfo in
                cell <- or_undefined (Kernel.m_cells (m_kernel p) !! cellId) ;;
                if negb (Cell.isInterior cell) then Returned p
                else
                  octantInfo <- getCellOctant cellId p ;;
                  Returned (set_maps (delete cellId (m_cellToOctant p)) (m_cellToGhost p)
                                     (delete (oi_id octantInfo) (m_octantToCell p))
                                     (m_ghostToCell p) p))
             p deletedOctants ;;
  (* Remove old cell-to-tree associations for renumbered cells *)
  p <- ofold (fun p renumberInfo =>
                let cellId := ri_cellId renumberInfo in
                cell <- or_undefined (Kernel.m_cells (m_kernel p) !! cellId) ;;
                if negb (Cell.isInterior cell) then Returned p
                else
                  previousOctantInfo <- getCellOctant cellId p ;;
                  Returned (set_maps (m_cellToOctant p) (m_cellToGhost p)
                                     (delete (oi_id previousOctantInfo) (m_octantToCell p))
                                     (m_ghostToCell p) p))
             p renumberedOctants ;;
  (* Create cell-to-tree associations for renumbered cells *)
  p <- ofold (fun p renumberInfo =>
                let cellId := ri_cellId renumberInfo in
                cell <- or_undefined (Kernel.m_cells (m_kernel p) !! cellId) ;;
                if negb (Cell.isInterior cell) then Returned p
                else
                  let treeId := ri_newTreeId renumberInfo in
                  Returned (set_maps (<[cellId := treeId]> (m_cellToOctant p)) (m_cellToGhost p)
                                     (<[treeId := cellId]> (m_octantToCell p))
                                     (m_ghostToCell p) p))
             p renumberedOctants ;;
  (* Create cell-to-tree associations for cells that wil be added;
     [insert] leaves an existing key as it is *)
  let insert_new (k v : Z) (m : gmap Z Z) : gmap Z Z :=
    match m !! k with Some _ => m | None => <[k := v]> m end in
  Returned
    (foldl (fun p octantInfo =>
              let '(cellId, kernel) := Kernel.generateCellId (m_kernel p) in
              let p := set_kernel kernel p in
              if oi_internal octantInfo
              then set_maps (insert_new cellId (oi_id octantInfo) (m_cellToOctant p))
                            (m_cellToGhost p)
                            (insert_new (oi_id octantInfo) cellId (m_octantToCell p))
                            (m_ghostToCell p) p
              else set_maps (m_cellToOctant p)
                            (insert_new cellId (oi_id octantInfo) (m_cellToGhost p))
                            (m_octantToCell p)
                            (insert_new (oi_id octantInfo) cellId (m_ghostToCell p)) p)
           p addedOctants).

(** *** [importCells(octantInfoList, stitchInfo)] *)

Definition importCells (octantInfoList : list OctantInfo) (stitchInfo : gmap Z Z) (p : patch)
  : outcome (patch * list Z) :=
  (* Create the new vertices *)
  let nCellVertices := nVertices (cellType p) in
  let '(kernel, stitchInfo) :=
    foldl (fun s octantInfo =>
             foldl (fun s k =>
                      let '(kernel, stitchInfo) := s in
                      let vertexTreeMorton := getNodeMorton (m_tree p) octantInfo k in
                      match stitchInfo !! vertexTreeMorton with
                      | Some _ => s
                      | None =>
                          let nodeCoords := getNode (m_tree p) octantInfo k in
                          let '(vertexId, kernel) := Kernel.addVertex nodeCoords kernel in
                          (kernel, <[vertexTreeMorton := vertexId]> stitchInfo)
                      end)
                   s (seq 0 nCellVertices))
          (m_kernel p, stitchInfo) octantInfoList in
  (* Add the cells *)
  r <- ofold (fun s octantInfo =>
                let '(kernel, createdCells) := s in
                let cellId := getOctantId octantInfo p in
                cellConnect <-
                  ofold (fun acc k =>
                           v <- or_out_of_range
                                  (stitchInfo !! getNodeMorton (m_tree p) octantInfo k) ;;
                           Returned (acc ++ [v]))
                        [] (seq 0 nCellVertices) ;;
                Returned (Kernel.addCell (cellType p) (oi_internal octantInfo) cellConnect
                                         cellId kernel,
                          createdCells ++ [cellId]))
             (kernel, []) octantInfoList ;;
  let '(kernel, createdCells) := r in
  (* Build adjacencies *)
  p <- updateAdjacencies createdCells false (set_kernel kernel p) ;;
  kernel <- or_undefined (updateInterfaces createdCells (m_kernel p)) ;;
  Returned (set_kernel kernel p, createdCells).

(** *** [sync(trackChanges)] and [_updateAdaption(trackAdaption)], built
    without MPI *)

(** The ids of the interfaces a cell lists. *)
Definition cellInterfaceIds (cell : Cell.t) : gset Z :=
  list_to_set (List.filter (fun i => Z.leb 0 i) (Cell.getInterfaces cell)).

(** Track deleted cells: the events of the real deletions and the set of
    the interfaces that go with the deleted cells. *)
Definition trackDeletedCell (p : patch) (s : list Info * gset Z) (deleteInfo : DeleteInfo)
  : outcome (list Info * gset Z) :=
  let cellId := di_cellId deleteInfo in
  let adaptionType := di_trigger deleteInfo in
  let adaptionIsDeletion := bool_decide (adaptionType = TYPE_DELETION) in
  let adaptionIsSend := bool_decide (adaptionType = TYPE_PARTITION_SEND) in
  let data :=
    if adaptionIsDeletion || adaptionIsSend then
      let '(infoId, data) := createInfo adaptionType ENTITY_CELL (di_rank deleteInfo) s.1 in
      alter (push_previous cellId) infoId data
    else s.1 in
  (* List of deleted interfaces *)
  cell <- or_out_of_range (Kernel.m_cells (m_kernel p) !! cellId) ;;
  Returned (data, cellInterfaceIds cell ∪ s.2).

(** Complete mesh adaption info for the cells: the tree ids stored in
    [current] are mapped to the ids of the added cells with
    [m_octantToCell.at]. *)
Definition mapAddedCellIds (p : patch) (info : Info) : outcome Info :=
  if negb (bool_decide (info_entity info = ENTITY_CELL)) then Returned info
  else
    current <- ofold (fun ids treeId =>
                        cellId <- or_out_of_range (m_octantToCell p !! treeId) ;;
                        Returned (ids ++ [cellId]))
                     [] (info_current info) ;;
    Returned (set_current current info).
Definition completeCellInfo (p : patch) (adaptionData : list Info) : outcome (list Info) :=
  ofold (fun acc info => info <- mapAddedCellIds p info ;; Returned (acc ++ [info]))
        [] adaptionData.

Definition sync (trackChanges : bool) (p : patch) : outcome (patch * list Info) :=
  (* If the current mesh is empty we need to import all the octants *)
  let importAll := Z.eqb (getCellCount p) 0 in
  (* Last operation on the tree *)
  let lastTreeOperation := m_lastTreeOperation p in
  if bool_decide (lastTreeOperation = OP_ADAPTION_UNMAPPED) && negb importAll then
    Thrown "Unable to sync the patch after an unmapped adaption"
  else
    (* Info on the tree *)
    let nOctants := getNumOctants (m_tree p) in
    let nPreviousOctants := size (m_octantToCell p) in
    (* Extract information for transforming the patch *)
    s <- syncOctants (Z.to_nat nOctants) trackChanges importAll lastTreeOperation nOctants p 0
                     (mkSyncLists (replicate nPreviousOctants true) [] [] [] []) ;;
    (* Remove unmapped octants *)
    let deletedOctants :=
      sl_deletedOctants s ++
      flat_map (fun previousTreeId =>
                  match sl_unmappedOctants s !! previousTreeId with
                  | Some true =>
                      [mkDeleteInfo (getOctantId (mkOctantInfo (Z.of_nat previousTreeId) true) p)
                                    TYPE_DELETION currentRank]
                  | _ => []
                  end)
               (seq 0 nPreviousOctants) in
    let addedOctants := sl_addedOctants s in
    let adaptionData := sl_adaptionData s in
    (* Reset cell-to-octant and octant-to-cell map *)
    p <- resetCellOctantMaps deletedOctants (sl_renumberedOctants s) addedOctants p ;;
    (* Remove deleted octants *)
    r <- (match deletedOctants with
          | [] => Returned (p, adaptionData, (∅ : gmap Z Z))
          | _ =>
              adaptionData <-
                (if trackChanges then
                   (* Track deleted cells *)
                   t <- ofold (trackDeletedCell p) (adaptionData, ∅) deletedOctants ;;
                   (* Adaption info for the deleted interfaces *)
                   let '(infoId, data) :=
                     createInfo TYPE_DELETION ENTITY_INTERFACE currentRank t.1 in
                   Returned (alter (fun info => foldl (fun i x => push_previous x i) info
                                                      (elements t.2))
                                   infoId data)
                 else Returned adaptionData) ;;
              (* Delete cells *)
              d <- deleteCells deletedOctants p ;;
              Returned (d.1, adaptionData, d.2)
          end) ;;
    let '(p, adaptionData, stitchInfo) := r in
    (* Import added octants *)
    r <- (match addedOctants with
          | [] => Returned (p, [])
          | _ => importCells addedOctants stitchInfo p
          end) ;;
    let '(p, createdCells) := r in
    (* Track mesh adaption *)
    adaptionData <-
      (if trackChanges then
         (* Complete mesh adaption info for the cells: map ids of the added cells *)
         data <- completeCellInfo p adaptionData ;;
         (* Track created interfaces *)
         match createdCells with
         | [] => Returned data
         | _ =>
             createdInterfaces <-
               ofold (fun acc cellId =>
                        cell <- or_out_of_range (Kernel.m_cells (m_kernel p) !! cellId) ;;
                        Returned (cellInterfaceIds cell ∪ acc))
                     (∅ : gset Z) createdCells ;;
             let '(infoId, data) := createInfo TYPE_CREATION ENTITY_INTERFACE currentRank data in
             Returned (alter (fun info => foldl (fun i x => push_current x i) info
                                                (elements createdInterfaces))
                             infoId data)
         end
       else Returned adaptionData) ;;
    (* Done *)
    Returned (p, adaptionData).

Definition _updateAdaption (trackAdaption : bool) (p : patch) : outcome (patch * list Info) :=
  (* Updating the tree *)
  let buildMapping := negb (Z.eqb (getCellCount p) 0) in
  let '(updated, tree) := adapt buildMapping (m_tree p) in
  let p := set_tree tree p in
  let p := set_lastTreeOperation
             (if trackAdaption then OP_ADAPTION_MAPPED else OP_ADAPTION_UNMAPPED) p in
  if negb updated then Returned (p, [])
  else
    (* Sync the patch *)
    sync trackAdaption p.

End WithTree.
End VolOctree.

(** ** A scripted octree, to run the patch on concrete trees *)

Module Scripted.
(** A table-driven stand-in for [PabloUniform]: the octants of the local
    tree with their levels, neighbours, node keys and, after an adaption,
    the mapping to the previous octants.  [adapt] does not compute the new
    tree, it takes it from a script, the list of the trees that the
    successive adaptions produce. *)
Record Snapshot := mkSnapshot {
  sn_levels : list Z;                           (* level of each internal octant *)
  sn_ghostLevels : list Z;                      (* level of each ghost octant *)
  sn_maxDepth : Z;
  sn_mapping : list (list Z * list bool * list Z);
  sn_isNewR : list bool;
  sn_isNewC : list bool;
  sn_neighbours : list (list (list (Z * bool)));  (* octant, face: the neighbours *)
  sn_nodeMorton : list (list Z);                (* octant, node: the key *)
  sn_nodes : list (list (array3D Q))            (* octant, node: the coordinates *)
}.

Record Tree := mkTree {
  tr_L : Q;
  tr_maxLevel : Z;
  tr_marker : gmap Z Z;
  tr_balance : gmap Z bool;
  tr_now : Snapshot;
  tr_script : list Snapshot
}.

Definition at_ {A} (l : list A) (i : Z) (d : A) : A :=
  if Z.ltb i 0 then d else nth (Z.to_nat i) l d.

(** Opposite faces: 0-1, 2-3, 4-5. *)
Definition oppface (f : nat) : nat := if Nat.even f then S f else pred f.

#[global] Instance Scripted_Pablo : Pablo Q Tree := {|
  getNumOctants := fun t => Z.of_nat (length (sn_levels (tr_now t)));
  getNumGhosts := fun t => Z.of_nat (length (sn_ghostLevels (tr_now t)));
  getMaxLevel := tr_maxLevel;
  getMaxDepth := fun t => sn_maxDepth (tr_now t);
  getL := tr_L;
  setL := fun l t => mkTree l (tr_maxLevel t) (tr_marker t) (tr_balance t) (tr_now t) (tr_script t);
  getLevel := fun t o =>
    at_ (if oi_internal o then sn_levels (tr_now t) else sn_ghostLevels (tr_now t)) (oi_id o) 0;
  setMarker := fun i v t =>
    mkTree (tr_L t) (tr_maxLevel t) (<[i := v]> (tr_marker t)) (tr_balance t) (tr_now t) (tr_script t);
  setBalance := fun i b t =>
    mkTree (tr_L t) (tr_maxLevel t) (tr_marker t) (<[i := b]> (tr_balance t)) (tr_now t) (tr_script t);
  adapt := fun _ t =>
    match tr_script t with
    | [] => (false, t)
    | s :: script => (true, mkTree (tr_L t) (tr_maxLevel t) ∅ (tr_balance t) s script)
    end;
  getMapping := fun t i => at_ (sn_mapping (tr_now t)) i ([], [], []);
  getIsNewR := fun t i => at_ (sn_isNewR (tr_now t)) i false;
  getIsNewC := fun t i => at_ (sn_isNewC (tr_now t)) i false;
  findNeighbours := fun t i face codim =>
    if Nat.eqb codim 1 then nth face (at_ (sn_neighbours (tr_now t)) i []) [] else [];
  findGhostNeighbours := fun t i face codim => [];
  getOppface := fun _ => oppface;
  getNodeMorton := fun t o k => nth k (at_ (sn_nodeMorton (tr_now t)) (oi_id o) []) 0;
  getNode := fun t o k => nth k (at_ (sn_nodes (tr_now t)) (oi_id o) []) (mk3 0 0 0)%Q
|}.

(** The face-local vertices of PIXEL and VOXEL cells, and an interface
    builder that creates nothing, for the scenarios that do not look at the
    interfaces. *)
Definition pixelVoxelFaceConnect (ty : ElementType) : list (list nat) :=
  match ty with
  | PIXEL => [[2; 0]; [1; 3]; [0; 1]; [3; 2]]
  | VOXEL => [[2; 0; 6; 4]; [1; 3; 5; 7]; [0; 1; 4; 5]; [3; 2; 7; 6]; [2; 3; 0; 1]; [4; 5; 6; 7]]
  | _ => []
  end%nat.

#[global] Instance Scripted_PatchKernel : PatchKernel Q := {|
  updateInterfaces := fun _ k => Some k;
  kernel_scale := fun s k =>
    Kernel.set_vertices
      ((fun v => mk3 (a3_0 s * a3_0 v) (a3_1 s * a3_1 v) (a3_2 s * a3_2 v))%Q <$> Kernel.m_vertices k) k;
  faceConnect := pixelVoxelFaceConnect
|}.

End Scripted.

(** ** src/CG/CG_elem.cpp: more of the boxes *)

Module CGBoxes.
Import Operators CGElem.
Section WithScalar.
Context {T : Type} `{Scalar T}.
Local Open Scope sc_scope.
Local Abbreviation vec := (array3D T).

(** [intersectBoxBox(A1, A2, B1, B2, I1, I2, dim)], the overload that also
    computes the intersection box; returns the result and the final values
    of [I1], [I2]. *)
Fixpoint intersectBoxBox_out_from (A1 A2 B1 B2 : vec) (d n : nat) (I1 I2 : vec)
  : bool * (vec * vec) :=
  match n with
  | O => (true, (I1, I2))
  | S n' =>
      if (a3_get d B1 >? a3_get d A2) || (a3_get d B2 <? a3_get d A1)
      then (false, (I1, I2))
      else intersectBoxBox_out_from A1 A2 B1 B2 (S d) n'
             (a3_set d (sc_max (a3_get d A1) (a3_get d B1)) I1)
             (a3_set d (sc_min (a3_get d A2) (a3_get d B2)) I2)
  end.
Definition intersectBoxBox_out (A1 A2 B1 B2 I1 I2 : vec) (dim : nat) : bool * (vec * vec) :=
  intersectBoxBox_out_from A1 A2 B1 B2 0 dim I1 I2.

(** [intersectPointBox(P, B1, B2, dim)] *)
Fixpoint intersectPointBox_from (P B1 B2 : vec) (d n : nat) : bool :=
  match n with
  | O => true
  | S n' =>
      if (a3_get d P <? a3_get d B1) || (a3_get d P >? a3_get d B2)
      then false
      else intersectPointBox_from P B1 B2 (S d) n'
  end.
Definition intersectPointBox (P B1 B2 : vec) (dim : nat) : bool :=
  intersectPointBox_from P B1 B2 0 dim.

(** [computeAABBTriangle(A, B, C, P0, P1)]; returns [(P0, P1)]. *)
Definition computeAABBTriangle (A B C : vec) : vec * vec :=
  (mk3 (sc_min (sc_min (a3_0 A) (a3_0 B)) (a3_0 C))
       (sc_min (sc_min (a3_1 A) (a3_1 B)) (a3_1 C))
       (sc_min (sc_min (a3_2 A) (a3_2 B)) (a3_2 C)),
   mk3 (sc_max (sc_max (a3_0 A) (a3_0 B)) (a3_0 C))
       (sc_max (sc_max (a3_1 A) (a3_1 B)) (a3_1 C))
       (sc_max (sc_max (a3_2 A) (a3_2 B)) (a3_2 C))).

(** [computeAABBSimplex(VS, P0, P1)]: [VS[0]] is read first, an empty
    vector has no defined result; then one pass over the other vertices. *)
Definition growAABB (P : vec * vec) (V : vec) : vec * vec :=
  (mk3 (sc_min (a3_0 (fst P)) (a3_0 V)) (sc_min (a3_1 (fst P)) (a3_1 V))
       (sc_min (a3_2 (fst P)) (a3_2 V)),
   mk3 (sc_max (a3_0 (snd P)) (a3_0 V)) (sc_max (a3_1 (snd P)) (a3_1 V))
       (sc_max (a3_2 (snd P)) (a3_2 V))).
Definition computeAABBSimplex (VS : list vec) : option (vec * vec) :=
  match VS with
  | [] => None
  | V0 :: VS' => Some (fold_left growAABB VS' (V0, V0))
  end.

(** [unionAABB(A0, A1, B0, B1, C0, C1)]; returns [(C0, C1)]. *)
Definition unionAABB (A0 A1 B0 B1 : vec) : vec * vec :=
  (mk3 (sc_min (a3_0 A0) (a3_0 B0)) (sc_min (a3_1 A0) (a3_1 B0)) (sc_min (a3_2 A0) (a3_2 B0)),
   mk3 (sc_max (a3_0 A1) (a3_0 B1)) (sc_max (a3_1 A1) (a3_1 B1)) (sc_max (a3_2 A1) (a3_2 B1))).

(** [unionAABB(A0, A1, C0, C1)], the union of several boxes: the first
    [min(A0.size(), A1.size())] boxes count; with none, [C0] and [C1] are
    left as they were.  In the loop [C0], [C1] are both the second box and
    the output of the two-box overload. *)
Definition unionAABB_list (A0 A1 : list vec) (C : vec * vec) : vec * vec :=
  match zip A0 A1 with
  | [] => C
  | b :: bs => fold_left (fun C b => unionAABB (fst b) (snd b) (fst C) (snd C)) bs b
  end.
End WithScalar.
End CGBoxes.

(** ** src/CG/CG_elem.cpp: planes, triangles and simplices *)

Module CGPlanes.
Import Operators CGElem.
Section WithScalar.
Context {T : Type} `{Scalar T}.
Local Open Scope sc_scope.
Local Abbreviation vec := (array3D T).

(** Modelled from the spec: [crossProduct] of bitpit_operators.hpp, the
    vector product of two "fixed-size 3-vectors". *)
Definition crossProduct (a b : vec) : vec :=
  mk3 (a3_1 a * a3_2 b - a3_2 a * a3_1 b)
      (a3_2 a * a3_0 b - a3_0 a * a3_2 b)
      (a3_0 a * a3_1 b - a3_1 a * a3_0 b).

(** [projectPointPlane]: [P - dotProduct(P - Q, n) * n]. *)
Definition projectPointPlane (P Q n : vec) : vec :=
  vsub P (smul (dotProduct (vsub P Q) n) n).

Section WithSqrt.
Context `{ScalarSqrt T}.

(** [intersectPlanePlane(P1, n1, P2, n2, Pl, nl)]; returns the result and
    the final values of [Pl] and [nl].  The literal [0.5] is [1/2]. *)
Definition intersectPlanePlane (P1 n1 P2 n2 Pl nl : vec) : bool * (vec * vec) :=
  let tol := sc_tol14 in
  let n12 := dotProduct n1 n2 in
  let detCB := sc_one - n12 * n12 in
  (* check degenerate condition *)
  if sc_abs detCB <=? tol then (false, (Pl, nl))
  else
    let nl := crossProduct n1 n2 in
    let nl := vdiv nl (norm2 nl) in
    let dP := vsub P2 P1 in
    let rhs0 := dotProduct n1 dP in
    let rhs1 := - dotProduct n2 dP in
    let det1 := rhs0 - n12 * rhs1 in
    let det2 := rhs1 - n12 * rhs0 in
    let lambda1 := det1 / detCB in
    let lambda2 := det2 / detCB in
    let Pl := vsub (vsub (vadd P1 P2) (smul lambda1 n1)) (smul lambda2 n2) in
    let half := sc_one / sc_of_Z 2 in
    let Pl := mk3 (a3_0 Pl * half) (a3_1 Pl * half) (a3_2 Pl * half) in
    (true, (Pl, nl)).

(** [intersectPointTriangle] goes through LAPACK: a parameter.  The locals
    [xP] of [intersectLineTriangle] and [intersectSegmentTriangle] are not
    initialised in the source and are read when the plane test fails:
    their indeterminate values are the parameters [xP_line], [xP_segment]. *)
Variable intersectPointTriangle : vec -> vec -> vec -> vec -> bool.
Variable xP_line xP_segment : vec.

(** [intersectLineTriangle(P, n, A, B, C, Q)] *)
Definition intersectLineTriangle (P n A B C Q : vec) : bool * vec :=
  let nT := crossProduct (vsub B A) (vsub C A) in
  let nT := vdiv nT (norm2 nT) in
  let '(hit, xP) := intersectLinePlane P n A nT xP_line in
  if negb hit && negb (intersectPointTriangle xP A B C) then (false, Q)
  else (true, xP).

(** [intersectSegmentTriangle(P0, P1, A, B, C, Q)] *)
Definition intersectSegmentTriangle (P0 P1 A B C Q : vec) : bool * vec :=
  let n := vsub P1 P0 in
  let n := vdiv n (norm2 n) in
  let '(hit, xP) := intersectLineTriangle P0 n A B C xP_segment in
  if negb hit && negb (intersectPointSegment xP P0 P1) then (false, Q)
  else (true, xP).

(** [intersectSegmentSimplex(P0, P1, V, Q)]: the fan of triangles
    [(V[0], V[i+1], V[i+2])], the first one that is hit decides. *)
Fixpoint intersectSegmentFan (P0 P1 V0 : vec) (V : list vec) (Q : vec) : bool * vec :=
  match V with
  | V1 :: ((V2 :: _) as V') =>
      let '(hit, Q) := intersectSegmentTriangle P0 P1 V0 V1 V2 Q in
      if hit then (true, Q) else intersectSegmentFan P0 P1 V0 V' Q
  | _ => (false, Q)
  end.
Definition intersectSegmentSimplex (P0 P1 : vec) (V : list vec) (Q : vec) : bool * vec :=
  match V with
  | V0 :: V' => intersectSegmentFan P0 P1 V0 V' Q
  | [] => (false, Q)
  end.
End WithSqrt.
End WithScalar.
End CGPlanes.

(** ** src/CG/CG_elem.cpp: barycentric coordinates *)

Module CGBarycentric.
Import Operators CGElem.
Section WithScalar.
Context {T : Type} `{Scalar T}.
Local Open Scope sc_scope.
Local Open Scope outcome_scope.
Local Abbreviation vec := (array3D T).

(** [array[count] = i; ++count;] on a [std::array<int, size>]: the write
    past the last element is undefined. *)
Definition recordIndex (size : nat) (st : nat * list Z) (i : Z) : outcome (nat * list Z) :=
  let '(count, array) := st in
  if (count <? size)%nat then Returned (S count, <[count := i]> array) else Undefined.

(** [convertBarycentricToFlagSegment(lambda)] *)
Definition convertBarycentricToFlagSegment (lambda : T * T) : Z :=
  if fst lambda >=? sc_one then 1
  else if snd lambda >=? sc_one then 2
  else 0.

(** [convertBarycentricToFlagTriangle(lambda)] *)
Definition convertBarycentricToFlagTriangle (lambda : vec) : outcome Z :=
  st <- VolOctree.ofold (fun st i =>
                 if a3_get (Z.to_nat i) lambda <=? sc_zero then recordIndex 2 st i
                 else Returned st)
              (0%nat, [0; 0]%Z) [0; 1; 2]%Z ;;
  let '(count, zeros) := st in
  let zeros0 := nth 0 zeros 0%Z in
  let zeros1 := nth 1 zeros 0%Z in
  Returned (if (count =? 1)%nat then
              let vertex0 := Z.rem (zeros0 + 1) 3 in
              (- (vertex0 + 1))%Z
            else if (count =? 2)%nat then (3 - zeros0 - zeros1 + 1)%Z
            else Z.of_nat count).


(** [reconstructPointFromBarycentricTriangle]:
    [lambda[0]*Q0 + lambda[1]*Q1 + lambda[2]*Q2]. *)
Definition reconstructPointFromBarycentricTriangle (Q0 Q1 Q2 : vec) (lambda : vec) : vec :=
  vadd (vadd (smul (a3_0 lambda) Q0) (smul (a3_1 lambda) Q1)) (smul (a3_2 lambda) Q2).

(** [reconstructPointFromBarycentricSimplex(V, lambda)]; [lambda[i]] is
    read for every vertex. *)
Definition reconstructPointFromBarycentricSimplex (V : list vec) (lambda : list T) : outcome vec :=
  let N := to_int (Z.of_nat (length V)) in
  VolOctree.ofold (fun xP i =>
           l <- or_undefined (lambda !! Z.to_nat i) ;;
           Vi <- or_undefined (V !! Z.to_nat i) ;;
           Returned (vadd xP (smul l Vi)))
        (mk3 sc_zero sc_zero sc_zero) (seqZ 0 N).

(** [restrictPointTriangle(Q0, Q1, Q2, lambda)]; returns the point and the
    final value of [lambda]. *)
Definition restrictPointTriangle (Q0 Q1 Q2 : vec) (lambda : vec) : outcome (vec * vec) :=
  let r (i : Z) : vec := a3_get (Z.to_nat i) (mk3 Q0 Q1 Q2) in
  st <- VolOctree.ofold (fun st i =>
                 if a3_get (Z.to_nat i) lambda <? sc_zero then recordIndex 2 st i
                 else Returned st)
              (0%nat, [0; 0]%Z) [0; 1; 2]%Z ;;
  let '(count, negatives) := st in
  let negatives0 := nth 0 negatives 0%Z in
  let negatives1 := nth 1 negatives 0%Z in
  if (count =? 0)%nat then
    Returned (reconstructPointFromBarycentricTriangle Q0 Q1 Q2 lambda, lambda)
  else if (count =? 1)%nat then
    let vertex0 := Z.rem (negatives0 + 1) 3 in
    let vertex1 := Z.rem (vertex0 + 1) 3 in
    let P := reconstructPointFromBarycentricTriangle Q0 Q1 Q2 lambda in
    let '(xP, lambdaLocal) := projectPointSegment P (r vertex0) (r vertex1) in
    let lambda := a3_set (Z.to_nat negatives0) sc_zero lambda in
    let lambda := a3_set (Z.to_nat vertex0) (fst lambdaLocal) lambda in
    let lambda := a3_set (Z.to_nat vertex1) (snd lambdaLocal) lambda in
    Returned (xP, lambda)
  else
    let vertex0 := (3 - negatives0 - negatives1)%Z in
    let lambda := mk3 sc_zero sc_zero sc_zero in
    let lambda := a3_set (Z.to_nat vertex0) sc_one lambda in
    Returned (r vertex0, lambda).

Section WithSqrt.
Context `{ScalarSqrt T}.
(** [distancePointSegment(P, Q1, Q2, xP, lambda, flag)]; returns the
    distance and the three outputs. *)
Definition distancePointSegment (P Q1 Q2 : vec) : T * (vec * (T * T) * Z) :=
  let '(xP, lambda) := projectPointSegment P Q1 Q2 in
  let flag := convertBarycentricToFlagSegment lambda in
  (norm2 (vsub P xP), (xP, lambda, flag)).
End WithSqrt.
End WithScalar.
End CGBarycentric.

(** ** src/voloctree/voloctree.cpp: the constructor tables and the queries *)

Module VolOctreeQueries.
Import VolOctree.
Section WithTree.
Context {D Tree : Type} `{Scalar D} `{Pablo D Tree}.
Local Open Scope outcome_scope.
Local Abbreviation patch := (VolOctree.t D Tree).

(** The constructor: [m_octantLocalFacesOnVertex],
    [m_octantLocalEdgesOnVertex] and [m_octantLocalFacesOnEdge]. *)
Definition octantLocalFacesOnVertex (dimension : nat) : list (list nat) :=
  if Nat.eqb dimension 3
  then [[0; 2; 4]; [1; 2; 4]; [0; 3; 4]; [1; 3; 4]; [0; 2; 5]; [1; 2; 5]; [0; 3; 5]; [1; 3; 5]]%nat
  else [[0; 2]; [1; 2]; [0; 3]; [1; 3]]%nat.
Definition octantLocalEdgesOnVertex (dimension : nat) : list (list nat) :=
  if Nat.eqb dimension 3
  then [[0; 2; 4]; [1; 2; 5]; [0; 3; 6]; [1; 3; 7]; [4; 8; 10]; [5; 9; 10]; [6; 8; 11]; [7; 9; 11]]%nat
  else [].
Definition octantLocalFacesOnEdge (dimension : nat) : list (list nat) :=
  if Nat.eqb dimension 3
  then [[0; 4]; [1; 4]; [2; 4]; [3; 4]; [0; 2]; [1; 2]; [0; 3]; [1; 3]; [0; 5]; [1; 5]; [2; 5]; [3; 5]]%nat
  else [].

(** The constructor: [m_normals], two vectors per axis; [normal[i] = n]
    writes past the array when the dimension is above 3. *)
Definition normals (dimension : nat) : outcome (list (array3D D)) :=
  if (3 <? dimension)%nat then Undefined
  else Returned
         (flat_map (fun i =>
                      map (fun n => a3_set i (sc_of_Z n) (mk3 sc_zero sc_zero sc_zero))
                          [-1; 1])
                   (seq 0 dimension)).

(** [evalInterfaceNormal(id)]; [m_normals] is written by the constructor
    only. *)
Definition evalInterfaceNormal (id : Z) (p : patch) : outcome (array3D D) :=
  interface <- or_undefined (Kernel.m_interfaces (m_kernel p) !! id) ;;
  let ownerFace := Interface.getOwnerFace interface in
  m_normals <- normals (m_dimension p) ;;
  or_undefined (m_normals !! ownerFace).

(** [isPointInside(id, point)]; [EPS] is the tolerance of the patch,
    [getTol()]. *)
Fixpoint pointInsideFrom (EPS : D) (point lowerLeft upperRight : array3D D) (d n : nat) : bool :=
  match n with
  | O => true
  | S n' =>
      if ((a3_get d point <? a3_get d lowerLeft - EPS)
          || (a3_get d point >? a3_get d upperRight + EPS))%sc
      then false
      else pointInsideFrom EPS point lowerLeft upperRight (S d) n'
  end.
Definition isPointInside (EPS : D) (id : Z) (point : array3D D) (p : patch) : outcome bool :=
  cell <- or_undefined (Kernel.m_cells (m_kernel p) !! id) ;;
  let lowerLeftVertex := 0%nat in
  let upperRightVertex := (2 ^ getDimension p - 1)%nat in
  v <- or_undefined (Cell.connect cell !! lowerLeftVertex) ;;
  lowerLeft <- or_undefined (Kernel.m_vertices (m_kernel p) !! v) ;;
  v <- or_undefined (Cell.connect cell !! upperRightVertex) ;;
  upperRight <- or_undefined (Kernel.m_vertices (m_kernel p) !! v) ;;
  Returned (pointInsideFrom EPS point lowerLeft upperRight 0 3).

(** Modelled from the spec: [utils::addToOrderedVector] is not part of the
    sources at hand; the results of the neighbour searches "are
    deduplicated in ascending id order". *)
Fixpoint addToOrderedVector (x : Z) (l : list Z) : list Z :=
  match l with
  | [] => [x]
  | y :: l' =>
      if Z.ltb x y then x :: l
      else if Z.eqb x y then l
      else y :: addToOrderedVector x l'
  end.

(** [findCellCodimensionNeighs(id, index, codimension, blackList)] *)
Definition findCellCodimensionNeighs (id : Z) (index : nat) (codimension : Z)
           (blackList : list Z) (p : patch) : outcome (list Z) :=
  let dimension := Z.of_nat (getDimension p) in
  if Z.ltb dimension codimension || Z.leb codimension 0 then Returned []
  else
    octantInfo <- getCellOctant id p ;;
    let neighs :=
      if oi_internal octantInfo
      then findNeighbours (m_tree p) (oi_id octantInfo) index (Z.to_nat codimension)
      else findGhostNeighbours (m_tree p) (oi_id octantInfo) index (Z.to_nat codimension) in
    Returned
      (foldl (fun neighs '(neighTreeId, neighGhostFlag) =>
                let neighOctantInfo := mkOctantInfo neighTreeId (negb neighGhostFlag) in
                let neighId := getOctantId neighOctantInfo p in
                if bool_decide (neighId ∈ blackList) then neighs
                else addToOrderedVector neighId neighs)
             [] neighs).

(** The face neighbours come from the patch kernel, which the sources at
    hand do not contain: [_findCellFaceNeighs(id, face, blackList)] is a
    parameter. *)
Variable _findCellFaceNeighs : Z -> nat -> list Z -> patch -> list Z.

(** [_findCellEdgeNeighs(id, edge, blackList)]; [ndebug] tells whether the
    assertions are compiled out. *)
Definition _findCellEdgeNeighs (ndebug : bool) (id : Z) (edge : nat) (blackList : list Z)
           (p : patch) : outcome (list Z) :=
  if negb (isThreeDimensional p) then (if ndebug then Returned [] else Aborted)
  else
    (* Get edge neighbours *)
    let codimension := (Z.of_nat (getDimension p) - 1)%Z in
    neighs <- findCellCodimensionNeighs id edge codimension blackList p ;;
    (* Add face neighbours *)
    faces <- or_undefined (octantLocalFacesOnEdge (getDimension p) !! edge) ;;
    Returned
      (foldl (fun neighs face =>
                foldl (fun neighs neigh => addToOrderedVector neigh neighs)
                      neighs (_findCellFaceNeighs id face blackList p))
             neighs faces).

(** [_findCellVertexNeighs(id, vertex, blackList)] *)
Definition _findCellVertexNeighs (ndebug : bool) (id : Z) (vertex : nat) (blackList : list Z)
           (p : patch) : outcome (list Z) :=
  (* Get vertex neighbours *)
  let codimension := Z.of_nat (getDimension p) in
  neighs <- findCellCodimensionNeighs id vertex codimension blackList p ;;
  (* Add edge neighbours or face neighbours *)
  if isThreeDimensional p then
    edges <- or_undefined (octantLocalEdgesOnVertex (getDimension p) !! vertex) ;;
    ofold (fun neighs edge =>
             edgeNeighs <- _findCellEdgeNeighs ndebug id edge blackList p ;;
             Returned (foldl (fun neighs neigh => addToOrderedVector neigh neighs)
                             neighs edgeNeighs))
          neighs edges
  else
    faces <- or_undefined (octantLocalFacesOnVertex (getDimension p) !! vertex) ;;
    Returned
      (foldl (fun neighs face =>
                foldl (fun neighs neigh => addToOrderedVector neigh neighs)
                      neighs (_findCellFaceNeighs id face blackList p))
             neighs faces).
End WithTree.
End VolOctreeQueries.


(* ===================================================================== *)
(** * Part II. Properties                                                 *)
(* ===================================================================== *)

(** ** The outcome monad *)

Lemma obind_Returned {A B} (m : outcome A) (k : A -> outcome B) (b : B) :
  obind m k = Returned b -> exists a, m = Returned a /\ k a = Returned b.
Proof. destruct m; simpl; intros; try discriminate. eauto. Qed.

Lemma or_undefined_Returned {A} (o : option A) (a : A) :
  or_undefined o = Returned a -> o = Some a.
Proof. destruct o; simpl; intros; congruence. Qed.

Lemma or_out_of_range_Returned {A} (o : option A) (a : A) :
  or_out_of_range o = Returned a -> o = Some a.
Proof. destruct o; simpl; intros; congruence. Qed.

(** Inversion of a run that returned: splits the binds and the container
    accesses of a hypothesis [H]. *)
Ltac inv_outcome H :=
  repeat match type of H with
         | obind _ _ = Returned _ =>
             let a := fresh "a" in
             let Ha := fresh "Ha" in
             apply obind_Returned in H as (a & Ha & H)
         end.

Lemma ofold_app {S A} (f : S -> A -> outcome S) (s : S) (l1 l2 : list A) :
  VolOctree.ofold f s (l1 ++ l2) = obind (VolOctree.ofold f s l1) (fun s' => VolOctree.ofold f s' l2).
Proof.
  revert s. induction l1 as [|a l1 IH]; intros s; simpl; [reflexivity|].
  destruct (f s a); simpl; auto.
Qed.

(** An invariant of the state carries over a loop that returns. *)
Lemma ofold_invariant {S A} (I : S -> Prop) (f : S -> A -> outcome S) (l : list A) :
  (forall s a s', a ∈ l -> I s -> f s a = Returned s' -> I s') ->
  forall s s', I s -> VolOctree.ofold f s l = Returned s' -> I s'.
Proof.
  induction l as [|a l IH]; intros Hstep s s' Hs Hrun; simpl in Hrun.
  - congruence.
  - apply obind_Returned in Hrun as (s1 & H1 & Hrun).
    eapply IH; [| |exact Hrun].
    + intros; eapply Hstep; eauto. by right.
    + eapply Hstep; eauto. by left.
Qed.

(** ** Scenarios *)

Module Scenario.
Import VolOctree Scripted.

(** A 2-D patch of side 1 with the single cell 0 on the root octant; the
    script of the tree holds the outcome of refining that octant: its four
    children in Morton order, each mapped to octant 0.  A node key is the
    position of the node in the 3 x 3 grid of the nodes of the children. *)
Definition rootSnapshot : Snapshot :=
  mkSnapshot [0] [] 0 [] [] [] [[[]; []; []; []]] [[0; 2; 6; 8]]
             [[mk3 0 0 0; mk3 1 0 0; mk3 0 1 0; mk3 1 1 0]]%Q.
Definition refinedSnapshot : Snapshot :=
  mkSnapshot [1; 1; 1; 1] [] 1
             [([0], [false], [0]); ([0], [false], [0]); ([0], [false], [0]); ([0], [false], [0])]
             [true; true; true; true] [false; false; false; false]
             [ [[]; [(1, false)]; []; [(2, false)]];
               [[(0, false)]; []; []; [(3, false)]];
               [[]; [(3, false)]; [(0, false)]; []];
               [[(2, false)]; []; [(1, false)]; []] ]
             [[0; 1; 3; 4]; [1; 2; 4; 5]; [3; 4; 6; 7]; [4; 5; 7; 8]]
             [ [mk3 0 0 0; mk3 (1#2) 0 0; mk3 0 (1#2) 0; mk3 (1#2) (1#2) 0];
               [mk3 (1#2) 0 0; mk3 1 0 0; mk3 (1#2) (1#2) 0; mk3 1 (1#2) 0];
               [mk3 0 (1#2) 0; mk3 (1#2) (1#2) 0; mk3 0 1 0; mk3 (1#2) 1 0];
               [mk3 (1#2) (1#2) 0; mk3 1 (1#2) 0; mk3 (1#2) 1 0; mk3 1 1 0] ]%Q.

Definition rootCell : Cell.t := Cell.create 0 PIXEL [0; 1; 2; 3] true.

Definition rootPatch (script : list Snapshot) : VolOctree.t Q Tree :=
  VolOctree.mk 2%nat
    (Kernel.mk {[0 := rootCell]} ∅
               (list_to_map [(0, mk3 0%Q 0%Q 0%Q); (1, mk3 1%Q 0%Q 0%Q);
                             (2, mk3 0%Q 1%Q 0%Q); (3, mk3 1%Q 1%Q 0%Q)])
               1 4)
    (mkTree 1 20 ∅ ∅ rootSnapshot script)
    OP_INITIALIZATION {[0 := 0]} ∅ {[0 := 0]} ∅ [] [] [].

(** The same patch with a ghost cell 7 on the ghost octant 0. *)
Definition ghostCell : Cell.t := Cell.create 7 PIXEL [1; 4; 3; 5] false.
Definition patchWithGhost : VolOctree.t Q Tree :=
  VolOctree.mk 2%nat
    (Kernel.mk (<[7 := ghostCell]> {[0 := rootCell]}) ∅ ∅ 8 6)
    (mkTree 1 20 ∅ ∅ rootSnapshot [])
    OP_INITIALIZATION {[0 := 0]} {[7 := 0]} {[0 := 0]} {[0 := 7]} [] [] [].

(** A 2-D tree refined twenty times towards its first corner: four octants
    of level 20, then three of each level from 19 down to 1, and a patch
    with the cell 0 on the first of them (level 20, the maximum level of the
    tree) and an interface owned by that cell. *)
Definition cornerLevels : list Z :=
  [20; 20; 20; 20] ++ flat_map (fun l => [l; l; l]) (map (fun k => 19 - k) (seqZ 0 19)).
Definition cornerSnapshot : Snapshot := mkSnapshot cornerLevels [] 20 [] [] [] [] [] [].
Definition cornerPatch : VolOctree.t Q Tree :=
  VolOctree.mk 2%nat
    (Kernel.mk {[0 := rootCell]} {[0 := Interface.mk 0 0 0 (-1) 0]} ∅ 1 4)
    (mkTree 1 20 ∅ ∅ cornerSnapshot [])
    OP_INITIALIZATION {[0 := 0]} ∅ {[0 := 0]} ∅ [] [] [].


(** A 2-D tree with a hanging face: the root is refined once and its second
    child once more.  Seven octants in Morton order: 0 (level 1), 1 .. 4
    (level 2, the children), 5 and 6 (level 1).  The face 1 of the octant 0
    sees the octants 1 and 3.  [hangingPatch ids] is the patch over that
    tree whose cells, fresh, carry the ids [ids], octant by octant. *)
Definition hangingSnapshot : Snapshot :=
  mkSnapshot [1; 2; 2; 2; 2; 1; 1] [] 2 [] [] []
             [ [[]; [(1, false); (3, false)]; []; [(5, false)]];
               [[(0, false)]; [(2, false)]; []; [(3, false)]];
               [[(1, false)]; []; []; [(4, false)]];
               [[(0, false)]; [(4, false)]; [(1, false)]; [(6, false)]];
               [[(3, false)]; []; [(2, false)]; [(6, false)]];
               [[]; [(6, false)]; [(0, false)]; []];
               [[(5, false)]; []; [(3, false); (4, false)]; []] ]
             [] [].
Definition hangingPatch (ids : list Z) : VolOctree.t Q Tree :=
  VolOctree.mk 2%nat
    (Kernel.mk (list_to_map (map (fun i => (i, Cell.create i PIXEL [] true)) ids)) ∅ ∅ 0 0)
    (mkTree 1 20 ∅ ∅ hangingSnapshot [])
    OP_INITIALIZATION
    (list_to_map (zip ids (seqZ 0 7))) ∅ (list_to_map (zip (seqZ 0 7) ids)) ∅ [] [] [].
Definition smallIds := [10; 5; 11; 6; 12; 13; 14].
Definition largeIds := [10; 5; 11; 4294967301; 12; 13; 14].


(** The one-cell patch after [adapt(true)] has refined its octant and
    [_updateAdaption(true)] has recorded the mapped adaption: the state in
    which [sync] is entered. *)
Definition adaptedRootPatch : VolOctree.t Q Tree :=
  set_lastTreeOperation OP_ADAPTION_MAPPED
    (set_tree (adapt true (m_tree (rootPatch [refinedSnapshot]))).2
              (rootPatch [refinedSnapshot])).

(** A 2-D patch of four cells 1 .. 4 on the four children of the root, with
    the nine vertices 0 .. 8 numbered row by row, the four interfaces
    0 .. 3 between the cells and the eight border interfaces 4 .. 11. *)
Definition gridCell (i : Z) (conn : list Z) (interfaces adjacencies : list (list Z)) : Cell.t :=
  Cell.mk i PIXEL conn true interfaces adjacencies.
Definition gridPatch : VolOctree.t Q Tree :=
  VolOctree.mk 2%nat
    (Kernel.mk
       (list_to_map
          [(1, gridCell 1 [0; 1; 3; 4] [[4]; [0]; [5]; [1]] [[]; [2]; []; [3]]);
           (2, gridCell 2 [1; 2; 4; 5] [[0]; [6]; [7]; [2]] [[1]; []; []; [4]]);
           (3, gridCell 3 [3; 4; 6; 7] [[8]; [3]; [1]; [9]] [[]; [4]; [1]; []]);
           (4, gridCell 4 [4; 5; 7; 8] [[3]; [10]; [2]; [11]] [[3]; []; [2]; []])])
       (list_to_map
          [(0, Interface.mk 0 1 1 2 0); (1, Interface.mk 1 1 3 3 2);
           (2, Interface.mk 2 2 3 4 2); (3, Interface.mk 3 3 1 4 0);
           (4, Interface.mk 4 1 0 (-1) 0); (5, Interface.mk 5 1 2 (-1) 0);
           (6, Interface.mk 6 2 1 (-1) 0); (7, Interface.mk 7 2 2 (-1) 0);
           (8, Interface.mk 8 3 0 (-1) 0); (9, Interface.mk 9 3 3 (-1) 0);
           (10, Interface.mk 10 4 1 (-1) 0); (11, Interface.mk 11 4 3 (-1) 0)])
       (list_to_map
          [(0, mk3 0%Q 0%Q 0%Q); (1, mk3 (1#2)%Q 0%Q 0%Q); (2, mk3 1%Q 0%Q 0%Q);
           (3, mk3 0%Q (1#2)%Q 0%Q); (4, mk3 (1#2)%Q (1#2)%Q 0%Q); (5, mk3 1%Q (1#2)%Q 0%Q);
           (6, mk3 0%Q 1%Q 0%Q); (7, mk3 (1#2)%Q 1%Q 0%Q); (8, mk3 1%Q 1%Q 0%Q)])
       5 9)
    (mkTree 1 20 ∅ ∅ refinedSnapshot [])
    OP_INITIALIZATION
    (list_to_map [(1, 0); (2, 1); (3, 2); (4, 3)]) ∅
    (list_to_map [(0, 1); (1, 2); (2, 3); (3, 4)]) ∅ [] [] [].

(** The 2-D tree with a hanging face of [hangingSnapshot], with the keys of
    the nodes (the position in the 5 x 5 grid of the nodes of level 2), and
    the patch over it as the interface builder leaves it: the cells
    10 .. 16 on the octants 0 .. 6, the fourteen vertices numbered row by
    row, the interfaces 0 .. 9 between the cells, owned by the finer cell
    on the hanging faces, and the border interfaces 10 .. 19. *)
Definition hangingNodesSnapshot : Snapshot :=
  mkSnapshot (sn_levels hangingSnapshot) [] 2 [] [] [] (sn_neighbours hangingSnapshot)
             [[0; 2; 10; 12]; [2; 3; 7; 8]; [3; 4; 8; 9]; [7; 8; 12; 13]; [8; 9; 13; 14];
              [10; 12; 20; 22]; [12; 14; 22; 24]]
             [].
Definition hangingMesh : VolOctree.t Q Tree :=
  VolOctree.mk 2%nat
    (Kernel.mk
       (list_to_map
          [(10, gridCell 10 [0; 1; 7; 8] [[10]; [0; 1]; [11]; [8]] [[]; [11; 13]; []; [15]]);
           (11, gridCell 11 [1; 2; 4; 5] [[0]; [2]; [12]; [3]] [[10]; [12]; []; [13]]);
           (12, gridCell 12 [2; 3; 5; 6] [[2]; [13]; [14]; [4]] [[11]; []; []; [14]]);
           (13, gridCell 13 [4; 5; 8; 9] [[1]; [5]; [3]; [6]] [[10]; [14]; [11]; [16]]);
           (14, gridCell 14 [5; 6; 9; 10] [[5]; [15]; [4]; [7]] [[13]; []; [12]; [16]]);
           (15, gridCell 15 [7; 8; 11; 12] [[16]; [9]; [8]; [17]] [[]; [16]; [10]; []]);
           (16, gridCell 16 [8; 10; 12; 13] [[9]; [18]; [6; 7]; [19]] [[15]; []; [13; 14]; []])])
       (list_to_map
          [(0, Interface.mk 0 11 0 10 1); (1, Interface.mk 1 13 0 10 1);
           (2, Interface.mk 2 11 1 12 0); (3, Interface.mk 3 11 3 13 2);
           (4, Interface.mk 4 12 3 14 2); (5, Interface.mk 5 13 1 14 0);
           (6, Interface.mk 6 13 3 16 2); (7, Interface.mk 7 14 3 16 2);
           (8, Interface.mk 8 10 3 15 2); (9, Interface.mk 9 15 1 16 0);
           (10, Interface.mk 10 10 0 (-1) 0); (11, Interface.mk 11 10 2 (-1) 0);
           (12, Interface.mk 12 11 2 (-1) 0); (13, Interface.mk 13 12 1 (-1) 0);
           (14, Interface.mk 14 12 2 (-1) 0); (15, Interface.mk 15 14 1 (-1) 0);
           (16, Interface.mk 16 15 0 (-1) 0); (17, Interface.mk 17 15 3 (-1) 0);
           (18, Interface.mk 18 16 1 (-1) 0); (19, Interface.mk 19 16 3 (-1) 0)])
       (list_to_map
          [(0, mk3 0%Q 0%Q 0%Q); (1, mk3 (1#2)%Q 0%Q 0%Q); (2, mk3 (3#4)%Q 0%Q 0%Q);
           (3, mk3 1%Q 0%Q 0%Q);
           (4, mk3 (1#2)%Q (1#4)%Q 0%Q); (5, mk3 (3#4)%Q (1#4)%Q 0%Q); (6, mk3 1%Q (1#4)%Q 0%Q);
           (7, mk3 0%Q (1#2)%Q 0%Q); (8, mk3 (1#2)%Q (1#2)%Q 0%Q); (9, mk3 (3#4)%Q (1#2)%Q 0%Q);
           (10, mk3 1%Q (1#2)%Q 0%Q);
           (11, mk3 0%Q 1%Q 0%Q); (12, mk3 (1#2)%Q 1%Q 0%Q); (13, mk3 1%Q 1%Q 0%Q)])
       17 14)
    (mkTree 1 20 ∅ ∅ hangingNodesSnapshot [])
    OP_INITIALIZATION
    (list_to_map (zip (seqZ 10 7) (seqZ 0 7))) ∅
    (list_to_map (zip (seqZ 0 7) (seqZ 10 7))) ∅ [] [] [].

(** The list [deleteCells] takes, for the cells [ids]. *)
Definition deletionOf (ids : list Z) : list DeleteInfo :=
  map (fun c => mkDeleteInfo c TYPE_DELETION (-1)) ids.

End Scenario.

(** ** Markers: [set_marker], [_enableCellBalancing] *)

Section Marking.
Context {D Tree : Type} `{Scalar D} `{ScalarPow D} `{Pablo D Tree} `{PatchKernel D}.
Import VolOctree.


End Marking.


(** The interior cell 0 of the same patch: the marker lands on octant 0. *)
Example marking_interior_cell :
  VolOctree._markCellForRefinement 0 Scenario.patchWithGhost
  = Returned (true,
              VolOctree.set_tree
                (setMarker 0 1 (VolOctree.m_tree Scenario.patchWithGhost))
                Scenario.patchWithGhost).
Proof. reflexivity. Qed.

(** ** The per-level tables: [initializeTreeGeometry], [evalCellSize],
    [evalCellVolume], [evalInterfaceArea] *)

Section TreeGeometry.
Context {D Tree : Type} `{Scalar D} `{ScalarPow D} `{Pablo D Tree} `{PatchKernel D}.
Import VolOctree.

(** The edge length of level [l] as [initializeTreeGeometry] computes it:
    [length / pow(2, l)]. *)
Definition levelLength (p : VolOctree.t D Tree) (l : Z) : D :=
  (getL (m_tree p) / sc_pow (sc_of_Z 2) l)%sc.

Lemma getCellLevel_initializeTreeGeometry (p : VolOctree.t D Tree) (id : Z) :
  getCellLevel id (initializeTreeGeometry p) = getCellLevel id p.
Proof. reflexivity. Qed.

(** The three tables have [getMaxLevel()] entries: the levels
    0 .. MAX_LEVEL - 1. *)
Lemma tree_tables_length (p : VolOctree.t D Tree) :
  let p' := initializeTreeGeometry p in
  length (m_tree_dh p') = Z.to_nat (getMaxLevel (m_tree p))
  /\ length (m_tree_area p') = Z.to_nat (getMaxLevel (m_tree p))
  /\ length (m_tree_volume p') = Z.to_nat (getMaxLevel (m_tree p)).
Proof. simpl. rewrite !length_map, !length_seqZ. auto. Qed.

Lemma table_at_level (f : Z -> D) (n l : Z) :
  0 <= l < n -> table_at (map f (seqZ 0 n)) l = Returned (f l).
Proof.
  intros Hl. unfold table_at.
  destruct (Z.ltb_spec l 0); [lia|].
  change (map f (seqZ 0 n)) with (f <$> seqZ 0 n).
  rewrite list_lookup_fmap.
  rewrite (lookup_seqZ_lt 0 n (Z.to_nat l)) by lia.
  simpl. do 2 f_equal. lia.
Qed.

Lemma table_at_end (f : Z -> D) (n l : Z) :
  n <= l -> table_at (map f (seqZ 0 n)) l = Undefined.
Proof.
  intros Hl. unfold table_at.
  destruct (Z.ltb_spec l 0); [reflexivity|].
  change (map f (seqZ 0 n)) with (f <$> seqZ 0 n).
  rewrite list_lookup_fmap.
  rewrite (lookup_seqZ_ge 0 n (Z.to_nat l)) by lia.
  reflexivity.
Qed.

(** Below the maximum level the queries return the entries computed from
    [L / 2^l]. *)
Lemma eval_below_max_level (p : VolOctree.t D Tree) (id l : Z) :
  getCellLevel id p = Returned l ->
  0 <= l < getMaxLevel (m_tree p) ->
  let p' := initializeTreeGeometry p in
  evalCellSize id p' = Returned (sc_pow (levelLength p l) 1)
  /\ evalCellVolume id p' = Returned (sc_pow (levelLength p l) (Z.of_nat (getDimension p))).
Proof.
  intros Hlev Hl p'. unfold evalCellSize, evalCellVolume.
  subst p'. rewrite getCellLevel_initializeTreeGeometry, Hlev. simpl.
  rewrite !table_at_level by lia. auto.
Qed.

Lemma evalInterfaceArea_below_max_level
      (p : VolOctree.t D Tree) (id l : Z) (interface : Interface.t) :
  Kernel.m_interfaces (m_kernel p) !! id = Some interface ->
  getCellLevel (to_int (Interface.getOwner interface)) p = Returned l ->
  0 <= l < getMaxLevel (m_tree p) ->
  evalInterfaceArea id (initializeTreeGeometry p)
  = Returned (sc_pow (levelLength p l) (Z.of_nat (getDimension p) - 1)).
Proof.
  intros Hi Hlev Hl. unfold evalInterfaceArea. simpl. rewrite Hi. simpl.
  rewrite getCellLevel_initializeTreeGeometry, Hlev. simpl.
  rewrite table_at_level by lia. auto.
Qed.

(** At the maximum level (and above) the index is outside the tables. *)
Lemma eval_at_max_level (p : VolOctree.t D Tree) (id l : Z) :
  getCellLevel id p = Returned l ->
  getMaxLevel (m_tree p) <= l ->
  let p' := initializeTreeGeometry p in
  evalCellSize id p' = Undefined /\ evalCellVolume id p' = Undefined.
Proof.
  intros Hlev Hl p'. unfold evalCellSize, evalCellVolume.
  subst p'. rewrite getCellLevel_initializeTreeGeometry, Hlev. simpl.
  rewrite !table_at_end by lia. auto.
Qed.
End TreeGeometry.

(** Over the rationals the entries are [L * 2^(-l)] and its powers. *)
Lemma levelLength_Q (p : VolOctree.t Q Scripted.Tree) (l : Z) :
  (levelLength p l == getL (VolOctree.m_tree p) * Qpower 2 (- l))%Q.
Proof.
  unfold levelLength. simpl. unfold Qdiv.
  rewrite Qpower_opp. reflexivity.
Qed.

(** C7.  [initializeTreeGeometry] fills the tables for the levels
    0 .. MAX_LEVEL - 1 only.  In the patch [cornerPatch] the cell 0 sits at
    the level 20 = MAX_LEVEL of its tree: the tables have 20 entries and
    [evalCellSize], [evalCellVolume] and [evalInterfaceArea] index them out
    of range. *)
Theorem eval_at_MAX_LEVEL_outside_tables :
  let p := VolOctree.initializeTreeGeometry Scenario.cornerPatch in
  VolOctree.getCellLevel 0 p = Returned (getMaxLevel (VolOctree.m_tree p))
  /\ length (VolOctree.m_tree_dh p) = 20%nat
  /\ length (VolOctree.m_tree_area p) = 20%nat
  /\ length (VolOctree.m_tree_volume p) = 20%nat
  /\ VolOctree.evalCellSize 0 p = Undefined
  /\ VolOctree.evalCellVolume 0 p = Undefined
  /\ VolOctree.evalInterfaceArea 0 p = Undefined.
Proof. vm_compute. repeat split. Qed.

(** ** [scale] *)

Section Scale.
Context {Tree : Type} `{Pablo Q Tree} `{PatchKernel Q}.
Import VolOctree.

(** What the test of [scale] computes: both differences exceed 1e-14. *)
Lemma uniformScaling_Q (s : array3D Q) :
  uniformScaling s = true
  <-> (1 # 100000000000000 < Qabs (a3_0 s - a3_1 s)
       /\ 1 # 100000000000000 < Qabs (a3_0 s - a3_2 s))%Q.
Proof.
  unfold uniformScaling. cbn.
  repeat match goal with
         | |- context [Qlt_le_dec ?a ?b] => destruct (Qlt_le_dec a b)
         end; cbn; split; intros Hx; try discriminate; try tauto; exfalso;
    destruct Hx as [Hx1 Hx2];
    match goal with
    | Hlt : (?a < ?b)%Q, Hle : (?b <= ?a)%Q |- _ =>
        exact (Qlt_irrefl _ (Qlt_le_trans _ _ _ Hlt Hle))
    end.
Qed.

(** A scaling vector whose components are equal within 1e-14 is rejected:
    the assertion fails, and without assertions the patch is returned as it
    was. *)
Lemma scale_rejects_uniform (ndebug : bool) (s : array3D Q) (p : VolOctree.t Q Tree) :
  (Qabs (a3_0 s - a3_1 s) <= 1 # 100000000000000)%Q ->
  scale ndebug s p = if ndebug then Returned p else Aborted.
Proof.
  intros Hs. unfold scale.
  destruct (uniformScaling s) eqn:Hu.
  - apply uniformScaling_Q in Hu as [Hu _]. exfalso.
    apply (Qlt_irrefl (1 # 100000000000000)). eapply Qlt_le_trans; eauto.
  - destruct ndebug; reflexivity.
Qed.

(** A vector whose first component differs from the two others by more
    than 1e-14 is accepted and [L] is multiplied by the first component. *)
Lemma scale_accepts_nonuniform (ndebug : bool) (s : array3D Q) (p : VolOctree.t Q Tree) :
  (1 # 100000000000000 < Qabs (a3_0 s - a3_1 s))%Q ->
  (1 # 100000000000000 < Qabs (a3_0 s - a3_2 s))%Q ->
  exists p', scale ndebug s p = Returned p'
             /\ m_tree p' = setL (getL (m_tree p) * a3_0 s)%Q (m_tree p).
Proof.
  intros H1 H2. unfold scale.
  rewrite (proj2 (uniformScaling_Q s) (conj H1 H2)). simpl.
  eexists. split; reflexivity.
Qed.
End Scale.

(** C3.  [scale] on the one-cell patch of side 1: the uniform vector
    (2, 2, 2) is rejected (the patch is returned unchanged, or the assertion
    aborts the program when assertions are compiled in), the non-uniform
    vector (2, 3, 4) is accepted and the side becomes 2. *)
Theorem scale_uniform_rejected_nonuniform_accepted :
  VolOctree.scale true (mk3 2 2 2)%Q (Scenario.rootPatch []) = Returned (Scenario.rootPatch [])
  /\ VolOctree.scale false (mk3 2 2 2)%Q (Scenario.rootPatch []) = Aborted
  /\ exists p', VolOctree.scale true (mk3 2 3 4)%Q (Scenario.rootPatch []) = Returned p'
                /\ getL (VolOctree.m_tree p') = 2%Q
                /\ p' <> Scenario.rootPatch [].
Proof.
  split; [vm_compute; reflexivity|]. split; [vm_compute; reflexivity|].
  eexists. split; [vm_compute; reflexivity|]. split; [reflexivity|].
  intros Heq. apply (f_equal (fun p => getL (VolOctree.m_tree p))) in Heq.
  vm_compute in Heq. discriminate.
Qed.

(** ** The guard of [sync] and [_updateAdaption] *)

Section SyncGuard.
Context {D Tree : Type} `{Scalar D} `{ScalarPow D} `{Pablo D Tree} `{PatchKernel D}.
Import VolOctree.

(** [sync] throws whenever the last tree operation is recorded as an
    unmapped adaption and the patch has cells. *)
Lemma sync_unmapped_throws (trackChanges : bool) (p : VolOctree.t D Tree) :
  m_lastTreeOperation p = OP_ADAPTION_UNMAPPED ->
  getCellCount p <> 0 ->
  sync trackChanges p = Thrown "Unable to sync the patch after an unmapped adaption".
Proof.
  intros Hop Hn. unfold sync. rewrite Hop.
  destruct (Z.eqb_spec (getCellCount p) 0); [contradiction|]. reflexivity.
Qed.

(** [_updateAdaption(false)] records the adaption as unmapped although the
    mapping was built: on a patch with cells it throws as soon as the tree
    has changed. *)
Lemma updateAdaption_untracked_throws (p : VolOctree.t D Tree) :
  getCellCount p <> 0 ->
  (adapt true (m_tree p)).1 = true ->
  _updateAdaption false p = Thrown "Unable to sync the patch after an unmapped adaption".
Proof.
  intros Hn Hup. unfold _updateAdaption.
  destruct (Z.eqb_spec (getCellCount p) 0); [contradiction|]. simpl.
  destruct (adapt true (m_tree p)) as [updated tree] eqn:Ha. simpl in Hup. subst updated.
  simpl. apply sync_unmapped_throws; [reflexivity|exact Hn].
Qed.
End SyncGuard.

(** C1.  The one-cell patch whose cell is refined by the adaption:
    [_updateAdaption(false)] throws, [_updateAdaption(true)] returns. *)
Theorem updateAdaption_untracked_nonempty_throws :
  VolOctree.getCellCount (Scenario.rootPatch [Scenario.refinedSnapshot]) = 1
  /\ VolOctree._updateAdaption false (Scenario.rootPatch [Scenario.refinedSnapshot])
     = Thrown "Unable to sync the patch after an unmapped adaption"
  /\ exists r, VolOctree._updateAdaption true (Scenario.rootPatch [Scenario.refinedSnapshot])
               = Returned r.
Proof.
  split; [reflexivity|]. split; [vm_compute; reflexivity|].
  eexists. vm_compute. reflexivity.
Qed.

(** ** Binary64: comparisons and exact operations *)

Section Binary64Order.
Import Binary64.

Lemma ulp0_pos : (0 < ulp0)%Q.
Proof. unfold ulp0. apply Qpower_0_lt. reflexivity. Qed.

Lemma digits2_pos_size (m : positive) : digits2_pos m = Pos.size m.
Proof. induction m; cbn; congruence. Qed.

Lemma canonical_bounds (m : positive) (e : Z) :
  bounded prec emax m e = true ->
  -1074 <= e /\ Zpos m < 2 ^ 53
  /\ (e = -1074 \/ 2 ^ 52 <= Zpos m).
Proof.
  unfold bounded, canonical_mantissa, fexp, SpecFloat.emin, prec, emax.
  rewrite andb_true_iff, Z.eqb_eq, Z.leb_le. intros [Hc _].
  rewrite digits2_pos_size in Hc.
  pose proof (Pos.size_gt m) as Hgt. pose proof (Pos.size_le m) as Hle.
  apply Pos2Z.pos_lt_pos in Hgt. apply Pos2Z.pos_le_pos in Hle.
  rewrite Pos2Z.inj_pow in Hgt, Hle.
  change (Z.pos (m~0)) with (2 * Z.pos m) in Hle.
  set (d := Z.pos (Pos.size m)) in *.
  assert (Hd : 0 < d) by (unfold d; lia).
  split; [lia|]. split.
  - apply Z.lt_le_trans with (2 ^ d); [exact Hgt|].
    apply Z.pow_le_mono_r; lia.
  - destruct (Z.eq_dec e (-1074)) as [He|He]; [left; exact He|right].
    assert (d = 53) by lia. subst d.
    rewrite H in Hle. change (2 ^ 53) with (2 * 2 ^ 52) in Hle. lia.
Qed.

Lemma SF2Q_scaled (f : spec_float) (q : Q) :
  valid_binary f = true -> SF2Q f = Some q ->
  (q == inject_Z (SF2Z f) * ulp0)%Q.
Proof.
  destruct f as [s| |  |s m e]; cbn [SF2Q SF2Z valid_binary]; try discriminate.
  - intros _ [= <-]. ring.
  - intros Hv [= <-]. destruct (canonical_bounds m e Hv) as (He & _ & _).
    assert (Hp : (Qpower 2 e == inject_Z (2 ^ (e + 1074)) * ulp0)%Q).
    { unfold ulp0. rewrite Zpower_Qpower by lia.
      change (inject_Z 2) with 2%Q.
      rewrite <- Qpower_plus by discriminate.
      replace (e + 1074 + -1074) with e by lia. reflexivity. }
    destruct s; cbn [cond_Zopp].
    + rewrite Hp. rewrite <- Z.mul_opp_l, !inject_Z_mult, inject_Z_opp. ring.
    + rewrite Hp. rewrite !inject_Z_mult. ring.
Qed.

Lemma Qcompare_scaled (a b : Z) :
  (inject_Z a * ulp0 ?= inject_Z b * ulp0)%Q = (a ?= b).
Proof.
  pose proof ulp0_pos as Hu.
  destruct (Z.compare_spec a b) as [Hab|Hab|Hab].
  - subst. apply Qeq_alt. reflexivity.
  - apply Qlt_alt. apply Qmult_lt_r; [exact Hu|]. rewrite <- Zlt_Qlt. exact Hab.
  - apply Qgt_alt. apply Qmult_lt_r; [exact Hu|]. rewrite <- Zlt_Qlt. exact Hab.
Qed.

Lemma scaled_compare (m1 m2 : positive) (e1 e2 : Z) :
  bounded prec emax m1 e1 = true -> bounded prec emax m2 e2 = true ->
  (Zpos m1 * 2 ^ (e1 + 1074) ?= Zpos m2 * 2 ^ (e2 + 1074))
  = match e1 ?= e2 with
    | Lt => Lt
    | Gt => Gt
    | Eq => Pos.compare_cont Eq m1 m2
    end.
Proof.
  intros H1 H2.
  destruct (canonical_bounds m1 e1 H1) as (He1 & Hm1 & Hn1).
  destruct (canonical_bounds m2 e2 H2) as (He2 & Hm2 & Hn2).
  assert (Hstep : forall ma mb ea eb, -1074 <= ea -> ea < eb ->
             Zpos ma < 2 ^ 53 -> 2 ^ 52 <= Zpos mb ->
             Zpos ma * 2 ^ (ea + 1074) < Zpos mb * 2 ^ (eb + 1074)).
  { intros ma mb ea eb Ha Hab Hma Hmb.
    replace (eb + 1074) with ((ea + 1074) + (eb - ea)) by lia.
    rewrite (Z.pow_add_r 2 (ea + 1074) (eb - ea)) by lia.
    assert (Hp : 0 < 2 ^ (ea + 1074)) by (apply Z.pow_pos_nonneg; lia).
    assert (Hq : 2 <= 2 ^ (eb - ea)).
    { change 2 with (2 ^ 1) at 1. apply Z.pow_le_mono_r; lia. }
    apply Z.lt_le_trans with (2 ^ 53 * 2 ^ (ea + 1074)).
    - apply Z.mul_lt_mono_pos_r; assumption.
    - change (2 ^ 53) with (2 ^ 52 * 2). rewrite <- Z.mul_assoc.
      apply Z.mul_le_mono_nonneg; [lia|exact Hmb|lia|nia]. }
  destruct (Z.compare_spec e1 e2) as [He|He|He].
  - subst e2. change (Pos.compare_cont Eq m1 m2) with (Z.pos m1 ?= Z.pos m2).
    assert (Hp : 0 < 2 ^ (e1 + 1074)) by (apply Z.pow_pos_nonneg; lia).
    destruct (Z.compare_spec (Z.pos m1) (Z.pos m2)) as [Hm|Hm|Hm].
    + rewrite Hm. apply Z.compare_refl.
    + apply Z.compare_lt_iff. apply Z.mul_lt_mono_pos_r; assumption.
    + apply Z.compare_gt_iff. apply Z.mul_lt_mono_pos_r; assumption.
  - apply Z.compare_lt_iff. apply Hstep; try lia.
  - apply Z.compare_gt_iff. apply Hstep; try lia.
Qed.

(** On finite values the comparison of binary64 is the comparison of the
    rationals they stand for. *)
Lemma SFcompare_Qcompare (f1 f2 : spec_float) (q1 q2 : Q) :
  valid_binary f1 = true -> valid_binary f2 = true ->
  SF2Q f1 = Some q1 -> SF2Q f2 = Some q2 ->
  SFcompare f1 f2 = Some (q1 ?= q2)%Q.
Proof.
  intros Hv1 Hv2 Hq1 Hq2.
  rewrite (SF2Q_scaled f1 q1 Hv1 Hq1), (SF2Q_scaled f2 q2 Hv2 Hq2).
  rewrite Qcompare_scaled.
  destruct f1 as [s1| | |s1 m1 e1]; try discriminate Hq1;
    destruct f2 as [s2| | |s2 m2 e2]; try discriminate Hq2;
    clear Hq1 Hq2 q1 q2; cbn [SF2Z valid_binary SFcompare] in *.
  - reflexivity.
  - f_equal. destruct (canonical_bounds m2 e2 Hv2) as (He & _ & _).
    assert (0 < 2 ^ (e2 + 1074)) by (apply Z.pow_pos_nonneg; lia).
    destruct s2; cbn [cond_Zopp]; symmetry;
      [apply Z.compare_gt_iff|apply Z.compare_lt_iff]; nia.
  - f_equal. destruct (canonical_bounds m1 e1 Hv1) as (He & _ & _).
    assert (0 < 2 ^ (e1 + 1074)) by (apply Z.pow_pos_nonneg; lia).
    destruct s1; cbn [cond_Zopp]; symmetry;
      [apply Z.compare_lt_iff|apply Z.compare_gt_iff]; nia.
  - f_equal.
    destruct (canonical_bounds m1 e1 Hv1) as (He1 & _ & _).
    destruct (canonical_bounds m2 e2 Hv2) as (He2 & _ & _).
    assert (0 < 2 ^ (e1 + 1074)) by (apply Z.pow_pos_nonneg; lia).
    assert (0 < 2 ^ (e2 + 1074)) by (apply Z.pow_pos_nonneg; lia).
    destruct s1, s2; cbn [cond_Zopp].
    + rewrite Z.compare_opp.
      rewrite (scaled_compare m2 m1 e2 e1 Hv2 Hv1).
      rewrite (Z.compare_antisym e2 e1).
      destruct (e2 ?= e1); cbn; try reflexivity.
      rewrite Pos.compare_cont_antisym. reflexivity.
    + symmetry. apply Z.compare_lt_iff. nia.
    + symmetry. apply Z.compare_gt_iff. nia.
    + symmetry. apply scaled_compare; assumption.
Qed.


Lemma canonical_magnitude (m : positive) (e : Z) :
  bounded prec emax m e = true ->
  0 < Zpos m * 2 ^ (e + 1074) < 2 ^ 2100.
Proof.
  intros Hb. destruct (canonical_bounds m e Hb) as (He & Hm & _).
  revert Hb. unfold bounded, prec, emax. rewrite andb_true_iff, Z.leb_le. intros [_ Hmax].
  assert (Hp : 0 < 2 ^ (e + 1074)) by (apply Z.pow_pos_nonneg; lia).
  split; [lia|].
  apply Z.lt_le_trans with (2 ^ 53 * 2 ^ (e + 1074)).
  - apply Z.mul_lt_mono_pos_r; assumption.
  - rewrite <- Z.pow_add_r by lia. apply Z.pow_le_mono_r; lia.
Qed.

(** The comparison of binary64 is the comparison of the keys; a NaN
    compares with nothing. *)
Lemma SFcompare_key (f1 f2 : spec_float) :
  valid_binary f1 = true -> valid_binary f2 = true ->
  SFcompare f1 f2
  = match SFkey f1, SFkey f2 with
    | Some a, Some b => Some (a ?= b)
    | _, _ => None
    end.
Proof.
  intros Hv1 Hv2.
  assert (Hbig : 0 < 2 ^ 2100) by (apply Z.pow_pos_nonneg; lia).
  destruct f1 as [s1|s1| |s1 m1 e1], f2 as [s2|s2| |s2 m2 e2];
    cbn [SFkey SF2Z valid_binary SFcompare] in *; try reflexivity;
    try pose proof (canonical_magnitude m1 e1 Hv1) as H1;
    try pose proof (canonical_magnitude m2 e2 Hv2) as H2;
    set (big := 2 ^ 2100) in *.
  all: f_equal.
  all: repeat match goal with s : bool |- _ => destruct s end; cbn [cond_Zopp].
  all: try (symmetry;
            first [apply Z.compare_eq_iff; lia | apply Z.compare_lt_iff; lia
                  | apply Z.compare_gt_iff; lia]).
  - rewrite Z.compare_opp.
    rewrite (scaled_compare m2 m1 e2 e1 Hv2 Hv1).
    rewrite (Z.compare_antisym e2 e1).
    destruct (e2 ?= e1); cbn; try reflexivity.
    rewrite Pos.compare_cont_antisym. reflexivity.
  - symmetry. apply scaled_compare; assumption.
Qed.

Lemma ltb_key (x y : float) :
  (x <? y)%float
  = match key x, key y with Some a, Some b => a <? b | _, _ => false end.
Proof.
  rewrite ltb_spec. unfold SFltb, key.
  rewrite SFcompare_key by apply Prim2SF_valid.
  destruct (SFkey (Prim2SF x)) as [a|], (SFkey (Prim2SF y)) as [b|]; reflexivity.
Qed.

Lemma leb_key (x y : float) :
  (x <=? y)%float
  = match key x, key y with Some a, Some b => a <=? b | _, _ => false end.
Proof.
  rewrite leb_spec. unfold SFleb, key.
  rewrite SFcompare_key by apply Prim2SF_valid.
  destruct (SFkey (Prim2SF x)) as [a|], (SFkey (Prim2SF y)) as [b|]; reflexivity.
Qed.

(** A value between two values that are not below [lo] is not below [lo];
    one between two values that are not above [hi] is not above [hi]. *)
Lemma between_not_below (a c b lo : float) :
  between a c b = true ->
  (a <? lo)%float = false -> (b <? lo)%float = false -> (c <? lo)%float = false.
Proof.
  unfold between. rewrite !leb_key, !ltb_key.
  destruct (key a) as [ka|], (key b) as [kb|], (key c) as [kc|], (key lo) as [kl|];
    cbn; try discriminate; try reflexivity; lia.
Qed.

Lemma between_not_above (a c b hi : float) :
  between a c b = true ->
  (hi <? a)%float = false -> (hi <? b)%float = false -> (hi <? c)%float = false.
Proof.
  unfold between. rewrite !leb_key, !ltb_key.
  destruct (key a) as [ka|], (key b) as [kb|], (key c) as [kc|], (key hi) as [kh|];
    cbn; try discriminate; try reflexivity; lia.
Qed.
End Binary64Order.

Section Binary64Values.
Import Binary64 Exactness.
Local Open Scope Q_scope.

Lemma F2Q_value (x : float) : finite x = true -> F2Q x = Some (value x).
Proof. unfold finite, value. destruct (F2Q x); [reflexivity|discriminate]. Qed.

Lemma F2Q_compare (x y : float) :
  finite x = true -> finite y = true ->
  SFcompare (Prim2SF x) (Prim2SF y) = Some (value x ?= value y).
Proof.
  intros Hx Hy.
  apply SFcompare_Qcompare; try apply Prim2SF_valid; apply F2Q_value; assumption.
Qed.

(** On finite values [<] and [<=] of binary64 are those of the rationals. *)
Lemma ltb_value (x y : float) :
  finite x = true -> finite y = true ->
  (x <? y)%float = true <-> value x < value y.
Proof.
  intros Hx Hy. rewrite ltb_spec. unfold SFltb. rewrite (F2Q_compare x y Hx Hy).
  rewrite Qlt_alt. destruct (value x ?= value y); split; congruence.
Qed.

Lemma ltb_value_false (x y : float) :
  finite x = true -> finite y = true ->
  (x <? y)%float = false <-> value y <= value x.
Proof.
  intros Hx Hy. rewrite <- not_true_iff_false, (ltb_value x y Hx Hy).
  split; [apply Qnot_lt_le|apply Qle_not_lt].
Qed.

Lemma leb_value (x y : float) :
  finite x = true -> finite y = true ->
  (x <=? y)%float = true <-> value x <= value y.
Proof.
  intros Hx Hy. rewrite leb_spec. unfold SFleb. rewrite (F2Q_compare x y Hx Hy).
  rewrite Qle_alt. destruct (value x ?= value y); split; congruence.
Qed.

Lemma represents_spec (x : float) (q : Q) :
  represents x q = true <-> finite x = true /\ value x == q.
Proof. unfold represents. rewrite andb_true_iff, Qeq_bool_iff. reflexivity. Qed.

Lemma exact_op2 f g (a b : tracked) :
  exact (op2 f g a b) = true ->
  exact a = true /\ exact b = true /\ finite (f (computed a) (computed b)) = true
  /\ value (f (computed a) (computed b)) == g (ideal a) (ideal b).
Proof. cbn. rewrite !andb_true_iff, represents_spec. tauto. Qed.

(** A division whose result is exact has a divisor other than zero. *)
Lemma finite_div_nonzero (x y : float) :
  finite y = true -> finite (x / y)%float = true -> ~ value y == 0.
Proof.
  unfold finite, value, F2Q. rewrite div_spec.
  destruct (Prim2SF y) as [s| | |s m e] eqn:Hy; cbn [SF2Q]; try discriminate.
  - intros _. destruct (Prim2SF x); cbn; discriminate.
  - intros _ _.
    assert (Hp : 0 < inject_Z (Z.pos m) * 2 ^ e).
    { apply Qmult_lt_0_compat; [|apply Qpower_0_lt; reflexivity].
      change 0 with (inject_Z 0). rewrite <- Zlt_Qlt. lia. }
    destruct s; lra.
Qed.

Lemma leb_value_false (x y : float) :
  finite x = true -> finite y = true ->
  (x <=? y)%float = false <-> value y < value x.
Proof.
  intros Hx Hy. rewrite <- not_true_iff_false, (leb_value x y Hx Hy).
  split; [apply Qnot_le_lt|apply Qlt_not_le].
Qed.

(** [std::abs] is exact. *)
Lemma value_abs (x : float) :
  finite x = true ->
  finite (abs x) = true /\ value (abs x) == Qabs (value x).
Proof.
  unfold finite, value, F2Q. rewrite abs_spec.
  destruct (Prim2SF x) as [s| | |s m e]; cbn [SF2Q SFabs]; try discriminate.
  - intros _. split; reflexivity.
  - intros _. split; [reflexivity|].
    assert (Hp : 0 < inject_Z (Z.pos m) * 2 ^ e).
    { apply Qmult_lt_0_compat; [|apply Qpower_0_lt; reflexivity].
      change 0 with (inject_Z 0). rewrite <- Zlt_Qlt. lia. }
    destruct s.
    + rewrite Qabs_opp. symmetry. apply Qabs_pos. lra.
    + symmetry. apply Qabs_pos. lra.
Qed.

Lemma value_one : value 1%float == 1.
Proof. vm_compute. reflexivity. Qed.

(** [max(min(t, 1), 0)] on a value computed exactly: the program takes
    the branch that exact arithmetic takes. *)
Lemma clamp_exact (t : tracked) :
  finite (computed t) = true -> value (computed t) == ideal t ->
  let c := sc_max (sc_min t sc_one) sc_zero in
  computed c = sc_max (sc_min (computed t) sc_one) sc_zero
  /\ finite (computed c) = true /\ value (computed c) == ideal c
  /\ ((ideal t < 0 /\ ideal c == 0) \/ (0 <= ideal t <= 1 /\ ideal c == ideal t)
      \/ (1 < ideal t /\ ideal c == 1)).
Proof.
  intros Hf Hv. unfold sc_max, sc_min. cbn [sc_ltb sc_one sc_zero tracked_Scalar float_Scalar computed given].
  assert (H1 : finite 1%float = true) by reflexivity.
  assert (H0 : finite 0%float = true) by reflexivity.
  pose proof value_one as Hone.
  destruct (1 <? computed t)%float eqn:E1.
  - apply (ltb_value _ _ H1 Hf) in E1.
    cbn [computed given].
    change (1 <? 0)%float with false. cbv iota. cbn [computed ideal given].
    split; [reflexivity|]. split; [reflexivity|]. split; [reflexivity|].
    right. right. rewrite <- Hv. split; [lra|exact Hone].
  - apply (ltb_value_false _ _ H1 Hf) in E1.
    destruct (computed t <? 0)%float eqn:E2.
    + apply (ltb_value _ _ Hf H0) in E2. cbn [computed ideal given].
      split; [reflexivity|]. split; [reflexivity|]. split; [reflexivity|].
      left. rewrite <- Hv. split; [exact E2|reflexivity].
    + apply (ltb_value_false _ _ Hf H0) in E2.
      split; [reflexivity|]. split; [exact Hf|]. split; [exact Hv|].
      right. left. rewrite <- Hv. change (value 0) with 0 in E2. split; [lra|reflexivity].
Qed.
End Binary64Values.

Section Binary64NaN.
Import Binary64.

Lemma is_nan_Prim2SF (x : float) : is_nan x = true <-> Prim2SF x = S754_nan.
Proof.
  unfold Prim2SF. destruct (is_nan x); [split; reflexivity|].
  split; [discriminate|].
  destruct (is_zero x); [discriminate|]. destruct (is_infinity x); [discriminate|].
  destruct (Z.frexp x) as [r e]. destruct (shr_fexp _ _ _ _ _) as [shr e'].
  destruct (shr_m shr); discriminate.
Qed.

Lemma is_nan_key (x : float) : is_nan x = true <-> key x = None.
Proof.
  rewrite is_nan_Prim2SF. unfold key, SFkey.
  destruct (Prim2SF x); split; intros; congruence.
Qed.

(** A NaN operand gives a NaN. *)
Lemma is_nan_add (a b : float) :
  is_nan a = true \/ is_nan b = true -> is_nan (a + b)%float = true.
Proof.
  rewrite !is_nan_Prim2SF, add_spec. unfold SF64add.
  intros [-> | ->]; [reflexivity|]. destruct (Prim2SF a); reflexivity.
Qed.

Lemma is_nan_sub (a b : float) :
  is_nan a = true \/ is_nan b = true -> is_nan (a - b)%float = true.
Proof.
  rewrite !is_nan_Prim2SF, sub_spec. unfold SF64sub.
  intros [-> | ->]; [reflexivity|]. destruct (Prim2SF a); reflexivity.
Qed.

Lemma is_nan_mul (a b : float) :
  is_nan a = true \/ is_nan b = true -> is_nan (a * b)%float = true.
Proof.
  rewrite !is_nan_Prim2SF, mul_spec. unfold SF64mul.
  intros [-> | ->]; [reflexivity|]. destruct (Prim2SF a); reflexivity.
Qed.

Lemma is_nan_div (a b : float) :
  is_nan a = true \/ is_nan b = true -> is_nan (a / b)%float = true.
Proof.
  rewrite !is_nan_Prim2SF, div_spec. unfold SF64div.
  intros [-> | ->]; [reflexivity|]. destruct (Prim2SF a); reflexivity.
Qed.

(** Values that are a NaN or a zero of either sign: the differences
    [x - x], and what sums and products make of them. *)
Definition nanOrZero (x : float) : Prop :=
  match Prim2SF x with S754_nan | S754_zero _ => True | _ => False end.

Lemma nanOrZero_zero : nanOrZero 0%float.
Proof. exact I. Qed.

Lemma nanOrZero_sub_diag (x : float) : nanOrZero (x - x)%float.
Proof.
  unfold nanOrZero. rewrite sub_spec. unfold SF64sub.
  destruct (Prim2SF x) as [[|]|[|]| |s m e]; cbn [SFsub]; try exact I.
  rewrite Z.sub_diag. exact I.
Qed.

Lemma nanOrZero_mul (a b : float) : nanOrZero a -> nanOrZero (a * b)%float.
Proof.
  unfold nanOrZero. rewrite mul_spec. unfold SF64mul.
  destruct (Prim2SF a); try contradiction; intros _; destruct (Prim2SF b); exact I.
Qed.

Lemma nanOrZero_add (a b : float) :
  nanOrZero a -> nanOrZero b -> nanOrZero (a + b)%float.
Proof.
  unfold nanOrZero. rewrite add_spec. unfold SF64add.
  destruct (Prim2SF a) as [[|]| | |]; try contradiction; intros _;
    destruct (Prim2SF b) as [[|]| | |]; try contradiction; intros _; exact I.
Qed.

Lemma nanOrZero_opp (a : float) : nanOrZero a -> nanOrZero (- a)%float.
Proof.
  unfold nanOrZero. rewrite opp_spec.
  destruct (Prim2SF a); try contradiction; intros _; exact I.
Qed.

Lemma nanOrZero_div (a b : float) :
  nanOrZero a -> nanOrZero b -> is_nan (a / b)%float = true.
Proof.
  unfold nanOrZero. rewrite is_nan_Prim2SF, div_spec. unfold SF64div.
  destruct (Prim2SF a); try contradiction; intros _;
    destruct (Prim2SF b); try contradiction; intros _; reflexivity.
Qed.
End Binary64NaN.

(** ** Projection on a segment: [projectPointSegment] *)

Section ProjectPointSegment.
Import Operators CGElem Binary64 Exactness.
Local Open Scope Q_scope.

Definition segmentPoint (Q0 Q1 : array3D Q) (s : Q) : array3D Q :=
  vadd (smul (1 - s) Q0) (smul s Q1).
Definition lineParameter (P Q0 Q1 : array3D Q) : Q :=
  - dotProduct (vsub Q1 Q0) (vsub Q0 P) / dotProduct (vsub Q1 Q0) (vsub Q1 Q0).
Definition degenerate (Q0 Q1 : array3D Q) : Prop :=
  a3_0 Q0 == a3_0 Q1 /\ a3_1 Q0 == a3_1 Q1 /\ a3_2 Q0 == a3_2 Q1.








Lemma degenerate_norm (Q0 Q1 : array3D Q) :
  degenerate Q0 Q1 -> dotProduct (vsub Q1 Q0) (vsub Q1 Q0) == 0.
Proof.
  destruct Q0, Q1. unfold degenerate, dotProduct, vsub. cbn.
  intros (-> & -> & ->). ring.
Qed.

Lemma exact_combination (c a b : tracked) :
  exact ((sc_one - c) * a + c * b)%sc = true ->
  (finite (computed (sc_one - c)%sc) = true
   /\ value (computed (sc_one - c)%sc) == 1 - ideal c)
  /\ finite (computed ((sc_one - c) * a + c * b)%sc) = true
  /\ value (computed ((sc_one - c) * a + c * b)%sc)
     == (1 - ideal c) * ideal a + ideal c * ideal b.
Proof.
  intros Hx.
  destruct (exact_op2 _ _ _ _ Hx) as (H1 & _ & Hf & Hv).
  destruct (exact_op2 _ _ _ _ H1) as (H2 & _ & _ & _).
  destruct (exact_op2 _ _ _ _ H2) as (_ & _ & Hf0 & Hv0).
  pose proof value_one as Hone.
  split; [split; [exact Hf0|]|split; [exact Hf|]].
  - rewrite Hv0. cbn. rewrite Hone. reflexivity.
  - rewrite Hv. cbn. rewrite Hone. reflexivity.
Qed.

(** In every run the binary64 component of the run on tracked values is
    the run of the program. *)
Lemma projectPointSegment_computed (P Q0 Q1 : array3D float) :
  let r := projectPointSegment (map3 given P) (map3 given Q0) (map3 given Q1) in
  projectPointSegment P Q0 Q1
  = (map3 computed (fst r), (computed (fst (snd r)), computed (snd (snd r)))).
Proof.
  unfold projectPointSegment, reconstructPointFromBarycentricSegment. cbv zeta. cbn [fst snd].
  set (t := (- dotProduct (vsub (map3 given Q1) (map3 given Q0))
                          (vsub (map3 given Q0) (map3 given P))
             / dotProduct (vsub (map3 given Q1) (map3 given Q0))
                          (vsub (map3 given Q1) (map3 given Q0)))%sc).
  change (- dotProduct (vsub Q1 Q0) (vsub Q0 P) / dotProduct (vsub Q1 Q0) (vsub Q1 Q0))%sc
    with (computed t).
  clearbody t. unfold sc_max, sc_min. cbn [sc_ltb sc_one sc_zero tracked_Scalar float_Scalar computed given].
  destruct (1 <? computed t)%float.
  - cbn [computed given]. destruct (1 <? 0)%float; reflexivity.
  - destruct (computed t <? 0)%float; reflexivity.
Qed.

(** The run of [projectPointSegment] in binary64 when the line parameter
    and the returned point are computed exactly: the end points differ and
    the outputs stand for the clamped parameter [c] of exact arithmetic,
    for [1 - c] and for the point of the segment at [c]. *)
Lemma projectPointSegment_exact_run (P Q0 Q1 : array3D float) :
  let n := vsub (map3 given Q1) (map3 given Q0) in
  let t := (- dotProduct n (vsub (map3 given Q0) (map3 given P)) / dotProduct n n)%sc in
  exact t = true ->
  all3 exact (fst (projectPointSegment (map3 given P) (map3 given Q0) (map3 given Q1))) = true ->
  let X := fst (projectPointSegment P Q0 Q1) in
  let lambda := snd (projectPointSegment P Q0 Q1) in
  let p := map3 value P in
  let q0 := map3 value Q0 in
  let q1 := map3 value Q1 in
  let T := lineParameter p q0 q1 in
  exists c : Q,
    ~ degenerate q0 q1
    /\ ((T < 0 /\ c == 0) \/ (0 <= T <= 1 /\ c == T) \/ (1 < T /\ c == 1))
    /\ all3 finite X = true /\ finite (fst lambda) = true /\ finite (snd lambda) = true
    /\ value (fst lambda) == 1 - c /\ value (snd lambda) == c
    /\ veq (map3 value X) (segmentPoint q0 q1 c).
Proof.
  intros n t Ht HX X lambda p q0 q1 T.
  (* the line parameter *)
  assert (Hti : ideal t = T) by reflexivity.
  destruct (exact_op2 _ _ _ _ Ht) as (_ & Hden & Htf & Htv).
  fold t in Htf, Htv. change (computed (- _ / _)%sc) with (computed t) in Htf, Htv.
  change (sc_div (ideal _) (ideal ?d)) with (ideal t) in Htv.
  destruct (exact_op2 _ _ _ _ Hden) as (_ & _ & Hdf & Hdv).
  pose proof (finite_div_nonzero _ _ Hdf Htf) as Hnz.
  rewrite Hdv in Hnz.
  assert (Hnd : ~ degenerate q0 q1).
  { intros Hd. apply Hnz. exact (degenerate_norm q0 q1 Hd). }
  clear Hden Hdf Hdv Hnz.
  (* the clamp *)
  destruct (clamp_exact t Htf Htv) as (Hcc & Hcf & Hcv & Hcases).
  set (c := sc_max (sc_min t sc_one) sc_zero) in *.
  (* the two runs *)
  assert (Hrun : projectPointSegment (map3 given P) (map3 given Q0) (map3 given Q1)
                 = (vadd (smul (sc_one - c)%sc (map3 given Q0)) (smul c (map3 given Q1)),
                    ((sc_one - c)%sc, c))) by reflexivity.
  assert (Hflt : projectPointSegment P Q0 Q1
                 = (map3 computed (vadd (smul (sc_one - c)%sc (map3 given Q0))
                                        (smul c (map3 given Q1))),
                    (computed (sc_one - c)%sc, computed c))).
  { unfold projectPointSegment, reconstructPointFromBarycentricSegment. cbv zeta. cbn [fst snd].
    change (computed (sc_one - c)%sc) with (1 - computed c)%float.
    unfold vadd, smul, map3.
    cbn [a3_0 a3_1 a3_2 computed sc_add sc_mul sc_sub sc_one tracked_Scalar op2 given].
    rewrite Hcc. destruct P, Q0, Q1. reflexivity. }
  rewrite Hrun in HX. cbn [fst] in HX.
  subst X lambda. rewrite Hflt. cbn [fst snd].
  rewrite Hti in Hcases. clear Hrun Hflt Ht Htf Htv Hti Hcc.
  clearbody c. clear t n.
  unfold all3, vadd, smul, map3 in HX. cbn [a3_0 a3_1 a3_2] in HX.
  apply andb_true_iff in HX as [HX H2]. apply andb_true_iff in HX as [H0 H1].
  destruct (exact_combination _ _ _ H0) as ((Hl0f & Hl0) & Hx0f & Hx0).
  destruct (exact_combination _ _ _ H1) as (_ & Hx1f & Hx1).
  destruct (exact_combination _ _ _ H2) as (_ & Hx2f & Hx2).
  clear H0 H1 H2.
  exists (ideal c).
  split; [exact Hnd|]. split; [exact Hcases|]. split.
  { unfold all3, vadd, smul, map3. cbn [a3_0 a3_1 a3_2]. rewrite Hx0f, Hx1f, Hx2f. reflexivity. }
  split; [exact Hl0f|]. split; [exact Hcf|].
  split; [exact Hl0|]. split; [exact Hcv|].
  unfold veq, segmentPoint, vadd, smul, map3. cbn [a3_0 a3_1 a3_2].
  rewrite Hx0, Hx1, Hx2. repeat split; reflexivity.
Qed.



End ProjectPointSegment.

(** ** Relative complement of boxes: [subtractionAABB] *)

Section SubtractionAABB.
Context {T : Type} `{Scalar T}.
Import CGElem.
Local Open Scope sc_scope.

(** When the Y branch is taken and the interval of [B] on Y does not
    contain [A0[1]] (resp. [A1[1]]), the lower (resp. upper) bound written
    on the axis Y is [A0[2]] (resp. [A1[2]]), a bound of [A] on the axis
    Z, whatever the branch of the axis Z does afterwards. *)
Lemma subtractionAABB_Y_fallback (A0 A1 B0 B1 C0 C1 : array3D T) :
  (a3_0 B0 <=? a3_0 A0) && (a3_2 B0 <=? a3_2 A0)
  && (a3_0 B1 >=? a3_0 A1) && (a3_2 B1 >=? a3_2 A1) = true ->
  (a3_1 B0 <=? a3_1 A0) && (a3_1 B1 >=? a3_1 A0) = false ->
  (a3_1 B0 <=? a3_1 A1) && (a3_1 B1 >=? a3_1 A1) = false ->
  a3_1 (fst (subtractionAABB A0 A1 B0 B1 (C0, C1))) = a3_2 A0
  /\ a3_1 (snd (subtractionAABB A0 A1 B0 B1 (C0, C1))) = a3_2 A1.
Proof.
  intros Hy H0 H1. unfold subtractionAABB.
  rewrite Hy, H0, H1.
  repeat match goal with
         | |- context [if ?b then _ else _] => destruct b
         end; cbn; auto.
Qed.
End SubtractionAABB.

Section SubtractionAABB_binary64.
Local Open Scope float_scope.

(** C9.  In binary64: [A] = [0,1] x [10,11] x [20,21], [B] covers [A] on the
    axes X and Z and lies beyond it on Y.  Only the Y branch is taken; the
    bounds it writes on the axis Y are 20 and 21, the bounds of [A] on the
    axis Z, where the per-axis clamp of the specification gives 10 and 11. *)
Theorem subtractionAABB_Y_branch_reads_Z_bounds :
  let A0 := mk3 0 10 20 in
  let A1 := mk3 1 11 21 in
  let B0 := mk3 (-1) 100 (-1) in
  let B1 := mk3 2 101 100 in
  let C := (mk3 7 7 7, mk3 8 8 8) in
  CGElem.subtractionAABB A0 A1 B0 B1 C = (mk3 7 20 7, mk3 8 21 8)
  /\ CGElem.subtractionAABB_spec A0 A1 B0 B1 C = (mk3 7 10 7, mk3 8 11 8).
Proof. vm_compute. split; reflexivity. Qed.
End SubtractionAABB_binary64.

(** ** Intersection predicates and their output parameter *)

Section IntersectionOutputs.
Context {T : Type} `{Scalar T} `{ScalarSqrt T}.
Import CGElem.

(** [intersectLinePlane] and [intersectSegmentPlane] leave [P] as it was
    when they return false. *)
Lemma intersectLinePlane_false_unaltered (P1 n1 P2 n2 P : array3D T) :
  fst (intersectLinePlane P1 n1 P2 n2 P) = false ->
  snd (intersectLinePlane P1 n1 P2 n2 P) = P.
Proof. unfold intersectLinePlane. destruct (_ <? _)%sc; cbn; [auto|discriminate]. Qed.

Lemma intersectSegmentPlane_false_unaltered (Q1 Q2 P2 n2 P : array3D T) :
  fst (intersectSegmentPlane Q1 Q2 P2 n2 P) = false ->
  snd (intersectSegmentPlane Q1 Q2 P2 n2 P) = P.
Proof.
  unfold intersectSegmentPlane.
  destruct (intersectLinePlane _ _ _ _ _) as [hit xP].
  destruct (hit && _); cbn; [discriminate|auto].
Qed.

(** [intersectSegmentSegment] returns whatever [intersectLineLine] left in
    [x]: when the supporting lines meet outside the segments the result is
    false and [x] holds the meeting point. *)
Lemma intersectSegmentSegment_output (P1 P2 Q1 Q2 x : array3D T) :
  let nP := Operators.vdiv (Operators.vsub P2 P1) (Operators.norm2 (Operators.vsub P2 P1)) in
  let nQ := Operators.vdiv (Operators.vsub Q2 Q1) (Operators.norm2 (Operators.vsub Q2 Q1)) in
  snd (intersectSegmentSegment P1 P2 Q1 Q2 x) = snd (intersectLineLine P1 nP Q1 nQ x).
Proof.
  cbv zeta. unfold intersectSegmentSegment.
  destruct (intersectLineLine _ _ _ _ _) as [hit y]. cbn.
  destruct hit; [|reflexivity].
  match goal with |- context [if ?b then _ else _] => destruct b end; reflexivity.
Qed.

(** [intersectSegmentBox] clears [P] before anything else: when it returns
    false the vector is empty, whatever it held. *)
Lemma segmentBoxEdges_false bc V1 V2 A1 A2 i n E1 E2 p (P : list (array3D T)) r :
  segmentBoxEdges bc V1 V2 A1 A2 i n E1 E2 p false P = (false, r) -> r = P.
Proof.
  revert i E1 E2 p. induction n as [|n IH]; intros i E1 E2 p; cbn.
  - congruence.
  - destruct (edgeOfBox bc i A1 A2 E1 E2) as [E1' E2'].
    destruct (intersectSegmentSegment E1' E2' V1 V2 p) as [hit p'].
    destruct hit; [|apply IH].
    intros Hr. exfalso.
    assert (Htrue : forall m j F1 F2 q (R : list (array3D T)),
               fst (segmentBoxEdges bc V1 V2 A1 A2 j m F1 F2 q true R) = true).
    { clear. induction m as [|m IHm]; intros; cbn; [reflexivity|].
      destruct (edgeOfBox bc j A1 A2 F1 F2) as [G1 G2].
      destruct (intersectSegmentSegment G1 G2 V1 V2 q) as [h q']. destruct h; apply IHm. }
    specialize (Htrue n (S i) E1' E2' p' (P ++ [p'])). rewrite Hr in Htrue. discriminate.
Qed.

Lemma segmentBoxFaces_false bf iss V1 V2 A1 A2 i n E p (P : list (array3D T)) r :
  segmentBoxFaces bf iss V1 V2 A1 A2 i n E p false P = (false, r) -> r = P.
Proof.
  revert i E p. induction n as [|n IH]; intros i E p; cbn.
  - congruence.
  - destruct (iss V1 V2 (faceOfBox bf i A1 A2 E) p) as [hit p'].
    destruct hit; [|apply IH].
    intros Hr. exfalso.
    assert (Htrue : forall m j F q (R : list (array3D T)),
               fst (segmentBoxFaces bf iss V1 V2 A1 A2 j m F q true R) = true).
    { clear. induction m as [|m IHm]; intros; cbn; [reflexivity|].
      destruct (iss V1 V2 (faceOfBox bf j A1 A2 F) q) as [h q']. destruct h; apply IHm. }
    specialize (Htrue n (S i) (faceOfBox bf i A1 A2 E) p' (P ++ [p'])).
    rewrite Hr in Htrue. discriminate.
Qed.

Lemma intersectSegmentBox_false_cleared bc bf iss V1 V2 A1 A2 (P : list (array3D T)) dim r :
  intersectSegmentBox bc bf iss V1 V2 A1 A2 P dim = Some (false, r) -> r = [].
Proof.
  unfold intersectSegmentBox.
  destruct (computeAABBSegment V1 V2) as [B1 B2].
  destruct (negb _); [congruence|].
  destruct (Nat.eqb dim 2).
  - intros Hr. apply (inj Some) in Hr. eapply segmentBoxEdges_false in Hr. exact Hr.
  - destruct (Nat.eqb dim 3); [|discriminate].
    intros Hr. apply (inj Some) in Hr. eapply segmentBoxFaces_false in Hr. exact Hr.
Qed.
End IntersectionOutputs.

Section IntersectSegmentSegment_binary64.
Local Open Scope float_scope.

(** C10.  In binary64: the segment from (0,0,0) to (1,0,0) and the segment
    from (2,-1,0) to (2,1,0) do not meet, their supporting lines meet at
    (2,0,0).  [intersectSegmentSegment] returns false and has overwritten
    the caller's [x] = (9,9,9) with (2,0,0).  The same segments with the
    first one prolonged to (4,0,0) meet: true and (2,0,0). *)
Theorem intersectSegmentSegment_false_overwrites_output :
  CGElem.intersectSegmentSegment (mk3 0 0 0) (mk3 1 0 0) (mk3 2 (-1) 0) (mk3 2 1 0) (mk3 9 9 9)
  = (false, mk3 2 0 0)
  /\ CGElem.intersectSegmentSegment (mk3 0 0 0) (mk3 4 0 0) (mk3 2 (-1) 0) (mk3 2 1 0) (mk3 9 9 9)
     = (true, mk3 2 0 0).
Proof. vm_compute. split; reflexivity. Qed.
End IntersectSegmentSegment_binary64.

(** ** Face adjacencies: [Cell::pushAdjacency], [updateAdjacencies] *)

Section Adjacencies.
Import VolOctree.

Lemma to_int_fits (z : Z) : fits_int z -> to_int z = z.
Proof. unfold fits_int, to_int. intros Hz. rewrite Z.mod_small; lia. Qed.

Lemma find_index_from_range (i x : Z) (l : list Z) :
  find_index_from i x l = -1 \/ i <= find_index_from i x l < i + Z.of_nat (length l).
Proof.
  revert i. induction l as [|y l IH]; intros i; simpl; [auto|].
  destruct (Z.eqb_spec y x); [right; lia|].
  destruct (IH (i + 1)); [auto|right; lia].
Qed.

Lemma find_index_from_elem (i x : Z) (l : list Z) :
  0 <= i -> (0 <= find_index_from i x l <-> x ∈ l).
Proof.
  revert i. induction l as [|y l IH]; intros i Hi; simpl.
  - split; [lia|]. intros Hx. inversion Hx.
  - destruct (Z.eqb_spec y x) as [->|Hne].
    + split; [intros; by left|lia].
    + rewrite IH by lia. split; [intros; by right|].
      intros Hx. inversion Hx; subst; [congruence|done].
Qed.

Lemma find_index_elem (x : Z) (l : list Z) : 0 <= find_index x l <-> x ∈ l.
Proof. apply find_index_from_elem. lia. Qed.

(** Position found: the element at that position is [x]. *)
Lemma find_index_from_lookup (i x : Z) (l : list Z) :
  0 <= i -> 0 <= find_index_from i x l ->
  l !! Z.to_nat (find_index_from i x l - i) = Some x.
Proof.
  revert i. induction l as [|y l IH]; intros i Hi; simpl; [lia|].
  destruct (Z.eqb_spec y x) as [->|Hne].
  - intros _. replace (i - i) with 0 by lia. reflexivity.
  - intros Hf. specialize (IH (i + 1) ltac:(lia) Hf).
    destruct (find_index_from_range (i + 1) x l) as [Hr|Hr]; [lia|].
    replace (Z.to_nat (find_index_from (i + 1) x l - i))
      with (S (Z.to_nat (find_index_from (i + 1) x l - (i + 1)))) by lia.
    exact IH.
Qed.

(** The adjacency run of the face [f] of the cell [a]. *)
Definition adjacencyRun (cells : gmap Z Cell.t) (a : Z) (f : nat) : list Z :=
  match cells !! a with
  | Some c => default [] (Cell.m_adjacencies c !! f)
  | None => []
  end.

(** For an id that fits [int], [pushAdjacency] appends the id to the run
    of the face unless the run holds it. *)
Lemma pushAdjacency_spec (f : nat) (b : Z) (c c' : Cell.t) :
  fits_int b ->
  Cell.pushAdjacency f b c = Some c' ->
  exists run, Cell.m_adjacencies c !! f = Some run
    /\ c' = Cell.set_adjacencies
              (<[f := if decide (b ∈ run) then run else run ++ [b]]> (Cell.m_adjacencies c)) c.
Proof.
  intros Hb. unfold Cell.pushAdjacency, Cell.findAdjacency.
  rewrite (to_int_fits b Hb).
  destruct (Cell.m_adjacencies c !! f) as [run|] eqn:Hrun; simpl; [|discriminate].
  exists run. split; [reflexivity|].
  destruct (Z.leb_spec 0 (find_index b run)) as [Hfi|Hfi].
  - apply find_index_elem in Hfi. rewrite decide_True by done.
    injection H as <-. rewrite list_insert_id by done. by destruct c.
  - assert (b ∉ run) by (rewrite <- find_index_elem; lia).
    rewrite decide_False by done.
    unfold FlatVector2D.pushBackItem in H. rewrite Hrun in H. simpl in H. by injection H as <-.
Qed.

(** No run holds an id twice; the neighbour [b] of [a] through [f] has [a]
    as its neighbour through the opposite face; every id of the patch fits
    the [int] that [findAdjacency] and [findInterface] take. *)
Definition adjacency_nodup (cells : gmap Z Cell.t) : Prop :=
  forall a f, NoDup (adjacencyRun cells a f).
Definition adjacency_symmetric (opp : nat -> nat) (cells : gmap Z Cell.t) : Prop :=
  forall a b f, b ∈ adjacencyRun cells a f -> a ∈ adjacencyRun cells b (opp f).

Lemma push_map_spec (cells : gmap Z Cell.t) (a : Z) (f : nat) (b : Z) (c c' : Cell.t) :
  cells !! a = Some c ->
  Cell.pushAdjacency f b c = Some c' ->
  fits_int b ->
  dom (<[a := c']> cells) = dom cells
  /\ (forall x h y, y ∈ adjacencyRun (<[a := c']> cells) x h
                    <-> y ∈ adjacencyRun cells x h \/ (x = a /\ h = f /\ y = b))
  /\ (adjacency_nodup cells -> adjacency_nodup (<[a := c']> cells)).
Proof.
  intros Hc Hpush Hb.
  destruct (pushAdjacency_spec f b c c' Hb Hpush) as (run & Hrun & ->).
  assert (Hf : (f < length (Cell.m_adjacencies c))%nat) by (eapply lookup_lt_Some; eauto).
  assert (Hrun' : forall x h,
             adjacencyRun (<[a := Cell.set_adjacencies
                               (<[f := if decide (b ∈ run) then run else run ++ [b]]>
                                  (Cell.m_adjacencies c)) c]> cells) x h
             = if decide (x = a /\ h = f)
               then (if decide (b ∈ run) then run else run ++ [b])
               else adjacencyRun cells x h).
  { intros x h. unfold adjacencyRun.
    destruct (decide (x = a)) as [->|Hx].
    - rewrite lookup_insert_eq, Hc. simpl.
      destruct (decide (h = f)) as [->|Hh].
      + destruct (decide (a = a /\ f = f)) as [_|Hn]; [|exfalso; apply Hn; auto].
        rewrite list_lookup_insert_eq by done. reflexivity.
      + destruct (decide (a = a /\ h = f)) as [[_ Hn]|_]; [done|].
        rewrite list_lookup_insert_ne by done. reflexivity.
    - rewrite lookup_insert_ne by done.
      destruct (decide (x = a /\ h = f)) as [[Hn _]|_]; [done|]. reflexivity. }
  assert (Hold : adjacencyRun cells a f = run).
  { unfold adjacencyRun. rewrite Hc, Hrun. reflexivity. }
  split; [|split].
  - apply dom_insert_lookup_L. eauto.
  - intros x h y. rewrite Hrun'.
    destruct (decide (x = a /\ h = f)) as [[-> ->]|Hne].
    + rewrite Hold. destruct (decide (b ∈ run)).
      * split; [auto|]. intros [?|(_ & _ & Hy)]; [done|by subst].
      * rewrite elem_of_app, list_elem_of_singleton. tauto.
    + split; [auto|]. intros [?|(Hx & Hh & _)]; [done|tauto].
  - intros Hnd x h. rewrite Hrun'.
    destruct (decide (x = a /\ h = f)) as [[-> ->]|Hne]; [|apply Hnd].
    specialize (Hnd a f). rewrite Hold in Hnd.
    destruct (decide (b ∈ run)); [done|].
    apply NoDup_app. split; [done|]. split; [|apply NoDup_singleton].
    intros y Hy Hy'. apply list_elem_of_singleton in Hy'. by subst.
Qed.


Definition ids_fit_int (cells : gmap Z Cell.t) : Prop :=
  forall id, id ∈ dom cells -> fits_int id.

Lemma setAdjacencyPair_spec (a : Z) (f : nat) (b : Z) (g : nat) (cells cells' : gmap Z Cell.t) :
  ids_fit_int cells ->
  setAdjacencyPair a f b g cells = Returned cells' ->
  dom cells' = dom cells
  /\ (forall x h y, y ∈ adjacencyRun cells' x h
                    <-> y ∈ adjacencyRun cells x h
                        \/ (x = a /\ h = f /\ y = b) \/ (x = b /\ h = g /\ y = a))
  /\ (adjacency_nodup cells -> adjacency_nodup cells').
Proof.
  intros Hfit Hrun. unfold setAdjacencyPair in Hrun.
  apply obind_Returned in Hrun as (c1 & Hc1 & Hrun).
  apply obind_Returned in Hrun as (c1' & Hc1' & Hrun).
  apply obind_Returned in Hrun as (c2 & Hc2 & Hrun).
  apply obind_Returned in Hrun as (c2' & Hc2' & Hrun).
  apply or_undefined_Returned in Hc1, Hc1', Hc2, Hc2'.
  injection Hrun as <-.
  assert (Ha : fits_int a) by (apply Hfit, elem_of_dom; eauto).
  assert (Hb : fits_int b).
  { apply Hfit. destruct (decide (a = b)) as [<-|Hne]; [apply elem_of_dom; eauto|].
    rewrite lookup_insert_ne in Hc2 by done. apply elem_of_dom; eauto. }
  destruct (push_map_spec cells a f b c1 c1' Hc1 Hc1' Hb) as (Hd1 & Hm1 & Hn1).
  destruct (push_map_spec _ b g a c2 c2' Hc2 Hc2' Ha) as (Hd2 & Hm2 & Hn2).
  split; [congruence|]. split.
  - intros x h y. rewrite Hm2, Hm1. tauto.
  - auto.
Qed.

Section UpdateAdjacencies.
Context {D Tree : Type} `{Scalar D} `{ScalarPow D} `{Pablo D Tree} `{PatchKernel D}.

(** The invariant of the loops of [updateAdjacencies]: the cells are those
    of the patch the loops started on, their adjacencies are symmetric and
    without duplicates. *)
Definition adjacency_ok (opp : nat -> nat) (cells0 cells : gmap Z Cell.t) : Prop :=
  dom cells = dom cells0 /\ adjacency_symmetric opp cells /\ adjacency_nodup cells.

Lemma setAdjacencyPair_ok (opp : nat -> nat) (cells0 cells cells' : gmap Z Cell.t)
      (a b : Z) (f : nat) :
  ids_fit_int cells0 ->
  opp (opp f) = f ->
  adjacency_ok opp cells0 cells ->
  setAdjacencyPair a f b (opp f) cells = Returned cells' ->
  adjacency_ok opp cells0 cells'.
Proof.
  intros Hfit Hopp (Hdom & Hsym & Hnd) Hrun.
  assert (Hfit' : ids_fit_int cells) by (intros x Hx; apply Hfit; by rewrite <- Hdom).
  destruct (setAdjacencyPair_spec a f b (opp f) cells cells' Hfit' Hrun) as (Hd & Hm & Hn).
  split; [congruence|]. split; [|auto].
  intros x y h Hy. apply Hm in Hy. apply Hm.
  destruct Hy as [Hy|[(-> & -> & ->)|(-> & -> & ->)]].
  - left. by apply Hsym.
  - right. right. auto.
  - right. left. rewrite Hopp. auto.
Qed.

Lemma updateFaceAdjacencies_ok (p : VolOctree.t D Tree) (cells0 : gmap Z Cell.t)
      (cellId : Z) (octantInfo : OctantInfo) (face : nat)
      (s s' : gmap Z Cell.t * gset (Z * nat)) :
  let opp := getOppface (m_tree p) in
  ids_fit_int cells0 ->
  opp (opp face) = face ->
  adjacency_ok opp cells0 s.1 ->
  updateFaceAdjacencies p cellId octantInfo s face = Returned s' ->
  adjacency_ok opp cells0 s'.1.
Proof.
  intros opp Hfit Hopp Hok Hrun. unfold updateFaceAdjacencies in Hrun.
  destruct s as [cells processed].
  destruct (decide ((cellId, face) ∈ processed)); [by injection Hrun as <-|].
  refine (ofold_invariant (fun s => adjacency_ok opp cells0 s.1) _ _ _ _ _ Hok Hrun).
  intros [cells1 processed1] [neighTreeId neighGhostFlag] s2 _ Hok1 Hstep.
  apply obind_Returned in Hstep as (cells2 & Hpair & Hstep).
  injection Hstep as <-. simpl in *.
  eapply setAdjacencyPair_ok; eauto.
Qed.

Lemma updateCellAdjacencies_ok (p : VolOctree.t D Tree) (cells0 : gmap Z Cell.t)
      (nCellFaces : nat) (cellId : Z) (s s' : gmap Z Cell.t * gset (Z * nat)) :
  let opp := getOppface (m_tree p) in
  ids_fit_int cells0 ->
  (forall f, (f < nCellFaces)%nat -> opp (opp f) = f) ->
  adjacency_ok opp cells0 s.1 ->
  updateCellAdjacencies p nCellFaces s cellId = Returned s' ->
  adjacency_ok opp cells0 s'.1.
Proof.
  intros opp Hfit Hopp Hok Hrun. unfold updateCellAdjacencies in Hrun.
  apply obind_Returned in Hrun as (c & _ & Hrun).
  apply obind_Returned in Hrun as (octantInfo & _ & Hrun).
  refine (ofold_invariant (fun s => adjacency_ok opp cells0 s.1) _ _ _ _ _ Hok Hrun).
  intros s1 face s2 Hface Hok1 Hstep.
  apply elem_of_seq in Hface.
  eapply updateFaceAdjacencies_ok; eauto. apply Hopp. lia.
Qed.

(** Resetting every cell of the patch leaves no adjacency at all. *)
Lemma default_lookup_replicate (n f : nat) :
  default [] (replicate n ([] : list Z) !! f) = [].
Proof.
  destruct (replicate n [] !! f) eqn:E; [apply lookup_replicate in E as [-> _]|]; done.
Qed.

Lemma adjacencyRun_reset (c : Cell.t) (f : nat) :
  default [] (Cell.m_adjacencies (Cell.resetAdjacencies true c) !! f) = [].
Proof.
  unfold Cell.resetAdjacencies, Cell.createNeighbourhoodStorage, FlatVector2D.create.
  destruct (Cell.type c); apply default_lookup_replicate.
Qed.

Lemma resetListedAdjacencies_spec (cellIds : list Z) (cells cells' : gmap Z Cell.t) :
  resetListedAdjacencies cellIds cells = Returned cells' ->
  dom cells' = dom cells
  /\ forall a f, adjacencyRun cells' a f = if decide (a ∈ cellIds) then [] else adjacencyRun cells a f.
Proof.
  revert cells. induction cellIds as [|id ids IH]; intros cells Hrun; simpl in Hrun.
  - injection Hrun as <-. split; [done|]. intros a f. rewrite decide_False; [done|]. by intros ?%elem_of_nil.
  - apply obind_Returned in Hrun as (cells1 & Hstep & Hrun).
    apply obind_Returned in Hstep as (c & Hc & Hstep).
    apply or_undefined_Returned in Hc. injection Hstep as <-.
    destruct (IH _ Hrun) as (Hd & Hr). split.
    + rewrite Hd. apply dom_insert_lookup_L. eauto.
    + intros a f. rewrite Hr.
      destruct (decide (a ∈ ids)) as [Hin|Hnin].
      * rewrite decide_True; [done|by right].
      * unfold adjacencyRun. destruct (decide (a = id)) as [->|Hne].
        -- rewrite lookup_insert_eq, adjacencyRun_reset. rewrite decide_True; [done|by left].
        -- rewrite lookup_insert_ne by done. rewrite decide_False; [done|].
           intros Hin. inversion Hin; subst; done.
Qed.

(** For a patch whose cell ids fit [int], a run of [updateAdjacencies]
    that completes leaves the adjacencies symmetric and without duplicates,
    when it starts from such a state or resets every cell of the patch. *)
Theorem updateAdjacencies_symmetric_nodup
        (p p' : VolOctree.t D Tree) (cellIds : list Z) (resetAdjacencies : bool) :
  let opp := getOppface (m_tree p) in
  let cells := Kernel.m_cells (m_kernel p) in
  let cells' := Kernel.m_cells (m_kernel p') in
  (forall f, (f < 2 * getDimension p)%nat -> opp (opp f) = f) ->
  ids_fit_int cells ->
  (if resetAdjacencies
   then forall id, id ∈ dom cells -> id ∈ cellIds
   else adjacency_symmetric opp cells /\ adjacency_nodup cells) ->
  updateAdjacencies cellIds resetAdjacencies p = Returned p' ->
  dom cells' = dom cells
  /\ adjacency_nodup cells'
  /\ forall a b f, (f < 2 * getDimension p)%nat ->
                   (b ∈ adjacencyRun cells' a f <-> a ∈ adjacencyRun cells' b (opp f)).
Proof.
  intros opp cells cells' Hopp Hfit Hpre Hrun. subst cells'.
  unfold updateAdjacencies in Hrun.
  apply obind_Returned in Hrun as (cells1 & Hreset & Hrun).
  assert (Hok1 : adjacency_ok opp cells cells1).
  { destruct resetAdjacencies.
    - apply resetListedAdjacencies_spec in Hreset as (Hd & Hr).
      split; [done|]. split.
      + intros a b f Hb. rewrite Hr in Hb.
        destruct (decide (a ∈ cellIds)) as [Hin|Hnin]; [by apply elem_of_nil in Hb|].
        exfalso. apply Hnin, Hpre. unfold adjacencyRun in Hb. subst cells.
        destruct (Kernel.m_cells (m_kernel p) !! a) eqn:Ha;
          [apply elem_of_dom; eauto|by apply elem_of_nil in Hb].
      + intros a f. rewrite Hr.
        destruct (decide (a ∈ cellIds)) as [Hin|Hnin]; [apply NoDup_nil_2|].
        unfold adjacencyRun. subst cells.
        destruct (Kernel.m_cells (m_kernel p) !! a) eqn:Ha; [|apply NoDup_nil_2].
        exfalso. apply Hnin, Hpre. apply elem_of_dom; eauto.
    - injection Hreset as <-. destruct Hpre. split; done. }
  cbv zeta in Hrun.
  destruct (Z.eqb _ 0); [discriminate|].
  apply obind_Returned in Hrun as (leveled & _ & Hrun).
  apply obind_Returned in Hrun as (s & Hloop & Hrun).
  injection Hrun as <-. simpl.
  assert (Hok : adjacency_ok opp cells s.1).
  { refine (ofold_invariant (fun s => adjacency_ok opp cells s.1) _ _ _
                             (cells1, ∅) s Hok1 Hloop).
    intros s1 cellId s2 _ Hs1 Hstep.
    exact (updateCellAdjacencies_ok (set_kernel (Kernel.set_cells cells1 (m_kernel p)) p)
                                    cells _ _ _ _ Hfit Hopp Hs1 Hstep). }
  destruct Hok as (Hd & Hsym & Hnd).
  split; [done|]. split; [done|].
  intros a b f Hf. split; [apply Hsym|].
  intros Ha. apply Hsym in Ha. by rewrite Hopp in Ha.
Qed.
End UpdateAdjacencies.
End Adjacencies.

(** The hanging-face patch with small ids: the run completes, the cell 10
    has its two fine neighbours 5 and 6 on the face 1. *)
Example updateAdjacencies_small_ids :
  exists p', VolOctree.updateAdjacencies Scenario.smallIds false
                                         (Scenario.hangingPatch Scenario.smallIds)
             = Returned p'
             /\ adjacencyRun (Kernel.m_cells (VolOctree.m_kernel p')) 10 1 = [5; 6]
             /\ adjacencyRun (Kernel.m_cells (VolOctree.m_kernel p')) 5 0 = [10]
             /\ adjacencyRun (Kernel.m_cells (VolOctree.m_kernel p')) 6 0 = [10].
Proof. eexists. split; [vm_compute; reflexivity|]. vm_compute. auto. Qed.

(** C4.  [pushAdjacency] looks the [long] id up through the [int]
    parameter of [findAdjacency].  On the hanging-face patch whose fine
    cells on the face 1 of the cell 10 have the ids 5 and 4294967301
    (= 2^32 + 5), [updateAdjacencies] completes, the second id is taken for
    the first and not inserted: the cell 4294967301 lists 10 on its face 0
    and the cell 10 does not list 4294967301 on the opposite face 1.  And an
    id outside the range of [int], 4294967296, pushed twice on an empty
    run, is inserted twice. *)
Theorem updateAdjacencies_wide_id_asymmetric :
  (exists p', VolOctree.updateAdjacencies Scenario.largeIds false
                                          (Scenario.hangingPatch Scenario.largeIds)
              = Returned p'
              /\ getOppface (VolOctree.m_tree p') 1%nat = 0%nat
              /\ 10 ∈ adjacencyRun (Kernel.m_cells (VolOctree.m_kernel p')) 4294967301 0
              /\ adjacencyRun (Kernel.m_cells (VolOctree.m_kernel p')) 10 1 = [5])
  /\ (c ← Cell.pushAdjacency 0 4294967296 Scenario.rootCell;
      Cell.m_adjacencies <$> Cell.pushAdjacency 0 4294967296 c)
     = Some [[4294967296; 4294967296]; []; []; []].
Proof.
  split; [|vm_compute; reflexivity].
  eexists. split; [vm_compute; reflexivity|].
  split; [reflexivity|]. split; [|vm_compute; reflexivity].
  vm_compute. apply list_elem_of_here.
Qed.

(** ** The events of [sync] *)

Section SyncEvents.
Context {D Tree : Type} `{Scalar D} `{ScalarPow D} `{Pablo D Tree} `{PatchKernel D}.
Import VolOctree.

(** [createInfo] returns the position of an event of the requested kind and
    keeps the events that were there. *)
Lemma findInfo_spec ty en rank i data j :
  findInfo ty en rank i data = Some j ->
  exists info, data !! (j - i)%nat = Some info /\ (i <= j)%nat
               /\ info_type info = ty /\ info_entity info = en /\ info_rank info = rank.
Proof.
  revert i. induction data as [|info data IH]; intros i; simpl; [discriminate|].
  destruct (bool_decide (info_type info = ty) && bool_decide (info_entity info = en)
            && (info_rank info =? rank)) eqn:Hm.
  - intros [= <-]. exists info. replace (i - i)%nat with 0%nat by lia.
    apply andb_true_iff in Hm as [Hm Hr]. apply andb_true_iff in Hm as [Ht He].
    apply bool_decide_eq_true in Ht, He. apply Z.eqb_eq in Hr. auto.
  - intros Hf. destruct (IH _ Hf) as (info' & Hl & Hle & ?).
    exists info'. split; [|split; [lia|done]].
    replace (j - i)%nat with (S (j - S i)) by lia. exact Hl.
Qed.

Lemma createInfo_spec ty en rank data :
  let r := createInfo ty en rank data in
  (exists info, r.2 !! r.1 = Some info /\ info_type info = ty /\ info_entity info = en)
  /\ (r.2 = data \/ r.1 = length data /\ r.2 = data ++ [mkInfo ty en rank [] []]).
Proof.
  unfold createInfo.
  destruct (if cachedType ty then findInfo ty en rank 0 data else None) as [i|] eqn:Hf; simpl.
  - destruct (cachedType ty); [|discriminate].
    apply findInfo_spec in Hf as (info & Hl & _ & Ht & He & _).
    rewrite Nat.sub_0_r in Hl. split; [eauto|auto].
  - split.
    + eexists. split; [apply list_lookup_middle; reflexivity|]. auto.
    + right. auto.
Qed.

(** Filling an event of another type keeps a refinement event where it
    is. *)
Lemma elem_of_alter_other (f : Info -> Info) (i : nat) (data : list Info) (ev info : Info) :
  data !! i = Some info -> info_type info <> info_type ev ->
  ev ∈ data -> ev ∈ alter f i data.
Proof.
  intros Hi Hty Hev. apply list_elem_of_lookup in Hev as [j Hj].
  apply list_elem_of_lookup. exists j.
  destruct (decide (i = j)) as [->|Hne]; [congruence|].
  by rewrite list_lookup_alter_ne.
Qed.

Lemma createInfo_alter_keeps (f : Info -> Info) ty en rank (data : list Info) (ev : Info) :
  info_type ev <> ty ->
  ev ∈ data ->
  ev ∈ alter f (createInfo ty en rank data).1 (createInfo ty en rank data).2.
Proof.
  intros Hty Hev.
  destruct (createInfo_spec ty en rank data) as ((info & Hl & Ht & _) & Hd).
  eapply elem_of_alter_other; [exact Hl|congruence|].
  destruct Hd as [->|(_ & ->)]; [done|]. apply elem_of_app. by left.
Qed.

(** The event that [sync] records for the children of a refined octant:
    the tree ids [h .. h + 2^dim - 1] (translated to cell ids at the end of
    [sync]) and the cells of the previous octants of [h]. *)
Definition refinementEvent (p : VolOctree.t D Tree) (h : Z) (ev : Info) : Prop :=
  info_type ev = TYPE_REFINEMENT /\ info_entity ev = ENTITY_CELL
  /\ info_current ev = seqZ h (2 ^ Z.of_nat (getDimension p))
  /\ previousCellIds p (getMapping (m_tree p) h).1.1 (getMapping (m_tree p) h).1.2
     = Returned (info_previous ev).

(** The invariant of the loop: every refined octant below [treeId] lies in
    the range of a refinement event. *)
Definition refinementsCovered (p : VolOctree.t D Tree) (data : list Info) (treeId : Z) : Prop :=
  forall t, 0 <= t < treeId -> getIsNewR (m_tree p) t = true ->
            exists h ev, ev ∈ data /\ 0 <= h <= t /\ t < h + 2 ^ Z.of_nat (getDimension p)
                         /\ getIsNewR (m_tree p) h = true /\ refinementEvent p h ev.

Lemma adaptionTypeOf_mapped (tree : Tree) (treeId : Z) (m : list Z) (ty : AdaptionType) :
  adaptionTypeOf false OP_ADAPTION_MAPPED tree treeId m = Returned ty ->
  (getIsNewR tree treeId = true /\ ty = TYPE_REFINEMENT)
  \/ (getIsNewR tree treeId = false
      /\ (ty = TYPE_COARSENING \/ ty = TYPE_RENUMBERING \/ ty = TYPE_NONE)).
Proof.
  unfold adaptionTypeOf. simpl.
  destruct (decide (OP_ADAPTION_MAPPED = OP_ADAPTION_MAPPED)); [|done].
  destruct (getIsNewR tree treeId); [intros [= <-]; auto|].
  destruct (getIsNewC tree treeId); [intros [= <-]; auto|].
  intros Hr. apply obind_Returned in Hr as (front & _ & Hr).
  destruct (negb _); injection Hr as <-; auto.
Qed.

Lemma syncOctant_covers (nOctants : Z) (p : VolOctree.t D Tree) (treeId : Z)
      (s : SyncLists) (r : Z * SyncLists) :
  0 <= treeId ->
  syncOctant true false OP_ADAPTION_MAPPED nOctants p treeId s = Returned r ->
  refinementsCovered p (sl_adaptionData s) treeId ->
  treeId < r.1 /\ refinementsCovered p (sl_adaptionData r.2) r.1.
Proof.
  intros Hpos Hrun Hcov. unfold syncOctant in Hrun. simpl negb in Hrun. cbv iota in Hrun.
  destruct (getMapping (m_tree p) treeId) as [[mapper_octantMap mapper_ghostFlag] mapper_octantRank] eqn:Hmap.
  apply obind_Returned in Hrun as (ty & Hty & Hrun).
  apply adaptionTypeOf_mapped in Hty.
  assert (Hstay : forall s', sl_adaptionData s' = sl_adaptionData s ->
                             getIsNewR (m_tree p) treeId = false ->
                             refinementsCovered p (sl_adaptionData s') (treeId + 1)).
  { intros s' Hs' Hnew t Ht Hr. rewrite Hs'.
    destruct (decide (t = treeId)) as [->|Hne]; [congruence|]. apply Hcov; [lia|done]. }
  destruct (decide (ty = TYPE_NONE)) as [->|Hnone].
  { apply obind_Returned in Hrun as (unmapped & _ & Hrun). injection Hrun as <-. simpl.
    split; [lia|]. apply Hstay; [done|]. destruct Hty as [[_ ?]|[? _]]; [done|auto]. }
  destruct (decide (ty = TYPE_RENUMBERING)) as [->|Hrenum].
  { apply obind_Returned in Hrun as (prev & _ & Hrun).
    apply obind_Returned in Hrun as (ghost & _ & Hrun).
    apply obind_Returned in Hrun as (unmapped & _ & Hrun). injection Hrun as <-. simpl.
    split; [lia|]. apply Hstay; [done|]. destruct Hty as [[_ ?]|[? _]]; [done|auto]. }
  destruct (Z.ltb _ _); [discriminate|].
  apply obind_Returned in Hrun as (dl & _ & Hrun).
  apply obind_Returned in Hrun as (data & Hdata & Hrun).
  injection Hrun as <-. simpl.
  destruct (createInfo ty ENTITY_CELL currentRank (sl_adaptionData s)) as [infoId data0] eqn:Hci.
  apply obind_Returned in Hdata as (previous & Hprev & Hdata). injection Hdata as <-.
  destruct Hty as [[Hnew ->]|[Hnew Hty]].
  - (* refinement: a new event for treeId .. treeId + 2^dim - 1 *)
    rewrite decide_True by done.
    assert (Hpow : 0 < 2 ^ Z.of_nat (getDimension p)) by (apply Z.pow_pos_nonneg; lia).
    split; [lia|].
    unfold createInfo in Hci. simpl in Hci. injection Hci as <- <-.
    rewrite (alter_app_r_alt _ _ _ (length (sl_adaptionData s))) by done. rewrite Nat.sub_diag. simpl.
    intros t Ht Hr.
    destruct (decide (t < treeId)) as [Hlt|Hge].
    + destruct (Hcov t ltac:(lia) Hr) as (h & ev & Hev & Hh & Hre).
      exists h, ev. split; [apply elem_of_app; by left|done].
    + eexists treeId, _. split; [apply elem_of_app; right; apply list_elem_of_here|].
      split; [lia|]. split; [lia|]. split; [done|].
      unfold refinementEvent. simpl. rewrite Hmap. simpl. auto.
  - (* coarsening: one octant, not flagged as refined *)
    assert (ty = TYPE_COARSENING) as -> by (destruct Hty as [?|[?|?]]; done).
    rewrite decide_False by done.
    split; [lia|].
    unfold createInfo in Hci. simpl in Hci. injection Hci as <- <-.
    rewrite (alter_app_r_alt _ _ _ (length (sl_adaptionData s))) by done. rewrite Nat.sub_diag. simpl.
    intros t Ht Hr.
    destruct (decide (t = treeId)) as [->|Hne]; [congruence|].
    destruct (Hcov t ltac:(lia) Hr) as (h & ev & Hev & Hh & Hre).
    exists h, ev. split; [apply elem_of_app; by left|done].
Qed.

Lemma syncOctants_covers (fuel : nat) (nOctants : Z) (p : VolOctree.t D Tree) (treeId : Z)
      (s s' : SyncLists) :
  0 <= treeId ->
  syncOctants fuel true false OP_ADAPTION_MAPPED nOctants p treeId s = Returned s' ->
  refinementsCovered p (sl_adaptionData s) treeId ->
  refinementsCovered p (sl_adaptionData s') nOctants.
Proof.
  revert treeId s. induction fuel as [|fuel IH]; intros treeId s Hpos Hrun Hcov; simpl in Hrun.
  - destruct (Z.leb_spec nOctants treeId); [|discriminate]. injection Hrun as <-.
    intros t Ht. apply Hcov. lia.
  - destruct (Z.leb_spec nOctants treeId).
    + injection Hrun as <-. intros t Ht. apply Hcov. lia.
    + apply obind_Returned in Hrun as (r & Hstep & Hrun).
      destruct (syncOctant_covers _ _ _ _ _ Hpos Hstep Hcov) as [Hlt Hcov'].
      eapply IH; [|exact Hrun|exact Hcov']. lia.
Qed.

(** The events of the deleted cells and interfaces are events of type
    deletion or partition send: the refinement events stay. *)
Lemma trackDeletedCell_keeps (p : VolOctree.t D Tree) (s s' : list Info * gset Z)
      (deleteInfo : DeleteInfo) (ev : Info) :
  info_type ev = TYPE_REFINEMENT ->
  trackDeletedCell p s deleteInfo = Returned s' ->
  ev ∈ s.1 -> ev ∈ s'.1.
Proof.
  intros Hty Hrun Hev. unfold trackDeletedCell in Hrun.
  apply obind_Returned in Hrun as (cell & _ & Hrun). injection Hrun as <-. simpl.
  destruct (bool_decide (di_trigger deleteInfo = TYPE_DELETION)
            || bool_decide (di_trigger deleteInfo = TYPE_PARTITION_SEND)) eqn:Hdel; [|done].
  destruct (createInfo _ _ _ _) as [infoId data] eqn:Hci.
  change infoId with (infoId, data).1. change data with (infoId, data).2 at 2. rewrite <- Hci.
  apply createInfo_alter_keeps; [|done].
  rewrite Hty. apply orb_true_iff in Hdel as [Hd|Hd]; apply bool_decide_eq_true in Hd;
    rewrite Hd; done.
Qed.

(** The translation of the tree ids of [current] to cell ids. *)
Lemma mapCurrent_spec (o2c : gmap Z Z) (l : list Z) (acc r : list Z) :
  ofold (fun ids treeId => obind (or_out_of_range (o2c !! treeId))
                                 (fun cellId => Returned (ids ++ [cellId]))) acc l
  = Returned r ->
  exists cur, r = acc ++ cur /\ Forall2 (fun c t => o2c !! t = Some c) cur l.
Proof.
  revert acc. induction l as [|t l IH]; intros acc Hrun; simpl in Hrun.
  - injection Hrun as <-. exists []. split; [by rewrite app_nil_r|constructor].
  - apply obind_Returned in Hrun as (acc1 & Hstep & Hrun).
    apply obind_Returned in Hstep as (c & Hc & Hstep). apply or_out_of_range_Returned in Hc.
    injection Hstep as <-.
    destruct (IH _ Hrun) as (cur & -> & Hf).
    exists (c :: cur). split; [by rewrite <- app_assoc|by constructor].
Qed.

Lemma completeCellInfo_acc (p : VolOctree.t D Tree) (data acc r : list Info) (ev : Info) :
  ofold (fun acc info => obind (mapAddedCellIds p info) (fun info => Returned (acc ++ [info])))
        acc data = Returned r ->
  (forall e, e ∈ acc -> e ∈ r)
  /\ (ev ∈ data -> info_entity ev = ENTITY_CELL ->
      exists cur, set_current cur ev ∈ r
                  /\ Forall2 (fun c t => m_octantToCell p !! t = Some c) cur (info_current ev)).
Proof.
  revert acc. induction data as [|info data IH]; intros acc Hrun; simpl in Hrun.
  - injection Hrun as <-. split; [done|]. intros Hev. by apply elem_of_nil in Hev.
  - apply obind_Returned in Hrun as (acc1 & Hstep & Hrun).
    apply obind_Returned in Hstep as (info' & Hinfo & Hstep). injection Hstep as <-.
    destruct (IH _ Hrun) as [Hacc Hdata]. split.
    + intros e He. apply Hacc, elem_of_app. by left.
    + intros Hev Hent. inversion Hev as [? ? Heq|? ? ? Hin]; subst; [|by apply Hdata].
      unfold mapAddedCellIds in Hinfo. rewrite Hent in Hinfo.
      rewrite bool_decide_eq_true_2 in Hinfo by done. simpl in Hinfo.
      apply obind_Returned in Hinfo as (cur & Hcur & Hinfo). injection Hinfo as <-.
      apply mapCurrent_spec in Hcur as (cur' & -> & Hf). simpl in *.
      exists cur'. split; [|done].
      apply Hacc, elem_of_app. right. apply list_elem_of_here.
Qed.


Lemma trackDeleted_keeps (p : VolOctree.t D Tree) (l : list DeleteInfo)
      (s s' : list Info * gset Z) (ev : Info) :
  info_type ev = TYPE_REFINEMENT ->
  ofold (trackDeletedCell p) s l = Returned s' ->
  ev ∈ s.1 -> ev ∈ s'.1.
Proof.
  intros Hty Hrun Hev.
  refine (ofold_invariant (fun s => ev ∈ s.1) _ _ _ s s' Hev Hrun).
  intros s1 d s2 _ Hs1 Hstep. eapply trackDeletedCell_keeps; eauto.
Qed.

(** The mapping of a refined octant, as the octree documents it: one
    previous octant, local. *)
Definition refinedFromOne (p : VolOctree.t D Tree) : Prop :=
  forall h, 0 <= h < getNumOctants (m_tree p) -> getIsNewR (m_tree p) h = true ->
            exists prev, (getMapping (m_tree p) h).1 = ([prev], [false]).

(** C2.  After a mapped adaption on a patch with cells, for every octant
    [t] flagged as new by refinement, the events that [sync] returns with
    tracking enabled contain a REFINEMENT event of the cells whose
    [current] list has 2^dim entries, the cells of the consecutive tree
    indices [h .. h + 2^dim - 1] that include [t], and whose [previous]
    list is the one cell of the octant that [h] is mapped to. *)
Theorem sync_refinement_events (p p' : VolOctree.t D Tree) (evs : list Info) (t : Z) :
  m_lastTreeOperation p = OP_ADAPTION_MAPPED ->
  getCellCount p <> 0 ->
  refinedFromOne p ->
  sync true p = Returned (p', evs) ->
  0 <= t < getNumOctants (m_tree p) ->
  getIsNewR (m_tree p) t = true ->
  exists h prev ev,
    ev ∈ evs
    /\ info_type ev = TYPE_REFINEMENT /\ info_entity ev = ENTITY_CELL
    /\ h <= t < h + 2 ^ Z.of_nat (getDimension p)
    /\ length (info_current ev) = (2 ^ getDimension p)%nat
    /\ Forall2 (fun cellId treeId => m_octantToCell p' !! treeId = Some cellId)
               (info_current ev) (seqZ h (2 ^ Z.of_nat (getDimension p)))
    /\ (getMapping (m_tree p) h).1 = ([prev], [false])
    /\ info_previous ev = [getOctantId (mkOctantInfo prev true) p].
Proof.
  intros Hop Hcells Hone Hrun Ht Hnew. unfold sync in Hrun. rewrite Hop in Hrun.
  rewrite bool_decide_eq_false_2 in Hrun by done. simpl andb in Hrun. cbv iota in Hrun.
  destruct (Z.eqb_spec (getCellCount p) 0) as [|_]; [done|].
  apply obind_Returned in Hrun as (s & Hloop & Hrun).
  apply obind_Returned in Hrun as (p1 & _ & Hrun).
  apply obind_Returned in Hrun as (r & Hdel & Hrun).
  destruct r as [[p2 data2] stitchInfo].
  apply obind_Returned in Hrun as (r & _ & Hrun).
  destruct r as [p3 createdCells].
  apply obind_Returned in Hrun as (data4 & Hdata & Hrun).
  injection Hrun as <- <-.
  apply obind_Returned in Hdata as (data3 & Hcomplete & Hdata).
  (* the loop *)
  assert (Hcov0 : refinementsCovered p [] 0) by (intros t0 Ht0; lia).
  pose proof (syncOctants_covers _ _ _ 0 _ _ (Z.le_refl 0) Hloop Hcov0) as Hcov.
  destruct (Hcov t Ht Hnew) as (h & ev & Hev & Hh & Hh' & Hnewh & Hty & Hent & Hcur & Hprev).
  destruct (Hone h ltac:(lia) Hnewh) as (prev & Hmap).
  (* the events of the deletions *)
  assert (Hev2 : ev ∈ data2).
  { destruct (sl_deletedOctants s ++ _) as [|d dl] eqn:Hlist in Hdel.
    - by injection Hdel as _ <- _.
    - apply obind_Returned in Hdel as (data & Htrack & Hdel).
      apply obind_Returned in Hdel as (dd & _ & Hdel). injection Hdel as _ <- _.
      apply obind_Returned in Htrack as (tr & Htrack & Hdata2).
      pose proof (trackDeleted_keeps _ _ _ _ ev Hty Htrack Hev) as Hev1.
      destruct (createInfo _ _ _ tr.1) as [infoId data1] eqn:Hci.
      injection Hdata2 as <-.
      change infoId with (infoId, data1).1. change data1 with (infoId, data1).2 at 2.
      rewrite <- Hci. apply createInfo_alter_keeps; [by rewrite Hty|done]. }
  (* the translation of the tree ids *)
  destruct (completeCellInfo_acc p3 data2 [] data3 ev Hcomplete) as [_ Htr].
  destruct (Htr Hev2 Hent) as (cur & Hev3 & Hcur3).
  exists h, prev, (set_current cur ev).
  split.
  { destruct createdCells as [|c cl]; [by injection Hdata as <-|].
    apply obind_Returned in Hdata as (ci & _ & Hdata).
    destruct (createInfo _ _ _ data3) as [infoId data5] eqn:Hci.
    injection Hdata as <-.
    change infoId with (infoId, data5).1. change data5 with (infoId, data5).2 at 2.
    rewrite <- Hci. apply createInfo_alter_keeps; [simpl; by rewrite Hty|done]. }
  simpl. rewrite Hcur in Hcur3.
  split; [done|]. split; [done|]. split; [lia|]. split.
  { apply Forall2_length in Hcur3. rewrite Hcur3, length_seqZ.
    change 2 with (Z.of_nat 2). rewrite <- Nat2Z.inj_pow. apply Nat2Z.id. }
  split; [done|]. split; [done|].
  destruct (getMapping (m_tree p) h) as [[mp gh] rk]. simpl in Hmap. injection Hmap as -> ->.
  simpl in Hprev. unfold previousCellIds in Hprev. simpl in Hprev. by injection Hprev as <-.
Qed.

(** Every iteration of the loop of [sync] advances [treeId]: the fuel
    [nOctants] of [sync] is never exhausted. *)
Lemma syncOctant_progress (trackChanges importAll : bool) (op : TreeOperation)
      (nOctants : Z) (p : VolOctree.t D Tree) (treeId : Z) (s : SyncLists) (r : Z * SyncLists) :
  treeId < nOctants ->
  syncOctant trackChanges importAll op nOctants p treeId s = Returned r ->
  treeId < r.1.
Proof.
  intros Hlt Hrun. unfold syncOctant in Hrun.
  destruct (if negb importAll then getMapping (m_tree p) treeId else ([], [], []))
    as [[mapper_octantMap mapper_ghostFlag] mapper_octantRank].
  apply obind_Returned in Hrun as (ty & _ & Hrun).
  destruct (decide (ty = TYPE_NONE)).
  { apply obind_Returned in Hrun as (? & _ & Hrun). injection Hrun as <-. simpl. lia. }
  destruct (decide (ty = TYPE_RENUMBERING)).
  { apply obind_Returned in Hrun as (? & _ & Hrun).
    apply obind_Returned in Hrun as (? & _ & Hrun).
    apply obind_Returned in Hrun as (? & _ & Hrun). injection Hrun as <-. simpl. lia. }
  destruct (Z.ltb _ _); [discriminate|].
  apply obind_Returned in Hrun as (? & _ & Hrun).
  apply obind_Returned in Hrun as (? & _ & Hrun). injection Hrun as <-. simpl.
  assert (0 < 2 ^ Z.of_nat (getDimension p)) by (apply Z.pow_pos_nonneg; lia).
  destruct importAll; [lia|]. destruct (decide (ty = TYPE_REFINEMENT)); lia.
Qed.

Lemma syncOctants_fuel (fuel fuel' : nat) (trackChanges importAll : bool) (op : TreeOperation)
      (nOctants : Z) (p : VolOctree.t D Tree) (treeId : Z) (s : SyncLists) :
  (Z.to_nat (nOctants - treeId) <= fuel)%nat ->
  (Z.to_nat (nOctants - treeId) <= fuel')%nat ->
  syncOctants fuel trackChanges importAll op nOctants p treeId s
  = syncOctants fuel' trackChanges importAll op nOctants p treeId s.
Proof.
  revert fuel' treeId s. induction fuel as [|fuel IH]; intros fuel' treeId s Hf Hf'.
  - destruct fuel'; simpl; destruct (Z.leb_spec nOctants treeId); try reflexivity; lia.
  - destruct fuel' as [|fuel']; simpl; destruct (Z.leb_spec nOctants treeId);
      try reflexivity; [lia|].
    destruct (syncOctant trackChanges importAll op nOctants p treeId s) as [r| | |] eqn:Hstep;
      simpl; try reflexivity.
    assert (Hlt : treeId < nOctants) by lia.
    pose proof (syncOctant_progress _ _ _ _ _ _ _ _ Hlt Hstep).
    apply IH; lia.
Qed.
End SyncEvents.


(** Refining the single cell 0 of the 2-D patch: one event for the cells,
    of type REFINEMENT, with the previous cell 0 and the four new cells
    1, 2, 3, 4, which are the cells of the octants 0, 1, 2, 3. *)
Example refine_root_cell_events :
  exists p' evs,
    VolOctree._updateAdaption true (Scenario.rootPatch [Scenario.refinedSnapshot])
    = Returned (p', evs)
    /\ List.filter (fun ev => bool_decide (VolOctree.info_entity ev = VolOctree.ENTITY_CELL)) evs
       = [VolOctree.mkInfo VolOctree.TYPE_REFINEMENT VolOctree.ENTITY_CELL (-1) [0] [1; 2; 3; 4]]
    /\ map (fun i => VolOctree.m_octantToCell p' !! i) [0; 1; 2; 3]
       = [Some 1; Some 2; Some 3; Some 4].
Proof. do 2 eexists. split; [vm_compute; reflexivity|]. vm_compute. auto. Qed.

Lemma sync_refinement_events_witness :
  exists p' evs,
    VolOctree.m_lastTreeOperation Scenario.adaptedRootPatch = VolOctree.OP_ADAPTION_MAPPED
    /\ VolOctree.getCellCount Scenario.adaptedRootPatch <> 0
    /\ refinedFromOne Scenario.adaptedRootPatch
    /\ VolOctree.sync true Scenario.adaptedRootPatch = Returned (p', evs)
    /\ 0 <= 2 < getNumOctants (VolOctree.m_tree Scenario.adaptedRootPatch)
    /\ getIsNewR (VolOctree.m_tree Scenario.adaptedRootPatch) 2 = true
    /\ exists h prev ev,
        ev ∈ evs
        /\ VolOctree.info_type ev = VolOctree.TYPE_REFINEMENT
        /\ VolOctree.info_entity ev = VolOctree.ENTITY_CELL
        /\ h <= 2 < h + 2 ^ Z.of_nat (VolOctree.getDimension Scenario.adaptedRootPatch)
        /\ length (VolOctree.info_current ev)
           = (2 ^ VolOctree.getDimension Scenario.adaptedRootPatch)%nat
        /\ Forall2 (fun cellId treeId => VolOctree.m_octantToCell p' !! treeId = Some cellId)
                   (VolOctree.info_current ev)
                   (seqZ h (2 ^ Z.of_nat (VolOctree.getDimension Scenario.adaptedRootPatch)))
        /\ (getMapping (VolOctree.m_tree Scenario.adaptedRootPatch) h).1 = ([prev], [false])
        /\ VolOctree.info_previous ev
           = [VolOctree.getOctantId (mkOctantInfo prev true) Scenario.adaptedRootPatch].
Proof.
  assert (Hone : refinedFromOne Scenario.adaptedRootPatch).
  { intros h Hh _. change (getNumOctants _) with 4 in Hh.
    assert (Hcases : h = 0 \/ h = 1 \/ h = 2 \/ h = 3) by lia.
    destruct Hcases as [-> | [-> | [-> | ->]]]; exists 0; reflexivity. }
  assert (Hrun : exists p' evs, VolOctree.sync true Scenario.adaptedRootPatch = Returned (p', evs)).
  { do 2 eexists. vm_compute. reflexivity. }
  destruct Hrun as (p' & evs & Hrun).
  exists p', evs.
  split; [reflexivity|]. split; [discriminate|]. split; [exact Hone|].
  split; [exact Hrun|]. split; [vm_compute; split; [discriminate|reflexivity]|].
  split; [reflexivity|].
  apply (sync_refinement_events Scenario.adaptedRootPatch p' evs 2);
    [reflexivity|discriminate|exact Hone|exact Hrun
    |vm_compute; split; [discriminate|reflexivity]|reflexivity].
Defined.

(** ** Deleting cells: [deleteCells] *)

(** A loop that completes: the invariant holds at the end, and so does,
    for every element of the list, what its step established, as long as
    the later steps keep it. *)
Lemma ofold_elem {S A} (Inv : S -> Prop) (Q : A -> S -> Prop)
      (f : S -> A -> outcome S) (l : list A) :
  (forall s a s', a ∈ l -> Inv s -> f s a = Returned s' ->
                  Inv s' /\ Q a s' /\ forall b, Q b s -> Q b s') ->
  forall s s', Inv s -> VolOctree.ofold f s l = Returned s' ->
               Inv s' /\ forall a, a ∈ l -> Q a s'.
Proof.
  induction l as [|a l IH]; intros Hstep s s' Hs Hrun; simpl in Hrun.
  - injection Hrun as <-. split; [done|]. intros a Ha. inversion Ha.
  - apply obind_Returned in Hrun as (s1 & H1 & Hrun).
    destruct (Hstep s a s1 ltac:(by left) Hs H1) as (Hs1 & Hq & _).
    assert (Hkeep : forall s2, Inv s1 -> VolOctree.ofold f s1 l = Returned s2 ->
                               forall b, Q b s1 -> Q b s2).
    { clear Hrun Hq H1 Hs1. revert Hstep. generalize s1. clear.
      induction l as [|a' l IH]; intros s1 Hstep s2 Hs1 Hrun b Hb; simpl in Hrun.
      - by injection Hrun as <-.
      - apply obind_Returned in Hrun as (s3 & H3 & Hrun).
        destruct (Hstep s1 a' s3 ltac:(right; by left) Hs1 H3) as (Hs3 & _ & Hk).
        eapply (IH s3); [|exact Hs3|exact Hrun|by apply Hk].
        intros s a0 s0 Ha0. apply Hstep. inversion Ha0; subst; [by left|right; by right]. }
    destruct (IH ltac:(intros s0 a0 s0' Ha0; apply Hstep; by right) s1 s' Hs1 Hrun) as [Hs' Hall].
    split; [done|]. intros b Hb. inversion Hb; subst; [by eapply Hkeep|by apply Hall].
Qed.

Lemma find_index_lookup (x : Z) (l : list Z) :
  0 <= find_index x l -> l !! Z.to_nat (find_index x l) = Some x.
Proof.
  intros Hf. pose proof (find_index_from_lookup 0 x l ltac:(lia) Hf) as Hl.
  unfold find_index. by rewrite Z.sub_0_r in Hl.
Qed.

Lemma elem_of_delete_other {A} (l : list A) (i : nat) (x y : A) :
  l !! i = Some x -> y ∈ l -> y <> x -> y ∈ delete i l.
Proof.
  intros Hi Hy Hne. apply list_elem_of_lookup in Hy as [j Hj].
  apply list_elem_of_lookup.
  destruct (decide (j < i)%nat); [exists j; by rewrite list_lookup_delete_lt|].
  assert (j <> i) by congruence.
  exists (pred j). rewrite list_lookup_delete_ge by lia.
  by replace (S (pred j)) with j by lia.
Qed.

Lemma elem_of_concat_insert (v : list (list Z)) (f : nat) (run run' : list Z) (y : Z) :
  v !! f = Some run ->
  (y ∈ run -> y ∈ run') ->
  y ∈ concat v -> y ∈ concat (<[f := run']> v).
Proof.
  intros Hf Hrun Hy. apply list_elem_of_In, in_concat in Hy as (l & Hl & Hyl).
  apply list_elem_of_In, list_elem_of_lookup in Hl as [g Hg]. apply list_elem_of_In in Hyl.
  apply list_elem_of_In, in_concat.
  destruct (decide (g = f)) as [->|Hne].
  - exists run'. split; [|apply list_elem_of_In, Hrun; congruence].
    apply list_elem_of_In, list_elem_of_lookup. exists f.
    apply list_lookup_insert_eq. by eapply lookup_lt_Some.
  - exists l. split; [|by apply list_elem_of_In].
    apply list_elem_of_In, list_elem_of_lookup. exists g. by rewrite list_lookup_insert_ne.
Qed.

(** Erasing the position that [findInterface] returns removes the id that
    was looked for and nothing else; the connectivity is not touched. *)
Lemma deleteInterface_keeps (face : nat) (interfaceId : Z) (c c1 : Cell.t) (i : Z) :
  fits_int interfaceId ->
  Cell.findInterface face (to_int interfaceId) c = Some i ->
  Cell.deleteInterface face i c = Some c1 ->
  Cell.connect c1 = Cell.connect c
  /\ forall y, y ∈ Cell.getInterfaces c -> y <> interfaceId -> y ∈ Cell.getInterfaces c1.
Proof.
  intros Hfit Hfind Hdel. unfold Cell.findInterface in Hfind. unfold Cell.deleteInterface in Hdel.
  rewrite (to_int_fits _ Hfit) in Hfind.
  destruct (Cell.m_interfaces c !! face) as [run|] eqn:Hrun; simpl in *; [|discriminate].
  injection Hfind as <-.
  unfold FlatVector2D.eraseItem in Hdel. rewrite Hrun in Hdel. simpl in Hdel.
  destruct (_ || _) eqn:Hrange; [discriminate|]. simpl in Hdel. injection Hdel as <-.
  apply orb_false_iff in Hrange as [Hlo Hhi]. apply Z.ltb_ge in Hlo.
  split; [reflexivity|].
  intros y Hy Hne. unfold Cell.getInterfaces, FlatVector2D.flat in *. simpl.
  eapply elem_of_concat_insert; [exact Hrun| |exact Hy].
  intros Hyr. eapply elem_of_delete_other; [apply find_index_lookup; lia|done|done].
Qed.

Lemma deleteAdjacency_keeps (face : nat) (i : Z) (c c1 : Cell.t) :
  Cell.deleteAdjacency face i c = Some c1 ->
  Cell.connect c1 = Cell.connect c /\ Cell.getInterfaces c1 = Cell.getInterfaces c.
Proof.
  unfold Cell.deleteAdjacency. destruct (FlatVector2D.eraseItem _ _ _); simpl; [|discriminate].
  intros [= <-]. auto.
Qed.

Section DeleteCellsFirstLoop.
Import VolOctree.
Variable deadCells : gset Z.
Variable interfaces0 : gmap Z Interface.t.
Variable cells0 : gmap Z Cell.t.
Hypothesis interfaces_fit : forall i itf, interfaces0 !! i = Some itf -> fits_int i.

(** What the first loop of [deleteCells] keeps true, in terms of the cells
    [cells0] the call started from. *)
Record firstLoopInv (s : DeleteState) : Prop := {
  inv_live : forall c cell0, cells0 !! c = Some cell0 -> c ∉ deadCells ->
    exists cell, ds_cells s !! c = Some cell /\ Cell.connect cell = Cell.connect cell0 /\
      forall i, i ∈ Cell.getInterfaces cell0 -> i ∉ ds_deadInterfaces s ->
                i ∈ Cell.getInterfaces cell;
  inv_back : forall c cell, ds_cells s !! c = Some cell ->
    exists cell0, cells0 !! c = Some cell0 /\ Cell.connect cell = Cell.connect cell0;
  inv_dead_unmodified : forall c cell, c ∈ deadCells ->
    ds_cells s !! c = Some cell -> cells0 !! c = Some cell;
  inv_vertices : forall v, v ∈ ds_deadVertices s ->
    exists c cell0, c ∈ deadCells /\ cells0 !! c = Some cell0 /\ v ∈ Cell.connect cell0;
  inv_interfaces : forall i, i ∈ ds_deadInterfaces s ->
    exists c cell0, c ∈ deadCells /\ cells0 !! c = Some cell0 /\ i ∈ Cell.getInterfaces cell0;
  inv_dangling_of : forall i itf, i ∈ ds_deadInterfaces s ->
    interfaces0 !! i = Some itf -> Interface.isBorder itf = false ->
    (Interface.getOwner itf ∉ deadCells -> Interface.getOwner itf ∈ ds_danglingCells s) /\
    (Interface.getOwner itf ∈ deadCells -> Interface.getNeigh itf ∉ deadCells ->
     Interface.getNeigh itf ∈ ds_danglingCells s);
  inv_dangling_live : forall y, y ∈ ds_danglingCells s -> y ∉ deadCells
}.

(** The update of the dangling cell [y] for the interface [i]. *)
Lemma dangling_update_inv (s : DeleteState) (i y nb : Z) (f : nat) (itf : Interface.t)
      (c0 c1 c2 : Cell.t) (k1 k2 : Z) :
  firstLoopInv s ->
  interfaces0 !! i = Some itf ->
  y ∉ deadCells ->
  (Interface.getOwner itf ∉ deadCells -> y = Interface.getOwner itf) ->
  (Interface.getOwner itf ∈ deadCells -> y = Interface.getNeigh itf) ->
  (exists c cell0, c ∈ deadCells /\ cells0 !! c = Some cell0 /\ i ∈ Cell.getInterfaces cell0) ->
  ds_cells s !! y = Some c0 ->
  Cell.findInterface f (to_int i) c0 = Some k1 ->
  Cell.deleteInterface f k1 c0 = Some c1 ->
  Cell.deleteAdjacency f k2 c1 = Some c2 ->
  firstLoopInv (mkDeleteState (<[y := c2]> (ds_cells s)) (ds_deadVertices s)
                              ({[i]} ∪ ds_deadInterfaces s) ({[y]} ∪ ds_danglingCells s)).
Proof using interfaces_fit.
  intros Hinv Hitf Hy Hown Hneigh Hlisted Hc0 Hfind Hdel Hadj.
  destruct (deleteInterface_keeps f i c0 c1 k1 (interfaces_fit _ _ Hitf) Hfind Hdel)
    as [Hconn1 Hkeep1].
  destruct (deleteAdjacency_keeps f k2 c1 c2 Hadj) as [Hconn2 Hkeep2].
  destruct Hinv as [Hlive Hback Hunmod Hverts Hitfs Hdang Hdlive].
  split; simpl.
  - intros c cell0 Hcell0 Hc. destruct (Hlive c cell0 Hcell0 Hc) as (cell & Hcell & Hconn & Hkeep).
    destruct (decide (c = y)) as [->|Hne].
    + exists c2. rewrite lookup_insert_eq. split; [done|].
      assert (cell = c0) as -> by congruence.
      split; [congruence|]. intros j Hj Hnd. rewrite Hkeep2.
      apply not_elem_of_union in Hnd as [Hne%not_elem_of_singleton Hnd].
      apply Hkeep1; [by apply Hkeep|done].
    + exists cell. rewrite lookup_insert_ne by done. split; [done|]. split; [done|].
      intros j Hj Hnd. apply Hkeep; [done|]. by apply not_elem_of_union in Hnd as [_ Hnd].
  - intros c cell. destruct (decide (c = y)) as [->|Hne].
    + rewrite lookup_insert_eq. intros [= <-].
      destruct (Hback y c0 Hc0) as (cell0 & Hcell0 & Hconn). exists cell0. split; [done|congruence].
    + rewrite lookup_insert_ne by done. apply Hback.
  - intros c cell Hc. rewrite lookup_insert_ne by (intros ->; done). by apply Hunmod.
  - exact Hverts.
  - intros j [Hj%elem_of_singleton| Hj]%elem_of_union; [by subst|by apply Hitfs].
  - intros j itf' [Hj%elem_of_singleton| Hj]%elem_of_union Hitf' Hb.
    + subst j. assert (itf' = itf) as -> by congruence.
      split; [intros Ho; rewrite <- (Hown Ho); apply elem_of_union; left;
              by apply elem_of_singleton|].
      intros Ho _. rewrite <- (Hneigh Ho). apply elem_of_union. left. by apply elem_of_singleton.
    + destruct (Hdang j itf' Hj Hitf' Hb) as [H1 H2].
      split; intros; apply elem_of_union; right; auto.
  - intros z [Hz%elem_of_singleton| Hz]%elem_of_union; [by subst|by apply Hdlive].
Qed.

(** One interface of a deleted cell [c]. *)
Lemma deleteCellInterface_inv (s s' : DeleteState) (i : Z) :
  firstLoopInv s ->
  (exists c cell0, c ∈ deadCells /\ cells0 !! c = Some cell0 /\ i ∈ Cell.getInterfaces cell0) ->
  deleteCellInterface deadCells interfaces0 s i = Returned s' ->
  firstLoopInv s'
  /\ (0 <= i -> i ∈ ds_deadInterfaces s')
  /\ ds_deadInterfaces s ⊆ ds_deadInterfaces s'
  /\ ds_deadVertices s' = ds_deadVertices s
  /\ (forall c, c ∈ deadCells -> ds_cells s' !! c = ds_cells s !! c).
Proof using interfaces_fit.
  intros Hinv Hlisted Hrun. unfold deleteCellInterface in Hrun.
  destruct (Z.ltb_spec i 0) as [Hneg|Hpos].
  { injection Hrun as <-. split; [done|]. split; [intros; lia|]. split; [done|]. split; done. }
  destruct (decide (i ∈ ds_deadInterfaces s)) as [Hin|Hnotin].
  { injection Hrun as <-. split; [done|]. split; [done|]. split; [done|]. split; done. }
  apply obind_Returned in Hrun as (itf & Hitf%or_undefined_Returned & Hrun).
  apply obind_Returned in Hrun as (s1 & Hs1 & Hrun).
  injection Hrun as <-.
  match goal with
  | |- ?G => assert (Hplain : firstLoopInv (mkDeleteState (ds_cells s) (ds_deadVertices s)
                     ({[i]} ∪ ds_deadInterfaces s) (ds_danglingCells s)) -> s1 = s -> G)
  end.
  { intros Hi ->. simpl. split; [exact Hi|].
    split; [intros _; apply elem_of_union; left; by apply elem_of_singleton|].
    split; [apply union_subseteq_r|].
    split; done. }
  destruct (Interface.isBorder itf) eqn:Hborder; simpl in Hs1.
  { apply Hplain; [|congruence].
    destruct Hinv as [Hlive Hback Hunmod Hverts Hitfs Hdang Hdlive]. split; simpl; try done.
    - intros c cell0 Hc0 Hc. destruct (Hlive c cell0 Hc0 Hc) as (cell & ? & ? & Hk).
      exists cell. split; [done|]. split; [done|]. intros j Hj Hnd. apply Hk; [done|].
      by apply not_elem_of_union in Hnd as [_ Hnd].
    - intros j [Hj%elem_of_singleton| Hj]%elem_of_union; [by subst|by apply Hitfs].
    - intros j itf' [Hj%elem_of_singleton| Hj]%elem_of_union Hitf' Hb;
      [|exact (Hdang j itf' Hj Hitf' Hb)].
      subst j. congruence. }
  destruct (decide (Interface.getOwner itf ∉ deadCells)) as [Hown|Hown]; simpl in Hs1.
  - apply obind_Returned in Hs1 as (c0 & Hc0%or_undefined_Returned & Hs1).
    apply obind_Returned in Hs1 as (k1 & Hk1%or_undefined_Returned & Hs1).
    apply obind_Returned in Hs1 as (c1 & Hc1%or_undefined_Returned & Hs1).
    apply obind_Returned in Hs1 as (k2 & Hk2%or_undefined_Returned & Hs1).
    apply obind_Returned in Hs1 as (c2 & Hc2%or_undefined_Returned & Hs1).
    injection Hs1 as <-. simpl.
    split; [eapply dangling_update_inv; eauto; intros; done|].
    split; [intros _; apply elem_of_union; left; by apply elem_of_singleton|].
      split; [apply union_subseteq_r|]. split; [done|].
    intros c Hc. apply lookup_insert_ne. intros Heq. apply Hown. by rewrite Heq.
  - destruct (decide (Interface.getNeigh itf ∉ deadCells)) as [Hneigh|Hneigh]; simpl in Hs1.
    + apply obind_Returned in Hs1 as (c0 & Hc0%or_undefined_Returned & Hs1).
      apply obind_Returned in Hs1 as (k1 & Hk1%or_undefined_Returned & Hs1).
      apply obind_Returned in Hs1 as (c1 & Hc1%or_undefined_Returned & Hs1).
      apply obind_Returned in Hs1 as (k2 & Hk2%or_undefined_Returned & Hs1).
      apply obind_Returned in Hs1 as (c2 & Hc2%or_undefined_Returned & Hs1).
      injection Hs1 as <-. simpl.
      split; [eapply dangling_update_inv; eauto; intros; done|].
      split; [intros _; apply elem_of_union; left; by apply elem_of_singleton|].
      split; [apply union_subseteq_r|]. split; [done|].
      intros c Hc. apply lookup_insert_ne. intros Heq. apply Hneigh. by rewrite Heq.
    + apply Hplain; [|congruence].
      destruct Hinv as [Hlive Hback Hunmod Hverts Hitfs Hdang Hdlive]. split; simpl; try done.
      * intros c cell0 Hc0 Hc. destruct (Hlive c cell0 Hc0 Hc) as (cell & ? & ? & Hk).
        exists cell. split; [done|]. split; [done|]. intros j Hj Hnd. apply Hk; [done|].
      by apply not_elem_of_union in Hnd as [_ Hnd].
      * intros j [Hj%elem_of_singleton| Hj]%elem_of_union; [by subst|by apply Hitfs].
      * intros j itf' [Hj%elem_of_singleton| Hj]%elem_of_union Hitf' Hb;
      [|exact (Hdang j itf' Hj Hitf' Hb)].
        subst j. assert (itf' = itf) as -> by congruence. split; intros; done.
Qed.

(** One deleted cell: its vertices are listed, its interfaces are listed,
    the cell is gone. *)
Definition cellDeleted (c : Z) (s : DeleteState) : Prop :=
  ds_cells s !! c = None /\
  exists cell0, cells0 !! c = Some cell0 /\
    (forall v, v ∈ Cell.connect cell0 -> v ∈ ds_deadVertices s) /\
    (forall i, i ∈ Cell.getInterfaces cell0 -> 0 <= i -> i ∈ ds_deadInterfaces s).

Lemma deleteCellInterface_cellDeleted (s s' : DeleteState) (i c : Z) :
  firstLoopInv s ->
  (exists c cell0, c ∈ deadCells /\ cells0 !! c = Some cell0 /\ i ∈ Cell.getInterfaces cell0) ->
  deleteCellInterface deadCells interfaces0 s i = Returned s' ->
  c ∈ deadCells -> cellDeleted c s -> cellDeleted c s'.
Proof using interfaces_fit.
  intros Hinv Hlisted Hrun Hc (Hnone & cell0 & Hcell0 & Hv & Hi).
  destruct (deleteCellInterface_inv s s' i Hinv Hlisted Hrun) as (_ & _ & Hsub & Hverts & Hcells).
  split; [by rewrite Hcells|]. exists cell0. split; [done|].
  split; [intros v Hvc; rewrite Hverts; by apply Hv|].
  intros j Hj Hpos. apply Hsub. by apply Hi.
Qed.

Lemma deleteDeadCell_inv (s s' : DeleteState) (c : Z) :
  firstLoopInv s -> c ∈ deadCells ->
  deleteDeadCell deadCells interfaces0 s c = Returned s' ->
  firstLoopInv s' /\ cellDeleted c s' /\
  forall b, b ∈ deadCells -> cellDeleted b s -> cellDeleted b s'.
Proof using interfaces_fit.
  intros Hinv Hc Hrun. unfold deleteDeadCell in Hrun.
  apply obind_Returned in Hrun as (cell & Hcell%or_undefined_Returned & Hrun).
  apply obind_Returned in Hrun as (s1 & Hs1 & Hrun). injection Hrun as <-.
  pose proof (inv_dead_unmodified s Hinv c cell Hc Hcell) as Hcell0.
  set (sv := mkDeleteState (ds_cells s) (list_to_set (Cell.connect cell) ∪ ds_deadVertices s)
                           (ds_deadInterfaces s) (ds_danglingCells s)) in Hs1.
  assert (Hsv : firstLoopInv sv).
  { destruct Hinv as [Hlive Hback Hunmod Hverts Hitfs Hdang Hdlive]. split; simpl; try done.
    intros v [Hv%elem_of_list_to_set|Hv]%elem_of_union; [|by apply Hverts].
    by exists c, cell. }
  pose (Inv := fun t : DeleteState =>
     firstLoopInv t /\ ds_cells t !! c = Some cell /\
     (forall v, v ∈ Cell.connect cell -> v ∈ ds_deadVertices t) /\
     forall b, b ∈ deadCells -> cellDeleted b s -> cellDeleted b t).
  pose (Q := fun (i : Z) (t : DeleteState) => 0 <= i -> i ∈ ds_deadInterfaces t).
  destruct (ofold_elem Inv Q (deleteCellInterface deadCells interfaces0)
                       (Cell.getInterfaces cell)) with (s := sv) (s' := s1)
    as [(Hinv1 & Hcell1 & Hverts1 & Hold1) Hall]; [| |exact Hs1|].
  - intros t i t' Hi (Ht & Htc & Htv & Htold) Hstep.
    assert (Hlisted : exists c cell0, c ∈ deadCells /\ cells0 !! c = Some cell0 /\
                                      i ∈ Cell.getInterfaces cell0) by (by exists c, cell).
    destruct (deleteCellInterface_inv t t' i Ht Hlisted Hstep) as (Ht' & Hq & Hsub & Hv & Hcs).
    split; [|split; [exact Hq|]].
    + split; [done|]. split; [by rewrite Hcs|]. split; [intros v Hvc; rewrite Hv; by apply Htv|].
      intros b Hb Hbs.
      exact (deleteCellInterface_cellDeleted t t' i b Ht Hlisted Hstep Hb (Htold b Hb Hbs)).
    + intros j Hj Hpos. apply Hsub. by apply Hj.
  - split; [done|]. split; [done|]. split; [intros v Hv; simpl; set_solver|].
    intros b Hb (Hnone & cell0 & Hb0 & Hbv & Hbi). split; [done|]. exists cell0.
    split; [done|]. split; [|done]. intros v Hv. simpl. apply elem_of_union. right. by apply Hbv.
  - split; [|split].
    + destruct Hinv1 as [Hlive Hback Hunmod Hverts Hitfs Hdang Hdlive]. split; simpl; try done.
      * intros b cell0 Hb0 Hb. destruct (Hlive b cell0 Hb0 Hb) as (cellb & Hcb & Hrest).
        exists cellb. split; [|done]. rewrite lookup_delete_ne; [done|]. by intros ->.
      * intros b cellb Hlk. apply lookup_delete_Some in Hlk as [_ Hlk]. by eapply Hback.
      * intros b cellb Hb Hlk. apply lookup_delete_Some in Hlk as [_ Hlk]. by eapply Hunmod.
    + split; [simpl; apply lookup_delete_eq|]. exists cell. split; [done|]. split; [done|].
      simpl. intros i Hi Hpos. by apply Hall.
    + intros b Hb Hbs. destruct (Hold1 b Hb Hbs) as (Hnone & cell0 & Hb0 & Hbv & Hbi).
      split; [simpl; apply lookup_delete_None; by right|]. by exists cell0.
Qed.

(** The first loop of [deleteCells]. *)
Lemma firstLoop_spec (s : DeleteState) :
  VolOctree.ofold (deleteDeadCell deadCells interfaces0)
                  (mkDeleteState cells0 ∅ ∅ ∅) (elements deadCells) = Returned s ->
  firstLoopInv s /\ forall c, c ∈ deadCells -> cellDeleted c s.
Proof using interfaces_fit.
  intros Hrun.
  destruct (ofold_elem firstLoopInv cellDeleted (deleteDeadCell deadCells interfaces0)
                       (elements deadCells)) with (s := mkDeleteState cells0 ∅ ∅ ∅) (s' := s)
    as [Hinv Hall]; [| |exact Hrun|].
  - intros t c t' Hc Ht Hstep. apply elem_of_elements in Hc.
    destruct (deleteDeadCell_inv t t' c Ht Hc Hstep) as (Ht' & Hd & Hold).
    split; [done|]. split; [done|]. intros b Hb. 
    destruct (decide (b ∈ deadCells)) as [Hbd|Hbd]; [by apply Hold|].
    destruct Hb as (Hnone & cell0 & Hb0 & _).
    destruct (inv_live t Ht b cell0 Hb0 Hbd) as (cellb & Hcb & _). congruence.
  - split; simpl; set_solver.
  - split; [done|]. intros c Hc. apply Hall. by apply elem_of_elements.
Qed.
End DeleteCellsFirstLoop.

Section DeleteCellsSecondLoop.
Context {D Tree : Type} `{Scalar D} `{ScalarPow D} `{Pablo D Tree} `{PatchKernel D}.
Import VolOctree.

(** [v] is a vertex of the cell [c]. *)
Definition referencedBy (cells : gmap Z Cell.t) (v c : Z) : Prop :=
  exists cell, cells !! c = Some cell /\ v ∈ Cell.connect cell.

(** [v] is one of the vertices that the second loop of [deleteCells] reads
    for the interface: a vertex of the face of the owner. *)
Definition onOwnerFace (p : t D Tree) (itf : Interface.t) (v : Z) : Prop :=
  exists ownerCell localFaceConnect k j,
    Kernel.m_cells (m_kernel p) !! Interface.getOwner itf = Some ownerCell /\
    faceConnect (cellType p) !! Interface.getOwnerFace itf = Some localFaceConnect /\
    (k < nVertices (interfaceType p))%nat /\
    localFaceConnect !! k = Some j /\
    Cell.connect ownerCell !! j = Some v.

Variable p : t D Tree.

(** From [r] to [r']: vertices were erased from [deadVertices], all of them
    vertices of cells of the patch. *)
Definition erasure (r r' : gmap Z Z * gset Z) : Prop :=
  r'.2 ⊆ r.2 /\
  forall x, x ∈ r.2 -> x ∉ r'.2 -> exists c, referencedBy (Kernel.m_cells (m_kernel p)) x c.

Lemma erasure_refl (r : gmap Z Z * gset Z) : erasure r r.
Proof. split; [done|]. intros x Hx Hn. done. Qed.

Lemma erasure_trans (r1 r2 r3 : gmap Z Z * gset Z) :
  erasure r1 r2 -> erasure r2 r3 -> erasure r1 r3.
Proof.
  intros [Hs12 Hk12] [Hs23 Hk23]. split; [by etrans|].
  intros x Hx Hn. destruct (decide (x ∈ r2.2)); [by apply Hk23|by apply Hk12].
Qed.

Lemma keepVertex_spec (oi : OctantInfo) (conn : list Z) (r r' : gmap Z Z * gset Z) (k : nat) :
  keepVertex p oi conn r k = Returned r' ->
  exists v, conn !! k = Some v /\ r'.2 = r.2 ∖ {[v]}.
Proof.
  unfold keepVertex. intros Hrun.
  apply obind_Returned in Hrun as (v & Hv%or_undefined_Returned & Hrun).
  injection Hrun as <-. by exists v.
Qed.

(** A loop whose steps erase one vertex each. *)
Lemma erase_loop (g : gmap Z Z * gset Z -> nat -> outcome (gmap Z Z * gset Z))
      (P : nat -> Z -> Prop) (l : list nat) (r r' : gmap Z Z * gset Z) :
  (forall s k s', g s k = Returned s' -> exists v, P k v /\ s'.2 = s.2 ∖ {[v]}) ->
  (forall k v v', P k v -> P k v' -> v = v') ->
  (forall k v, P k v -> exists c, referencedBy (Kernel.m_cells (m_kernel p)) v c) ->
  ofold g r l = Returned r' ->
  erasure r r' /\ forall k v, k ∈ l -> P k v -> v ∉ r'.2.
Proof.
  intros Hg Hfun Hkept Hrun.
  destruct (ofold_elem (fun s => erasure r s) (fun k s => forall v, P k v -> v ∉ s.2) g l)
    with (s := r) (s' := r') as [Hinv Hall]; [|apply erasure_refl|exact Hrun|].
  - intros s k s' Hk Hs Hstep. destruct (Hg s k s' Hstep) as (v & Hv & Heq).
    split; [|split].
    + eapply erasure_trans; [exact Hs|].
      split; [rewrite Heq; intros z Hz; by apply elem_of_difference in Hz as [Hz _]|].
      intros x Hx Hn. rewrite Heq in Hn.
      destruct (decide (x = v)) as [->|Hne]; [by eapply Hkept|].
      exfalso. apply Hn, elem_of_difference. split; [done|by apply not_elem_of_singleton].
    + intros v' Hv'. rewrite (Hfun k v' v Hv' Hv), Heq.
      intros Hin. apply elem_of_difference in Hin as [_ Hin]. apply Hin. by apply elem_of_singleton.
    + intros b Hb v' Hv'. rewrite Heq. specialize (Hb v' Hv').
      intros Hin. by apply elem_of_difference in Hin as [Hin _].
  - split; [done|]. intros k v Hk. by apply Hall.
Qed.

(** What the second loop has done for the dangling cell [y]: none of its
    vertices and none of the vertices on the owner faces of its interfaces
    is in [deadVertices]. *)
Definition danglingKept (y : Z) (r : gmap Z Z * gset Z) : Prop :=
  exists cell, Kernel.m_cells (m_kernel p) !! y = Some cell /\
    (forall k v, (k < nVertices (cellType p))%nat -> Cell.connect cell !! k = Some v -> v ∉ r.2) /\
    (forall i itf v, i ∈ Cell.getInterfaces cell -> 0 <= i ->
       Kernel.m_interfaces (m_kernel p) !! i = Some itf -> Interface.isBorder itf = false ->
       onOwnerFace p itf v -> v ∉ r.2).

Lemma keepInterfaceVertices_spec (r r' : gmap Z Z * gset Z) (i : Z) :
  keepInterfaceVertices p r i = Returned r' ->
  erasure r r' /\
  forall itf v, 0 <= i -> Kernel.m_interfaces (m_kernel p) !! i = Some itf ->
    Interface.isBorder itf = false -> onOwnerFace p itf v -> v ∉ r'.2.
Proof.
  unfold keepInterfaceVertices. intros Hrun.
  destruct (Z.ltb_spec i 0) as [Hneg|Hpos].
  { injection Hrun as <-. split; [apply erasure_refl|]. intros; lia. }
  apply obind_Returned in Hrun as (itf & Hitf%or_undefined_Returned & Hrun).
  destruct (Interface.isBorder itf) eqn:Hb.
  { injection Hrun as <-. split; [apply erasure_refl|]. intros; congruence. }
  apply obind_Returned in Hrun as (ownerCell & Howner%or_undefined_Returned & Hrun).
  apply obind_Returned in Hrun as (oi & _ & Hrun).
  apply obind_Returned in Hrun as (lfc & Hlfc%or_undefined_Returned & Hrun).
  match type of Hrun with
  | ofold ?g _ ?l = _ =>
      destruct (erase_loop g (fun k v => exists j, lfc !! k = Some j /\
                                           Cell.connect ownerCell !! j = Some v) l r r')
        as [Her Hall]; [| | |exact Hrun|]
  end.
  - intros s k s' Hstep.
    apply obind_Returned in Hstep as (j & Hj%or_undefined_Returned & Hstep).
    destruct (keepVertex_spec _ _ _ _ _ Hstep) as (v & Hv & Heq). exists v. split; [eauto|done].
  - intros k v v' (j & Hj & Hv) (j' & Hj' & Hv'). congruence.
  - intros k v (j & Hj & Hv). exists (Interface.getOwner itf), ownerCell. split; [done|].
    by eapply list_elem_of_lookup_2.
  - split; [done|]. intros itf' v _ Hitf' _ (oc & lfc' & k & j & Hoc & Hl & Hk & Hj & Hv).
    assert (itf' = itf) as -> by congruence.
    apply (Hall k v); [apply elem_of_seq; lia|]. exists j. split; congruence.
Qed.

Lemma keepDanglingCell_spec (r r' : gmap Z Z * gset Z) (y : Z) :
  keepDanglingCell p r y = Returned r' ->
  erasure r r' /\ danglingKept y r'.
Proof.
  unfold keepDanglingCell. intros Hrun.
  apply obind_Returned in Hrun as (cell & Hcell%or_undefined_Returned & Hrun).
  apply obind_Returned in Hrun as (oi & _ & Hrun).
  apply obind_Returned in Hrun as (r1 & Hr1 & Hrun).
  match type of Hr1 with
  | ofold ?g _ ?l = _ =>
      destruct (erase_loop g (fun k v => Cell.connect cell !! k = Some v) l r r1)
        as [Her1 Hall1]; [| | |exact Hr1|]
  end.
  - intros s k s' Hstep. by apply keepVertex_spec in Hstep.
  - intros k v v' Hv Hv'. congruence.
  - intros k v Hv. exists y, cell. split; [done|]. by eapply list_elem_of_lookup_2.
  - destruct (ofold_elem (fun s => erasure r1 s)
                (fun i s => forall itf v, 0 <= i -> Kernel.m_interfaces (m_kernel p) !! i = Some itf ->
                   Interface.isBorder itf = false -> onOwnerFace p itf v -> v ∉ s.2)
                (keepInterfaceVertices p) (Cell.getInterfaces cell))
      with (s := r1) (s' := r') as [Her2 Hall2]; [|apply erasure_refl|exact Hrun|].
    + intros s i s' Hi Hs Hstep. destruct (keepInterfaceVertices_spec s s' i Hstep) as [Her Hq].
      split; [by eapply erasure_trans|]. split; [exact Hq|].
      intros b Hb itf v Hpos Hitf Hbd Hv Hin. apply (Hb itf v Hpos Hitf Hbd Hv).
      by apply (proj1 Her).
    + split; [by eapply erasure_trans|]. exists cell. split; [done|]. split.
      * intros k v Hk Hv Hin. apply (Hall1 k v); [apply elem_of_seq; lia|done|].
        by apply (proj1 Her2).
      * intros i itf v Hi Hpos Hitf Hb Hv. by apply (Hall2 i Hi itf v).
Qed.

(** The second loop of [deleteCells]. *)
Lemma secondLoop_spec (l : list Z) (r r' : gmap Z Z * gset Z) :
  ofold (keepDanglingCell p) r l = Returned r' ->
  erasure r r' /\ forall y, y ∈ l -> danglingKept y r'.
Proof.
  intros Hrun.
  destruct (ofold_elem (fun s => erasure r s) danglingKept (keepDanglingCell p) l)
    with (s := r) (s' := r') as [Hinv Hall]; [|apply erasure_refl|exact Hrun|done].
  intros s y s' Hy Hs Hstep. destruct (keepDanglingCell_spec s s' y Hstep) as [Her Hk].
  split; [by eapply erasure_trans|]. split; [done|].
  intros b (cell & Hcell & Hv & Hi). exists cell. split; [done|]. split.
  - intros k v Hlt Hkv Hin. apply (Hv k v Hlt Hkv). by apply (proj1 Her).
  - intros i itf v Hil Hpos Hitf Hb Hov Hin. apply (Hi i itf v Hil Hpos Hitf Hb Hov).
    by apply (proj1 Her).
Qed.
End DeleteCellsSecondLoop.

Section DeleteCells.
Context {D Tree : Type} `{Scalar D} `{ScalarPow D} `{Pablo D Tree} `{PatchKernel D}.
Import VolOctree.

Lemma deleteInterfaces_spec (l : list Z) (k : Kernel.t D) :
  let k' := foldl (fun k i => Kernel.deleteInterface i k) k l in
  Kernel.m_cells k' = Kernel.m_cells k /\ Kernel.m_vertices k' = Kernel.m_vertices k /\
  forall i, Kernel.m_interfaces k' !! i
            = if decide (i ∈ l) then None else Kernel.m_interfaces k !! i.
Proof.
  revert k. induction l as [|a l IH]; intros k; cbv zeta; cbn [foldl].
  - split; [done|]. split; [done|]. intros i. by rewrite decide_False by apply not_elem_of_nil.
  - destruct (IH (Kernel.deleteInterface a k)) as (Hc & Hv & Hi). cbv zeta in *.
    split; [by rewrite Hc|]. split; [by rewrite Hv|]. intros i. rewrite Hi.
    destruct (decide (i ∈ l)) as [Hil|Hil];
      [by rewrite decide_True by (apply elem_of_cons; by right)|].
    destruct (decide (i = a)) as [->|Hne].
    + rewrite decide_True by (apply elem_of_cons; by left). apply lookup_delete_eq.
    + rewrite decide_False by (by intros [?|?]%elem_of_cons). by apply lookup_delete_ne.
Qed.

Lemma deleteVertices_spec (l : list Z) (k : Kernel.t D) :
  let k' := foldl (fun k v => Kernel.deleteVertex v k) k l in
  Kernel.m_cells k' = Kernel.m_cells k /\
  forall v, Kernel.m_vertices k' !! v
            = if decide (v ∈ l) then None else Kernel.m_vertices k !! v.
Proof.
  revert k. induction l as [|a l IH]; intros k; cbv zeta; cbn [foldl].
  - split; [done|]. intros i. by rewrite decide_False by apply not_elem_of_nil.
  - destruct (IH (Kernel.deleteVertex a k)) as (Hc & Hi). cbv zeta in *.
    split; [by rewrite Hc|]. intros i. rewrite Hi.
    destruct (decide (i ∈ l)) as [Hil|Hil];
      [by rewrite decide_True by (apply elem_of_cons; by right)|].
    destruct (decide (i = a)) as [->|Hne].
    + rewrite decide_True by (apply elem_of_cons; by left). apply lookup_delete_eq.
    + rewrite decide_False by (by intros [?|?]%elem_of_cons). by apply lookup_delete_ne.
Qed.

(** The cells [c] and [c'] are on the two sides of an interface that both
    list and whose owner face has the vertex [v]. *)
Definition faceLinked (p : t D Tree) (v c c' : Z) : Prop :=
  exists i itf cell cell',
    Kernel.m_cells (m_kernel p) !! c = Some cell /\
    Kernel.m_cells (m_kernel p) !! c' = Some cell' /\
    i ∈ Cell.getInterfaces cell /\ i ∈ Cell.getInterfaces cell' /\
    Kernel.m_interfaces (m_kernel p) !! i = Some itf /\
    Interface.isBorder itf = false /\
    ((Interface.getOwner itf = c /\ Interface.getNeigh itf = c') \/
     (Interface.getOwner itf = c' /\ Interface.getNeigh itf = c)) /\
    onOwnerFace p itf v.

(** A chain of cells around the vertex [v], each linked to the next
    through a face that has [v]. *)
Inductive faceChain (p : t D Tree) (v : Z) : Z -> Z -> Prop :=
| faceChain_end c : faceChain p v c c
| faceChain_step c c' d : faceLinked p v c c' -> faceChain p v c' d -> faceChain p v c d.

(** The patch [deleteCells] works on: cells, interfaces and vertices as the
    interface builder leaves them for a mesh of cells that fill a region.
    Interface ids are non-negative and fit [int]; an interface is listed by
    the cells on its two sides only; a cell has the vertices of its type,
    all stored; and the cells around a vertex are connected through faces
    that have that vertex. *)
Record consistentMesh (p : t D Tree) : Prop := {
  mesh_interface_ids : forall i itf,
    Kernel.m_interfaces (m_kernel p) !! i = Some itf -> 0 <= i /\ fits_int i;
  mesh_interface_sides : forall c cell i itf,
    Kernel.m_cells (m_kernel p) !! c = Some cell -> i ∈ Cell.getInterfaces cell ->
    Kernel.m_interfaces (m_kernel p) !! i = Some itf ->
    c = Interface.getOwner itf \/ c = Interface.getNeigh itf;
  mesh_cell_vertices : forall c cell,
    Kernel.m_cells (m_kernel p) !! c = Some cell ->
    length (Cell.connect cell) = nVertices (cellType p);
  mesh_vertices_stored : forall c cell v,
    Kernel.m_cells (m_kernel p) !! c = Some cell -> v ∈ Cell.connect cell ->
    is_Some (Kernel.m_vertices (m_kernel p) !! v);
  mesh_vertex_star : forall v a d,
    referencedBy (Kernel.m_cells (m_kernel p)) v a ->
    referencedBy (Kernel.m_cells (m_kernel p)) v d -> faceChain p v a d
}.

(** On a chain that leaves the deleted cells, the last deleted cell is
    linked to a cell that stays, which is the end of the chain or is linked
    to another cell that stays. *)
Lemma faceChain_last_dead (p : t D Tree) (v : Z) (deadCells : gset Z) (a d : Z) :
  faceChain p v a d -> d ∉ deadCells ->
  let crossing := exists x y, x ∈ deadCells /\ (y ∉ deadCells) /\ faceLinked p v x y /\
                    (y = d \/ exists z, (z ∉ deadCells) /\ faceLinked p v y z) in
  (a ∈ deadCells -> crossing) /\
  (a ∉ deadCells -> a = d \/ (exists z, (z ∉ deadCells) /\ faceLinked p v a z) \/ crossing).
Proof.
  intros Hchain Hd. simpl. induction Hchain as [c|c c' d Hlink Hchain IH].
  - split; [done|]. intros _. by left.
  - destruct (IH Hd) as [IHdead IHlive].
    destruct (decide (c' ∈ deadCells)) as [Hc'|Hc'].
    + split; [intros _; by apply IHdead|]. intros _. right. right. by apply IHdead.
    + split.
      * intros Hc. destruct (IHlive Hc') as [->|[Hz|Hx]]; [| |done].
        -- exists c, d. split; [done|]. split; [done|]. split; [done|]. by left.
        -- exists c, c'. split; [done|]. split; [done|]. split; [done|]. by right.
      * intros Hc. right. left. by exists c'.
Qed.

(** The two cells of an interface are linked at the vertices of the
    owner face. *)
Lemma faceLinked_sides (p : t D Tree) (v i : Z) (itf : Interface.t) (cell cell' : Cell.t)
      (localFaceConnect : list nat) (k j : nat) :
  Kernel.m_interfaces (m_kernel p) !! i = Some itf ->
  Interface.isBorder itf = false ->
  Kernel.m_cells (m_kernel p) !! Interface.getOwner itf = Some cell ->
  Kernel.m_cells (m_kernel p) !! Interface.getNeigh itf = Some cell' ->
  i ∈ Cell.getInterfaces cell -> i ∈ Cell.getInterfaces cell' ->
  faceConnect (cellType p) !! Interface.getOwnerFace itf = Some localFaceConnect ->
  (k < nVertices (interfaceType p))%nat ->
  localFaceConnect !! k = Some j ->
  Cell.connect cell !! j = Some v ->
  faceLinked p v (Interface.getOwner itf) (Interface.getNeigh itf) /\
  faceLinked p v (Interface.getNeigh itf) (Interface.getOwner itf).
Proof.
  intros Hitf Hb Hc Hc' Hi Hi' Hlfc Hk Hj Hv.
  assert (Hface : onOwnerFace p itf v) by (by exists cell, localFaceConnect, k, j).
  split.
  - exists i, itf, cell, cell'. repeat (split; [done|]). split; [by left|done].
  - exists i, itf, cell', cell. repeat (split; [done|]). split; [by right|done].
Qed.

(** C5. [deleteCells] on a consistent mesh, for every run that returns:
    the cells of the list are gone; every other cell is still there with
    its connectivity, and every vertex of its connectivity is still in the
    vertex container, with its coordinates, whether the cell is a dangling
    cell or shares only a corner or an edge with a deleted cell; every
    vertex referenced by deleted cells only has been removed. *)
Theorem deleteCells_keeps_referenced_vertices
    (p p' : t D Tree) (deletedOctants : list DeleteInfo) (stitchVertices : gmap Z Z) :
  consistentMesh p ->
  deleteCells deletedOctants p = Returned (p', stitchVertices) ->
  let deadCells : gset Z := list_to_set (map di_cellId deletedOctants) in
  (forall c, c ∈ deadCells -> Kernel.m_cells (m_kernel p') !! c = None) /\
  (forall c cell, Kernel.m_cells (m_kernel p) !! c = Some cell -> c ∉ deadCells ->
     exists cell', Kernel.m_cells (m_kernel p') !! c = Some cell' /\
       Cell.connect cell' = Cell.connect cell /\
       forall v, v ∈ Cell.connect cell' ->
         is_Some (Kernel.m_vertices (m_kernel p') !! v) /\
         Kernel.m_vertices (m_kernel p') !! v = Kernel.m_vertices (m_kernel p) !! v) /\
  (forall v, (exists c, referencedBy (Kernel.m_cells (m_kernel p)) v c) ->
     (forall c, referencedBy (Kernel.m_cells (m_kernel p)) v c -> c ∈ deadCells) ->
     Kernel.m_vertices (m_kernel p') !! v = None).
Proof.
  intros Hmesh Hrun deadCells. unfold deleteCells in Hrun. cbv zeta in Hrun.
  fold deadCells in Hrun.
  apply obind_Returned in Hrun as (s1 & Hs1 & Hrun).
  apply obind_Returned in Hrun as (r & Hr & Hrun).
  injection Hrun as <- <-.
  set (cells0 := Kernel.m_cells (m_kernel p)) in *.
  set (interfaces0 := Kernel.m_interfaces (m_kernel p)) in *.
  match type of Hr with ofold (keepDanglingCell ?q) _ _ = _ => set (p2 := q) in * end.
  destruct (firstLoop_spec deadCells interfaces0 cells0
              (fun i itf Hi => proj2 (mesh_interface_ids p Hmesh i itf Hi)) s1 Hs1)
    as [Hinv Hdeleted].
  destruct (secondLoop_spec p2 _ _ _ Hr) as [[Hsub Herased] Hkept]. cbn [snd] in Hsub, Herased.
  (* the patch between the two loops *)
  assert (Hcells2 : Kernel.m_cells (m_kernel p2) = ds_cells s1).
  { unfold p2. simpl. by destruct (deleteInterfaces_spec (elements (ds_deadInterfaces s1))
      (Kernel.set_cells (ds_cells s1) (m_kernel p))) as (-> & _ & _). }
  assert (Hinterfaces2 : forall i, i ∉ ds_deadInterfaces s1 ->
            Kernel.m_interfaces (m_kernel p2) !! i = interfaces0 !! i).
  { intros i Hi. unfold p2. simpl.
    destruct (deleteInterfaces_spec (elements (ds_deadInterfaces s1))
      (Kernel.set_cells (ds_cells s1) (m_kernel p))) as (_ & _ & ->).
    by rewrite decide_False by (by rewrite elem_of_elements). }
  assert (Hvertices2 : Kernel.m_vertices (m_kernel p2) = Kernel.m_vertices (m_kernel p)).
  { unfold p2. simpl. by destruct (deleteInterfaces_spec (elements (ds_deadInterfaces s1))
      (Kernel.set_cells (ds_cells s1) (m_kernel p))) as (_ & -> & _). }
  assert (Htype2 : cellType p2 = cellType p /\ interfaceType p2 = interfaceType p) by done.
  destruct Htype2 as [Hct2 Hit2].
  (* the patch returned *)
  destruct (deleteVertices_spec (elements r.2) (m_kernel p2)) as [Hcells' Hvertices'].
  cbv zeta in Hcells', Hvertices'.
  change (m_kernel (set_kernel ?k _)) with k.
  change (foldl (fun k i => Kernel.deleteInterface i k) _ _) with (m_kernel p2).
  rewrite Hcells', Hcells2.
  assert (Hvert : forall v, Kernel.m_vertices
            (foldl (fun k v => Kernel.deleteVertex v k) (m_kernel p2) (elements r.2)) !! v
            = if decide (v ∈ r.2) then None else Kernel.m_vertices (m_kernel p) !! v).
  { intros v. rewrite Hvertices', Hvertices2.
    destruct (decide (v ∈ r.2)); [by rewrite decide_True by (by rewrite elem_of_elements)|].
    by rewrite decide_False by (by rewrite elem_of_elements). }
  clear Hvertices' Hcells'.
  split; [intros c Hc; by destruct (Hdeleted c Hc)|]. split.
  - (* the cells that stay keep their vertices *)
    intros c cell Hcell Hc.
    destruct (inv_live _ _ _ _ Hinv c cell Hcell Hc) as (cell' & Hcell' & Hconn & Hitfs).
    exists cell'. split; [done|]. split; [done|]. intros v Hv. rewrite Hvert.
    assert (Hnot : v ∉ r.2); [|rewrite decide_False by done; split; [|done];
      eapply (mesh_vertices_stored p Hmesh c cell v); [done|congruence]].
    intros Hin.
    destruct (inv_vertices _ _ _ _ Hinv v (Hsub v Hin)) as (a & cellA & Ha & HcellA & HvA).
    assert (Hchain : faceChain p v a c).
    { apply (mesh_vertex_star p Hmesh); [by exists cellA|exists cell; split; [done|congruence]]. }
    destruct (proj1 (faceChain_last_dead p v deadCells a c Hchain Hc) Ha)
      as (x & y & Hx & Hy & Hxy & Hnext).
    (* the cell after the last deleted cell is a dangling cell *)
    assert (Hdangling : y ∈ ds_danglingCells s1).
    { destruct Hxy as (i & itf & cellx & celly & Hcx & Hcy & Hix & Hiy & Hitf & Hb & Hsides & _).
      destruct (Hdeleted x Hx) as (_ & cellx' & Hcx' & _ & Hlisted).
      assert (cellx' = cellx) as -> by (unfold cells0 in *; congruence).
      pose proof (Hlisted i Hix (proj1 (mesh_interface_ids p Hmesh i itf Hitf))) as Hdead.
      destruct (inv_dangling_of _ _ _ _ Hinv i itf Hdead Hitf Hb) as [Hown Hneigh].
      destruct Hsides as [[Ho Hn]|[Ho Hn]].
      - rewrite <- Hn. apply Hneigh; by rewrite ?Ho, ?Hn.
      - rewrite <- Ho. apply Hown. by rewrite Ho. }
    destruct (Hkept y ltac:(by apply elem_of_elements)) as (celly2 & Hcy2 & Hconn_y & Hitf_y).
    rewrite Hcells2 in Hcy2.
    destruct Hnext as [->|(z & Hz & Hyz)].
    + assert (celly2 = cell') as -> by congruence.
      apply list_elem_of_lookup in Hv as [k Hk].
      apply (Hconn_y k v); [|done|done].
      rewrite Hct2, <- (mesh_cell_vertices p Hmesh c cell Hcell), <- Hconn.
      by eapply lookup_lt_Some.
    + destruct Hyz as (i & itf & celly & cellz & Hcy & Hcz & Hiy & Hiz & Hitf & Hb & Hsides & Hface).
      assert (Hlive_i : i ∉ ds_deadInterfaces s1).
      { intros Hdead. destruct (inv_interfaces _ _ _ _ Hinv i Hdead) as (b & cellb & Hb' & Hcb & Hib).
        destruct (mesh_interface_sides p Hmesh b cellb i itf Hcb Hib Hitf) as [->| ->];
          destruct Hsides as [[Ho Hn]|[Ho Hn]]; rewrite ?Ho, ?Hn in Hb'; done. }
      destruct (inv_live _ _ _ _ Hinv y celly Hcy Hy) as (celly' & Hcy' & _ & Hkeep).
      assert (celly' = celly2) as -> by congruence.
      apply (Hitf_y i itf v); [by apply Hkeep|apply (mesh_interface_ids p Hmesh i itf Hitf)
                              |by rewrite Hinterfaces2|done| |done].
      destruct Hface as (oc & lfc & k & j & Hoc & Hlfc & Hk & Hj & Hvj).
      assert (Howner_live : Interface.getOwner itf ∉ deadCells)
        by (destruct Hsides as [[-> _]|[-> _]]; done).
      destruct (inv_live _ _ _ _ Hinv _ oc Hoc Howner_live) as (oc' & Hoc' & Hconn_o & _).
      exists oc', lfc, k, j. rewrite Hcells2, Hct2, Hit2. split; [done|]. split; [done|].
      split; [done|]. split; [done|]. by rewrite Hconn_o.
  - (* the vertices of deleted cells only are removed *)
    intros v (c & cell & Hcell & Hv) Honly. rewrite Hvert.
    assert (Hc : c ∈ deadCells) by (apply Honly; by exists cell).
    destruct (Hdeleted c Hc) as (_ & cell0 & Hcell0 & Hlisted & _).
    assert (cell0 = cell) as -> by (unfold cells0 in *; congruence).
    rewrite decide_True; [done|]. apply dec_stable. intros Hnot.
    destruct (Herased v (Hlisted v Hv) Hnot) as (b & cellb & Hcb & Hvb).
    rewrite Hcells2 in Hcb.
    destruct (inv_back _ _ _ _ Hinv b cellb Hcb) as (cellb0 & Hcb0 & Hconn_b).
    assert (Hb : b ∈ deadCells) by (apply Honly; exists cellb0; split; [done|congruence]).
    destruct (Hdeleted b Hb) as (Hnone & _). congruence.
Qed.
End DeleteCells.

Section DeleteCellsScenarios.
Import VolOctree Scripted Scenario.

(** Deleting the cell 1 of the grid: the vertex 0, of that cell only, goes;
    the other vertices stay, the vertex 4 with the cell 4 that shares only
    that corner with the cell 1. *)
Example deleteCells_grid_corner :
  exists p' stitch,
    deleteCells (deletionOf [1]) gridPatch = Returned (p', stitch)
    /\ map (fun c => Cell.connect <$> Kernel.m_cells (m_kernel p') !! c) [1; 2; 3; 4]
       = [None; Some [1; 2; 4; 5]; Some [3; 4; 6; 7]; Some [4; 5; 7; 8]]
    /\ filter (fun v => is_Some (Kernel.m_vertices (m_kernel p') !! v)) (seqZ 0 9)
       = [1; 2; 3; 4; 5; 6; 7; 8].
Proof. do 2 eexists. split; [vm_compute; reflexivity|]. vm_compute. auto. Qed.

(** On the mesh with a hanging face.  Deleting the four cells of level 2:
    their vertices go, the two hanging ones 4 and 9 included, but for the
    corners 1, 8, 10 that the cells 10 and 16 have.  Deleting the cells 10,
    13 and 15: the vertex 8 stays with the cell 16, the vertex 4 with the
    cell 11. *)
Example deleteCells_hanging_mesh :
  exists p1 stitch1 p2 stitch2,
    deleteCells (deletionOf [11; 12; 13; 14]) hangingMesh = Returned (p1, stitch1)
    /\ filter (fun v => is_Some (Kernel.m_vertices (m_kernel p1) !! v)) (seqZ 0 14)
       = [0; 1; 7; 8; 10; 11; 12; 13]
    /\ deleteCells (deletionOf [10; 13; 15]) hangingMesh = Returned (p2, stitch2)
    /\ filter (fun v => is_Some (Kernel.m_vertices (m_kernel p2) !! v)) (seqZ 0 14)
       = [1; 2; 3; 4; 5; 6; 8; 9; 10; 12; 13].
Proof.
  do 4 eexists. split; [vm_compute; reflexivity|]. split; [vm_compute; auto|].
  split; [vm_compute; reflexivity|]. vm_compute. auto.
Qed.

(** The entries of a map given by its list. *)
Ltac enumerate H :=
  apply elem_of_map_to_list in H;
  match type of H with
  | _ ∈ ?l => let l' := eval vm_compute in l in change l with l' in H
  end;
  repeat (apply elem_of_cons in H as [H|H]); [..|by apply elem_of_nil in H];
  simplify_eq.

Ltac enumerate_list H :=
  repeat (apply elem_of_cons in H as [H|H]); [..|by apply elem_of_nil in H]; subst.

(** The links of the interface [i0] at the vertex [k0] of its owner face. *)
Ltac mesh_link p i0 k0 :=
  let Hl := fresh "Hlink" in
  eassert (Hl : faceLinked p _ _ _ /\ faceLinked p _ _ _);
  [eapply (faceLinked_sides p) with (i := i0) (k := k0);
   [vm_compute; reflexivity | reflexivity | vm_compute; reflexivity | vm_compute; reflexivity
   |vm_compute; set_solver | vm_compute; set_solver | vm_compute; reflexivity
   |vm_compute; lia | vm_compute; reflexivity | vm_compute; reflexivity]
  |cbn [Interface.getOwner Interface.getNeigh Interface.m_owner Interface.m_neigh] in Hl;
   destruct Hl as [? ?]].

Ltac mesh_links p ids :=
  lazymatch ids with
  | nil => idtac
  | cons ?i0 ?ids' => mesh_link p i0 0%nat; mesh_link p i0 1%nat; mesh_links p ids'
  end.

Ltac mesh_consistent p ids :=
  split;
  [intros i itf Hi; enumerate Hi; unfold fits_int; lia
  |intros c cell i itf Hc Hi Hitf; enumerate Hc; vm_compute in Hi; enumerate_list Hi;
     vm_compute in Hitf; simplify_eq; vm_compute; auto
  |intros c cell Hc; enumerate Hc; reflexivity
  |intros c cell v Hc Hv; enumerate Hc; vm_compute in Hv; enumerate_list Hv;
     vm_compute; eauto
  |mesh_links p ids;
   intros v a d (cella & Ha & Hva) (celld & Hd & Hvd);
   enumerate Ha; vm_compute in Hva; enumerate_list Hva;
     enumerate Hd; vm_compute in Hvd; enumerate_list Hvd; try lia; try done;
     eauto using faceChain_end, faceChain_step].

(** The grid is a consistent mesh. *)
Lemma gridPatch_consistent : consistentMesh gridPatch.
Proof. mesh_consistent gridPatch [0; 1; 2; 3]. Qed.

Lemma deleteCells_keeps_referenced_vertices_witness :
  exists p' stitchVertices,
    consistentMesh hangingMesh
    /\ deleteCells (deletionOf [10]) hangingMesh = Returned (p', stitchVertices)
    /\ let deadCells : gset Z := list_to_set (map di_cellId (deletionOf [10])) in
       (forall c, c ∈ deadCells -> Kernel.m_cells (m_kernel p') !! c = None) /\
       (forall c cell, Kernel.m_cells (m_kernel hangingMesh) !! c = Some cell -> c ∉ deadCells ->
          exists cell', Kernel.m_cells (m_kernel p') !! c = Some cell' /\
            Cell.connect cell' = Cell.connect cell /\
            forall v, v ∈ Cell.connect cell' ->
              is_Some (Kernel.m_vertices (m_kernel p') !! v) /\
              Kernel.m_vertices (m_kernel p') !! v
              = Kernel.m_vertices (m_kernel hangingMesh) !! v) /\
       (forall v, (exists c, referencedBy (Kernel.m_cells (m_kernel hangingMesh)) v c) ->
          (forall c, referencedBy (Kernel.m_cells (m_kernel hangingMesh)) v c -> c ∈ deadCells) ->
          Kernel.m_vertices (m_kernel p') !! v = None).
Proof.
  assert (Hmesh : consistentMesh hangingMesh).
  { mesh_consistent hangingMesh [0; 1; 2; 3; 4; 5; 6; 7; 8; 9]. }
  assert (Hrun : exists p' stitchVertices,
             deleteCells (deletionOf [10]) hangingMesh = Returned (p', stitchVertices)).
  { do 2 eexists. vm_compute. reflexivity. }
  destruct Hrun as (p' & stitchVertices & Hrun).
  exists p', stitchVertices. split; [exact Hmesh|]. split; [exact Hrun|].
  exact (deleteCells_keeps_referenced_vertices hangingMesh p' _ stitchVertices Hmesh Hrun).
Defined.
End DeleteCellsScenarios.

(* ===================================================================== *)
(** * Part III. More of the geometry kernel, the cell and the patch       *)
(* ===================================================================== *)

(** ** Comparisons, [std::min] and [std::max] over exact arithmetic *)

Section ExactScalars.
Local Open Scope Q_scope.

Lemma Q_ltb_spec (a b : Q) : reflect (a < b) (sc_ltb a b).
Proof.
  cbn. destruct (Qlt_le_dec a b) as [Hlt|Hle]; constructor; [done|].
  by apply Qle_not_lt.
Qed.

Lemma Q_leb_spec (a b : Q) : reflect (a <= b) (sc_leb a b).
Proof.
  cbn. destruct (Qle_bool a b) eqn:Hb; constructor.
  - by apply Qle_bool_iff.
  - intros Hle. apply Qle_bool_iff in Hle. congruence.
Qed.

Lemma Q_min_spec (a b : Q) :
  sc_min a b <= a /\ sc_min a b <= b /\ (sc_min a b = a \/ sc_min a b = b).
Proof. unfold sc_min. destruct (Q_ltb_spec b a); split_and!; auto; lra. Qed.

Lemma Q_max_spec (a b : Q) :
  a <= sc_max a b /\ b <= sc_max a b /\ (sc_max a b = a \/ sc_max a b = b).
Proof. unfold sc_max. destruct (Q_ltb_spec a b); split_and!; auto; lra. Qed.
End ExactScalars.

Section Boxes.
Import Operators CGElem CGBoxes.
Local Open Scope Q_scope.

(** [x] is in the box [(B1, B2)] on the axis [d]. *)
Definition inBoxOn (d : nat) (x B1 B2 : array3D Q) : Prop :=
  a3_get d B1 <= a3_get d x <= a3_get d B2.

Lemma intersectBoxBox_from_spec (A1 A2 B1 B2 : array3D Q) (d n : nat) :
  intersectBoxBox_from A1 A2 B1 B2 d n = true <->
  forall k, (d <= k < d + n)%nat ->
            a3_get k B1 <= a3_get k A2 /\ a3_get k A1 <= a3_get k B2.
Proof.
  revert d. induction n as [|n IH]; intros d; cbn [intersectBoxBox_from].
  - split; [intros _ k Hk; lia|done].
  - destruct (Q_ltb_spec (a3_get d A2) (a3_get d B1)) as [H1|H1]; cbn [orb].
    { split; [done|]. intros Hall. destruct (Hall d ltac:(lia)). lra. }
    destruct (Q_ltb_spec (a3_get d B2) (a3_get d A1)) as [H2|H2]; cbn [orb].
    { split; [done|]. intros Hall. destruct (Hall d ltac:(lia)). lra. }
    rewrite IH. split.
    + intros Hall k Hk. destruct (decide (k = d)) as [->|Hne]; [lra|]. apply Hall. lia.
    + intros Hall k Hk. apply Hall. lia.
Qed.

(** X1.  [intersectBoxBox(A1, A2, B1, B2, dim)], for [dim] up to 3 and over
    exact arithmetic, returns true exactly when the intervals of the two
    boxes meet on each of the first [dim] axes; the result does not depend
    on the order of the two boxes. *)
Theorem intersectBoxBox_overlap (A1 A2 B1 B2 : array3D Q) (dim : nat) :
  (dim <= 3)%nat ->
  (intersectBoxBox A1 A2 B1 B2 dim = true <->
   forall d, (d < dim)%nat -> a3_get d B1 <= a3_get d A2 /\ a3_get d A1 <= a3_get d B2)
  /\ intersectBoxBox A1 A2 B1 B2 dim = intersectBoxBox B1 B2 A1 A2 dim.
Proof.
  intros _. unfold intersectBoxBox. split.
  - rewrite intersectBoxBox_from_spec. split; intros Hall d Hd; apply Hall; lia.
  - apply eq_true_iff_eq. rewrite !intersectBoxBox_from_spec.
    split; intros Hall k Hk; destruct (Hall k Hk); done.
Qed.

Lemma intersectBoxBox_overlap_witness :
  (2 <= 3)%nat
  /\ (intersectBoxBox (mk3 0 0 0) (mk3 2 2 0) (mk3 1 1 5) (mk3 3 3 6) 2 = true <->
      forall d, (d < 2)%nat ->
        a3_get d (mk3 1 1 5) <= a3_get d (mk3 2 2 0) /\ a3_get d (mk3 0 0 0) <= a3_get d (mk3 3 3 6))
  /\ intersectBoxBox (mk3 0 0 0) (mk3 2 2 0) (mk3 1 1 5) (mk3 3 3 6) 2
     = intersectBoxBox (mk3 1 1 5) (mk3 3 3 6) (mk3 0 0 0) (mk3 2 2 0) 2.
Proof.
  split; [lia|].
  exact (intersectBoxBox_overlap (mk3 0 0 0) (mk3 2 2 0) (mk3 1 1 5) (mk3 3 3 6) 2 ltac:(lia)).
Defined.

Lemma a3_get_set_eq {T} (d : nat) (x : T) (v : array3D T) : a3_get d (a3_set d x v) = x.
Proof. destruct d as [|[|d]]; reflexivity. Qed.

Lemma a3_get_set_ne {T} (d k : nat) (x : T) (v : array3D T) :
  (d < 3)%nat -> (k < 3)%nat -> k <> d -> a3_get k (a3_set d x v) = a3_get k v.
Proof.
  intros Hd Hk Hne. destruct d as [|[|[|d]]]; destruct k as [|[|[|k]]]; try lia; reflexivity.
Qed.

Lemma intersectBoxBox_out_from_spec (A1 A2 B1 B2 : array3D Q) (d n : nat)
      (I1 I2 J1 J2 : array3D Q) :
  (d + n <= 3)%nat ->
  intersectBoxBox_out_from A1 A2 B1 B2 d n I1 I2 = (true, (J1, J2)) ->
  (forall k, (d <= k < d + n)%nat ->
     a3_get k J1 = sc_max (a3_get k A1) (a3_get k B1)
     /\ a3_get k J2 = sc_min (a3_get k A2) (a3_get k B2)
     /\ a3_get k B1 <= a3_get k A2 /\ a3_get k A1 <= a3_get k B2)
  /\ (forall k, (k < 3)%nat -> ~ (d <= k < d + n)%nat ->
       a3_get k J1 = a3_get k I1 /\ a3_get k J2 = a3_get k I2).
Proof.
  revert d I1 I2. induction n as [|n IH]; intros d I1 I2 Hd; cbn [intersectBoxBox_out_from].
  - intros [= <- <-]. split; [intros k Hk; lia|done].
  - destruct (Q_ltb_spec (a3_get d A2) (a3_get d B1)) as [H1|H1]; cbn [orb]; [done|].
    destruct (Q_ltb_spec (a3_get d B2) (a3_get d A1)) as [H2|H2]; cbn [orb]; [done|].
    intros Hrun. destruct (IH (S d) _ _ ltac:(lia) Hrun) as [Hin Hout]. split.
    + intros k Hk. destruct (decide (k = d)) as [->|Hne]; [|apply Hin; lia].
      destruct (Hout d ltac:(lia) ltac:(lia)) as [-> ->].
      rewrite !a3_get_set_eq. split_and!; try done; lra.
    + intros k Hk Hnot. destruct (Hout k Hk ltac:(lia)) as [-> ->].
      rewrite !a3_get_set_ne by lia. done.
Qed.

Lemma intersectBoxBox_out_from_fst {T} `{Scalar T} (A1 A2 B1 B2 : array3D T) (d n : nat)
      (I1 I2 : array3D T) :
  fst (intersectBoxBox_out_from A1 A2 B1 B2 d n I1 I2) = intersectBoxBox_from A1 A2 B1 B2 d n.
Proof.
  revert d I1 I2. induction n as [|n IH]; intros d I1 I2; cbn [intersectBoxBox_out_from
    intersectBoxBox_from]; [reflexivity|].
  destruct (_ || _); [reflexivity|apply IH].
Qed.

(** X2.  When [intersectBoxBox(A1, A2, B1, B2, I1, I2, dim)] returns true
    ([dim] up to 3, exact arithmetic), the overload without outputs returns
    true as well, and [I1], [I2] are the corners of the intersection on the
    first [dim] axes: the larger lower bound and the smaller upper bound,
    between which lie the coordinates of both boxes and no other; the
    other axes of [I1], [I2] are as they were. *)
Theorem intersectBoxBox_out_intersection (A1 A2 B1 B2 I1 I2 J1 J2 : array3D Q) (dim : nat) :
  (dim <= 3)%nat ->
  intersectBoxBox_out A1 A2 B1 B2 I1 I2 dim = (true, (J1, J2)) ->
  intersectBoxBox A1 A2 B1 B2 dim = true
  /\ (forall d, (d < dim)%nat ->
       a3_get d J1 == Qmax (a3_get d A1) (a3_get d B1)
       /\ a3_get d J2 == Qmin (a3_get d A2) (a3_get d B2)
       /\ forall x, inBoxOn d x J1 J2 <-> inBoxOn d x A1 A2 /\ inBoxOn d x B1 B2)
  /\ (forall d, (dim <= d < 3)%nat ->
       a3_get d J1 = a3_get d I1 /\ a3_get d J2 = a3_get d I2).
Proof.
  intros Hdim Hrun. unfold intersectBoxBox_out in Hrun.
  destruct (intersectBoxBox_out_from_spec _ _ _ _ 0 dim _ _ _ _ ltac:(lia) Hrun) as [Hin Hout].
  split; [|split].
  - unfold intersectBoxBox. rewrite <- (intersectBoxBox_out_from_fst _ _ _ _ _ _ I1 I2).
    by rewrite Hrun.
  - intros d Hd. destruct (Hin d ltac:(lia)) as (HJ1 & HJ2 & Hb1 & Hb2).
    pose proof (Q_max_spec (a3_get d A1) (a3_get d B1)) as (Hm1 & Hm2 & Hm3).
    pose proof (Q_min_spec (a3_get d A2) (a3_get d B2)) as (Hn1 & Hn2 & Hn3).
    rewrite <- HJ1 in Hm1, Hm2, Hm3. rewrite <- HJ2 in Hn1, Hn2, Hn3.
    assert (Hmax : a3_get d J1 == Qmax (a3_get d A1) (a3_get d B1)).
    { apply Qle_antisym; [destruct Hm3 as [-> | ->]; [apply Q.le_max_l|apply Q.le_max_r]|].
      apply Q.max_lub; done. }
    assert (Hmin : a3_get d J2 == Qmin (a3_get d A2) (a3_get d B2)).
    { apply Qle_antisym; [apply Q.min_glb; done|].
      destruct Hn3 as [-> | ->]; [apply Q.le_min_l|apply Q.le_min_r]. }
    split; [done|]. split; [done|].
    intros x. unfold inBoxOn. split.
    + intros [Hlo Hhi]. split; split; lra.
    + intros [[? ?] [? ?]]. destruct Hm3 as [-> | ->]; destruct Hn3 as [-> | ->]; lra.
  - intros d Hd. apply Hout; lia.
Qed.

Lemma intersectBoxBox_out_intersection_witness :
  let A1 := mk3 0 0 0 in let A2 := mk3 2 2 0 in
  let B1 := mk3 1 (-1) 5 in let B2 := mk3 3 1 6 in
  let I1 := mk3 7 7 7 in let I2 := mk3 8 8 8 in
  let J1 := mk3 1 0 7 in let J2 := mk3 2 1 8 in
  (2 <= 3)%nat
  /\ intersectBoxBox_out A1 A2 B1 B2 I1 I2 2 = (true, (J1, J2))
  /\ intersectBoxBox A1 A2 B1 B2 2 = true
  /\ (forall d, (d < 2)%nat ->
       a3_get d J1 == Qmax (a3_get d A1) (a3_get d B1)
       /\ a3_get d J2 == Qmin (a3_get d A2) (a3_get d B2)
       /\ forall x, inBoxOn d x J1 J2 <-> inBoxOn d x A1 A2 /\ inBoxOn d x B1 B2)
  /\ (forall d, (2 <= d < 3)%nat ->
       a3_get d J1 = a3_get d I1 /\ a3_get d J2 = a3_get d I2).
Proof.
  intros A1 A2 B1 B2 I1 I2 J1 J2.
  split; [lia|]. split; [reflexivity|].
  exact (intersectBoxBox_out_intersection A1 A2 B1 B2 I1 I2 J1 J2 2 ltac:(lia) eq_refl).
Defined.

(** X3.  [intersectPointBox(P, B1, B2, dim)] is [intersectBoxBox] on the
    box and the box reduced to the point [P], for [dim] up to 3 and in the
    arithmetic of the program too: the two loops compare the same numbers. *)
Theorem intersectPointBox_degenerate_box {T : Type} `{Scalar T}
        (P B1 B2 : array3D T) (dim : nat) :
  (dim <= 3)%nat ->
  intersectPointBox P B1 B2 dim = intersectBoxBox B1 B2 P P dim.
Proof.
  intros _. unfold intersectPointBox, intersectBoxBox. generalize 0%nat as d.
  induction dim as [|n IH]; intros d; cbn [intersectPointBox_from intersectBoxBox_from];
    [reflexivity|].
  rewrite orb_comm. destruct (_ || _); [reflexivity|apply IH].
Qed.

Lemma intersectPointBox_degenerate_box_witness :
  (3 <= 3)%nat
  /\ intersectPointBox (mk3 1 2 3) (mk3 0 0 0) (mk3 4 4 4) 3
     = intersectBoxBox (mk3 0 0 0) (mk3 4 4 4) (mk3 1 2 3) (mk3 1 2 3) 3.
Proof.
  split; [lia|].
  exact (intersectPointBox_degenerate_box (mk3 1 2 3) (mk3 0 0 0) (mk3 4 4 4) 3 ltac:(lia)).
Defined.

(** [P] bounds the points [VS] from below and above on every axis, and
    every bound is the coordinate of one of the points. *)
Definition boundingBox (VS : list (array3D Q)) (P : array3D Q * array3D Q) : Prop :=
  forall d, (d < 3)%nat ->
    (forall V, V ∈ VS -> a3_get d (fst P) <= a3_get d V <= a3_get d (snd P))
    /\ (exists V, V ∈ VS /\ a3_get d (fst P) = a3_get d V)
    /\ (exists V, V ∈ VS /\ a3_get d (snd P) = a3_get d V).

Lemma a3_get_cases {T} (d : nat) (v : array3D T) :
  (d < 3)%nat -> (d = 0%nat /\ a3_get d v = a3_0 v) \/ (d = 1%nat /\ a3_get d v = a3_1 v)
                \/ (d = 2%nat /\ a3_get d v = a3_2 v).
Proof. intros Hd. destruct d as [|[|[|d]]]; auto; lia. Qed.

Lemma growAABB_boundingBox (VS : list (array3D Q)) (P : array3D Q * array3D Q) (V : array3D Q) :
  boundingBox VS P -> boundingBox (VS ++ [V]) (growAABB P V).
Proof.
  intros Hbb d Hd. destruct (Hbb d Hd) as (Hall & (Vlo & Hlo & Hloeq) & (Vhi & Hhi & Hhieq)).
  assert (Hget : a3_get d (fst (growAABB P V)) = sc_min (a3_get d (fst P)) (a3_get d V)
                 /\ a3_get d (snd (growAABB P V)) = sc_max (a3_get d (snd P)) (a3_get d V)).
  { destruct d as [|[|[|d]]]; try lia; done. }
  destruct Hget as [-> ->].
  pose proof (Q_min_spec (a3_get d (fst P)) (a3_get d V)) as (Hm1 & Hm2 & Hm3).
  pose proof (Q_max_spec (a3_get d (snd P)) (a3_get d V)) as (Hn1 & Hn2 & Hn3).
  split; [|split].
  - intros W [HW|HW%list_elem_of_singleton]%elem_of_app; [specialize (Hall W HW); lra|].
    subst W. lra.
  - destruct Hm3 as [-> | ->]; [exists Vlo|exists V]; split; try done;
      apply elem_of_app; [by left|right; by apply list_elem_of_singleton].
  - destruct Hn3 as [-> | ->]; [exists Vhi|exists V]; split; try done;
      apply elem_of_app; [by left|right; by apply list_elem_of_singleton].
Qed.

Lemma fold_growAABB_boundingBox (VS WS : list (array3D Q)) (P : array3D Q * array3D Q) :
  boundingBox VS P -> boundingBox (VS ++ WS) (fold_left growAABB WS P).
Proof.
  revert VS P. induction WS as [|W WS IH]; intros VS P Hbb; cbn [fold_left].
  - by rewrite app_nil_r.
  - replace (VS ++ W :: WS) with ((VS ++ [W]) ++ WS) by (by rewrite <- app_assoc).
    apply IH. by apply growAABB_boundingBox.
Qed.

Lemma computeAABBSimplex_boundingBox (VS : list (array3D Q)) (P : array3D Q * array3D Q) :
  computeAABBSimplex VS = Some P -> boundingBox VS P.
Proof.
  destruct VS as [|V0 VS]; cbn [computeAABBSimplex]; [discriminate|].
  intros [= <-]. apply (fold_growAABB_boundingBox [V0] VS (V0, V0)).
  intros d Hd. split; [|split].
  - intros V HV%list_elem_of_singleton. subst V. cbn. lra.
  - exists V0. split; [by apply list_elem_of_singleton|done].
  - exists V0. split; [by apply list_elem_of_singleton|done].
Qed.

(** X4.  [computeAABBSimplex(VS, P0, P1)] has a defined result exactly for
    a non-empty list of vertices ([VS[0]] is read first); over exact
    arithmetic the result bounds every vertex on the three axes and each
    of its six bounds is the coordinate of a vertex: it is the smallest
    box that holds the vertices.  On two and on three vertices it computes
    what [computeAABBSegment] and [computeAABBTriangle] compute. *)
Theorem computeAABBSimplex_smallest_box (VS : list (array3D Q)) :
  match computeAABBSimplex VS with
  | None => VS = []
  | Some P => VS <> [] /\ boundingBox VS P
  end
  /\ (forall A B, computeAABBSimplex [A; B] = Some (computeAABBSegment A B))
  /\ (forall A B C, computeAABBSimplex [A; B; C] = Some (computeAABBTriangle A B C)).
Proof.
  split; [|split].
  - destruct (computeAABBSimplex VS) as [P|] eqn:Hrun.
    + split; [by destruct VS|]. by apply computeAABBSimplex_boundingBox.
    + by destruct VS.
  - intros A B. reflexivity.
  - intros A B C. reflexivity.
Qed.

(** [C] holds the boxes [bs] on every axis, and every bound of [C] is the
    bound of one of the boxes. *)
Definition hullOfBoxes (bs : list (array3D Q * array3D Q)) (C : array3D Q * array3D Q) : Prop :=
  forall d, (d < 3)%nat ->
    (forall b, b ∈ bs -> a3_get d (fst C) <= a3_get d (fst b)
                         /\ a3_get d (snd b) <= a3_get d (snd C))
    /\ (exists b, b ∈ bs /\ a3_get d (fst C) = a3_get d (fst b))
    /\ (exists b, b ∈ bs /\ a3_get d (snd C) = a3_get d (snd b)).

Lemma unionAABB_hull (bs : list (array3D Q * array3D Q)) (C b : array3D Q * array3D Q) :
  hullOfBoxes bs C -> hullOfBoxes (bs ++ [b]) (unionAABB (fst b) (snd b) (fst C) (snd C)).
Proof.
  intros Hh d Hd. destruct (Hh d Hd) as (Hall & (blo & Hlo & Hloeq) & (bhi & Hhi & Hhieq)).
  assert (Hget : a3_get d (fst (unionAABB (fst b) (snd b) (fst C) (snd C)))
                 = sc_min (a3_get d (fst b)) (a3_get d (fst C))
                 /\ a3_get d (snd (unionAABB (fst b) (snd b) (fst C) (snd C)))
                    = sc_max (a3_get d (snd b)) (a3_get d (snd C))).
  { destruct d as [|[|[|d]]]; try lia; done. }
  destruct Hget as [-> ->].
  pose proof (Q_min_spec (a3_get d (fst b)) (a3_get d (fst C))) as (Hm1 & Hm2 & Hm3).
  pose proof (Q_max_spec (a3_get d (snd b)) (a3_get d (snd C))) as (Hn1 & Hn2 & Hn3).
  split; [|split].
  - intros c [Hc|Hc%list_elem_of_singleton]%elem_of_app;
      [destruct (Hall c Hc); split; lra|subst c; split; lra].
  - destruct Hm3 as [-> | ->]; [exists b|exists blo]; split; try done;
      apply elem_of_app; [right; by apply list_elem_of_singleton|by left].
  - destruct Hn3 as [-> | ->]; [exists b|exists bhi]; split; try done;
      apply elem_of_app; [right; by apply list_elem_of_singleton|by left].
Qed.

Lemma fold_unionAABB_hull (bs cs : list (array3D Q * array3D Q)) (C : array3D Q * array3D Q) :
  hullOfBoxes bs C ->
  hullOfBoxes (bs ++ cs)
    (fold_left (fun C b => unionAABB (fst b) (snd b) (fst C) (snd C)) cs C).
Proof.
  revert bs C. induction cs as [|c cs IH]; intros bs C Hh; cbn [fold_left].
  - by rewrite app_nil_r.
  - replace (bs ++ c :: cs) with ((bs ++ [c]) ++ cs) by (by rewrite <- app_assoc).
    apply IH. by apply unionAABB_hull.
Qed.

(** X5.  [unionAABB(A0, A1, C0, C1)] on vectors of boxes, over exact
    arithmetic: only the boxes present in both vectors count, [A0[i]] with
    [A1[i]]; with none of them [C0] and [C1] are left as they were;
    otherwise the result holds every box and each of its bounds is the
    bound of one of the boxes. *)
Theorem unionAABB_list_hull (A0 A1 : list (array3D Q)) (C : array3D Q * array3D Q) :
  match zip A0 A1 with
  | [] => unionAABB_list A0 A1 C = C
  | b :: bs => hullOfBoxes (b :: bs) (unionAABB_list A0 A1 C)
  end.
Proof.
  unfold unionAABB_list. destruct (zip A0 A1) as [|b bs]; [reflexivity|].
  apply (fold_unionAABB_hull [b] bs b).
  intros d Hd. split; [|split].
  - intros c Hc%list_elem_of_singleton. subst c. split; lra.
  - exists b. split; [by apply list_elem_of_singleton|done].
  - exists b. split; [by apply list_elem_of_singleton|done].
Qed.

(** X6.  [vertexOfBox(i, A0, A1, P)]: for [i] in 0..7 the coordinate on the
    axis [d] of the vertex is that of [A1] when the bit [d] of [i] is set
    and that of [A0] otherwise; for any other [i] the output [P] is not
    written.  For a box with [A0 <= A1] on every axis, over exact
    arithmetic, the eight vertices pass [intersectPointBox] for the box,
    and [computeAABBSimplex] of the eight vertices gives the box back. *)
Theorem vertexOfBox_spans_box (A0 A1 P : array3D Q) :
  a3_0 A0 <= a3_0 A1 -> a3_1 A0 <= a3_1 A1 -> a3_2 A0 <= a3_2 A1 ->
  (forall i, vertexOfBox i A0 A1 P
             = if (i <? 8)%nat
               then mk3 (if Nat.testbit i 0 then a3_0 A1 else a3_0 A0)
                        (if Nat.testbit i 1 then a3_1 A1 else a3_1 A0)
                        (if Nat.testbit i 2 then a3_2 A1 else a3_2 A0)
               else P)
  /\ (forall i, (i < 8)%nat -> intersectPointBox (vertexOfBox i A0 A1 P) A0 A1 3 = true)
  /\ exists B0 B1,
       computeAABBSimplex (map (fun i => vertexOfBox i A0 A1 P) (seq 0 8)) = Some (B0, B1)
       /\ veq B0 A0 /\ veq B1 A1.
Proof.
  intros Hx Hy Hz.
  assert (Hbits : forall i, vertexOfBox i A0 A1 P
             = if (i <? 8)%nat
               then mk3 (if Nat.testbit i 0 then a3_0 A1 else a3_0 A0)
                        (if Nat.testbit i 1 then a3_1 A1 else a3_1 A0)
                        (if Nat.testbit i 2 then a3_2 A1 else a3_2 A0)
               else P).
  { intros i. do 8 (destruct i as [|i]; [reflexivity|]). reflexivity. }
  split; [exact Hbits|]. split.
  - intros i Hi. rewrite Hbits. apply Nat.ltb_lt in Hi. rewrite Hi.
    unfold intersectPointBox. cbn [intersectPointBox_from a3_get a3_0 a3_1 a3_2].
    destruct (Nat.testbit i 0), (Nat.testbit i 1), (Nat.testbit i 2);
      repeat match goal with
             | |- context [sc_ltb ?a ?b] => destruct (Q_ltb_spec a b); try lra
             end; reflexivity.
  - set (VS := map (fun i => vertexOfBox i A0 A1 P) (seq 0 8)).
    destruct (computeAABBSimplex VS) as [[B0 B1]|] eqn:Hrun; [|discriminate Hrun].
    exists B0, B1. split; [reflexivity|].
    pose proof (computeAABBSimplex_boundingBox VS _ Hrun) as Hbb.
    assert (Hfirst : A0 ∈ VS).
    { subst VS. cbn [seq map vertexOfBox]. destruct A0. left. }
    assert (Hlast : A1 ∈ VS).
    { subst VS. cbn [seq map vertexOfBox]. destruct A1. do 7 right. left. }
    assert (Hle : forall d, (d < 3)%nat -> a3_get d A0 <= a3_get d A1).
    { intros [|[|[|d]]] Hd; cbn; try done; lia. }
    assert (Hin : forall V d, V ∈ VS -> (d < 3)%nat ->
                    a3_get d V = a3_get d A0 \/ a3_get d V = a3_get d A1).
    { intros V d HV Hd. subst VS. cbn [seq map] in HV.
      repeat (apply elem_of_cons in HV as [-> | HV];
              [destruct d as [|[|[|d]]]; cbn; auto; lia|]).
      by apply elem_of_nil in HV. }
    assert (Hd : forall d, (d < 3)%nat ->
                   a3_get d B0 == a3_get d A0 /\ a3_get d B1 == a3_get d A1).
    { intros d Hd. destruct (Hbb d Hd) as (Hall & (Vlo & Hlo & Hloeq) & (Vhi & Hhi & Hhieq)).
      cbn [fst snd] in *.
      pose proof (Hall A0 Hfirst) as [H0 _]. pose proof (Hall A1 Hlast) as [_ H1].
      specialize (Hle d Hd).
      destruct (Hin Vlo d Hlo Hd) as [E|E]; rewrite E in Hloeq;
        destruct (Hin Vhi d Hhi Hd) as [E'|E']; rewrite E' in Hhieq;
        rewrite Hloeq, Hhieq in *; split; lra. }
    split; unfold veq.
    + destruct (Hd 0%nat ltac:(lia)), (Hd 1%nat ltac:(lia)), (Hd 2%nat ltac:(lia)). done.
    + destruct (Hd 0%nat ltac:(lia)), (Hd 1%nat ltac:(lia)), (Hd 2%nat ltac:(lia)). done.
Qed.

Lemma vertexOfBox_spans_box_witness :
  let A0 := mk3 0 0 0 in let A1 := mk3 1 2 3 in let P := mk3 9 9 9 in
  a3_0 A0 <= a3_0 A1 /\ a3_1 A0 <= a3_1 A1 /\ a3_2 A0 <= a3_2 A1 /\
  (forall i, vertexOfBox i A0 A1 P
             = if (i <? 8)%nat
               then mk3 (if Nat.testbit i 0 then a3_0 A1 else a3_0 A0)
                        (if Nat.testbit i 1 then a3_1 A1 else a3_1 A0)
                        (if Nat.testbit i 2 then a3_2 A1 else a3_2 A0)
               else P)
  /\ (forall i, (i < 8)%nat -> intersectPointBox (vertexOfBox i A0 A1 P) A0 A1 3 = true)
  /\ exists B0 B1,
       computeAABBSimplex (map (fun i => vertexOfBox i A0 A1 P) (seq 0 8)) = Some (B0, B1)
       /\ veq B0 A0 /\ veq B1 A1.
Proof.
  intros A0 A1 P.
  assert (Hx : a3_0 A0 <= a3_0 A1) by (cbn; lra).
  assert (Hy : a3_1 A0 <= a3_1 A1) by (cbn; lra).
  assert (Hz : a3_2 A0 <= a3_2 A1) by (cbn; lra).
  split; [exact Hx|]. split; [exact Hy|]. split; [exact Hz|].
  exact (vertexOfBox_spans_box A0 A1 P Hx Hy Hz).
Defined.

(** X7.  [subtractionAABB] called with [C] = [A], over exact arithmetic,
    when [B] covers [A] on the axes Y and Z and cuts off its lower end on
    X: the result is [A] with the lower bound on X moved to the upper bound
    of [B], the part of [A] outside of [B]. *)
Theorem subtractionAABB_cuts_lower_X (A0 A1 B0 B1 : array3D Q) :
  a3_1 B0 <= a3_1 A0 -> a3_2 B0 <= a3_2 A0 -> a3_1 A1 <= a3_1 B1 -> a3_2 A1 <= a3_2 B1 ->
  a3_0 B0 <= a3_0 A0 -> a3_0 A0 <= a3_0 B1 -> a3_0 B1 < a3_0 A1 ->
  subtractionAABB A0 A1 B0 B1 (A0, A1) = (mk3 (a3_0 B1) (a3_1 A0) (a3_2 A0), A1).
Proof.
  destruct A0 as [a0x a0y a0z], A1 as [a1x a1y a1z], B0 as [b0x b0y b0z], B1 as [b1x b1y b1z].
  cbn [a3_0 a3_1 a3_2]. intros Hy0 Hz0 Hy1 Hz1 Hx0 Hx1 Hx2.
  unfold subtractionAABB. cbn [a3_0 a3_1 a3_2 a3_set].
  repeat match goal with
         | |- context [sc_leb ?a ?b] => destruct (Q_leb_spec a b); try lra
         end; reflexivity.
Qed.

Lemma subtractionAABB_cuts_lower_X_witness :
  let A0 := mk3 0 0 0 in let A1 := mk3 4 1 1 in
  let B0 := mk3 (-1) (-1) (-1) in let B1 := mk3 1 2 2 in
  a3_1 B0 <= a3_1 A0 /\ a3_2 B0 <= a3_2 A0 /\ a3_1 A1 <= a3_1 B1 /\ a3_2 A1 <= a3_2 B1 /\
  a3_0 B0 <= a3_0 A0 /\ a3_0 A0 <= a3_0 B1 /\ a3_0 B1 < a3_0 A1 /\
  subtractionAABB A0 A1 B0 B1 (A0, A1) = (mk3 (a3_0 B1) (a3_1 A0) (a3_2 A0), A1).
Proof.
  intros A0 A1 B0 B1.
  assert (H1 : a3_1 B0 <= a3_1 A0) by (cbn; lra).
  assert (H2 : a3_2 B0 <= a3_2 A0) by (cbn; lra).
  assert (H3 : a3_1 A1 <= a3_1 B1) by (cbn; lra).
  assert (H4 : a3_2 A1 <= a3_2 B1) by (cbn; lra).
  assert (H5 : a3_0 B0 <= a3_0 A0) by (cbn; lra).
  assert (H6 : a3_0 A0 <= a3_0 B1) by (cbn; lra).
  assert (H7 : a3_0 B1 < a3_0 A1) by (cbn; lra).
  split_and!; try assumption.
  exact (subtractionAABB_cuts_lower_X A0 A1 B0 B1 H1 H2 H3 H4 H5 H6 H7).
Defined.
End Boxes.

Section Planes.
Import Operators CGElem CGPlanes Binary64 Exactness.
Local Open Scope Q_scope.

Definition onPlane (X Q n : array3D Q) : Prop := dotProduct (vsub X Q) n == 0.

(** The tolerance [1.0e-14] of the program is the binary64 number nearest
    to 10^-14. *)
Lemma tol14_finite : finite (sc_tol14 : float) = true.
Proof. reflexivity. Qed.

Lemma tol14_pos : 0 < value (sc_tol14 : float).
Proof. vm_compute. reflexivity. Qed.

Lemma exact_step (x a b : tracked) :
  exact (a + x * b)%sc = true ->
  exact x = true
  /\ finite (computed (a + x * b)%sc) = true
  /\ value (computed (a + x * b)%sc) == ideal a + ideal x * ideal b.
Proof.
  intros Hx.
  destruct (exact_op2 _ _ _ _ Hx) as (_ & H1 & Hf & Hv).
  destruct (exact_op2 _ _ _ _ H1) as (H2 & _ & _ & _).
  split; [exact H2|]. split; [exact Hf|]. rewrite Hv. reflexivity.
Qed.

(** In every run the binary64 component of the run on tracked values is
    the run of the program. *)
Lemma intersectLinePlane_computed (P1 n1 P2 n2 P : array3D float) :
  let r := intersectLinePlane (map3 given P1) (map3 given n1) (map3 given P2)
                              (map3 given n2) (map3 given P) in
  intersectLinePlane P1 n1 P2 n2 P = (fst r, map3 computed (snd r)).
Proof.
  unfold intersectLinePlane. cbv zeta.
  cbn [sc_ltb sc_abs sc_tol14 tracked_Scalar float_Scalar computed given op1].
  change (computed (dotProduct (map3 given n1) (map3 given n2))) with (dotProduct n1 n2).
  destruct (abs (dotProduct n1 n2) <? _)%float; [|reflexivity].
  destruct P. reflexivity.
Qed.
(** X10.  [intersectLinePlane(P1, n1, P2, n2, P)] in binary64, when
    [n1 . n2] is computed exactly: the call returns false exactly when
    [|n1 . n2|] is below the tolerance, and then leaves [P] as it was; when
    it returns true and the point is computed exactly too, [P] is the point
    [P1 + xi n1] of the line and lies on the plane through [P2] with the
    normal [n2]. *)
Theorem intersectLinePlane_on_line_and_plane (P1 n1 P2 n2 P : array3D float) :
  exact (dotProduct (map3 given n1) (map3 given n2)) = true ->
  let p1 := map3 value P1 in
  let p2 := map3 value P2 in
  let d1 := map3 value n1 in
  let d2 := map3 value n2 in
  let s := dotProduct d1 d2 in
  match intersectLinePlane P1 n1 P2 n2 P with
  | (true, X) =>
      value sc_tol14 <= Qabs s
      /\ (all3 exact (snd (intersectLinePlane (map3 given P1) (map3 given n1)
                                              (map3 given P2) (map3 given n2)
                                              (map3 given P))) = true ->
          all3 finite X = true
          /\ veq (map3 value X) (vadd p1 (smul (- dotProduct (vsub p1 p2) d2 / s) d1))
          /\ onPlane (map3 value X) p2 d2)
  | (false, X) => Qabs s < value sc_tol14 /\ X = P
  end.
Proof.
  intros Hs p1 p2 d1 d2 s.
  set (ts := dotProduct (map3 given n1) (map3 given n2)) in *.
  assert (Hsi : ideal ts = s) by reflexivity.
  assert (Hsc : computed ts = dotProduct n1 n2).
  { destruct n1, n2. reflexivity. }
  destruct (exact_op2 _ _ _ _ Hs) as (_ & _ & Hsf & Hsv).
  change (sc_add (computed _) (computed _)) with (computed ts) in Hsf, Hsv.
  change (sc_add (ideal _) (ideal _)) with (ideal ts) in Hsv.
  rewrite Hsi in Hsv. rewrite Hsc in Hsf, Hsv.
  destruct (value_abs _ Hsf) as (Haf & Hav). rewrite Hsv in Hav.
  pose proof tol14_finite as Htf. pose proof tol14_pos as Htp.
  assert (Hrun : intersectLinePlane (map3 given P1) (map3 given n1) (map3 given P2)
                                    (map3 given n2) (map3 given P)
                 = if (abs (dotProduct n1 n2) <? sc_tol14)%float
                   then (false, map3 given P)
                   else (true, vadd (map3 given P1)
                                    (smul (- dotProduct (vsub (map3 given P1) (map3 given P2))
                                                        (map3 given n2) / ts)%sc
                                          (map3 given n1)))).
  { unfold intersectLinePlane. fold ts. cbv zeta.
    cbn [sc_ltb sc_abs tracked_Scalar op1 computed sc_tol14 given]. rewrite Hsc. reflexivity. }
  assert (Hflt : intersectLinePlane P1 n1 P2 n2 P
                 = if (abs (dotProduct n1 n2) <? sc_tol14)%float
                   then (false, P)
                   else (true, map3 computed
                                 (vadd (map3 given P1)
                                       (smul (- dotProduct (vsub (map3 given P1) (map3 given P2))
                                                           (map3 given n2) / ts)%sc
                                             (map3 given n1))))).
  { unfold intersectLinePlane. cbv zeta. cbn [sc_ltb sc_abs float_Scalar].
    destruct (abs (dotProduct n1 n2) <? sc_tol14)%float; reflexivity. }
  rewrite Hrun, Hflt.
  destruct (abs (dotProduct n1 n2) <? sc_tol14)%float eqn:E.
  - apply (ltb_value _ _ Haf Htf) in E. rewrite Hav in E. split; [exact E|reflexivity].
  - apply (ltb_value_false _ _ Haf Htf) in E. rewrite Hav in E. split; [exact E|].
    cbn [snd]. intros HX.
    set (xi := (- dotProduct (vsub (map3 given P1) (map3 given P2)) (map3 given n2) / ts)%sc) in *.
    assert (Hxi : ideal xi = - dotProduct (vsub p1 p2) d2 / s) by reflexivity.
    clearbody xi. clear Hrun Hflt.
    unfold all3, vadd, smul, map3 in HX. cbn [a3_0 a3_1 a3_2] in HX.
    apply andb_true_iff in HX as [HX H2]. apply andb_true_iff in HX as [H0 H1].
    destruct (exact_step _ _ _ H0) as (_ & Hx0f & Hx0).
    destruct (exact_step _ _ _ H1) as (_ & Hx1f & Hx1).
    destruct (exact_step _ _ _ H2) as (_ & Hx2f & Hx2).
    clear H0 H1 H2. rewrite Hxi in Hx0, Hx1, Hx2.
    assert (Hveq : veq (map3 value (map3 computed
                          (vadd (map3 given P1) (smul xi (map3 given n1)))))
                       (vadd p1 (smul (- dotProduct (vsub p1 p2) d2 / s) d1))).
    { unfold veq, vadd, smul, map3. cbn [a3_0 a3_1 a3_2].
      rewrite Hx0, Hx1, Hx2. repeat split; reflexivity. }
    split.
    { unfold all3, vadd, smul, map3. cbn [a3_0 a3_1 a3_2]. rewrite Hx0f, Hx1f, Hx2f. reflexivity. }
    split; [exact Hveq|].
    assert (Hnz : ~ s == 0).
    { intros H0. rewrite H0 in E. change (Qabs 0) with 0 in E. lra. }
    unfold onPlane.
    assert (Hon : dotProduct (vsub (vadd p1 (smul (- dotProduct (vsub p1 p2) d2 / s) d1)) p2) d2
                  == 0).
    { assert (Heq : dotProduct (vsub (vadd p1 (smul (- dotProduct (vsub p1 p2) d2 / s) d1)) p2) d2
                    == dotProduct (vsub p1 p2) d2 + (- dotProduct (vsub p1 p2) d2 / s) * s).
      { unfold s. generalize (- dotProduct (vsub p1 p2) d2 / dotProduct d1 d2). intros k.
        destruct p1, p2, d1, d2. unfold dotProduct, vsub, vadd, smul. cbn. ring. }
      rewrite Heq. field. exact Hnz. }
    destruct Hveq as (E0 & E1 & E2).
    rewrite <- Hon. unfold dotProduct, vsub. cbn [a3_0 a3_1 a3_2].
    cbn [a3_0 a3_1 a3_2] in E0, E1, E2.
    rewrite E0, E1, E2. reflexivity.
Qed.

(** The line through (1, 2, 3) with the direction (1, 1, 1) and the plane
    through (0, 0, 1) with the normal (1, 0, 1): they meet at
    (-1/2, 1/2, 3/2), and every operation is exact. *)
Lemma intersectLinePlane_on_line_and_plane_witness :
  let P1 := (mk3 1 2 3)%float in
  let n1 := (mk3 1 1 1)%float in
  let P2 := (mk3 0 0 1)%float in
  let n2 := (mk3 1 0 1)%float in
  let P := (mk3 0 0 0)%float in
  exact (dotProduct (map3 given n1) (map3 given n2)) = true
  /\ intersectLinePlane P1 n1 P2 n2 P = (true, mk3 (-0.5) 0.5 1.5)%float
  /\ all3 exact (snd (intersectLinePlane (map3 given P1) (map3 given n1)
                                         (map3 given P2) (map3 given n2)
                                         (map3 given P))) = true
  /\ (let p1 := map3 value P1 in
      let p2 := map3 value P2 in
      let d1 := map3 value n1 in
      let d2 := map3 value n2 in
      let s := dotProduct d1 d2 in
      match intersectLinePlane P1 n1 P2 n2 P with
      | (true, X) =>
          value sc_tol14 <= Qabs s
          /\ (all3 exact (snd (intersectLinePlane (map3 given P1) (map3 given n1)
                                                  (map3 given P2) (map3 given n2)
                                                  (map3 given P))) = true ->
              all3 finite X = true
              /\ veq (map3 value X) (vadd p1 (smul (- dotProduct (vsub p1 p2) d2 / s) d1))
              /\ onPlane (map3 value X) p2 d2)
      | (false, X) => Qabs s < value sc_tol14 /\ X = P
      end).
Proof.
  intros P1 n1 P2 n2 P.
  assert (Hs : exact (dotProduct (map3 given n1) (map3 given n2)) = true)
    by (vm_compute; reflexivity).
  split; [exact Hs|]. split; [vm_compute; reflexivity|]. split; [vm_compute; reflexivity|].
  exact (intersectLinePlane_on_line_and_plane P1 n1 P2 n2 P Hs).
Defined.
End Planes.

Section LineTriangle.
Import Operators CGElem CGPlanes.
Context {T : Type} `{Scalar T} `{ScalarSqrt T}.
Local Open Scope sc_scope.
Variable intersectPointTriangle : array3D T -> array3D T -> array3D T -> array3D T -> bool.
Variable xP_line xP_segment : array3D T.

Definition triangleNormal (A B C : array3D T) : array3D T :=
  vdiv (crossProduct (vsub B A) (vsub C A)) (norm2 (crossProduct (vsub B A) (vsub C A))).
Definition segmentDirection (P0 P1 : array3D T) : array3D T :=
  vdiv (vsub P1 P0) (norm2 (vsub P1 P0)).

(** X12.  [intersectLineTriangle] and [intersectSegmentTriangle] return
    false only when both of their tests fail ([!a && !b]).  So whenever the
    supporting line of the segment is not parallel to the plane of the
    triangle (the test of [intersectLinePlane] passes), both return true
    with the point where the line crosses the plane, in the arithmetic of
    the program: the point is tested neither against the triangle nor
    against the segment. *)
Theorem intersectSegmentTriangle_plane_crossing (P0 P1 A B C Q : array3D T) :
  let n := segmentDirection P0 P1 in
  let nT := triangleNormal A B C in
  (sc_abs (dotProduct n nT) <? sc_tol14) = false ->
  intersectLineTriangle intersectPointTriangle xP_line P0 n A B C Q
  = (true, vadd P0 (smul (- dotProduct (vsub P0 A) nT / dotProduct n nT) n)) /\
  intersectSegmentTriangle intersectPointTriangle xP_line xP_segment P0 P1 A B C Q
  = (true, vadd P0 (smul (- dotProduct (vsub P0 A) nT / dotProduct n nT) n)).
Proof.
  intros n nT Hs.
  assert (Hline : forall Q', intersectLineTriangle intersectPointTriangle xP_line P0 n A B C Q'
    = (true, vadd P0 (smul (- dotProduct (vsub P0 A) nT / dotProduct n nT) n))).
  { intros Q'. unfold intersectLineTriangle, intersectLinePlane. cbv zeta.
    fold (triangleNormal A B C). fold nT. rewrite Hs. reflexivity. }
  split; [apply Hline|].
  unfold intersectSegmentTriangle. cbv zeta. fold (segmentDirection P0 P1). fold n.
  rewrite Hline. reflexivity.
Qed.
End LineTriangle.

Section LineTriangleWitness.
Import Operators CGElem CGPlanes.
Local Open Scope float_scope.

(** The segment from (5, 5, 1) to (5, 5, 2) and the triangle (0, 0, 0),
    (1, 0, 0), (0, 1, 0): the supporting line crosses the plane of the
    triangle in (5, 5, 0), outside of the triangle and of the segment. *)
Lemma intersectSegmentTriangle_plane_crossing_witness :
  let P0 := mk3 5 5 1 in let P1 := mk3 5 5 2 in
  let A := mk3 0 0 0 in let B := mk3 1 0 0 in let C := mk3 0 1 0 in
  let Q := mk3 9 9 9 in
  let never := fun _ _ _ _ : array3D float => false in
  (sc_abs (dotProduct (segmentDirection P0 P1) (triangleNormal A B C)) <? sc_tol14)%sc = false /\
  intersectSegmentTriangle never Q Q P0 P1 A B C Q = (true, mk3 5 5 0) /\
  intersectLineTriangle never Q P0 (segmentDirection P0 P1) A B C Q = (true, mk3 5 5 0).
Proof.
  intros P0 P1 A B C Q never.
  assert (Hs : (sc_abs (dotProduct (segmentDirection P0 P1) (triangleNormal A B C))
                <? sc_tol14)%sc = false) by (vm_compute; reflexivity).
  split; [exact Hs|].
  destruct (intersectSegmentTriangle_plane_crossing never Q Q P0 P1 A B C Q Hs) as [Hl Hsg].
  split.
  - rewrite Hsg. vm_compute. reflexivity.
  - rewrite Hl. vm_compute. reflexivity.
Defined.
End LineTriangleWitness.

Section SegmentSimplex.
Import Operators CGElem CGPlanes.
Context {T : Type} `{Scalar T} `{ScalarSqrt T}.
Local Open Scope sc_scope.
Variable intersectPointTriangle : array3D T -> array3D T -> array3D T -> array3D T -> bool.
Variable xP_line xP_segment : array3D T.

(** X13.  [intersectSegmentSimplex(P0, P1, V, Q)]: with fewer than three
    vertices there is no triangle, the result is false and [Q] is as it
    was; with three or more, as soon as the supporting line of the segment
    is not parallel to the plane of the first triangle [(V[0], V[1], V[2])]
    the result is true with the point where the line crosses that plane. *)
Theorem intersectSegmentSimplex_fan (P0 P1 Q : array3D T) (V : list (array3D T)) :
  ((length V < 3)%nat ->
   intersectSegmentSimplex intersectPointTriangle xP_line xP_segment P0 P1 V Q = (false, Q)) /\
  (forall V0 V1 V2 rest, V = V0 :: V1 :: V2 :: rest ->
     let n := segmentDirection P0 P1 in
     let nT := triangleNormal V0 V1 V2 in
     (sc_abs (dotProduct n nT) <? sc_tol14) = false ->
     intersectSegmentSimplex intersectPointTriangle xP_line xP_segment P0 P1 V Q
     = (true, vadd P0 (smul (- dotProduct (vsub P0 V0) nT / dotProduct n nT) n))).
Proof.
  split.
  - intros Hlen. destruct V as [|V0 [|V1 [|V2 rest]]]; try reflexivity. simpl in Hlen. lia.
  - intros V0 V1 V2 rest -> n nT Hs.
    cbn [intersectSegmentSimplex intersectSegmentFan].
    unfold intersectSegmentTriangle, intersectLineTriangle, intersectLinePlane. cbv zeta.
    fold (triangleNormal V0 V1 V2). fold nT. fold (segmentDirection P0 P1). fold n.
    rewrite Hs. reflexivity.
Qed.
End SegmentSimplex.

Section SegmentSimplexWitness.
Import Operators CGElem CGPlanes.
Local Open Scope float_scope.

Lemma intersectSegmentSimplex_fan_witness :
  let P0 := mk3 5 5 1 in let P1 := mk3 5 5 2 in
  let V := [mk3 0 0 0; mk3 1 0 0; mk3 1 1 0; mk3 0 1 0] in
  let Q := mk3 9 9 9 in
  let never := fun _ _ _ _ : array3D float => false in
  intersectSegmentSimplex never Q Q P0 P1 V Q = (true, mk3 5 5 0) /\
  ((length V < 3)%nat -> intersectSegmentSimplex never Q Q P0 P1 V Q = (false, Q)) /\
  (forall V0 V1 V2 rest, V = V0 :: V1 :: V2 :: rest ->
     let n := segmentDirection P0 P1 in
     let nT := triangleNormal V0 V1 V2 in
     (sc_abs (dotProduct n nT) <? sc_tol14)%sc = false ->
     intersectSegmentSimplex never Q Q P0 P1 V Q
     = (true, vadd P0 (smul (- dotProduct (vsub P0 V0) nT / dotProduct n nT)%sc n))).
Proof.
  intros P0 P1 V Q never.
  split; [vm_compute; reflexivity|].
  exact (intersectSegmentSimplex_fan never Q Q P0 P1 Q V).
Defined.
End SegmentSimplexWitness.


Section BarycentricCases.
Import Operators CGElem CGBarycentric.
Context {T : Type} `{Scalar T}.
Local Open Scope sc_scope.

(** The three loops over the coordinates, by the outcome of the three
    comparisons. *)
Lemma convertBarycentricToFlagTriangle_cases (l0 l1 l2 : T) :
  convertBarycentricToFlagTriangle (mk3 l0 l1 l2)
  = match l0 <=? sc_zero, l1 <=? sc_zero, l2 <=? sc_zero with
    | false, false, false => Returned 0
    | false, true, true => Returned 1
    | true, false, true => Returned 2
    | true, true, false => Returned 3
    | false, false, true => Returned (-1)
    | true, false, false => Returned (-2)
    | false, true, false => Returned (-3)
    | true, true, true => Undefined
    end.
Proof.
  unfold convertBarycentricToFlagTriangle.
  cbn [VolOctree.ofold].
  change (Z.to_nat 0) with 0%nat. change (Z.to_nat 1) with 1%nat. change (Z.to_nat 2) with 2%nat.
  cbn [VolOctree.ofold a3_get a3_0 a3_1 a3_2].
  destruct (l0 <=? sc_zero), (l1 <=? sc_zero), (l2 <=? sc_zero); reflexivity.
Qed.


End BarycentricCases.

Section Barycentric.
Import Operators CGElem CGBarycentric.
Local Open Scope Q_scope.

(** X14.  [convertBarycentricToFlagTriangle(lambda)] over exact arithmetic:
    0 when the three coordinates are positive; [i + 1] when only
    [lambda[i]] is positive; [-(i + 1)] when only the coordinate of the
    vertex opposite to the edge from vertex [i] to vertex [i + 1] is not
    positive; when no coordinate is positive the third index is written
    past the end of [zeros], which has two elements, and the call has no
    defined result. *)
Theorem convertBarycentricToFlagTriangle_regions (l0 l1 l2 : Q) :
  match convertBarycentricToFlagTriangle (mk3 l0 l1 l2) with
  | Returned flag =>
      (flag = 0%Z /\ 0 < l0 /\ 0 < l1 /\ 0 < l2) \/
      (flag = 1%Z /\ 0 < l0 /\ l1 <= 0 /\ l2 <= 0) \/
      (flag = 2%Z /\ l0 <= 0 /\ 0 < l1 /\ l2 <= 0) \/
      (flag = 3%Z /\ l0 <= 0 /\ l1 <= 0 /\ 0 < l2) \/
      (flag = (-1)%Z /\ 0 < l0 /\ 0 < l1 /\ l2 <= 0) \/
      (flag = (-2)%Z /\ l0 <= 0 /\ 0 < l1 /\ 0 < l2) \/
      (flag = (-3)%Z /\ 0 < l0 /\ l1 <= 0 /\ 0 < l2)
  | Undefined => l0 <= 0 /\ l1 <= 0 /\ l2 <= 0
  | _ => False
  end.
Proof.
  rewrite convertBarycentricToFlagTriangle_cases.
  destruct (Q_leb_spec l0 sc_zero) as [H0|H0]; destruct (Q_leb_spec l1 sc_zero) as [H1|H1];
    destruct (Q_leb_spec l2 sc_zero) as [H2|H2];
    try apply Qnot_le_lt in H0; try apply Qnot_le_lt in H1; try apply Qnot_le_lt in H2;
    change (@sc_zero Q _) with 0 in *; intuition auto.
Qed.


End Barycentric.

Section DistanceBinary64.
Import Operators CGElem CGBarycentric Binary64 Exactness.
Local Open Scope Q_scope.

(** X17.  [distancePointSegment(P, Q1, Q2, xP, lambda, flag)] in binary64,
    whenever the line parameter and the projection point are computed
    exactly: the flag is 1 exactly when the projection on the supporting
    line falls at or before [Q1], and then [xP] is [Q1]; 2 when it falls
    at or beyond [Q2], and then [xP] is [Q2]; 0 when it falls strictly
    inside. *)
Theorem distancePointSegment_flag (P Q1 Q2 : array3D float) :
  let n := vsub (map3 given Q2) (map3 given Q1) in
  let t := (- dotProduct n (vsub (map3 given Q1) (map3 given P)) / dotProduct n n)%sc in
  exact t = true ->
  all3 exact (fst (projectPointSegment (map3 given P) (map3 given Q1) (map3 given Q2))) = true ->
  let '(_, (xP, lambda, flag)) := distancePointSegment P Q1 Q2 in
  let T := lineParameter (map3 value P) (map3 value Q1) (map3 value Q2) in
  (flag = 1%Z /\ T <= 0 /\ veq (map3 value xP) (map3 value Q1)) \/
  (flag = 2%Z /\ 1 <= T /\ veq (map3 value xP) (map3 value Q2)) \/
  (flag = 0%Z /\ 0 < T < 1).
Proof.
  intros n t Ht HX.
  destruct (projectPointSegment_exact_run P Q1 Q2 Ht HX)
    as (c & _ & Hcases & _ & Hl0f & Hl1f & Hl0 & Hl1 & Hseg).
  unfold distancePointSegment.
  destruct (projectPointSegment P Q1 Q2) as [xP [l0 l1]]. cbn [fst snd] in *.
  set (T := lineParameter _ _ _) in *. clearbody T. clear Ht HX t n.
  assert (Hveq1 : c == 0 -> veq (map3 value xP) (map3 value Q1)).
  { intros Hz. destruct Hseg as (E0 & E1 & E2). unfold veq.
    rewrite E0, E1, E2. unfold segmentPoint, vadd, smul. cbn -[value].
    rewrite Hz. split_and!; ring. }
  assert (Hveq2 : c == 1 -> veq (map3 value xP) (map3 value Q2)).
  { intros Hz. destruct Hseg as (E0 & E1 & E2). unfold veq.
    rewrite E0, E1, E2. unfold segmentPoint, vadd, smul. cbn -[value].
    rewrite Hz. split_and!; ring. }
  clear Hseg.
  assert (H1 : finite 1%float = true) by reflexivity.
  pose proof value_one as Hone.
  unfold convertBarycentricToFlagSegment. cbn [fst snd sc_leb sc_one float_Scalar].
  destruct (1 <=? l0)%float eqn:G0; [|destruct (1 <=? l1)%float eqn:G1].
  - apply (leb_value _ _ H1 Hl0f) in G0. rewrite Hone, Hl0 in G0.
    left. split; [reflexivity|].
    destruct Hcases as [[Ht Hc]|[[Ht Hc]|[Ht Hc]]]; rewrite Hc in G0.
    + split; [lra|]. apply Hveq1. exact Hc.
    + split; [lra|]. apply Hveq1. rewrite Hc. lra.
    + exfalso. lra.
  - apply (leb_value_false _ _ H1 Hl0f) in G0. rewrite Hone, Hl0 in G0.
    apply (leb_value _ _ H1 Hl1f) in G1. rewrite Hone, Hl1 in G1.
    right. left. split; [reflexivity|].
    destruct Hcases as [[Ht Hc]|[[Ht Hc]|[Ht Hc]]]; rewrite Hc in G0, G1.
    + exfalso. lra.
    + split; [lra|]. apply Hveq2. rewrite Hc. lra.
    + split; [lra|]. apply Hveq2. exact Hc.
  - apply (leb_value_false _ _ H1 Hl0f) in G0. rewrite Hone, Hl0 in G0.
    apply (leb_value_false _ _ H1 Hl1f) in G1. rewrite Hone, Hl1 in G1.
    right. right. split; [reflexivity|].
    destruct Hcases as [[Ht Hc]|[[Ht Hc]|[Ht Hc]]]; rewrite Hc in G0, G1; lra.
Qed.

(** The point (3, 1, 0) projects beyond the end of the segment from the
    origin to (1, 0, 0): flag 2. *)
Lemma distancePointSegment_flag_witness :
  let P := (mk3 3 1 0)%float in
  let Q1 := (mk3 0 0 0)%float in
  let Q2 := (mk3 1 0 0)%float in
  let n := vsub (map3 given Q2) (map3 given Q1) in
  let t := (- dotProduct n (vsub (map3 given Q1) (map3 given P)) / dotProduct n n)%sc in
  exact t = true
  /\ all3 exact (fst (projectPointSegment (map3 given P) (map3 given Q1) (map3 given Q2))) = true
  /\ snd (snd (distancePointSegment P Q1 Q2)) = 2%Z
  /\ (let '(_, (xP, lambda, flag)) := distancePointSegment P Q1 Q2 in
      let T := lineParameter (map3 value P) (map3 value Q1) (map3 value Q2) in
      (flag = 1%Z /\ T <= 0 /\ veq (map3 value xP) (map3 value Q1)) \/
      (flag = 2%Z /\ 1 <= T /\ veq (map3 value xP) (map3 value Q2)) \/
      (flag = 0%Z /\ 0 < T < 1)).
Proof.
  intros P Q1 Q2 n t.
  assert (Ht : exact t = true) by (vm_compute; reflexivity).
  assert (HX : all3 exact (fst (projectPointSegment (map3 given P) (map3 given Q1)
                                                    (map3 given Q2))) = true)
    by (vm_compute; reflexivity).
  split; [exact Ht|]. split; [exact HX|]. split; [vm_compute; reflexivity|].
  exact (distancePointSegment_flag P Q1 Q2 Ht HX).
Defined.
End DistanceBinary64.

Section ProjectPointSegmentEveryRun.
Import Operators CGElem Binary64.

Lemma nanOrZero_dot (n d : array3D float) :
  nanOrZero (a3_0 n) -> nanOrZero (a3_1 n) -> nanOrZero (a3_2 n) ->
  nanOrZero (dotProduct n d).
Proof.
  intros H0 H1 H2. unfold dotProduct. cbn [sc_add sc_mul sc_zero float_Scalar].
  repeat apply nanOrZero_add; try apply nanOrZero_mul; try assumption.
  exact nanOrZero_zero.
Qed.

(** X31.  [projectPointSegment(P, Q0, Q1, lambda)] in binary64, on every
    input.  The line parameter is a NaN on every segment whose end points
    coincide, whatever [P] is.  When the parameter is a NaN, so are both
    barycentric coordinates and the three coordinates of the returned
    point; when it is not, [lambda[1]] lies in [0, 1]. *)
Theorem projectPointSegment_every_run (P Q0 Q1 : array3D float) :
  let n := vsub Q1 Q0 in
  let t := (- dotProduct n (vsub Q0 P) / dotProduct n n)%sc in
  let X := fst (projectPointSegment P Q0 Q1) in
  let lambda := snd (projectPointSegment P Q0 Q1) in
  (Q0 = Q1 -> is_nan t = true)
  /\ (if is_nan t
      then is_nan (fst lambda) = true /\ is_nan (snd lambda) = true
           /\ all3 is_nan X = true
      else (0 <=? snd lambda)%float = true /\ (snd lambda <=? 1)%float = true).
Proof.
  intros n t X lambda. split.
  - intros ->. subst t n.
    cbn [sc_div sc_opp float_Scalar].
    assert (Hn : forall d, nanOrZero (dotProduct (vsub Q1 Q1) d)).
    { intros d. apply nanOrZero_dot; cbn; apply nanOrZero_sub_diag. }
    apply nanOrZero_div; [apply nanOrZero_opp|]; apply Hn.
  - assert (Hl : lambda = ((1 - sc_max (sc_min t sc_one) sc_zero)%float,
                           sc_max (sc_min t sc_one) sc_zero)) by reflexivity.
    assert (HX : X = vadd (smul (fst lambda) Q0) (smul (snd lambda) Q1)) by reflexivity.
    clearbody X lambda t. subst lambda. cbn [fst snd] in *.
    unfold sc_max, sc_min in *. cbn [sc_ltb sc_one sc_zero float_Scalar] in *.
    destruct (key 1%float) as [k1|] eqn:K1; [|vm_compute in K1; discriminate].
    assert (K0 : key 0%float = Some 0) by reflexivity.
    destruct (is_nan t) eqn:Hnan.
    + pose proof (proj1 (is_nan_key t) Hnan) as Kt.
      rewrite (ltb_key 1 t), K1, Kt in *.
      rewrite (ltb_key t 0), Kt in *.
      assert (Hl0 : is_nan (1 - t)%float = true) by (apply is_nan_sub; auto).
      split; [exact Hl0|]. split; [exact Hnan|].
      subst X. unfold all3, vadd, smul. cbn [a3_0 a3_1 a3_2 sc_add sc_mul float_Scalar].
      rewrite !is_nan_add; [reflexivity|..]; left; apply is_nan_mul; auto.
    + destruct (key t) as [kt|] eqn:Kt;
        [|apply is_nan_key in Kt; congruence].
      rewrite (ltb_key 1 t), K1, Kt.
      destruct (k1 <? kt) eqn:E1.
      * change (1 <? 0)%float with false. cbv iota. split; reflexivity.
      * rewrite (ltb_key t 0), Kt, K0.
        destruct (kt <? 0) eqn:E2.
        { split; reflexivity. }
        rewrite (leb_key 0 t), (leb_key t 1), K0, K1, Kt. split; lia.
Qed.
End ProjectPointSegmentEveryRun.

Section CellNeighbourhood.

Lemma find_index_from_absent (i x : Z) (l : list Z) :
  x ∉ l -> find_index_from i x l = -1.
Proof.
  revert i. induction l as [|y l IH]; intros i Hx; simpl; [done|].
  apply not_elem_of_cons in Hx as [Hne Hx].
  destruct (Z.eqb_spec y x); [congruence|]. by apply IH.
Qed.

Lemma find_index_from_app_new (i x : Z) (l : list Z) :
  x ∉ l -> find_index_from i x (l ++ [x]) = i + Z.of_nat (length l).
Proof.
  revert i. induction l as [|y l IH]; intros i Hx; simpl.
  - rewrite Z.eqb_refl. lia.
  - apply not_elem_of_cons in Hx as [Hne Hx].
    destruct (Z.eqb_spec y x); [congruence|]. rewrite IH by done. lia.
Qed.

Lemma length_concat_push (v : list (list Z)) (f : nat) (run : list Z) (x : Z) :
  v !! f = Some run ->
  length (concat (<[f := run ++ [x]]> v)) = S (length (concat v)).
Proof.
  revert f. induction v as [|r v IH]; intros [|f] Hf; simpl in *; try done.
  - injection Hf as ->. rewrite !length_app. simpl. lia.
  - rewrite !length_app, (IH f Hf). lia.
Qed.

(** X18.  For an interface id in the range of [int] that the face does not
    list: [findInterface] returns -1; [pushInterface] appends the id to the
    run of the face and leaves the other faces as they were, after which
    [findInterface] returns its position, the last one, the count of
    interfaces has grown by one, pushing the id again changes nothing, and
    [deleteInterface] at that position gives the cell back as it was. *)
Theorem pushInterface_round_trip (face : nat) (i : Z) (c : Cell.t) (run : list Z) :
  fits_int i ->
  Cell.m_interfaces c !! face = Some run ->
  i ∉ run ->
  let pos := Z.of_nat (length run) in
  Cell.findInterface face i c = Some (-1) /\
  exists c',
    Cell.pushInterface face i c = Some c' /\
    Cell.findInterface face i c' = Some pos /\
    FlatVector2D.getItem (Cell.m_interfaces c') face pos = Some i /\
    Cell.getInterfaceCount c' = Cell.getInterfaceCount c + 1 /\
    (forall f, f <> face -> Cell.m_interfaces c' !! f = Cell.m_interfaces c !! f) /\
    Cell.pushInterface face i c' = Some c' /\
    Cell.deleteInterface face pos c' = Some c.
Proof.
  intros Hi Hrun Hnew pos.
  assert (Hfind : Cell.findInterface face i c = Some (-1)).
  { unfold Cell.findInterface. rewrite Hrun. simpl. f_equal.
    by apply find_index_from_absent. }
  split; [exact Hfind|].
  assert (Hlt : (face < length (Cell.m_interfaces c))%nat) by (by eapply lookup_lt_Some).
  exists (Cell.set_interfaces (<[face := run ++ [i]]> (Cell.m_interfaces c)) c).
  assert (Hpush : Cell.pushInterface face i c
                  = Some (Cell.set_interfaces (<[face := run ++ [i]]> (Cell.m_interfaces c)) c)).
  { unfold Cell.pushInterface. rewrite (to_int_fits i Hi), Hfind. simpl.
    unfold FlatVector2D.pushBackItem. rewrite Hrun. reflexivity. }
  assert (Hrun' : <[face := run ++ [i]]> (Cell.m_interfaces c) !! face = Some (run ++ [i]))
    by (by apply list_lookup_insert_eq).
  assert (Hfind' : Cell.findInterface face i
             (Cell.set_interfaces (<[face := run ++ [i]]> (Cell.m_interfaces c)) c) = Some pos).
  { unfold Cell.findInterface. simpl. rewrite Hrun'. simpl. f_equal.
    unfold find_index. rewrite find_index_from_app_new by done. lia. }
  split; [exact Hpush|]. split; [exact Hfind'|]. split.
  { unfold FlatVector2D.getItem. simpl. rewrite Hrun'. simpl.
    destruct (Z.ltb_spec pos 0); [lia|]. unfold pos. rewrite Nat2Z.id.
    rewrite lookup_app_r by lia. by rewrite Nat.sub_diag. }
  split.
  { unfold Cell.getInterfaceCount, FlatVector2D.getTotalCount. simpl.
    rewrite (length_concat_push _ _ _ _ Hrun). lia. }
  split.
  { intros f Hf. simpl. by rewrite list_lookup_insert_ne. }
  split.
  { unfold Cell.pushInterface. rewrite (to_int_fits i Hi), Hfind'. simpl.
    destruct (Z.leb_spec 0 pos); [reflexivity|lia]. }
  unfold Cell.deleteInterface, FlatVector2D.eraseItem. simpl. rewrite Hrun'. simpl.
  destruct (Z.ltb_spec pos 0); [lia|].
  destruct (Z.leb_spec (Z.of_nat (length (run ++ [i]))) pos) as [Hle|Hle].
  { rewrite length_app in Hle. simpl in Hle. lia. }
  simpl. f_equal. rewrite list_insert_insert_eq.
  unfold pos. rewrite Nat2Z.id.
  assert (Hdel : delete (length run) (run ++ [i]) = run).
  { clear. induction run as [|y l IH]; simpl; [done|]. by rewrite IH. }
  rewrite Hdel. rewrite list_insert_id by done. by destruct c.
Qed.

(** X19.  After [resetAdjacencies(true)] every face of the cell is a border
    face; after one [pushAdjacency] on a face, that face is not, the others
    still are, and the cell has that one adjacency.  After
    [resetAdjacencies(false)] there is no storage: [isFaceBorder] has no
    defined result on any face, as on a face index beyond the faces of the
    element. *)
Theorem isFaceBorder_reset_then_push (c : Cell.t) (face : nat) (a : Z) :
  (face < nFaces (Cell.type c))%nat ->
  (forall f, Cell.isFaceBorder f (Cell.resetAdjacencies false c) = None) /\
  (forall f, Cell.isFaceBorder f (Cell.resetAdjacencies true c)
             = if (f <? nFaces (Cell.type c))%nat then Some true else None) /\
  exists c',
    Cell.pushAdjacency face a (Cell.resetAdjacencies true c) = Some c' /\
    Cell.getAdjacencies c' = [a] /\
    forall f, Cell.isFaceBorder f c'
              = if (f <? nFaces (Cell.type c))%nat then Some (negb (f =? face)%nat) else None.
Proof.
  intros Hface.
  assert (Hstore : Cell.createNeighbourhoodStorage (Cell.type c) true
                   = replicate (nFaces (Cell.type c)) []).
  { unfold Cell.createNeighbourhoodStorage, FlatVector2D.create. simpl.
    destruct (Cell.type c); done. }
  assert (Hlook : forall f, replicate (nFaces (Cell.type c)) ([] : list Z) !! f
                    = if (f <? nFaces (Cell.type c))%nat then Some [] else None).
  { intros f. destruct (Nat.ltb_spec f (nFaces (Cell.type c))).
    - by apply lookup_replicate_2.
    - apply lookup_ge_None_2. by rewrite length_replicate. }
  split.
  { intros f. unfold Cell.isFaceBorder, Cell.resetAdjacencies, FlatVector2D.getItemCount.
    simpl. unfold FlatVector2D.create. simpl. reflexivity. }
  split.
  { intros f. unfold Cell.isFaceBorder, Cell.resetAdjacencies, FlatVector2D.getItemCount.
    simpl. rewrite Hstore, Hlook. by destruct (f <? nFaces (Cell.type c))%nat. }
  exists (Cell.set_adjacencies (<[face := [a]]> (replicate (nFaces (Cell.type c)) []))
                               (Cell.resetAdjacencies true c)).
  split.
  { assert (Hf : (face <? nFaces (Cell.type c))%nat = true) by (by apply Nat.ltb_lt).
    unfold Cell.pushAdjacency, Cell.findAdjacency, Cell.resetAdjacencies. simpl.
    rewrite Hstore, Hlook, Hf. simpl.
    unfold FlatVector2D.pushBackItem. rewrite Hlook, Hf. reflexivity. }
  split.
  { unfold Cell.getAdjacencies, FlatVector2D.flat. simpl.
    rewrite insert_replicate_lt by done.
    rewrite !concat_app. simpl.
    assert (Hc : forall n, concat (replicate n ([] : list Z)) = []).
    { induction n; simpl; auto. }
    by rewrite !Hc. }
  intros f. unfold Cell.isFaceBorder, FlatVector2D.getItemCount. simpl.
  destruct (Nat.eqb_spec f face) as [->|Hne].
  - rewrite list_lookup_insert_eq by (by rewrite length_replicate).
    apply Nat.ltb_lt in Hface. rewrite Hface. reflexivity.
  - rewrite list_lookup_insert_ne by done. rewrite Hlook.
    by destruct (f <? nFaces (Cell.type c))%nat.
Qed.

Lemma pushInterface_round_trip_witness :
  let c := Cell.mk 1 PIXEL [0; 1; 3; 4] true [[4]; [0]; [5]; [1]] [[]; [2]; []; [3]] in
  fits_int 7 /\
  Cell.m_interfaces c !! 1%nat = Some [0] /\
  (7 ∉ [0]) /\
  let pos := Z.of_nat (length [0]) in
  Cell.findInterface 1 7 c = Some (-1) /\
  exists c',
    Cell.pushInterface 1 7 c = Some c' /\
    Cell.findInterface 1 7 c' = Some pos /\
    FlatVector2D.getItem (Cell.m_interfaces c') 1 pos = Some 7 /\
    Cell.getInterfaceCount c' = Cell.getInterfaceCount c + 1 /\
    (forall f, f <> 1%nat -> Cell.m_interfaces c' !! f = Cell.m_interfaces c !! f) /\
    Cell.pushInterface 1 7 c' = Some c' /\
    Cell.deleteInterface 1 pos c' = Some c.
Proof.
  intros c.
  assert (Hfit : fits_int 7) by (unfold fits_int; lia).
  assert (Hrun : Cell.m_interfaces c !! 1%nat = Some [0]) by reflexivity.
  assert (Hnew : 7 ∉ [0]).
  { intros Hin. apply list_elem_of_singleton in Hin. discriminate Hin. }
  split; [exact Hfit|]. split; [exact Hrun|]. split; [exact Hnew|].
  exact (pushInterface_round_trip 1 7 c [0] Hfit Hrun Hnew).
Defined.

Lemma isFaceBorder_reset_then_push_witness :
  let c := Cell.mk 1 PIXEL [0; 1; 3; 4] true [[4]; [0]; [5]; [1]] [[]; [2]; []; [3]] in
  (1 < nFaces (Cell.type c))%nat /\
  (forall f, Cell.isFaceBorder f (Cell.resetAdjacencies false c) = None) /\
  (forall f, Cell.isFaceBorder f (Cell.resetAdjacencies true c)
             = if (f <? nFaces (Cell.type c))%nat then Some true else None) /\
  exists c',
    Cell.pushAdjacency 1 2 (Cell.resetAdjacencies true c) = Some c' /\
    Cell.getAdjacencies c' = [2] /\
    forall f, Cell.isFaceBorder f c'
              = if (f <? nFaces (Cell.type c))%nat then Some (negb (f =? 1)%nat) else None.
Proof.
  intros c.
  assert (Hface : (1 < nFaces (Cell.type c))%nat) by (cbn; lia).
  split; [exact Hface|].
  exact (isFaceBorder_reset_then_push c 1 2 Hface).
Defined.
End CellNeighbourhood.

Section InterfaceNormals.
Import VolOctree VolOctreeQueries.
Context {D Tree : Type} `{Scalar D} `{Pablo D Tree}.

(** X20.  [evalInterfaceNormal(id)] on a patch of dimension up to 3: for an
    owner face [f] below [2 * dimension] the result is the table entry the
    constructor built, the vector along the axis [f / 2] with the component
    -1 for an even [f] and 1 for an odd one, so that opposite faces have
    opposite normals; for a face beyond, the table is indexed out of range. *)
Theorem evalInterfaceNormal_axis_and_sign (id : Z) (p : VolOctree.t D Tree) (itf : Interface.t) :
  Kernel.m_interfaces (m_kernel p) !! id = Some itf ->
  (m_dimension p <= 3)%nat ->
  let face := Interface.getOwnerFace itf in
  evalInterfaceNormal id p
  = if (face <? 2 * m_dimension p)%nat
    then Returned (a3_set (face / 2) (sc_of_Z (if Nat.even face then -1 else 1))
                          (mk3 sc_zero sc_zero sc_zero))
    else Undefined.
Proof.
  intros Hitf Hdim face. unfold evalInterfaceNormal. rewrite Hitf. simpl. fold face.
  unfold normals.
  destruct (m_dimension p) as [|[|[|[|n]]]]; [..|lia];
    destruct face as [|[|[|[|[|[|f]]]]]]; reflexivity.
Qed.

(** X21.  The tables the constructor builds for 2 and 3 dimensions are
    consistent: [m_octantLocalFacesOnVertex] has [2^dimension] entries, the
    [k]-th face of the vertex [v] is the face [2k], or [2k + 1] when the
    bit [k] of [v] is set (the faces whose normal points to the corner of
    [v]), and the two faces of [m_octantLocalFacesOnEdge] for an edge that
    [m_octantLocalEdgesOnVertex] lists for [v] are faces of [v]. *)
Theorem octant_tables_consistent (dimension : nat) :
  dimension = 2%nat \/ dimension = 3%nat ->
  length (octantLocalFacesOnVertex dimension) = (2 ^ dimension)%nat /\
  (forall v faces, octantLocalFacesOnVertex dimension !! v = Some faces ->
     length faces = dimension /\
     forall k f, faces !! k = Some f ->
       f = (2 * k + (if Nat.testbit v k then 1 else 0))%nat) /\
  (forall v edges e faces,
     octantLocalEdgesOnVertex dimension !! v = Some edges -> e ∈ edges ->
     octantLocalFacesOnEdge dimension !! e = Some faces ->
     exists onVertex, octantLocalFacesOnVertex dimension !! v = Some onVertex /\
                      faces ⊆ onVertex).
Proof.
  intros [-> | ->].
  - split; [reflexivity|]. split.
    + intros v faces Hv.
      do 4 (destruct v as [|v]; [injection Hv as <-; split; [reflexivity|];
        intros [|[|k]] f Hf; try discriminate; injection Hf as <-; reflexivity|]).
      discriminate.
    + intros v edges e faces Hv. by destruct v.
  - split; [reflexivity|]. split.
    + intros v faces Hv.
      do 8 (destruct v as [|v]; [injection Hv as <-; split; [reflexivity|];
        intros [|[|[|k]]] f Hf; try discriminate; injection Hf as <-; reflexivity|]).
      discriminate.
    + intros v edges e faces Hv He Hf.
      do 8 (destruct v as [|v]; [injection Hv as <-;
        eexists; split; [reflexivity|];
        repeat (apply elem_of_cons in He as [-> | He];
                [injection Hf as <-; intros x Hx; apply list_elem_of_In in Hx;
                 apply list_elem_of_In; simpl in *; tauto|]);
        by apply elem_of_nil in He|]).
      discriminate.
Qed.
End InterfaceNormals.

Section InterfaceNormalsWitness.
Import VolOctree VolOctreeQueries Scripted Scenario.

Lemma evalInterfaceNormal_axis_and_sign_witness :
  let itf := Interface.mk 0 1 1 2 0 in
  Kernel.m_interfaces (m_kernel gridPatch) !! 0 = Some itf /\
  (m_dimension gridPatch <= 3)%nat /\
  let face := Interface.getOwnerFace itf in
  evalInterfaceNormal 0 gridPatch
  = if (face <? 2 * m_dimension gridPatch)%nat
    then Returned (a3_set (face / 2) (sc_of_Z (if Nat.even face then -1 else 1))
                          (mk3 sc_zero sc_zero sc_zero))
    else Undefined.
Proof.
  intros itf.
  assert (Hitf : Kernel.m_interfaces (m_kernel gridPatch) !! 0 = Some itf) by reflexivity.
  assert (Hdim : (m_dimension gridPatch <= 3)%nat) by (cbn; lia).
  split; [exact Hitf|]. split; [exact Hdim|].
  exact (evalInterfaceNormal_axis_and_sign 0 gridPatch itf Hitf Hdim).
Defined.

Lemma octant_tables_consistent_witness :
  (3%nat = 2%nat \/ 3%nat = 3%nat) /\
  length (octantLocalFacesOnVertex 3) = (2 ^ 3)%nat /\
  (forall v faces, octantLocalFacesOnVertex 3 !! v = Some faces ->
     length faces = 3%nat /\
     forall k f, faces !! k = Some f ->
       f = (2 * k + (if Nat.testbit v k then 1 else 0))%nat) /\
  (forall v edges e faces,
     octantLocalEdgesOnVertex 3 !! v = Some edges -> e ∈ edges ->
     octantLocalFacesOnEdge 3 !! e = Some faces ->
     exists onVertex, octantLocalFacesOnVertex 3 !! v = Some onVertex /\
                      faces ⊆ onVertex).
Proof.
  split; [right; reflexivity|].
  exact (octant_tables_consistent 3 (or_intror eq_refl)).
Defined.
End InterfaceNormalsWitness.

Section PointInsideBinary64.
Import Operators VolOctree VolOctreeQueries Binary64.
Context {Tree : Type}.

Lemma pointInsideFrom_between (EPS : float) (A B C L U : array3D float) (d n : nat) :
  (forall k, (d <= k < d + n)%nat -> between (a3_get k A) (a3_get k C) (a3_get k B) = true) ->
  pointInsideFrom EPS A L U d n = true ->
  pointInsideFrom EPS B L U d n = true ->
  pointInsideFrom EPS C L U d n = true.
Proof.
  revert d. induction n as [|n IH]; intros d Hbt; cbn [pointInsideFrom]; [reflexivity|].
  cbn [sc_ltb sc_sub sc_add float_Scalar].
  destruct (a3_get d A <? a3_get d L - EPS)%float eqn:A1; [discriminate|].
  destruct (a3_get d U + EPS <? a3_get d A)%float eqn:A2; [discriminate|].
  destruct (a3_get d B <? a3_get d L - EPS)%float eqn:B1; [discriminate|].
  destruct (a3_get d U + EPS <? a3_get d B)%float eqn:B2; [discriminate|].
  cbn [orb]. intros HA HB.
  pose proof (Hbt d ltac:(lia)) as Hd.
  rewrite (between_not_below _ _ _ _ Hd A1 B1), (between_not_above _ _ _ _ Hd A2 B2).
  cbn [orb]. apply IH; try assumption.
  intros k Hk. apply Hbt. lia.
Qed.

(** X22.  [isPointInside(id, point)] in binary64, for every tolerance:
    when two points are inside a cell, so is every point whose
    coordinates lie between theirs, in particular every representable
    point of the segment that joins them. *)
Theorem isPointInside_convex (EPS : float) (id : Z) (A B C : array3D float)
        (p : VolOctree.t float Tree) :
  isPointInside EPS id A p = Returned true ->
  isPointInside EPS id B p = Returned true ->
  (forall k, (k < 3)%nat -> between (a3_get k A) (a3_get k C) (a3_get k B) = true) ->
  isPointInside EPS id C p = Returned true.
Proof.
  unfold isPointInside. intros HA HB Hbt.
  destruct (Kernel.m_cells (m_kernel p) !! id) as [cell|]; [|discriminate].
  cbn [or_undefined obind] in *.
  destruct (Cell.connect cell !! 0%nat) as [vl|]; [|discriminate].
  cbn [or_undefined obind] in *.
  destruct (Kernel.m_vertices (m_kernel p) !! vl) as [L|]; [|discriminate].
  cbn [or_undefined obind] in *.
  destruct (Cell.connect cell !! _) as [vu|]; [|discriminate].
  cbn [or_undefined obind] in *.
  destruct (Kernel.m_vertices (m_kernel p) !! vu) as [U|]; [|discriminate].
  cbn [or_undefined obind] in *.
  injection HA as HA. injection HB as HB. f_equal.
  apply (pointInsideFrom_between EPS A B C L U 0 3); try assumption.
  intros k Hk. apply Hbt. lia.
Qed.
End PointInsideBinary64.

Section PointInsideBinary64Witness.
Import Operators VolOctree VolOctreeQueries Scripted Scenario Binary64.

(** The 2 x 2 grid with its vertices in binary64. *)
Definition gridPatch64 : VolOctree.t float Tree :=
  VolOctree.mk 2%nat
    (Kernel.mk (Kernel.m_cells (m_kernel gridPatch)) (Kernel.m_interfaces (m_kernel gridPatch))
       (list_to_map
          [(0, (mk3 0 0 0)%float); (1, (mk3 0.5 0 0)%float); (2, (mk3 1 0 0)%float);
           (3, (mk3 0 0.5 0)%float); (4, (mk3 0.5 0.5 0)%float); (5, (mk3 1 0.5 0)%float);
           (6, (mk3 0 1 0)%float); (7, (mk3 0.5 1 0)%float); (8, (mk3 1 1 0)%float)])
       5 9)
    (m_tree gridPatch) OP_INITIALIZATION
    (m_cellToOctant gridPatch) ∅ (m_octantToCell gridPatch) ∅ [] [] [].

(** The cell 1, two of its corners and a point between them whose
    coordinates 1/10 and 3/10 are rounded. *)
Lemma isPointInside_convex_witness :
  let EPS := (1 / 1000000000000)%float in
  let A := (mk3 0 0 0)%float in
  let B := (mk3 0.5 0.5 0)%float in
  let C := (mk3 (1 / 10) (3 / 10) 0)%float in
  isPointInside EPS 1 A gridPatch64 = Returned true /\
  isPointInside EPS 1 B gridPatch64 = Returned true /\
  (forall k, (k < 3)%nat -> between (a3_get k A) (a3_get k C) (a3_get k B) = true) /\
  isPointInside EPS 1 C gridPatch64 = Returned true.
Proof.
  intros EPS A B C.
  assert (HA : isPointInside EPS 1 A gridPatch64 = Returned true) by (vm_compute; reflexivity).
  assert (HB : isPointInside EPS 1 B gridPatch64 = Returned true) by (vm_compute; reflexivity).
  assert (Hbt : forall k, (k < 3)%nat ->
                          between (a3_get k A) (a3_get k C) (a3_get k B) = true).
  { intros [|[|[|k]]] Hk; [vm_compute; reflexivity..|lia]. }
  split; [exact HA|]. split; [exact HB|]. split; [exact Hbt|].
  exact (isPointInside_convex EPS 1 A B C gridPatch64 HA HB Hbt).
Defined.
End PointInsideBinary64Witness.

Section NeighbourSearch.
Import VolOctree VolOctreeQueries.
Context {D Tree : Type} `{Scalar D} `{Pablo D Tree}.

(** Strictly ascending: sorted and without duplicates. *)
Definition ascending (l : list Z) : Prop := StronglySorted Z.lt l.

Lemma elem_of_addToOrderedVector (x y : Z) (l : list Z) :
  y ∈ addToOrderedVector x l <-> y = x \/ y ∈ l.
Proof.
  induction l as [|z l IH]; simpl.
  - rewrite list_elem_of_singleton, elem_of_nil. tauto.
  - destruct (Z.ltb_spec x z); [|destruct (Z.eqb_spec x z) as [->|]].
    + rewrite !elem_of_cons. tauto.
    + rewrite !elem_of_cons. tauto.
    + rewrite !elem_of_cons, IH. tauto.
Qed.

Lemma addToOrderedVector_ascending (x : Z) (l : list Z) :
  ascending l -> ascending (addToOrderedVector x l).
Proof.
  unfold ascending. induction l as [|z l IH]; simpl; intros Hl.
  - repeat constructor.
  - inversion Hl as [|? ? Hl' Hz]; subst.
    destruct (Z.ltb_spec x z); [|destruct (Z.eqb_spec x z) as [->|]].
    + constructor; [done|]. constructor; [done|].
      eapply Forall_impl; [exact Hz|]. intros; simpl in *; lia.
    + done.
    + constructor; [by apply IH|].
      apply Forall_forall. intros y Hy.
      apply elem_of_addToOrderedVector in Hy as [->|Hy]; [lia|].
      rewrite Forall_forall in Hz. by apply Hz.
Qed.

Lemma foldl_addToOrderedVector (xs : list Z) (l : list Z) :
  ascending l ->
  ascending (foldl (fun neighs x => addToOrderedVector x neighs) l xs) /\
  forall y, y ∈ foldl (fun neighs x => addToOrderedVector x neighs) l xs <-> y ∈ l \/ y ∈ xs.
Proof.
  revert l. induction xs as [|x xs IH]; intros l Hl; simpl.
  - split; [done|]. intros y. rewrite elem_of_nil. tauto.
  - destruct (IH _ (addToOrderedVector_ascending x l Hl)) as [Ha Hm].
    split; [done|]. intros y. rewrite Hm, elem_of_addToOrderedVector, elem_of_cons. tauto.
Qed.

Lemma edge_fold (E : nat -> outcome (list Z)) (edges : list nat) (l r : list Z) :
  ofold (fun neighs edge =>
           obind (E edge) (fun edgeNeighs =>
             Returned (foldl (fun neighs neigh => addToOrderedVector neigh neighs)
                             neighs edgeNeighs)))
        l edges = Returned r ->
  ascending l ->
  ascending r /\
  forall y, y ∈ r <->
    y ∈ l \/ exists edge edgeNeighs, edge ∈ edges /\ E edge = Returned edgeNeighs /\ y ∈ edgeNeighs.
Proof.
  revert l. induction edges as [|e edges IH]; intros l Hrun Hl; simpl in Hrun.
  - injection Hrun as <-. split; [done|]. intros y. split; [tauto|].
    intros [?|(? & ? & He & _)]; [done|]. by apply elem_of_nil in He.
  - destruct (E e) as [en| | |] eqn:He; try discriminate. cbn [obind] in Hrun.
    destruct (foldl_addToOrderedVector en l Hl) as [Ha Hm].
    destruct (IH _ Hrun Ha) as [Ha' Hm']. split; [done|]. intros y.
    rewrite Hm', Hm. split.
    + intros [[?|?]|(edge & en' & Hin & Hen & Hy)]; [tauto| |].
      * right. exists e, en. split; [by left|done].
      * right. exists edge, en'. split; [by right|done].
    + intros [?|(edge & en' & Hin & Hen & Hy)]; [tauto|].
      apply elem_of_cons in Hin as [->|Hin].
      * rewrite He in Hen. injection Hen as <-. tauto.
      * right. exists edge, en'. tauto.
Qed.

(** The ids of the cells on the octants that the tree gives as the
    neighbours of an octant. *)
Definition treeNeighbourIds (octantInfo : OctantInfo) (index : nat) (codimension : Z)
           (p : VolOctree.t D Tree) : list Z :=
  map (fun n => getOctantId (mkOctantInfo (fst n) (negb (snd n))) p)
      (if oi_internal octantInfo
       then findNeighbours (m_tree p) (oi_id octantInfo) index (Z.to_nat codimension)
       else findGhostNeighbours (m_tree p) (oi_id octantInfo) index (Z.to_nat codimension)).

Lemma filtered_fold (p : VolOctree.t D Tree) (blackList : list Z) (ns : list (Z * bool))
    (l : list Z) :
  ascending l ->
  let r := foldl (fun neighs '(neighTreeId, neighGhostFlag) =>
                    let neighOctantInfo := mkOctantInfo neighTreeId (negb neighGhostFlag) in
                    let neighId := getOctantId neighOctantInfo p in
                    if bool_decide (neighId ∈ blackList) then neighs
                    else addToOrderedVector neighId neighs) l ns in
  ascending r /\
  forall y, y ∈ r <->
    y ∈ l \/ ((y ∉ blackList) /\
              y ∈ map (fun n => getOctantId (mkOctantInfo (fst n) (negb (snd n))) p) ns).
Proof.
  revert l. induction ns as [|[tid g] ns IH]; intros l Hl; simpl.
  - split; [done|]. intros y. rewrite elem_of_nil. tauto.
  - destruct (bool_decide_reflect (getOctantId (mkOctantInfo tid (negb g)) p ∈ blackList))
      as [Hin|Hout].
    + destruct (IH l Hl) as [Ha Hm]. split; [done|]. intros y.
      rewrite Hm, elem_of_cons. split; [tauto|].
      intros [?|[Hy [->|?]]]; tauto.
    + destruct (IH _ (addToOrderedVector_ascending
                        (getOctantId (mkOctantInfo tid (negb g)) p) l Hl)) as [Ha Hm].
      split; [done|]. intros y.
      rewrite Hm, elem_of_addToOrderedVector, elem_of_cons. split; [|tauto].
      intros [[->|?]|[? ?]]; tauto.
Qed.

Lemma findCellCodimensionNeighs_ascending (id : Z) (index : nat) (codimension : Z)
    (blackList : list Z) (p : VolOctree.t D Tree) (neighs : list Z) :
  findCellCodimensionNeighs id index codimension blackList p = Returned neighs ->
  ascending neighs.
Proof.
  unfold findCellCodimensionNeighs. intros Hrun.
  destruct (Z.ltb (Z.of_nat (getDimension p)) codimension || Z.leb codimension 0).
  { injection Hrun as <-. constructor. }
  destruct (getCellOctant id p) as [octantInfo| | |]; try discriminate.
  cbn [obind] in Hrun. injection Hrun as <-.
  match goal with |- context [foldl ?f [] ?ns] =>
    destruct (filtered_fold p blackList ns [] ltac:(constructor)) as [Ha _] end.
  exact Ha.
Qed.

(** X23.  A call of [findCellCodimensionNeighs(id, index, codimension,
    blackList)] that returns gives a list in strictly ascending order, with
    no id of the black list; the list is empty for a codimension that is
    not in [1, dimension]; otherwise its ids are exactly the ids, not on
    the black list, of the cells on the octants the tree gives as
    neighbours (the null id for an octant without a cell). *)
Theorem findCellCodimensionNeighs_sorted_filtered (id : Z) (index : nat) (codimension : Z)
    (blackList : list Z) (p : VolOctree.t D Tree) (neighs : list Z) :
  findCellCodimensionNeighs id index codimension blackList p = Returned neighs ->
  ascending neighs /\
  (forall x, x ∈ neighs -> x ∉ blackList) /\
  (codimension <= 0 \/ Z.of_nat (getDimension p) < codimension -> neighs = []) /\
  (0 < codimension <= Z.of_nat (getDimension p) ->
   exists octantInfo, getCellOctant id p = Returned octantInfo /\
     forall x, x ∈ neighs <->
       (x ∉ blackList) /\ x ∈ treeNeighbourIds octantInfo index codimension p).
Proof.
  unfold findCellCodimensionNeighs. intros Hrun.
  destruct (Z.ltb_spec (Z.of_nat (getDimension p)) codimension) as [Hgt|Hle]; cbn [orb] in Hrun.
  { injection Hrun as <-. split; [constructor|]. split; [intros x Hx; by apply elem_of_nil in Hx|].
    split; [done|]. lia. }
  destruct (Z.leb_spec codimension 0) as [Hneg|Hpos].
  { injection Hrun as <-. split; [constructor|]. split; [intros x Hx; by apply elem_of_nil in Hx|].
    split; [done|]. lia. }
  destruct (getCellOctant id p) as [octantInfo| | |] eqn:Hoct; try discriminate.
  cbn [obind] in Hrun. injection Hrun as <-.
  match goal with |- context [foldl ?f [] ?ns] =>
    destruct (filtered_fold p blackList ns [] ltac:(constructor)) as [Ha Hm] end.
  cbv zeta in Ha, Hm.
  split; [exact Ha|]. split.
  { intros x Hx. apply Hm in Hx as [Hx|[Hx _]]; [by apply elem_of_nil in Hx|done]. }
  split; [lia|]. intros _. exists octantInfo. split; [reflexivity|].
  intros x. rewrite Hm, elem_of_nil. unfold treeNeighbourIds. tauto.
Qed.

Variable _findCellFaceNeighs : Z -> nat -> list Z -> VolOctree.t D Tree -> list Z.

Lemma face_fold (id : Z) (blackList : list Z) (p : VolOctree.t D Tree) (faces : list nat)
    (l : list Z) :
  ascending l ->
  let r := foldl (fun neighs face =>
                    foldl (fun neighs neigh => addToOrderedVector neigh neighs)
                          neighs (_findCellFaceNeighs id face blackList p)) l faces in
  ascending r /\
  forall y, y ∈ r <->
    y ∈ l \/ exists face, face ∈ faces /\ y ∈ _findCellFaceNeighs id face blackList p.
Proof.
  revert l. induction faces as [|f faces IH]; intros l Hl; simpl.
  - split; [done|]. intros y. split; [tauto|]. intros [?|(? & Hf & _)]; [done|].
    by apply elem_of_nil in Hf.
  - destruct (foldl_addToOrderedVector (_findCellFaceNeighs id f blackList p) l Hl) as [Ha Hm].
    destruct (IH _ Ha) as [Ha' Hm']. split; [done|]. intros y.
    rewrite Hm', Hm. split.
    + intros [[?|?]|(face & Hf & Hy)]; [tauto| |].
      * right. exists f. split; [by left|done].
      * right. exists face. split; [by right|done].
    + intros [?|(face & Hf & Hy)]; [tauto|].
      apply elem_of_cons in Hf as [->|Hf]; [tauto|].
      right. exists face. tauto.
Qed.

(** X24.  A call of [_findCellEdgeNeighs(id, edge, blackList)] that returns:
    on a three-dimensional patch the result is, in strictly ascending
    order, the union of the codimension-2 neighbours of the edge and of the
    face neighbours of the two faces that [m_octantLocalFacesOnEdge] lists
    for the edge; on any other patch the call returns only when the
    assertions are compiled out, and then the result is empty. *)
Theorem findCellEdgeNeighs_union (ndebug : bool) (id : Z) (edge : nat) (blackList : list Z)
    (p : VolOctree.t D Tree) (neighs : list Z) :
  _findCellEdgeNeighs _findCellFaceNeighs ndebug id edge blackList p = Returned neighs ->
  if isThreeDimensional p then
    exists edgeNeighs faces,
      findCellCodimensionNeighs id edge 2 blackList p = Returned edgeNeighs /\
      octantLocalFacesOnEdge 3 !! edge = Some faces /\
      ascending neighs /\
      forall x, x ∈ neighs <->
        x ∈ edgeNeighs \/
        exists face, face ∈ faces /\ x ∈ _findCellFaceNeighs id face blackList p
  else ndebug = true /\ neighs = [].
Proof.
  unfold _findCellEdgeNeighs. intros Hrun.
  destruct (isThreeDimensional p) eqn:H3; cbn [negb] in Hrun.
  - assert (Hdim : getDimension p = 3%nat) by (by apply Nat.eqb_eq).
    rewrite Hdim in Hrun. change (Z.of_nat 3 - 1) with 2 in Hrun.
    destruct (findCellCodimensionNeighs id edge 2 blackList p) as [edgeNeighs| | |] eqn:He;
      try discriminate.
    cbn [obind] in Hrun.
    destruct (octantLocalFacesOnEdge 3 !! edge) as [faces|] eqn:Hf; [|discriminate].
    cbn [or_undefined obind] in Hrun. injection Hrun as <-.
    exists edgeNeighs, faces. split; [done|]. split; [done|].
    pose proof (findCellCodimensionNeighs_ascending _ _ _ _ _ _ He) as Ha.
    exact (face_fold id blackList p faces edgeNeighs Ha).
  - destruct ndebug; [|discriminate]. by injection Hrun as <-.
Qed.

(** X25.  A call of [_findCellVertexNeighs(id, vertex, blackList)] that
    returns gives, in strictly ascending order, the union of the neighbours
    of codimension [dimension] of the vertex and, in 3-D, of the edge
    neighbours of the edges of the vertex, in 2-D, of the face neighbours of
    the faces of the vertex. *)
Theorem findCellVertexNeighs_union (ndebug : bool) (id : Z) (vertex : nat) (blackList : list Z)
    (p : VolOctree.t D Tree) (neighs : list Z) :
  _findCellVertexNeighs _findCellFaceNeighs ndebug id vertex blackList p = Returned neighs ->
  ascending neighs /\
  exists vertexNeighs,
    findCellCodimensionNeighs id vertex (Z.of_nat (getDimension p)) blackList p
    = Returned vertexNeighs /\
    if isThreeDimensional p then
      exists edges,
        octantLocalEdgesOnVertex 3 !! vertex = Some edges /\
        forall x, x ∈ neighs <->
          x ∈ vertexNeighs \/
          exists edge edgeNeighs, edge ∈ edges /\
            _findCellEdgeNeighs _findCellFaceNeighs ndebug id edge blackList p
            = Returned edgeNeighs /\ x ∈ edgeNeighs
    else
      exists faces,
        octantLocalFacesOnVertex (getDimension p) !! vertex = Some faces /\
        forall x, x ∈ neighs <->
          x ∈ vertexNeighs \/
          exists face, face ∈ faces /\ x ∈ _findCellFaceNeighs id face blackList p.
Proof.
  unfold _findCellVertexNeighs. intros Hrun.
  destruct (findCellCodimensionNeighs id vertex (Z.of_nat (getDimension p)) blackList p)
    as [vertexNeighs| | |] eqn:Hv; try discriminate.
  cbn [obind] in Hrun.
  pose proof (findCellCodimensionNeighs_ascending _ _ _ _ _ _ Hv) as Ha.
  destruct (isThreeDimensional p) eqn:H3.
  - assert (Hdim : getDimension p = 3%nat) by (by apply Nat.eqb_eq).
    rewrite Hdim in Hrun.
    destruct (octantLocalEdgesOnVertex 3 !! vertex) as [edges|] eqn:He; [|discriminate].
    cbn [or_undefined obind] in Hrun.
    destruct (edge_fold _ _ _ _ Hrun Ha) as [Ha' Hm].
    split; [exact Ha'|]. exists vertexNeighs. split; [reflexivity|].
    exists edges. split; [reflexivity|]. exact Hm.
  - destruct (octantLocalFacesOnVertex (getDimension p) !! vertex) as [faces|] eqn:Hf;
      [|discriminate].
    cbn [or_undefined obind] in Hrun. injection Hrun as <-.
    destruct (face_fold id blackList p faces vertexNeighs Ha) as [Ha' Hm].
    split; [exact Ha'|]. exists vertexNeighs. split; [reflexivity|].
    exists faces. split; [reflexivity|]. exact Hm.
Qed.
End NeighbourSearch.

Section NeighbourSearchWitness.
Import VolOctree VolOctreeQueries Scripted Scenario.

(** A 3-D patch of one cell on the root octant, and face neighbours read
    from the adjacencies of the cell. *)
Definition cubePatch : VolOctree.t Q Tree :=
  VolOctree.mk 3%nat
    (Kernel.mk {[0 := Cell.mk 0 VOXEL [0; 1; 2; 3; 4; 5; 6; 7] true
                              [[]; []; []; []; []; []] [[5]; []; []; []; [3; 5]; []]]}
               ∅ ∅ 1 8)
    (mkTree 1 20 ∅ ∅ (mkSnapshot [0] [] 0 [] [] [] [[[]; []; []; []; []; []]] [] []) [])
    OP_INITIALIZATION {[0 := 0]} ∅ {[0 := 0]} ∅ [] [] [].
Definition adjacentCells (id : Z) (face : nat) (blackList : list Z) (p : VolOctree.t Q Tree)
  : list Z :=
  match Kernel.m_cells (m_kernel p) !! id with
  | Some cell =>
      List.filter (fun x => negb (bool_decide (x ∈ blackList)))
                  (default [] (Cell.m_adjacencies cell !! face))
  | None => []
  end.

Lemma findCellCodimensionNeighs_sorted_filtered_witness :
  findCellCodimensionNeighs 1 1 1 [3] gridPatch = Returned [2] /\
  ascending [2] /\
  (forall x, x ∈ [2] -> x ∉ [3]) /\
  (1 <= 0 \/ Z.of_nat (getDimension gridPatch) < 1 -> [2] = []) /\
  (0 < 1 <= Z.of_nat (getDimension gridPatch) ->
   exists octantInfo, getCellOctant 1 gridPatch = Returned octantInfo /\
     forall x, x ∈ [2] <->
       (x ∉ [3]) /\ x ∈ treeNeighbourIds octantInfo 1 1 gridPatch).
Proof.
  assert (Hrun : findCellCodimensionNeighs 1 1 1 [3] gridPatch = Returned [2])
    by (vm_compute; reflexivity).
  split; [exact Hrun|].
  exact (findCellCodimensionNeighs_sorted_filtered 1 1 1 [3] gridPatch [2] Hrun).
Defined.

Lemma findCellEdgeNeighs_union_witness :
  _findCellEdgeNeighs adjacentCells false 0 0 [] cubePatch = Returned [3; 5] /\
  if isThreeDimensional cubePatch then
    exists edgeNeighs faces,
      findCellCodimensionNeighs 0 0 2 [] cubePatch = Returned edgeNeighs /\
      octantLocalFacesOnEdge 3 !! 0%nat = Some faces /\
      ascending [3; 5] /\
      forall x, x ∈ [3; 5] <->
        x ∈ edgeNeighs \/
        exists face, face ∈ faces /\ x ∈ adjacentCells 0 face [] cubePatch
  else false = true /\ [3; 5] = [].
Proof.
  assert (Hrun : _findCellEdgeNeighs adjacentCells false 0 0 [] cubePatch = Returned [3; 5])
    by (vm_compute; reflexivity).
  split; [exact Hrun|].
  exact (findCellEdgeNeighs_union adjacentCells false 0 0 [] cubePatch [3; 5] Hrun).
Defined.

Lemma findCellVertexNeighs_union_witness :
  _findCellVertexNeighs adjacentCells false 1 3 [] gridPatch = Returned [2; 3] /\
  ascending [2; 3] /\
  exists vertexNeighs,
    findCellCodimensionNeighs 1 3 (Z.of_nat (getDimension gridPatch)) [] gridPatch
    = Returned vertexNeighs /\
    if isThreeDimensional gridPatch then
      exists edges,
        octantLocalEdgesOnVertex 3 !! 3%nat = Some edges /\
        forall x, x ∈ [2; 3] <->
          x ∈ vertexNeighs \/
          exists edge edgeNeighs, edge ∈ edges /\
            _findCellEdgeNeighs adjacentCells false 1 edge [] gridPatch
            = Returned edgeNeighs /\ x ∈ edgeNeighs
    else
      exists faces,
        octantLocalFacesOnVertex (getDimension gridPatch) !! 3%nat = Some faces /\
        forall x, x ∈ [2; 3] <->
          x ∈ vertexNeighs \/
          exists face, face ∈ faces /\ x ∈ adjacentCells 1 face [] gridPatch.
Proof.
  assert (Hrun : _findCellVertexNeighs adjacentCells false 1 3 [] gridPatch = Returned [2; 3])
    by (vm_compute; reflexivity).
  split; [exact Hrun|].
  exact (findCellVertexNeighs_union adjacentCells false 1 3 [] gridPatch [2; 3] Hrun).
Defined.
End NeighbourSearchWitness.

Section UntrackedSync.
Import VolOctree.
Context {D Tree : Type} `{Scalar D} `{ScalarPow D} `{Pablo D Tree} `{PatchKernel D}.

Lemma syncOctant_untracked (importAll : bool) (op : TreeOperation) (nOctants : Z)
    (p : VolOctree.t D Tree) (treeId : Z) (s : SyncLists) (r : Z * SyncLists) :
  syncOctant false importAll op nOctants p treeId s = Returned r ->
  sl_adaptionData r.2 = sl_adaptionData s.
Proof.
  unfold syncOctant. intros Hrun.
  destruct (if negb importAll then getMapping (m_tree p) treeId else ([], [], []))
    as [[octantMap ghostFlag] octantRank].
  apply obind_Returned in Hrun as (ty & _ & Hrun).
  destruct (decide (ty = TYPE_NONE)).
  { apply obind_Returned in Hrun as (u & _ & Hrun). by injection Hrun as <-. }
  destruct (decide (ty = TYPE_RENUMBERING)).
  { apply obind_Returned in Hrun as (a & _ & Hrun).
    apply obind_Returned in Hrun as (b & _ & Hrun).
    apply obind_Returned in Hrun as (u & _ & Hrun). by injection Hrun as <-. }
  destruct (Z.ltb _ _); [discriminate|].
  apply obind_Returned in Hrun as (a & _ & Hrun).
  cbn [obind] in Hrun. by injection Hrun as <-.
Qed.

Lemma syncOctants_untracked (fuel : nat) (importAll : bool) (op : TreeOperation) (nOctants : Z)
    (p : VolOctree.t D Tree) (treeId : Z) (s s' : SyncLists) :
  syncOctants fuel false importAll op nOctants p treeId s = Returned s' ->
  sl_adaptionData s' = sl_adaptionData s.
Proof.
  revert treeId s. induction fuel as [|fuel IH]; intros treeId s; simpl.
  - destruct (Z.leb nOctants treeId); [|discriminate]. by intros [= <-].
  - destruct (Z.leb nOctants treeId); [by intros [= <-]|].
    intros Hrun. apply obind_Returned in Hrun as (r & Hstep & Hrun).
    rewrite (IH _ _ Hrun). by eapply syncOctant_untracked.
Qed.

(** X27.  [sync(false)] and [_updateAdaption(false)], when they return,
    return no adaption event. *)
Theorem sync_untracked_no_events (p p' : VolOctree.t D Tree) (events : list Info) :
  sync false p = Returned (p', events) \/ _updateAdaption false p = Returned (p', events) ->
  events = [].
Proof.
  assert (Hsync : forall q, sync false q = Returned (p', events) -> events = []).
  { intros q. unfold sync.
    destruct (bool_decide _ && negb _); [discriminate|].
    intros Hrun. apply obind_Returned in Hrun as (s & Hloop & Hrun).
    apply syncOctants_untracked in Hloop. simpl in Hloop.
    apply obind_Returned in Hrun as (q1 & _ & Hrun).
    apply obind_Returned in Hrun as (r & Hdel & Hrun).
    assert (Hr : r.1.2 = []).
    { destruct (_ ++ _) in Hdel.
      - injection Hdel as <-. exact Hloop.
      - cbn [obind] in Hdel. apply obind_Returned in Hdel as (dd & _ & Hdel).
        injection Hdel as <-. exact Hloop. }
    destruct r as [[q2 data] stitch]. simpl in Hr. subst data.
    apply obind_Returned in Hrun as ([q3 created] & _ & Hrun).
    cbn [obind] in Hrun. by injection Hrun as _ <-. }
  intros [Hrun|Hrun]; [by eapply Hsync|].
  unfold _updateAdaption in Hrun.
  destruct (adapt _ _) as [updated tree].
  destruct (negb updated); [by injection Hrun as _ <-|].
  by eapply Hsync.
Qed.
End UntrackedSync.

Section UntrackedSyncWitness.
Import VolOctree Scripted Scenario.

(** The root cell after its refinement, synchronised without tracking. *)
Lemma sync_untracked_no_events_witness :
  exists p' events,
    (sync false adaptedRootPatch = Returned (p', events)
     \/ _updateAdaption false adaptedRootPatch = Returned (p', events)) /\
    events = [].
Proof.
  assert (Hrun : exists p' events, sync false adaptedRootPatch = Returned (p', events)).
  { do 2 eexists. vm_compute. reflexivity. }
  destruct Hrun as (p' & events & Hrun).
  exists p', events. split; [left; exact Hrun|].
  exact (sync_untracked_no_events adaptedRootPatch p' events (or_introl Hrun)).
Defined.
End UntrackedSyncWitness.

Section InitialImport.
Import VolOctree.
Context {D Tree : Type} `{Scalar D} `{ScalarPow D} `{Pablo D Tree} `{PatchKernel D}.
Local Abbreviation patch := (VolOctree.t D Tree).

(** The last loop of [resetCellOctantMaps] for one added octant. *)
Definition associateAddedOctant (p : patch) (octantInfo : OctantInfo) : patch :=
  let insert_new (k v : Z) (m : gmap Z Z) : gmap Z Z :=
    match m !! k with Some _ => m | None => <[k := v]> m end in
  let '(cellId, kernel) := Kernel.generateCellId (m_kernel p) in
  let p := set_kernel kernel p in
  if oi_internal octantInfo
  then set_maps (insert_new cellId (oi_id octantInfo) (m_cellToOctant p))
                (m_cellToGhost p)
                (insert_new (oi_id octantInfo) cellId (m_octantToCell p))
                (m_ghostToCell p) p
  else set_maps (m_cellToOctant p)
                (insert_new cellId (oi_id octantInfo) (m_cellToGhost p))
                (m_octantToCell p)
                (insert_new (oi_id octantInfo) cellId (m_ghostToCell p)) p.

Lemma resetCellOctantMaps_added (addedOctants : list OctantInfo) (p : patch) :
  resetCellOctantMaps [] [] addedOctants p
  = Returned (foldl associateAddedOctant
                    (set_maps (m_cellToOctant p) ∅ (m_octantToCell p) ∅ p) addedOctants).
Proof. reflexivity. Qed.

(** The maps after associating the octants [k, k + m) to new cells. *)
Lemma associate_range (m : nat) (k : Z) (p : patch) :
  (forall i, k <= i -> m_octantToCell p !! i = None) ->
  (forall c, Kernel.m_nextCellId (m_kernel p) <= c -> m_cellToOctant p !! c = None) ->
  let first := Kernel.m_nextCellId (m_kernel p) in
  let p' := foldl associateAddedOctant p
                  (map (fun i => mkOctantInfo i true) (seqZ k (Z.of_nat m))) in
  (forall i, m_octantToCell p' !! i
             = if decide (k <= i < k + Z.of_nat m) then Some (first + (i - k))
               else m_octantToCell p !! i) /\
  (forall c, m_cellToOctant p' !! c
             = if decide (first <= c < first + Z.of_nat m) then Some (k + (c - first))
               else m_cellToOctant p !! c) /\
  m_cellToGhost p' = m_cellToGhost p /\ m_ghostToCell p' = m_ghostToCell p /\
  Kernel.m_nextCellId (m_kernel p') = first + Z.of_nat m /\
  Kernel.m_cells (m_kernel p') = Kernel.m_cells (m_kernel p) /\
  Kernel.m_vertices (m_kernel p') = Kernel.m_vertices (m_kernel p) /\
  Kernel.m_interfaces (m_kernel p') = Kernel.m_interfaces (m_kernel p) /\
  Kernel.m_nextVertexId (m_kernel p') = Kernel.m_nextVertexId (m_kernel p) /\
  m_tree p' = m_tree p /\ m_dimension p' = m_dimension p.
Proof.
  revert k p. induction m as [|m IH]; intros k p Ho Hc first p'.
  - subst p'. simpl. split_and!; try done.
    + intros i. destruct (decide _); [lia|done].
    + intros c. destruct (decide _); [lia|done].
    + subst first. lia.
  - subst p'. rewrite Nat2Z.inj_succ, seqZ_cons by lia. simpl.
    pose proof (Hc first ltac:(subst first; lia)) as Hfresh. subst first.
    set (first := Kernel.m_nextCellId (m_kernel p)) in *.
    replace (Z.pred (Z.succ (Z.of_nat m))) with (Z.of_nat m) by lia.
    set (p1 := associateAddedOctant p (mkOctantInfo k true)).
    assert (Ho1 : forall i, m_octantToCell p1 !! i
                    = if decide (i = k) then Some first else m_octantToCell p !! i).
    { intros i. subst p1. unfold associateAddedOctant. simpl.
      fold first. rewrite (Ho k) by lia.
      simpl. destruct (decide (i = k)) as [->|Hne].
      - by rewrite lookup_insert_eq.
      - by rewrite lookup_insert_ne. }
    assert (Hc1 : forall c, m_cellToOctant p1 !! c
                    = if decide (c = first) then Some k else m_cellToOctant p !! c).
    { intros c. subst p1. unfold associateAddedOctant. simpl.
      fold first. rewrite Hfresh.
      simpl. destruct (decide (c = first)) as [->|Hne].
      - by rewrite lookup_insert_eq.
      - by rewrite lookup_insert_ne. }
    assert (Hrest : m_cellToGhost p1 = m_cellToGhost p /\ m_ghostToCell p1 = m_ghostToCell p /\
                    Kernel.m_nextCellId (m_kernel p1) = first + 1 /\
                    Kernel.m_cells (m_kernel p1) = Kernel.m_cells (m_kernel p) /\
                    Kernel.m_vertices (m_kernel p1) = Kernel.m_vertices (m_kernel p) /\
                    Kernel.m_interfaces (m_kernel p1) = Kernel.m_interfaces (m_kernel p) /\
                    Kernel.m_nextVertexId (m_kernel p1) = Kernel.m_nextVertexId (m_kernel p) /\
                    m_tree p1 = m_tree p /\ m_dimension p1 = m_dimension p).
    { subst p1. unfold associateAddedOctant. simpl. done. }
    destruct Hrest as (Hg1 & Hg2 & Hn & Hk1 & Hk2 & Hk3 & Hk4 & Ht & Hd).
    clearbody p1.
    destruct (IH (Z.succ k) p1) as (Ho' & Hc' & Hg1' & Hg2' & Hn' & Hk1' & Hk2' & Hk3' & Hk4' & Ht' & Hd').
    { intros i Hi. rewrite Ho1. destruct (decide (i = k)); [lia|]. apply Ho. lia. }
    { intros c Hle. rewrite Hc1. destruct (decide (c = first)); [lia|]. apply Hc.
      fold first. lia. }
    rewrite Hn in *.
    split_and!; try congruence; try lia.
    + intros i. rewrite Ho', Ho1.
      destruct (decide (Z.succ k <= i < Z.succ k + Z.of_nat m)).
      * rewrite decide_True by lia. f_equal. lia.
      * destruct (decide (i = k)) as [->|].
        -- rewrite decide_True by lia. f_equal. lia.
        -- rewrite decide_False by lia. done.
    + intros c. rewrite Hc', Hc1.
      destruct (decide (first + 1 <= c < first + 1 + Z.of_nat m)).
      * rewrite decide_True by lia. f_equal. lia.
      * destruct (decide (c = first)) as [->|].
        -- rewrite decide_True by lia. f_equal. lia.
        -- rewrite decide_False by lia. done.
Qed.

(** The first loop of [sync] on an empty patch: one iteration takes all
    the octants of the tree. *)
Lemma syncOctants_importAll (trackChanges : bool) (op : TreeOperation) (p : patch) (n : Z)
    (s : SyncLists) :
  0 < n ->
  syncOctants (Z.to_nat n) trackChanges true op n p 0 (mkSyncLists [] [] [] [] []) = Returned s ->
  s = mkSyncLists [] (map (fun i => mkOctantInfo i true) (seqZ 0 n)) [] []
        (if trackChanges
         then [mkInfo TYPE_CREATION ENTITY_CELL currentRank [] (seqZ 0 n)]
         else []).
Proof.
  intros Hn. destruct (Z.to_nat n) as [|fuel] eqn:Hfuel; [lia|].
  cbn [syncOctants]. destruct (Z.leb_spec n 0); [lia|].
  unfold syncOctant. cbn [negb adaptionTypeOf obind].
  destruct (decide (TYPE_CREATION = TYPE_NONE)); [discriminate|].
  destruct (decide (TYPE_CREATION = TYPE_RENUMBERING)); [discriminate|].
  rewrite Z.sub_0_r, Z.add_0_l.
  destruct (Z.ltb 2147483647 n); [discriminate|].
  cbn [length seq ofold obind sl_deletedOctants sl_unmappedOctants sl_addedOctants
       sl_renumberedOctants sl_adaptionData app].
  destruct trackChanges.
  - unfold previousCellIds. cbn [length seq ofold obind createInfo cachedType findInfo].
    cbn [alter list_alter app info_type info_entity info_rank info_previous info_current
         fst snd].
    destruct fuel; cbn [syncOctants fst snd]; destruct (Z.leb_spec n n); try lia;
      by intros [= <-].
  - cbn [obind]. destruct fuel; cbn [syncOctants fst snd]; destruct (Z.leb_spec n n); try lia;
      by intros [= <-].
Qed.

Lemma updateAdjacencies_maps (cellIds : list Z) (reset : bool) (p p' : patch) :
  updateAdjacencies cellIds reset p = Returned p' ->
  exists k, p' = set_kernel k p.
Proof.
  unfold updateAdjacencies. intros Hrun.
  apply obind_Returned in Hrun as (cells & _ & Hrun). cbv zeta in Hrun.
  destruct (Z.eqb _ 0); [discriminate|].
  apply obind_Returned in Hrun as (leveled & _ & Hrun).
  apply obind_Returned in Hrun as (s & _ & Hrun).
  injection Hrun as <-. eexists. by destruct p.
Qed.

Lemma importCells_maps (l : list OctantInfo) (stitch : gmap Z Z) (p p' : patch) (created : list Z) :
  importCells l stitch p = Returned (p', created) ->
  (exists k, p' = set_kernel k p) /\ created = map (fun o => getOctantId o p) l.
Proof.
  unfold importCells. intros Hrun.
  destruct (foldl _ _ l) as [kernel stitch'] in Hrun.
  apply obind_Returned in Hrun as ([kernel' created'] & Hcells & Hrun).
  apply obind_Returned in Hrun as (p1 & Hadj & Hrun).
  apply obind_Returned in Hrun as (k2 & _ & Hrun).
  injection Hrun as <- <-.
  apply updateAdjacencies_maps in Hadj as (k1 & ->).
  split; [eexists; by destruct p|].
  clear -Hcells.
  match type of Hcells with ofold ?F _ _ = _ =>
    assert (Hgen : forall acc r, ofold F acc l = Returned r ->
                                 r.2 = acc.2 ++ map (fun o => getOctantId o p) l) end.
  { clear Hcells. induction l as [|o l IH]; intros [k c] r Hr; simpl in Hr.
    - injection Hr as <-. simpl. by rewrite app_nil_r.
    - apply obind_Returned in Hr as (s1 & Hs1 & Hr).
      apply obind_Returned in Hs1 as (conn & _ & Hs1). injection Hs1 as <-.
      rewrite (IH _ _ Hr). simpl. by rewrite <- app_assoc. }
  exact (Hgen _ _ Hcells).
Qed.

Lemma mapTreeIds (o2c : gmap Z Z) (f : Z -> Z) (ids acc r : list Z) :
  (forall i, i ∈ ids -> o2c !! i = Some (f i)) ->
  ofold (fun ids treeId =>
           obind (or_out_of_range (o2c !! treeId)) (fun cellId => Returned (ids ++ [cellId])))
        acc ids = Returned r ->
  r = acc ++ map f ids.
Proof.
  revert acc. induction ids as [|i ids IH]; intros acc Hf Hr; simpl in Hr.
  - injection Hr as <-. by rewrite app_nil_r.
  - rewrite (Hf i) in Hr by (by left). cbn [or_out_of_range obind] in Hr.
    rewrite (IH _ (fun j Hj => Hf j (proj2 (elem_of_cons _ _ _) (or_intror Hj))) Hr).
    simpl. by rewrite <- app_assoc.
Qed.

(** X28.  [sync] on an empty patch whose tree has [n > 0] octants, when it
    returns: the octant [i] is associated with the cell [first + i], [first]
    being the next id of the cell id generator, in both maps and for these
    [n] pairs only; the ghost maps are empty; with tracking the first event
    is the creation of these [n] cells, in the order of the octants, with
    no previous cell; without tracking there is no event. *)
Theorem sync_initial_import (trackChanges : bool) (p p' : patch) (events : list Info) :
  Kernel.m_cells (m_kernel p) = ∅ ->
  m_cellToOctant p = ∅ ->
  m_octantToCell p = ∅ ->
  let n := getNumOctants (m_tree p) in
  let first := Kernel.m_nextCellId (m_kernel p) in
  0 < n ->
  sync trackChanges p = Returned (p', events) ->
  (forall i, m_octantToCell p' !! i = if decide (0 <= i < n) then Some (first + i) else None) /\
  (forall c, m_cellToOctant p' !! c
             = if decide (first <= c < first + n) then Some (c - first) else None) /\
  m_cellToGhost p' = ∅ /\ m_ghostToCell p' = ∅ /\
  if trackChanges then
    exists event,
      events !! 0%nat = Some event /\
      info_type event = TYPE_CREATION /\ info_entity event = ENTITY_CELL /\
      info_previous event = [] /\
      info_current event = map (fun i => first + i) (seqZ 0 n)
  else events = [].
Proof.
  intros Hcells Hc2o Ho2c n first Hn. unfold sync.
  assert (Hcount : getCellCount p = 0).
  { unfold getCellCount, Kernel.getCellCount. rewrite Hcells. reflexivity. }
  rewrite Hcount. change (0 =? 0) with true. rewrite andb_false_r.
  rewrite Ho2c, map_size_empty. cbn [replicate].
  fold n. intros Hrun.
  apply obind_Returned in Hrun as (s & Hloop & Hrun).
  apply syncOctants_importAll in Hloop; [|done]. subst s.
  cbn [sl_deletedOctants sl_unmappedOctants sl_addedOctants sl_renumberedOctants
       sl_adaptionData seq flat_map app] in Hrun.
  rewrite resetCellOctantMaps_added in Hrun. cbn [obind] in Hrun.
  set (p0 := set_maps (m_cellToOctant p) ∅ (m_octantToCell p) ∅ p) in *.
  assert (Hn' : n = Z.of_nat (Z.to_nat n)) by lia.
  destruct (associate_range (Z.to_nat n) 0 p0) as (Ho & Hc & Hg1 & Hg2 & _).
  { intros i _. subst p0. simpl. by rewrite Ho2c. }
  { intros c _. subst p0. simpl. by rewrite Hc2o. }
  rewrite <- Hn' in *.
  set (p1 := foldl associateAddedOctant p0 (map (fun i => mkOctantInfo i true) (seqZ 0 n))) in *.
  change (Kernel.m_nextCellId (m_kernel p0)) with first in *.
  assert (Ho1 : forall i, m_octantToCell p1 !! i
                  = if decide (0 <= i < n) then Some (first + i) else None).
  { intros i. rewrite Ho. subst p0. simpl. rewrite Ho2c, lookup_empty.
    destruct (decide _); [f_equal; lia|done]. }
  assert (Hc1 : forall c, m_cellToOctant p1 !! c
                  = if decide (first <= c < first + n) then Some (c - first) else None).
  { intros c. rewrite Hc. subst p0. simpl. rewrite Hc2o, lookup_empty.
    destruct (decide _); [f_equal; lia|done]. }
  clear Ho Hc. clearbody p1.
  assert (Hadded : map (fun i => mkOctantInfo i true) (seqZ 0 n) <> []).
  { rewrite Hn'. destruct (Z.to_nat n) eqn:E; [lia|].
    rewrite Nat2Z.inj_succ, seqZ_cons by lia. discriminate. }
  destruct (map (fun i => mkOctantInfo i true) (seqZ 0 n)) as [|o added] eqn:Hadd; [done|].
  apply obind_Returned in Hrun as ([p2 created] & Himp & Hrun).
  apply importCells_maps in Himp as ((k2 & ->) & Hcreated).
  destruct trackChanges.
  - apply obind_Returned in Hrun as (data & Htrack & Hrun). injection Hrun as <- <-.
    split; [exact Ho1|]. split; [exact Hc1|].
    split; [exact Hg1|]. split; [exact Hg2|].
    apply obind_Returned in Htrack as (data0 & Hcomplete & Htrack).
    unfold completeCellInfo, mapAddedCellIds in Hcomplete.
    cbn [ofold obind info_entity info_current] in Hcomplete.
    rewrite bool_decide_eq_true_2 in Hcomplete by done. cbn [negb] in Hcomplete.
    apply obind_Returned in Hcomplete as (acc & Hacc & Hcomplete).
    injection Hcomplete as <-.
    apply obind_Returned in Hacc as (info & Hinfo & Hacc). injection Hacc as <-.
    apply obind_Returned in Hinfo as (current & Hcurrent & Hinfo). injection Hinfo as <-.
    apply (mapTreeIds _ (fun i => first + i)) in Hcurrent.
    2:{ intros i Hi. apply elem_of_seqZ in Hi. simpl. rewrite Ho1.
        by rewrite decide_True by lia. }
    simpl in Hcurrent. subst current.
    destruct created as [|c created].
    + injection Htrack as <-. eexists. split; [reflexivity|]. done.
    + unfold createInfo in Htrack. cbn [cachedType findInfo info_type info_entity] in Htrack.
      rewrite (bool_decide_eq_false_2 (ENTITY_CELL = ENTITY_INTERFACE)) in Htrack by discriminate.
      rewrite andb_false_r in Htrack. cbn [andb] in Htrack.
      apply obind_Returned in Htrack as (ci & _ & Htrack).
      injection Htrack as <-. eexists. split; [reflexivity|]. done.
  - cbn [obind] in Hrun. injection Hrun as <- <-.
    split; [exact Ho1|]. split; [exact Hc1|].
    split; [exact Hg1|]. split; [exact Hg2|]. reflexivity.
Qed.
End InitialImport.

Section InitialImportWitness.
Import VolOctree Scripted Scenario.

(** The empty 2-D patch on the tree of four octants of level 1. *)
Definition emptyPatch : VolOctree.t Q Tree :=
  VolOctree.mk 2%nat (Kernel.mk ∅ ∅ ∅ 0 0) (mkTree 1 20 ∅ ∅ refinedSnapshot [])
    OP_INITIALIZATION ∅ ∅ ∅ ∅ [] [] [].

Lemma sync_initial_import_witness :
  exists p' events,
    Kernel.m_cells (m_kernel emptyPatch) = ∅ /\
    m_cellToOctant emptyPatch = ∅ /\
    m_octantToCell emptyPatch = ∅ /\
    let n := getNumOctants (m_tree emptyPatch) in
    let first := Kernel.m_nextCellId (m_kernel emptyPatch) in
    0 < n /\
    sync true emptyPatch = Returned (p', events) /\
    (forall i, m_octantToCell p' !! i = if decide (0 <= i < n) then Some (first + i) else None) /\
    (forall c, m_cellToOctant p' !! c
               = if decide (first <= c < first + n) then Some (c - first) else None) /\
    m_cellToGhost p' = ∅ /\ m_ghostToCell p' = ∅ /\
    exists event,
      events !! 0%nat = Some event /\
      info_type event = TYPE_CREATION /\ info_entity event = ENTITY_CELL /\
      info_previous event = [] /\
      info_current event = map (fun i => first + i) (seqZ 0 n).
Proof.
  assert (Hrun : exists p' events, sync true emptyPatch = Returned (p', events)).
  { do 2 eexists. vm_compute. reflexivity. }
  destruct Hrun as (p' & events & Hrun).
  exists p', events.
  split; [reflexivity|]. split; [reflexivity|]. split; [reflexivity|].
  assert (Hn : 0 < getNumOctants (m_tree emptyPatch)) by (cbn; lia).
  split; [exact Hn|]. split; [exact Hrun|].
  exact (sync_initial_import true emptyPatch p' events eq_refl eq_refl eq_refl Hn Hrun).
Defined.
End InitialImportWitness.

Section DepthZero.
Import VolOctree.
Context {D Tree : Type} `{Scalar D} `{ScalarPow D} `{Pablo D Tree} `{PatchKernel D}.

Lemma updateAdjacencies_depth_zero (cellIds : list Z) (reset : bool) (p p' : VolOctree.t D Tree) :
  getMaxDepth (m_tree p) = 0 ->
  updateAdjacencies cellIds reset p <> Returned p'.
Proof.
  intros Hdepth Hrun. unfold updateAdjacencies in Hrun.
  apply obind_Returned in Hrun as (cells & _ & Hrun). cbv zeta in Hrun.
  change (m_tree (set_kernel _ p)) with (m_tree p) in Hrun.
  rewrite Hdepth in Hrun. discriminate Hrun.
Qed.

Lemma associate_tree (l : list OctantInfo) (p : VolOctree.t D Tree) :
  m_tree (foldl associateAddedOctant p l) = m_tree p.
Proof.
  revert p. induction l as [|o l IH]; intros p; simpl; [reflexivity|].
  rewrite IH. unfold associateAddedOctant. simpl. by destruct (oi_internal o).
Qed.

Lemma importCells_depth_zero (l : list OctantInfo) (stitch : gmap Z Z)
    (p : VolOctree.t D Tree) (r : VolOctree.t D Tree * list Z) :
  getMaxDepth (m_tree p) = 0 ->
  importCells l stitch p <> Returned r.
Proof.
  intros Hdepth Hrun. unfold importCells in Hrun.
  destruct (foldl _ _ l) as [kernel stitch'] in Hrun.
  apply obind_Returned in Hrun as ([kernel' created'] & _ & Hrun).
  apply obind_Returned in Hrun as (p1 & Hadj & _).
  by apply updateAdjacencies_depth_zero in Hadj.
Qed.

(** X29.  On a patch whose tree has the maximum depth 0 (the root octant
    alone), [updateAdjacencies] never returns: it divides the number of
    cells by the depth.  Therefore [sync] on an empty patch never returns
    for such a tree with octants to import. *)
Theorem sync_depth_zero_never_returns (trackChanges : bool) (p : VolOctree.t D Tree) :
  getMaxDepth (m_tree p) = 0 ->
  (forall cellIds reset p', updateAdjacencies cellIds reset p <> Returned p') /\
  (Kernel.m_cells (m_kernel p) = ∅ -> m_octantToCell p = ∅ ->
   0 < getNumOctants (m_tree p) ->
   forall r, sync trackChanges p <> Returned r).
Proof.
  intros Hdepth. split.
  { intros cellIds reset p'. by apply updateAdjacencies_depth_zero. }
  intros Hcells Ho2c Hn [p' events]. unfold sync.
  assert (Hcount : getCellCount p = 0).
  { unfold getCellCount, Kernel.getCellCount. rewrite Hcells. reflexivity. }
  rewrite Hcount. change (0 =? 0) with true. rewrite andb_false_r.
  rewrite Ho2c, map_size_empty. cbn [replicate].
  intros Hrun.
  apply obind_Returned in Hrun as (s & Hloop & Hrun).
  apply syncOctants_importAll in Hloop; [|done]. subst s.
  cbn [sl_deletedOctants sl_unmappedOctants sl_addedOctants sl_renumberedOctants
       sl_adaptionData seq flat_map app] in Hrun.
  rewrite resetCellOctantMaps_added in Hrun. cbn [obind] in Hrun.
  set (n := getNumOctants (m_tree p)) in *.
  set (p0 := set_maps (m_cellToOctant p) ∅ (m_octantToCell p) ∅ p) in *.
  assert (Hadded : map (fun i => mkOctantInfo i true) (seqZ 0 n) <> []).
  { assert (Hn' : n = Z.of_nat (Z.to_nat n)) by lia.
    rewrite Hn'. destruct (Z.to_nat n) eqn:E; [lia|].
    rewrite Nat2Z.inj_succ, seqZ_cons by lia. discriminate. }
  pose proof (associate_tree (map (fun i => mkOctantInfo i true) (seqZ 0 n)) p0) as Htree.
  set (p1 := foldl associateAddedOctant p0 _) in *. clearbody p1.
  destruct (map (fun i => mkOctantInfo i true) (seqZ 0 n)) as [|o added]; [done|].
  apply obind_Returned in Hrun as (r & Himp & _).
  apply importCells_depth_zero in Himp; [done|].
  rewrite Htree. exact Hdepth.
Qed.
End DepthZero.

Section DepthZeroWitness.
Import VolOctree Scripted Scenario.

(** The empty patch on the tree of the root octant alone. *)
Definition unrefinedPatch : VolOctree.t Q Tree :=
  VolOctree.mk 2%nat (Kernel.mk ∅ ∅ ∅ 0 0) (mkTree 1 20 ∅ ∅ rootSnapshot [])
    OP_INITIALIZATION ∅ ∅ ∅ ∅ [] [] [].

Lemma sync_depth_zero_never_returns_witness :
  getMaxDepth (m_tree unrefinedPatch) = 0 /\
  Kernel.m_cells (m_kernel unrefinedPatch) = ∅ /\ m_octantToCell unrefinedPatch = ∅ /\
  0 < getNumOctants (m_tree unrefinedPatch) /\
  sync true unrefinedPatch = Undefined /\
  (forall cellIds reset p', updateAdjacencies cellIds reset unrefinedPatch <> Returned p') /\
  (Kernel.m_cells (m_kernel unrefinedPatch) = ∅ -> m_octantToCell unrefinedPatch = ∅ ->
   0 < getNumOctants (m_tree unrefinedPatch) ->
   forall r, sync true unrefinedPatch <> Returned r).
Proof.
  assert (Hd : getMaxDepth (m_tree unrefinedPatch) = 0) by reflexivity.
  split; [exact Hd|]. split; [reflexivity|]. split; [reflexivity|].
  split; [cbn; lia|]. split; [vm_compute; reflexivity|].
  exact (sync_depth_zero_never_returns true unrefinedPatch Hd).
Defined.
End DepthZeroWitness.

Section SyncNothingPending.
Import VolOctree.
Context {D Tree : Type} `{Scalar D} `{ScalarPow D} `{Pablo D Tree} `{PatchKernel D}.
Local Abbreviation patch := (VolOctree.t D Tree).


End SyncNothingPending.

Section SyncNothingPendingWitness.
Import VolOctree Scripted Scenario.

End SyncNothingPendingWitness.

